(** * LectureChat: the ingestion-to-retrieval pipeline, embedded in Rocq

    A shallow embedding of the server-side JavaScript of the repository:
    [textChunker.js], [embeddingService.js], [pineconeService.js],
    [processingService.js], and the chat, processing and upload routes.

    Conventions of the embedding.
    - JavaScript numbers that can be fractional (times in seconds,
      confidences, similarity scores) are exact rationals [Q]; counters,
      character offsets and list indices are [nat], [N] or [Z].  The
      time strings are embedded a second time in double precision
      ([Double], [Chat64]), where the rounding of IEEE 754 binary64 is
      written out.
    - JavaScript strings are [string] (the ASCII subset).
    - [async] code that talks to an external service (OpenAI, Pinecone,
      Supabase) runs in a small state-and-exception monad: the state holds
      the stores and a log of the calls made, and the answers of the
      services are taken from an oracle that is a parameter of every
      statement. *)

From Stdlib Require Import List String Ascii Bool Arith ZArith NArith QArith Qround Qabs Qpower.
From Stdlib Require Import Sorted Lia Lqa DecimalString DecimalN.
Import ListNotations.

#[local] Set Warnings "-abstract-large-number".

Local Open Scope string_scope.
Local Open Scope list_scope.

(** ** The JavaScript built-ins the code relies on *)

Module JS.

(** [x || 0] on a number: [0] and only [0] is falsy among the rationals. *)
Definition or0 (x : Q) : Q := if Qeq_bool x 0 then 0%Q else x.

(** [a < b] on numbers. *)
Definition Qlt_bool (a b : Q) : bool := negb (Qle_bool b a).

(** White space as [String.prototype.trim] and the regular expression
    class [\s] see it (ASCII part: tab, line feed, vertical tab, form
    feed, carriage return, space). *)
Definition is_space (c : ascii) : bool :=
  let n := nat_of_ascii c in
  ((9 <=? n) && (n <=? 13))%nat || (n =? 32)%nat.

Fixpoint trimStart (s : string) : string :=
  match s with
  | String c s' => if is_space c then trimStart s' else s
  | EmptyString => EmptyString
  end.

Fixpoint rev_string (acc s : string) : string :=
  match s with
  | EmptyString => acc
  | String c s' => rev_string (String c acc) s'
  end.

Definition trimEnd (s : string) : string :=
  rev_string "" (trimStart (rev_string "" s)).

(** [s.trim()] *)
Definition trim (s : string) : string := trimEnd (trimStart s).

(** [hay.indexOf(needle)]: the offset of the first occurrence, [-1] when
    there is none; the empty needle is found at offset [0]. *)
Definition indexOf (hay needle : string) : Z :=
  match String.index 0 needle hay with
  | Some n => Z.of_nat n
  | None => (-1)%Z
  end.

(** [s.split(c)] for a one-character separator. *)
Fixpoint split_char (sep : ascii) (cur s : string) : list string :=
  match s with
  | EmptyString => [rev_string "" cur]
  | String c s' =>
      if Ascii.eqb c sep
      then rev_string "" cur :: split_char sep "" s'
      else split_char sep (String c cur) s'
  end.

Definition split (sep : ascii) (s : string) : list string := split_char sep "" s.

(** [s.split(/\s+/)]: a maximal run of white space separates two pieces;
    a run at either end leaves an empty piece there. *)
Fixpoint split_ws_from (in_run : bool) (cur s : string) : list string :=
  match s with
  | EmptyString => [rev_string "" cur]
  | String c s' =>
      if is_space c
      then if in_run
           then split_ws_from true cur s'
           else rev_string "" cur :: split_ws_from true "" s'
      else split_ws_from false (String c cur) s'
  end.

Definition split_ws (s : string) : list string := split_ws_from false "" s.

(** [xs.join(sep)] *)
Fixpoint join (sep : string) (xs : list string) : string :=
  match xs with
  | [] => ""
  | [x] => x
  | x :: rest => x ++ sep ++ join sep rest
  end.

(** [xs.slice(0, n)] *)
Definition slice0 {A} (n : nat) (xs : list A) : list A := firstn n xs.

Fixpoint repeat_char (c : ascii) (n : nat) : string :=
  match n with
  | O => ""
  | S k => String c (repeat_char c k)
  end.

(** [s.padStart(n, c)] for a one-character filler. *)
Definition padStart (n : nat) (c : ascii) (s : string) : string :=
  repeat_char c (n - String.length s) ++ s.

(** [s.substring(0, n)] *)
Definition substring0 (n : nat) (s : string) : string := String.substring 0 n s.

(** [n.toString()] for an integer. *)
Definition toString (z : Z) : string := NilEmpty.string_of_int (Z.to_int z).

(** [Number(s)] on the strings this code passes to it, which are runs of
    decimal digits: the value of the run ([0] for the empty run).  [None]
    stands for the value of any other string, [NaN] among them. *)
Definition Number (s : string) : option N :=
  option_map N.of_uint (NilEmpty.uint_of_string s).

(** Every character of [s] satisfies [p]. *)
Fixpoint all_chars (p : ascii -> bool) (s : string) : bool :=
  match s with
  | EmptyString => true
  | String c rest => p c && all_chars p rest
  end.

(** Truncation toward zero, and the remainder [a % b] built on it. *)
Definition trunc (q : Q) : Z := if Qle_bool 0 q then Qfloor q else Qceiling q.

Definition rem (a b : Q) : Q := a - b * inject_Z (trunc (a / b)).

End JS.

(** ** textChunker.js *)

Module TextChunker.
Import JS.

(** A segment as [TranscriptionService.parseSegments] builds it. *)
Record Segment := {
  seg_start : Q;
  seg_end : Q;
  seg_text : string;
  seg_confidence : Q
}.

(** What [mapChunkToTimestamps] returns: [{ start, end, confidence }]. *)
Record Timestamps := {
  ts_start : Q;
  ts_end : Q;
  ts_confidence : Q
}.

Definition no_timestamps : Timestamps :=
  {| ts_start := 0; ts_end := 0; ts_confidence := 0 |}.

(** [findApproximateTimestamps]: the loop over the segments, which
    returns at the first segment that holds the position. *)
Fixpoint findSegmentAt (approximateStart currentPos : Z) (segments : list Segment)
  : Timestamps :=
  match segments with
  | [] => no_timestamps
  | segment :: rest =>
      let segmentEnd := (currentPos + Z.of_nat (String.length (seg_text segment)))%Z in
      if ((approximateStart >=? currentPos) && (approximateStart <? segmentEnd))%Z
      then {| ts_start := seg_start segment;
              ts_end := seg_end segment;
              ts_confidence := or0 (seg_confidence segment) * (7 # 10) |}
      else findSegmentAt approximateStart segmentEnd rest
  end.

Definition findApproximateTimestamps (chunk fullText : string) (segments : list Segment)
  : Timestamps :=
  let chunkWords := join " " (slice0 5 (split_ws (trim chunk))) in
  let approximateStart := indexOf fullText chunkWords in
  if (approximateStart =? -1)%Z then no_timestamps
  else findSegmentAt approximateStart 0 segments.

(** The variables of the loop of [mapChunkToTimestamps]. *)
Record Walk := {
  startTime : option Q;
  endTime : option Q;
  totalConfidence : Q;
  segmentCount : nat;
  currentPos : Z
}.

Definition walk_init : Walk :=
  {| startTime := None; endTime := None; totalConfidence := 0;
     segmentCount := 0; currentPos := 0 |}.

(** One turn of [for (const segment of segments)]. *)
Definition walk_step (chunkStart chunkEnd : Z) (w : Walk) (segment : Segment) : Walk :=
  let segmentStart := currentPos w in
  let segmentEnd := (currentPos w + Z.of_nat (String.length (seg_text segment)))%Z in
  if ((segmentEnd >? chunkStart) && (segmentStart <? chunkEnd))%Z
  then {| startTime := match startTime w with
                       | None => Some (seg_start segment)
                       | Some t => Some t
                       end;
          endTime := Some (seg_end segment);
          totalConfidence := totalConfidence w + or0 (seg_confidence segment);
          segmentCount := S (segmentCount w);
          currentPos := segmentEnd |}
  else {| startTime := startTime w;
          endTime := endTime w;
          totalConfidence := totalConfidence w;
          segmentCount := segmentCount w;
          currentPos := segmentEnd |}.

(** [t || 0] where [t] is [null] or a number. *)
Definition null_or0 (t : option Q) : Q :=
  match t with
  | None => 0
  | Some x => or0 x
  end.

(** [mapChunkToTimestamps].  Nothing in the body can throw in this
    embedding, so the [catch] branch, which returns the same default,
    is never taken. *)
Definition mapChunkToTimestamps (chunk fullText : string) (segments : list Segment)
  : Timestamps :=
  match segments with
  | [] => no_timestamps
  | _ :: _ =>
      let chunkStart := indexOf fullText (trim chunk) in
      let chunkEnd := (chunkStart + Z.of_nat (String.length chunk))%Z in
      if (chunkStart =? -1)%Z
      then findApproximateTimestamps chunk fullText segments
      else
        let w := fold_left (walk_step chunkStart chunkEnd) segments walk_init in
        {| ts_start := null_or0 (startTime w);
           ts_end := null_or0 (endTime w);
           ts_confidence :=
             if (0 <? segmentCount w)%nat
             then totalConfidence w / inject_Z (Z.of_nat (segmentCount w))
             else 0 |}
  end.

(** [countWords] *)
Definition countWords (text : string) : nat :=
  match text with
  | EmptyString => 0
  | _ => List.length (filter (fun word => (0 <? String.length word)%nat)
                             (split_ws (trim text)))
  end.

(** A chunk with its metadata, as [chunkText] returns it. *)
Record Chunk := {
  index : nat;
  text : string;
  length : nat;
  wordCount : nat;
  chunk_startTime : Q;
  chunk_endTime : Q;
  confidence : Q
}.

Record Options := {
  opt_chunkSize : nat;
  opt_overlap : nat
}.

Definition defaultChunkSize : nat := 1000.
Definition defaultOverlap : nat := 200.

(** [n || d] on a count. *)
Definition or_default (n d : nat) : nat :=
  match n with
  | O => d
  | _ => n
  end.

Fixpoint mapi_from {A B} (i : nat) (f : A -> nat -> B) (xs : list A) : list B :=
  match xs with
  | [] => []
  | x :: rest => f x i :: mapi_from (S i) f rest
  end.

(** [xs.map((x, index) => ...)] *)
Definition mapi {A B} (f : A -> nat -> B) (xs : list A) : list B := mapi_from 0 f xs.

Section WithSplitter.

(** [RecursiveCharacterTextSplitter.splitText] of the langchain
    package, which is not part of this repository: given the chunk
    size, the overlap and the text, it returns the chunk texts. *)
Variable splitText : nat -> nat -> string -> list string.

(** [chunkText] *)
Definition chunkText (fullText : string) (segments : list Segment) (options : Options)
  : list Chunk :=
  let chunkSize := or_default (opt_chunkSize options) defaultChunkSize in
  let overlap := or_default (opt_overlap options) defaultOverlap in
  let textChunks := splitText chunkSize overlap fullText in
  mapi (fun chunk index =>
          let timestamps := mapChunkToTimestamps chunk fullText segments in
          {| index := index;
             text := trim chunk;
             length := String.length chunk;
             wordCount := countWords chunk;
             chunk_startTime := ts_start timestamps;
             chunk_endTime := ts_end timestamps;
             confidence := ts_confidence timestamps |})
       textChunks.

End WithSplitter.

(** [getOptimalParameters] *)
Definition getOptimalParameters (textLength : nat) : Options :=
  if (textLength <? 2000)%nat then {| opt_chunkSize := 500; opt_overlap := 100 |}
  else if (textLength <? 10000)%nat then {| opt_chunkSize := 1000; opt_overlap := 200 |}
  else if (textLength <? 50000)%nat then {| opt_chunkSize := 1500; opt_overlap := 300 |}
  else {| opt_chunkSize := 2000; opt_overlap := 400 |}.

(** *** The reconciliation as the specification words it

    The segments are laid end to end; each one covers the characters
    from its offset up to, and not including, the offset of the next. *)
Fixpoint with_offsets (pos : Z) (segments : list Segment) : list (Z * Z * Segment) :=
  match segments with
  | [] => []
  | segment :: rest =>
      let segmentEnd := (pos + Z.of_nat (String.length (seg_text segment)))%Z in
      (pos, segmentEnd, segment) :: with_offsets segmentEnd rest
  end.

Definition placed_segment (x : Z * Z * Segment) : Segment := snd x.

(** The placed segment shares a character with the span [[lo, hi)]. *)
Definition overlaps (lo hi : Z) (x : Z * Z * Segment) : bool :=
  let '(segmentStart, segmentEnd, _) := x in
  ((segmentEnd >? lo) && (segmentStart <? hi))%Z.

(** The placed segment holds the character at offset [p]. *)
Definition holds (p : Z) (x : Z * Z * Segment) : bool :=
  let '(segmentStart, segmentEnd, _) := x in
  ((p >=? segmentStart) && (p <? segmentEnd))%Z.

(** The segments that overlap the span, when the first of them begins
    at the offset [pos]. *)
Definition picked (lo hi pos : Z) (segments : list Segment) : list Segment :=
  map placed_segment (filter (overlaps lo hi) (with_offsets pos segments)).

Definition overlapping (lo hi : Z) (segments : list Segment) : list Segment :=
  map placed_segment (filter (overlaps lo hi) (with_offsets 0 segments)).

Definition Qsum (qs : list Q) : Q := fold_right Qplus 0 qs.

Definition average (qs : list Q) : Q :=
  Qsum qs / inject_Z (Z.of_nat (List.length qs)).

(** Exact locate of the trimmed chunk, then the first five words, then
    the default. *)
Definition reconcile_spec (chunk fullText : string) (segments : list Segment)
  : Timestamps :=
  let exact := indexOf fullText (trim chunk) in
  if (exact =? -1)%Z then
    let fuzzy := indexOf fullText (join " " (firstn 5 (split_ws (trim chunk)))) in
    if (fuzzy =? -1)%Z then no_timestamps
    else match find (holds fuzzy) (with_offsets 0 segments) with
         | Some x =>
             {| ts_start := seg_start (placed_segment x);
                ts_end := seg_end (placed_segment x);
                ts_confidence := seg_confidence (placed_segment x) * (7 # 10) |}
         | None => no_timestamps
         end
  else
    match overlapping exact (exact + Z.of_nat (String.length chunk)) segments with
    | [] => no_timestamps
    | first :: others =>
        {| ts_start := seg_start first;
           ts_end := seg_end (last others first);
           ts_confidence := average (map seg_confidence (first :: others)) |}
    end.

Definition ts_equiv (a b : Timestamps) : Prop :=
  ts_start a == ts_start b /\ ts_end a == ts_end b /\
  ts_confidence a == ts_confidence b.

(** *** The order of the chunks in time *)

Definition starts_sorted (segments : list Segment) : Prop :=
  StronglySorted (fun a b => seg_start a <= seg_start b) segments.

Definition well_formed (segments : list Segment) : Prop :=
  Forall (fun s => seg_start s <= seg_end s) segments.

Definition chunk_starts_sorted (chunks : list Chunk) : Prop :=
  StronglySorted (fun a b => chunk_startTime a <= chunk_startTime b) chunks.

Definition chunk_spans_ordered (chunks : list Chunk) : Prop :=
  Forall (fun c => chunk_startTime c <= chunk_endTime c) chunks.

(** The number of characters the segments cover. *)
Definition covered (segments : list Segment) : Z :=
  fold_right (fun s n => (Z.of_nat (String.length (seg_text s)) + n)%Z) 0%Z segments.

Definition locate (fullText chunk : string) : Z := indexOf fullText (trim chunk).

(** Every chunk text is not empty and is found by the exact locate,
    at an offset the segments cover, and the offsets do not decrease
    along the list. *)
Definition located_in_order (fullText : string) (segments : list Segment)
           (textChunks : list string) : Prop :=
  StronglySorted (fun a b => (locate fullText a <= locate fullText b)%Z) textChunks /\
  Forall (fun c => (0 < String.length c)%nat /\
                   (0 <= locate fullText c < covered segments)%Z) textChunks.

End TextChunker.

(** ** The chat route: time strings and citations *)

Module Chat.
Import JS.

(** [n.toString().padStart(2, '0')] *)
Definition pad2 (z : Z) : string := padStart 2 "0" (toString z).

(** [formatTime], in exact arithmetic; [Chat64.formatTime] below is the
    function on doubles. *)
Definition formatTime (seconds : Q) : string :=
  if Qeq_bool seconds 0 || Qlt_bool seconds 0 then "00:00"
  else
    let hours := Qfloor (seconds / 3600) in
    let minutes := Qfloor (rem seconds 3600 / 60) in
    let secs := Qfloor (rem seconds 60) in
    if (hours >? 0)%Z
    then pad2 hours ++ ":" ++ pad2 minutes ++ ":" ++ pad2 secs
    else pad2 minutes ++ ":" ++ pad2 secs.

(** [parseTimeString].  [None] is the [NaN] that arithmetic on a part
    which is not a number yields. *)
Definition parseTimeString (timeString : string) : option N :=
  match map Number (split ":" timeString) with
  | [Some m; Some s] => Some (m * 60 + s)%N
  | [_; _] => None
  | [Some h; Some m; Some s] => Some (h * 3600 + m * 60 + s)%N
  | [_; _; _] => None
  | _ => Some 0%N
  end.

(** *** The regular expression [/\[(\d{1,2}:\d{2}(?::\d{2})?)\]/g] *)

Definition is_digit (c : ascii) : bool :=
  let n := nat_of_ascii c in ((48 <=? n) && (n <=? 57))%nat.

Definition expect (c : ascii) (s : string) : option string :=
  match s with
  | String x rest => if Ascii.eqb x c then Some rest else None
  | EmptyString => None
  end.

(** [\d{2}] *)
Definition digits2 (s : string) : option (string * string) :=
  match s with
  | String a (String b rest) =>
      if is_digit a && is_digit b then Some (String a (String b ""), rest) else None
  | _ => None
  end.

(** [\d{1,2}]: two digits where there are two.  Nothing that follows
    in the expression can match a digit, so giving the second digit
    back never helps. *)
Definition digits12 (s : string) : option (string * string) :=
  match s with
  | String a rest =>
      if is_digit a then
        match rest with
        | String b rest' =>
            if is_digit b then Some (String a (String b ""), rest')
            else Some (String a "", rest)
        | EmptyString => Some (String a "", rest)
        end
      else None
  | EmptyString => None
  end.

Definition obind {A B} (x : option A) (f : A -> option B) : option B :=
  match x with
  | Some a => f a
  | None => None
  end.

(** The optional group [(?::\d{2})?] followed by the closing bracket:
    with the group first, without it otherwise. *)
Definition tail_group (s : string) : option string :=
  match obind (expect ":" s) (fun s1 =>
        obind (digits2 s1) (fun '(xx, s2) =>
        obind (expect "]" s2) (fun _ => Some xx))) with
  | Some xx => Some (":" ++ xx)%string
  | None => obind (expect "]" s) (fun _ => Some "")
  end.

(** The expression matched at the head of [s]: the captured group and
    the length of the whole match. *)
Definition match_timestamp (s : string) : option (string * nat) :=
  obind (expect "[" s) (fun s1 =>
  obind (digits12 s1) (fun '(mm, s2) =>
  obind (expect ":" s2) (fun s3 =>
  obind (digits2 s3) (fun '(ss, s4) =>
  obind (tail_group s4) (fun tail =>
    let timeString := (mm ++ ":" ++ ss ++ tail)%string in
    Some (timeString, 2 + String.length timeString)%nat))))).

(** The loop [while ((match = timestampRegex.exec(response)) !== null)]:
    the captured groups of the successive matches.  [skip] counts the
    characters of the last match that are still to be passed. *)
Fixpoint scan_timestamps (skip : nat) (s : string) : list string :=
  match s with
  | EmptyString => []
  | String _ rest =>
      match skip with
      | S k => scan_timestamps k rest
      | O =>
          match match_timestamp s with
          | Some (timeString, n) => timeString :: scan_timestamps (n - 1) rest
          | None => scan_timestamps 0 rest
          end
      end
  end.

(** A text in which no opening bracket occurs. *)
Definition no_bracket (s : string) : Prop :=
  all_chars (fun c => negb (Ascii.eqb c "[")) s = true.

(** *** Citations *)

(** A context chunk, as [generateRAGResponse] assembles it. *)
Record ContextChunk := {
  ctx_index : nat;
  ctx_text : string;
  ctx_startTime : Q;
  ctx_endTime : Q;
  ctx_confidence : Q;
  ctx_score : Q
}.

(** An element of the [timestamps] array. *)
Record Citation := {
  time : Q;
  timeString : string;
  cite_text : string;
  startTime : Q;
  endTime : Q
}.

Definition contains (seconds : Q) (chunk : ContextChunk) : bool :=
  Qle_bool (ctx_startTime chunk) seconds && Qle_bool seconds (ctx_endTime chunk).

(** The body of the [while] loop for one match. *)
Definition explicit_citation (context : list ContextChunk) (timeString : string)
  : list Citation :=
  match parseTimeString timeString with
  | None => []
  | Some n =>
      let seconds := inject_Z (Z.of_N n) in
      match find (contains seconds) context with
      | Some contextChunk =>
          [ {| time := seconds;
               timeString := timeString;
               cite_text := substring0 100 (ctx_text contextChunk) ++ "...";
               startTime := ctx_startTime contextChunk;
               endTime := ctx_endTime contextChunk |} ]
      | None => []
      end
  end.

Definition explicit_citations (response : string) (context : list ContextChunk)
  : list Citation :=
  flat_map (explicit_citation context) (scan_timestamps 0 response).

(** The body of [context.forEach] in the fallback. *)
Definition fallback_citation (chunk : ContextChunk) : list Citation :=
  let startTime := or0 (ctx_startTime chunk) in
  let endTime := if Qeq_bool (ctx_endTime chunk) 0
                 then startTime + 30 else ctx_endTime chunk in
  if Qle_bool 0 startTime
  then [ {| time := startTime;
            timeString := formatTime startTime;
            cite_text := substring0 100 (ctx_text chunk) ++ "...";
            startTime := startTime;
            endTime := endTime |} ]
  else [].

Definition fallback_citations (context : list ContextChunk) : list Citation :=
  flat_map fallback_citation context.

(** [xs.findIndex(p)] *)
Fixpoint findIndex_from {A} (i : Z) (p : A -> bool) (xs : list A) : Z :=
  match xs with
  | [] => (-1)%Z
  | x :: rest => if p x then i else findIndex_from (i + 1)%Z p rest
  end.

Definition findIndex {A} (p : A -> bool) (xs : list A) : Z := findIndex_from 0 p xs.

Fixpoint filteri_from {A} (i : Z) (p : A -> Z -> bool) (xs : list A) : list A :=
  match xs with
  | [] => []
  | x :: rest =>
      if p x i then x :: filteri_from (i + 1)%Z p rest
      else filteri_from (i + 1)%Z p rest
  end.

(** [Math.abs(t.time - timestamp.time) < 5] *)
Definition within5 (timestamp t : Citation) : bool :=
  Qlt_bool (Qabs (time t - time timestamp)) 5.

(** [timestamps.filter((timestamp, index, self) =>
      index === self.findIndex(t => Math.abs(t.time - timestamp.time) < 5))] *)
Definition uniqueTimestamps (timestamps : list Citation) : list Citation :=
  filteri_from 0
    (fun timestamp index => (index =? findIndex (within5 timestamp) timestamps)%Z)
    timestamps.

(** The same filter told as a recursion over the array, where [seen]
    holds the elements already passed: an element is kept when none
    of them is within five seconds of it. *)
Fixpoint keep_first (seen rest : list Citation) : list Citation :=
  match rest with
  | [] => []
  | x :: rest' =>
      if forallb (fun t => negb (within5 x t)) seen
      then x :: keep_first (seen ++ [x]) rest'
      else keep_first (seen ++ [x]) rest'
  end.

(** [extractTimestamps] *)
Definition extractTimestamps (response : string) (context : list ContextChunk)
  : list Citation :=
  let timestamps := explicit_citations response context in
  let timestamps :=
    if (List.length timestamps =? 0)%nat && (0 <? List.length context)%nat
    then timestamps ++ fallback_citations context
    else timestamps in
  uniqueTimestamps timestamps.

End Chat.

(** ** Double precision *)

Module Double.
Import JS.

(** The exponent of a positive number: [2^e <= q < 2^(e+1)]. *)
Definition exponent (q : Q) : Z :=
  let e0 := (Z.log2 (Qnum q) - Z.log2 (Zpos (Qden q)))%Z in
  if Qlt_bool q (2 ^ e0) then (e0 - 1)%Z else e0.

(** The integer nearest to [x], the even one of two that are as near. *)
Definition nearest_even (x : Q) : Z :=
  let f := Qfloor x in
  match ((x - inject_Z f) ?= (1 # 2))%Q with
  | Lt => f
  | Gt => (f + 1)%Z
  | Eq => if Z.even f then f else (f + 1)%Z
  end.

(** The number with 53 significant bits nearest to a positive [q]. *)
Definition round_pos (q : Q) : Q :=
  let e := exponent q in
  inject_Z (nearest_even (q * 2 ^ (52 - e))) * 2 ^ (e - 52).

(** The double that stands for the exact result [q] of an operation:
    rounding to nearest, ties to even, of IEEE 754 binary64.  Overflow
    and the subnormal numbers are left out. *)
Definition round (q : Q) : Q :=
  let r := Qred q in
  match Qnum r with
  | Z0 => 0
  | Zpos _ => round_pos r
  | Zneg _ => - round_pos (- r)
  end.

(** The double that stands for an integer; it is an integer. *)
Definition round_int (n : Z) : Z := Qfloor (round (inject_Z n)).

End Double.

(** ** The time strings in double precision *)

Module Chat64.
Import JS Double.

(** The candidates of [toString] with [e] zeros at the end: the two
    multiples of [10^e] around [x].  One is chosen when the double that
    stands for it is [x]: the nearer to [x] of the two, the even one
    when they are as near. *)
Fixpoint shortest_from (e : nat) (x : Z) : Z :=
  let p := (10 ^ Z.of_nat e)%Z in
  let lo := (x / p * p)%Z in
  let hi := (lo + p)%Z in
  let is_x v := Qeq_bool (round (inject_Z v)) (inject_Z x) in
  let next := match e with
              | O => x
              | S e' => shortest_from e' x
              end in
  match is_x lo, is_x hi with
  | true, true =>
      if (x - lo <? hi - x)%Z then lo
      else if (hi - x <? x - lo)%Z then hi
      else if Z.even (x / p) then lo else hi
  | true, false => lo
  | false, true => hi
  | false, false => next
  end.

(** The integer whose digits [x.toString()] prints for a double [x]
    that is an integer, [0 <= x < 10^21]: among the decimals that the
    double [x] stands for, the one with the fewest significant digits. *)
Definition shortest (x : Z) : Z := shortest_from 21 x.

(** [x.toString()] for such an [x] *)
Definition toString (x : Z) : string := JS.toString (shortest x).

(** [n.toString().padStart(2, '0')] *)
Definition pad2 (z : Z) : string := padStart 2 "0" (toString z).

(** [formatTime] on a double.  [%] is exact. *)
Definition formatTime (seconds : Q) : string :=
  if Qeq_bool seconds 0 || Qlt_bool seconds 0 then "00:00"
  else
    let hours := Qfloor (round (seconds / 3600)) in
    let minutes := Qfloor (round (rem seconds 3600 / 60)) in
    let secs := Qfloor (rem seconds 60) in
    if (hours >? 0)%Z
    then pad2 hours ++ ":" ++ pad2 minutes ++ ":" ++ pad2 secs
    else pad2 minutes ++ ":" ++ pad2 secs.

(** [Number(s)] on a run of decimal digits: the double that stands for
    its value. *)
Definition Number (s : string) : option Z :=
  option_map (fun n => round_int (Z.of_N n)) (JS.Number s).

(** [a * b] and [a + b] on doubles that are integers. *)
Definition times (a b : Z) : Z := round_int (a * b).

Definition plus (a b : Z) : Z := round_int (a + b).

(** [parseTimeString] in double precision. *)
Definition parseTimeString (timeString : string) : option Z :=
  match map Number (split ":" timeString) with
  | [Some m; Some s] => Some (plus (times m 60) s)
  | [_; _] => None
  | [Some h; Some m; Some s] => Some (plus (plus (times h 3600) (times m 60)) s)
  | [_; _; _] => None
  | _ => Some 0%Z
  end.

End Chat64.

(** ** The tokens of an answer *)

Module Tokens.
Import JS Chat.

(** What stands between the brackets of a token: one or two digits, a
    colon and two digits ([MM:SS]), and possibly a colon and two more
    digits ([HH:MM:SS]). *)
Definition time_token (tok : string) : Prop :=
  exists mm ss,
    all_chars is_digit mm = true /\ (1 <= String.length mm <= 2)%nat /\
    all_chars is_digit ss = true /\ String.length ss = 2%nat /\
    (tok = (mm ++ ":" ++ ss)%string \/
     exists xx, all_chars is_digit xx = true /\ String.length xx = 2%nat /\
                tok = (mm ++ ":" ++ ss ++ ":" ++ xx)%string).

(** An answer in which the given tokens stand in brackets, each after
    a text, and a last text follows. *)
Fixpoint bracketed (parts : list (string * string)) (last : string) : string :=
  match parts with
  | [] => last
  | (before, tok) :: rest => (before ++ "[" ++ tok ++ "]" ++ bracketed rest last)%string
  end.

(** No match of the expression begins inside [gap] when [rest]
    follows it. *)
Definition unmatched (gap rest : string) : Prop :=
  forall a b, gap = (a ++ b)%string -> b <> "" -> match_timestamp (b ++ rest) = None.

(** The texts before the tokens, and the last text, hold no match of
    their own: the tokens are the matches of the answer, from left to
    right. *)
Fixpoint tokens_of (parts : list (string * string)) (last : string) : Prop :=
  match parts with
  | [] => unmatched last ""
  | (before, tok) :: rest =>
      unmatched before ("[" ++ tok ++ "]" ++ bracketed rest last) /\
      time_token tok /\ tokens_of rest last
  end.

(** The value of a decimal digit. *)
Definition digit_value (c : ascii) : N := N.of_nat (nat_of_ascii c - 48).

(** The citation of the second [n], read from the token [tok], for a
    context chunk. *)
Definition citation_of (tok : string) (n : N) (chunk : ContextChunk) : Citation :=
  {| time := inject_Z (Z.of_N n);
     timeString := tok;
     cite_text := (substring0 100 (ctx_text chunk) ++ "...")%string;
     startTime := ctx_startTime chunk;
     endTime := ctx_endTime chunk |}.

End Tokens.

(** ** The services and the routes

    Code that awaits an external service is written in the monad [M]: a
    computation takes the world, returns a value or throws an [Error]
    with a message, and leaves a new world. *)

Module Server.
Import JS TextChunker Chat.

Inductive Result (A : Type) : Type :=
| Ok (a : A)
| Throw (message : string).
Arguments Ok {A} a.
Arguments Throw {A} message.

(** *** Data *)

(** A chunk after the embedding stage: [{ ...chunk, embedding, ... }]. *)
Record EmbeddedChunk := {
  ec_chunk : Chunk;
  embedding : option (list Q);
  embeddingModel : option string;
  embeddingDimensions : option nat;
  embeddingError : option string
}.

Record Metadata := {
  md_title : string;
  md_subject : string;
  md_description : string
}.

(** A record of the vector index.  The creation date is left out. *)
Record Vector := {
  vec_id : string;
  vec_values : list Q;
  vec_videoId : string;
  vec_chunkIndex : nat;
  vec_text : string;
  vec_startTime : Q;
  vec_endTime : Q;
  vec_confidence : Q;
  vec_wordCount : nat;
  vec_length : nat;
  vec_embeddingModel : string;
  vec_extra : Metadata
}.

(** A match of a similarity query: [{ id, score, metadata }]. *)
Record Match := {
  match_id : string;
  match_score : Q;
  match_text : string;
  match_startTime : Q;
  match_endTime : Q;
  match_confidence : Q
}.

Inductive Status := processing | ready | failed.

Inductive Stage :=
| UPLOADING | EXTRACTING_AUDIO | TRANSCRIBING | CHUNKING
| EMBEDDING | STORING | COMPLETED | FAILED.

(** A row of the table [videos]. *)
Record Video := {
  video_id : string;
  video_title : string;
  video_subject : string;
  status : Status;
  processing_stage : Stage;
  processing_progress : N;
  error_message : option string
}.

(** A row of the table [transcripts]. *)
Record TranscriptRow := {
  tr_id : nat;
  tr_video_id : string;
  tr_full_text : string;
  tr_language : string
}.

(** A row of the table [text_chunks]. *)
Record ChunkRow := {
  cr_video_id : string;
  cr_transcript_id : nat;
  cr_chunk_index : nat;
  cr_chunk_text : string;
  cr_start_time : Q;
  cr_end_time : Q;
  cr_has_embedding : bool
}.

(** A row of the table [chat_conversations]. *)
Record ConversationRow := {
  cv_video_id : string;
  cv_user_message : string;
  cv_ai_response : string
}.

(** What [TranscriptionService.transcribeAudio] returns. *)
Record Transcription := {
  tn_text : string;
  tn_segments : list Segment;
  tn_language : string;
  tn_duration : Q
}.

(** The request of a chat completion: the parts of the two messages
    that vary (the wording of the instructions is fixed). *)
Record ChatRequest := {
  rq_title : string;
  rq_subject : string;
  rq_contextText : string;
  rq_question : string
}.

(** *** The calls that leave the process *)

Inductive Event :=
| EmbeddingsCreate (input : list string)
| ChatCompletion (request : ChatRequest)
| Delay (ms : N)
| InitializeIndex
| PineconeQuery (vector : list Q) (topK : nat) (filter : option string)
| PineconeUpsert (vectors : list Vector)
| PineconeDeleteMany (videoId : string)
| Uuid
| IsVideoFile (filePath : string)
| GetAudioInfo (filePath : string)
| ExtractAudio (filePath : string)
| EstimateTranscriptionCost (audioPath : string)
| TranscribeAudio (audioPath : string)
| AudioCleanup (audioPath : string)
| InsertTranscript
| InsertChunks.

(** The world: the tables of the record store, the contents of the
    vector index, whether the index handle [this.index] is set, and
    the calls made so far, oldest first. *)
Record World := {
  videos : list Video;
  transcripts : list TranscriptRow;
  text_chunks : list ChunkRow;
  chat_conversations : list ConversationRow;
  pinecone_vectors : list Vector;
  pinecone_index : bool;
  log : list Event
}.

(** The tables of the record store. *)
Inductive Table := Videos | Transcripts | TextChunks | ChatConversations.

(** The answers of the outside.  Every answer may depend on the number
    of calls made before it, so that a service can fail now and
    succeed later.  [db_delete] tells whether the record store removes
    the rows a [delete()] selects: a deletion that no row level policy
    of the table allows removes nothing and reports no error, and one
    that fails otherwise removes nothing either. *)
Record Env := {
  openai_embeddings : nat -> list string -> Result (list (list Q));
  openai_chat : nat -> ChatRequest -> Result string;
  pinecone_init : nat -> Result unit;
  pinecone_query : nat -> list Q -> nat -> option string -> Result (list Match);
  pinecone_upsert : nat -> list Vector -> Result unit;
  pinecone_deleteMany : nat -> string -> Result unit;
  uuidv4 : nat -> string;
  audio_isVideoFile : nat -> string -> Result bool;
  audio_getAudioInfo : nat -> string -> Result unit;
  audio_extractAudio : nat -> string -> Result string;
  whisper_estimateCost : nat -> string -> Result unit;
  whisper_transcribeAudio : nat -> string -> Result Transcription;
  langchain_splitText : nat -> nat -> string -> list string;
  db_insert_transcript : nat -> option string;
  db_insert_chunks : nat -> option string;
  db_delete : nat -> Table -> bool
}.

(** *** The monad *)

Definition M (A : Type) : Type := World -> Result A * World.

Definition ret {A} (a : A) : M A := fun w => (Ok a, w).

Definition throw {A} (message : string) : M A := fun w => (Throw message, w).

Definition bind {A B} (m : M A) (k : A -> M B) : M B :=
  fun w => match m w with
           | (Ok a, w') => k a w'
           | (Throw e, w') => (Throw e, w')
           end.

(** [try { m } catch (error) { handler(error.message) }] *)
Definition try_catch {A} (m : M A) (handler : string -> M A) : M A :=
  fun w => match m w with
           | (Ok a, w') => (Ok a, w')
           | (Throw e, w') => handler e w'
           end.

Definition get : M World := fun w => (Ok w, w).

Definition put (w : World) : M unit := fun _ => (Ok tt, w).

Definition set_log (l : list Event) (w : World) : World :=
  {| videos := videos w; transcripts := transcripts w; text_chunks := text_chunks w;
     chat_conversations := chat_conversations w;
     pinecone_vectors := pinecone_vectors w; pinecone_index := pinecone_index w;
     log := l |}.

(** A call to the outside: it is logged, and answered by the oracle. *)
Definition call {A} (e : Event) (answer : nat -> Result A) : M A :=
  fun w => (answer (List.length (log w)), set_log (log w ++ [e]) w).

(** A call that cannot fail. *)
Definition emit (e : Event) : M unit := call e (fun _ => Ok tt).

(** [await this.delay(ms)] *)
Definition delay (ms : N) : M unit := emit (Delay ms).

Declare Scope js_scope.
Delimit Scope js_scope with js.
Notation "x <- m ;; k" := (bind m (fun x => k))
  (at level 61, m at next level, right associativity) : js_scope.
Notation "m ;; k" := (bind m (fun _ => k))
  (at level 61, right associativity) : js_scope.
Local Open Scope js_scope.

(** [array.slice(i, i + batchSize)] for [i = 0, batchSize, ...].  The
    fuel is the length of the array, which the loop cannot outrun. *)
Fixpoint createBatches_fuel {A} (fuel : nat) (xs : list A) (batchSize : nat)
  : list (list A) :=
  match fuel, xs with
  | _, [] => []
  | O, _ => []
  | S fuel', _ => firstn batchSize xs :: createBatches_fuel fuel' (skipn batchSize xs) batchSize
  end.

Definition createBatches {A} (xs : list A) (batchSize : nat) : list (list A) :=
  createBatches_fuel (List.length xs) xs batchSize.

(** The message of the [TypeError] that reading a property of
    [undefined] throws. *)
Definition undefined_embedding : string :=
  "Cannot read properties of undefined (reading 'embedding')".

Section WithEnv.
Variable env : Env.

(** *** embeddingService.js *)

Definition model : string := "text-embedding-3-large".
Definition dimensions : nat := 2048.
Definition batchSize : nat := 100.
Definition maxRetries : nat := 3.
Definition retryDelay : N := 1000.

(** [s.replace(/p+/g, ' ')] for a class of characters [p]. *)
Fixpoint replace_runs (p : ascii -> bool) (in_run : bool) (s : string) : string :=
  match s with
  | EmptyString => EmptyString
  | String c rest =>
      if p c
      then if in_run then replace_runs p true rest
           else String " " (replace_runs p true rest)
      else String c (replace_runs p false rest)
  end.

Definition is_line_break (c : ascii) : bool :=
  let n := nat_of_ascii c in ((n =? 10) || (n =? 13))%nat.

(** [prepareTextForEmbedding] *)
Definition prepareTextForEmbedding (text : string) : string :=
  match text with
  | EmptyString => ""
  | _ => substring0 8000
           (replace_runs is_line_break false
              (replace_runs is_space false (trim text)))
  end.

Definition set_text (t : string) (c : Chunk) : Chunk :=
  {| index := index c; text := t; length := length c; wordCount := wordCount c;
     chunk_startTime := chunk_startTime c; chunk_endTime := chunk_endTime c;
     confidence := confidence c |}.

(** The assignment [chunk.text = chunk.text.substring(0, 8000)] of
    [validateChunks], which the caller's array sees as well. *)
Definition truncate_text (c : Chunk) : Chunk :=
  if (8000 <? String.length (text c))%nat
  then set_text (substring0 8000 (text c)) c
  else c.

Definition valid_text (c : Chunk) : bool :=
  negb (String.length (text c) =? 0)%nat &&
  negb (String.length (trim (text c)) =? 0)%nat.

(** A chunk of the caller's array after [validateChunks] has run: the
    assignment reaches the chunks that pass the checks before it. *)
Definition seen_by_validation (c : Chunk) : Chunk :=
  if valid_text c then truncate_text c else c.

(** [validateChunks] *)
Definition validateChunks (chunks : list Chunk) : list Chunk :=
  map truncate_text (filter valid_text chunks).

Definition with_embedding (chunk : Chunk) (e : list Q) : EmbeddedChunk :=
  {| ec_chunk := chunk; embedding := Some e; embeddingModel := Some model;
     embeddingDimensions := Some (List.length e); embeddingError := None |}.

Definition without_embedding (chunk : Chunk) (message : string) : EmbeddedChunk :=
  {| ec_chunk := chunk; embedding := None; embeddingModel := None;
     embeddingDimensions := None; embeddingError := Some message |}.

(** [callEmbeddingAPI(texts, retryCount)].  The recursion is on the
    retries that are left. *)
Fixpoint callEmbeddingAPI_left (left : nat) (texts : list string) (retryCount : nat)
  : M (list (list Q)) :=
  try_catch
    (call (EmbeddingsCreate texts) (fun t => openai_embeddings env t texts))
    (fun error =>
       if (retryCount <? maxRetries)%nat
       then match left with
            | S left' =>
                delay (retryDelay * 2 ^ N.of_nat retryCount);;
                callEmbeddingAPI_left left' texts (S retryCount)
            | O => throw error
            end
       else throw error).

Definition callEmbeddingAPI (texts : list string) (retryCount : nat)
  : M (list (list Q)) :=
  callEmbeddingAPI_left (maxRetries - retryCount) texts retryCount.

(** [batch.map((chunk, index) => ({ ...chunk,
      embedding: response.data[index].embedding, ... }))] *)
Fixpoint attach_embeddings (batch : list Chunk) (index : nat) (data : list (list Q))
  : M (list EmbeddedChunk) :=
  match batch with
  | [] => ret []
  | chunk :: rest =>
      match nth_error data index with
      | Some e =>
          more <- attach_embeddings rest (S index) data;;
          ret (with_embedding chunk e :: more)
      | None => throw undefined_embedding
      end
  end.

(** [processBatch] *)
Definition processBatch (batch : list Chunk) : M (list EmbeddedChunk) :=
  try_catch
    (let texts := map (fun chunk => prepareTextForEmbedding (text chunk)) batch in
     response <- callEmbeddingAPI texts 0;;
     attach_embeddings batch 0 response)
    (fun error => throw error).

(** [processIndividually] *)
Fixpoint processIndividually (chunks : list Chunk) : M (list EmbeddedChunk) :=
  match chunks with
  | [] => ret []
  | chunk :: rest =>
      result <- try_catch
                  (response <- callEmbeddingAPI [prepareTextForEmbedding (text chunk)] 0;;
                   match nth_error response 0 with
                   | Some e => delay 200;; ret (with_embedding chunk e)
                   | None => throw undefined_embedding
                   end)
                  (fun error => ret (without_embedding chunk error));;
      more <- processIndividually rest;;
      ret (result :: more)
  end.

(** The loop over the batches of [generateEmbeddings]. *)
Fixpoint embed_batches (batches : list (list Chunk)) : M (list EmbeddedChunk) :=
  match batches with
  | [] => ret []
  | batch :: rest =>
      results <- try_catch
                   (batchResults <- processBatch batch;;
                    match rest with
                    | [] => ret tt
                    | _ :: _ => delay 500
                    end;;
                    ret batchResults)
                   (fun _ => processIndividually batch);;
      more <- embed_batches rest;;
      ret (results ++ more)%list
  end.

(** [generateEmbeddings] *)
Definition generateEmbeddings (chunks : list Chunk) : M (list EmbeddedChunk) :=
  try_catch
    (match chunks with
     | [] => throw "No chunks provided for embedding generation"
     | _ :: _ => embed_batches (createBatches (validateChunks chunks) batchSize)
     end)
    (fun error => throw ("Embedding generation failed: " ++ error)).

(** [generateQueryEmbedding] *)
Definition generateQueryEmbedding (query : string) : M (list Q) :=
  try_catch
    (if (String.length query =? 0)%nat || (String.length (trim query) =? 0)%nat
     then throw "Invalid query for embedding"
     else
       response <- call (EmbeddingsCreate [prepareTextForEmbedding query])
                        (fun t => openai_embeddings env t [prepareTextForEmbedding query]);;
       match nth_error response 0 with
       | Some e => ret e
       | None => throw undefined_embedding
       end)
    (fun error => throw ("Query embedding failed: " ++ error)).

(** *** pineconeService.js *)

Definition pinecone_batchSize : nat := 100.
Definition pinecone_maxRetries : nat := 3.
Definition pinecone_retryDelay : N := 1000.

Definition set_index (b : bool) (w : World) : World :=
  {| videos := videos w; transcripts := transcripts w; text_chunks := text_chunks w;
     chat_conversations := chat_conversations w;
     pinecone_vectors := pinecone_vectors w; pinecone_index := b; log := log w |}.

Definition set_vectors (vs : list Vector) (w : World) : World :=
  {| videos := videos w; transcripts := transcripts w; text_chunks := text_chunks w;
     chat_conversations := chat_conversations w;
     pinecone_vectors := vs; pinecone_index := pinecone_index w; log := log w |}.

Definition modify (f : World -> World) : M unit := fun w => (Ok tt, f w).

(** [initializeIndex]: listing, creating and polling the index are one
    call to the outside, which succeeds or fails as a whole. *)
Definition initializeIndex : M bool :=
  try_catch
    (call InitializeIndex (fun t => pinecone_init env t);;
     modify (set_index true);;
     ret true)
    (fun error => throw ("Pinecone initialization failed: " ++ error)).

(** [if (!this.index) { await this.initializeIndex(); }] *)
Definition ensure_index : M unit :=
  w <- get;;
  if pinecone_index w then ret tt else (initializeIndex;; ret tt).

(** What an upsert does to the contents of the index: a record replaces
    the one with the same identifier. *)
Definition upsert_into (batch stored : list Vector) : list Vector :=
  (filter (fun v => negb (existsb (fun b => String.eqb (vec_id b) (vec_id v)) batch)) stored
     ++ batch)%list.

(** [upsertVectors(vectors, retryCount)] *)
Fixpoint upsertVectors_left (left : nat) (vectors : list Vector) (retryCount : nat)
  : M unit :=
  try_catch
    (call (PineconeUpsert vectors) (fun t => pinecone_upsert env t vectors);;
     modify (fun w => set_vectors (upsert_into vectors (pinecone_vectors w)) w))
    (fun error =>
       if (retryCount <? pinecone_maxRetries)%nat
       then match left with
            | S left' =>
                delay (pinecone_retryDelay * 2 ^ N.of_nat retryCount);;
                upsertVectors_left left' vectors (S retryCount)
            | O => throw error
            end
       else throw error).

Definition upsertVectors (vectors : list Vector) (retryCount : nat) : M unit :=
  upsertVectors_left (pinecone_maxRetries - retryCount) vectors retryCount.

(** [chunk.embedding && Array.isArray(chunk.embedding)
      && chunk.embedding.length > 0] *)
Definition has_vector (chunk : EmbeddedChunk) : bool :=
  match embedding chunk with
  | Some (_ :: _) => true
  | _ => false
  end.

(** [`${videoId}_chunk_${chunk.index}_${uuidv4()}`] *)
Definition vector_id (videoId : string) (chunkIndex : nat) (uuid : string) : string :=
  videoId ++ "_chunk_" ++ toString (Z.of_nat chunkIndex) ++ "_" ++ uuid.

Definition to_vector (videoId : string) (metadata : Metadata) (chunk : EmbeddedChunk)
           (uuid : string) : Vector :=
  {| vec_id := vector_id videoId (index (ec_chunk chunk)) uuid;
     vec_values := match embedding chunk with Some e => e | None => [] end;
     vec_videoId := videoId;
     vec_chunkIndex := index (ec_chunk chunk);
     vec_text := text (ec_chunk chunk);
     vec_startTime := or0 (chunk_startTime (ec_chunk chunk));
     vec_endTime := or0 (chunk_endTime (ec_chunk chunk));
     vec_confidence := or0 (confidence (ec_chunk chunk));
     vec_wordCount := wordCount (ec_chunk chunk);
     vec_length := length (ec_chunk chunk);
     vec_embeddingModel := match embeddingModel chunk with
                           | Some m => m
                           | None => "text-embedding-3-small"
                           end;
     vec_extra := metadata |}.

(** [validChunks.map(chunk => ({ id: ..., values: ..., metadata: ... }))]:
    one call of [uuidv4] per chunk, in order. *)
Fixpoint prepare_vectors (videoId : string) (metadata : Metadata)
         (validChunks : list EmbeddedChunk) : M (list Vector) :=
  match validChunks with
  | [] => ret []
  | chunk :: rest =>
      uuid <- call Uuid (fun t => Ok (uuidv4 env t));;
      more <- prepare_vectors videoId metadata rest;;
      ret (to_vector videoId metadata chunk uuid :: more)
  end.

Record StorageResult := {
  totalVectors : nat;
  successfulBatches : nat;
  failedBatches : nat;
  errors : list (nat * string)
}.

Definition batch_stored (r : StorageResult) : StorageResult :=
  {| totalVectors := totalVectors r; successfulBatches := S (successfulBatches r);
     failedBatches := failedBatches r; errors := errors r |}.

Definition batch_failed (i : nat) (message : string) (r : StorageResult) : StorageResult :=
  {| totalVectors := totalVectors r; successfulBatches := successfulBatches r;
     failedBatches := S (failedBatches r);
     errors := (errors r ++ [(i + 1, message)%nat])%list |}.

(** The loop over the batches of [storeChunks]. *)
Fixpoint store_batches (i : nat) (batches : list (list Vector)) (results : StorageResult)
  : M StorageResult :=
  match batches with
  | [] => ret results
  | batch :: rest =>
      results' <- try_catch
                    (upsertVectors batch 0;;
                     match rest with
                     | [] => ret tt
                     | _ :: _ => delay 500
                     end;;
                     ret (batch_stored results))
                    (fun error => ret (batch_failed i error results));;
      store_batches (S i) rest results'
  end.

(** [storeChunks] *)
Definition storeChunks (videoId : string) (chunks : list EmbeddedChunk) (metadata : Metadata)
  : M StorageResult :=
  try_catch
    (ensure_index;;
     match filter has_vector chunks with
     | [] => throw "No valid chunks with embeddings to store"
     | validChunks =>
         vectors <- prepare_vectors videoId metadata validChunks;;
         store_batches 0 (createBatches vectors pinecone_batchSize)
           {| totalVectors := List.length vectors; successfulBatches := 0;
              failedBatches := 0; errors := [] |}
     end)
    (fun error => throw ("Pinecone storage failed: " ++ error)).

(** [if (videoId) { query.filter = { videoId: { $eq: videoId } }; }] *)
Definition filter_of (videoId : string) : option string :=
  match videoId with
  | EmptyString => None
  | _ => Some videoId
  end.

(** [searchSimilar(queryEmbedding, { videoId, topK, minScore })] *)
Definition searchSimilar (queryEmbedding : list Q) (videoId : string) (topK : nat)
           (minScore : Q) : M (list Match) :=
  try_catch
    (ensure_index;;
     let filter_ := filter_of videoId in
     matches <- call (PineconeQuery queryEmbedding topK filter_)
                     (fun t => pinecone_query env t queryEmbedding topK filter_);;
     ret (filter (fun m => Qle_bool minScore (match_score m)) matches))
    (fun error => throw ("Pinecone search failed: " ++ error)).

(** [deleteVideoVectors] *)
Definition deleteVideoVectors (videoId : string) : M bool :=
  try_catch
    (ensure_index;;
     call (PineconeDeleteMany videoId) (fun t => pinecone_deleteMany env t videoId);;
     modify (fun w => set_vectors
                        (filter (fun v => negb (String.eqb (vec_videoId v) videoId))
                                (pinecone_vectors w)) w);;
     ret true)
    (fun error => throw ("Vector deletion failed: " ++ error)).

(** *** processingService.js *)

Definition set_videos (vs : list Video) (w : World) : World :=
  {| videos := vs; transcripts := transcripts w; text_chunks := text_chunks w;
     chat_conversations := chat_conversations w;
     pinecone_vectors := pinecone_vectors w; pinecone_index := pinecone_index w;
     log := log w |}.

Definition set_transcripts (ts : list TranscriptRow) (w : World) : World :=
  {| videos := videos w; transcripts := ts; text_chunks := text_chunks w;
     chat_conversations := chat_conversations w;
     pinecone_vectors := pinecone_vectors w; pinecone_index := pinecone_index w;
     log := log w |}.

Definition set_text_chunks (cs : list ChunkRow) (w : World) : World :=
  {| videos := videos w; transcripts := transcripts w; text_chunks := cs;
     chat_conversations := chat_conversations w;
     pinecone_vectors := pinecone_vectors w; pinecone_index := pinecone_index w;
     log := log w |}.

Definition set_chat_conversations (cs : list ConversationRow) (w : World) : World :=
  {| videos := videos w; transcripts := transcripts w; text_chunks := text_chunks w;
     chat_conversations := cs;
     pinecone_vectors := pinecone_vectors w; pinecone_index := pinecone_index w;
     log := log w |}.

(** [.from('videos').update(f).eq('id', videoId)] *)
Definition update_video (videoId : string) (f : Video -> Video) (w : World) : World :=
  set_videos (map (fun v => if String.eqb (video_id v) videoId then f v else v) (videos w)) w.

Definition status_of_stage (stage : Stage) : Status :=
  match stage with
  | COMPLETED => ready
  | FAILED => failed
  | _ => processing
  end.

(** The [updateData] of [updateProcessingStatus], applied to a row: the
    error message is written only when one is given and is not empty. *)
Definition apply_status (stage : Stage) (progress : N) (errorMessage : option string)
           (v : Video) : Video :=
  {| video_id := video_id v; video_title := video_title v;
     video_subject := video_subject v;
     status := status_of_stage stage;
     processing_stage := stage;
     processing_progress := progress;
     error_message := match errorMessage with
                      | Some (String c m) => Some (String c m)
                      | _ => error_message v
                      end |}.

(** [updateProcessingStatus]: it never throws. *)
Definition updateProcessingStatus (videoId : string) (stage : Stage) (progress : N)
           (errorMessage : option string) : M unit :=
  modify (update_video videoId (apply_status stage progress errorMessage)).

(** [extractAudio] *)
Definition extractAudio (filePath videoId : string) : M string :=
  try_catch
    (isVideo <- call (IsVideoFile filePath) (fun t => audio_isVideoFile env t filePath);;
     if isVideo : bool
     then call (ExtractAudio filePath) (fun t => audio_extractAudio env t filePath)
     else (call (GetAudioInfo filePath) (fun t => audio_getAudioInfo env t filePath);;
           call (ExtractAudio filePath) (fun t => audio_extractAudio env t filePath)))
    (fun error => throw ("Audio extraction failed: " ++ error)).

(** [transcribeAudio] *)
Definition transcribeAudio (audioPath videoId : string) : M Transcription :=
  try_catch
    (call (EstimateTranscriptionCost audioPath)
          (fun t => whisper_estimateCost env t audioPath);;
     call (TranscribeAudio audioPath) (fun t => whisper_transcribeAudio env t audioPath))
    (fun error => throw ("Transcription failed: " ++ error)).

(** [chunkText] of the processing service. *)
Definition processing_chunkText (transcriptionResult : Transcription) (videoId : string)
  : M (list Chunk) :=
  ret (chunkText (langchain_splitText env)
                 (tn_text transcriptionResult) (tn_segments transcriptionResult)
                 (getOptimalParameters (String.length (tn_text transcriptionResult)))).

(** [generateEmbeddings] of the processing service. *)
Definition processing_generateEmbeddings (chunks : list Chunk) (videoId : string)
  : M (list EmbeddedChunk) :=
  try_catch (generateEmbeddings chunks)
            (fun error => throw ("Embedding generation failed: " ++ error)).

(** [storeInPinecone] *)
Definition storeInPinecone (videoId : string) (chunksWithEmbeddings : list EmbeddedChunk)
           (metadata : Metadata) : M StorageResult :=
  try_catch
    (match find (fun c => match embedding c with Some _ => true | None => false end)
                chunksWithEmbeddings with
     | Some _ => initializeIndex;; ret tt
     | None => ret tt
     end;;
     storeChunks videoId chunksWithEmbeddings metadata)
    (fun error => throw ("Pinecone storage failed: " ++ error)).

Definition chunk_row (videoId : string) (transcriptId : nat) (chunk : Chunk) : ChunkRow :=
  {| cr_video_id := videoId; cr_transcript_id := transcriptId;
     cr_chunk_index := index chunk; cr_chunk_text := text chunk;
     cr_start_time := chunk_startTime chunk; cr_end_time := chunk_endTime chunk;
     cr_has_embedding := false |}.

(** [saveToDatabase].  The chunks are the ones chunking returned, which
    carry no embedding. *)
Definition saveToDatabase (videoId : string) (transcriptionResult : Transcription)
           (chunks : list Chunk) : M unit :=
  try_catch
    (transcriptError <- call InsertTranscript (fun t => Ok (db_insert_transcript env t));;
     match transcriptError with
     | Some message => throw ("Transcript save failed: " ++ message)
     | None =>
         w <- get;;
         let transcriptId := List.length (transcripts w) in
         modify (fun w => set_transcripts
                            (transcripts w ++
                               [ {| tr_id := transcriptId; tr_video_id := videoId;
                                    tr_full_text := tn_text transcriptionResult;
                                    tr_language := match tn_language transcriptionResult with
                                                   | EmptyString => "en"
                                                   | l => l
                                                   end |} ])%list w);;
         chunksError <- call InsertChunks (fun t => Ok (db_insert_chunks env t));;
         match chunksError with
         | Some message => throw ("Chunks save failed: " ++ message)
         | None =>
             modify (fun w => set_text_chunks
                                (text_chunks w ++ map (chunk_row videoId transcriptId) chunks)%list
                                w)
         end
     end)
    (fun error => throw ("Database save failed: " ++ error)).

(** [cleanup]: it never throws. *)
Definition cleanup (audioPath originalPath : string) : M unit :=
  if negb (String.length audioPath =? 0)%nat && negb (String.eqb audioPath originalPath)
  then emit (AudioCleanup audioPath)
  else ret tt.

Record ProcessingResult := {
  pr_videoId : string;
  pr_chunks_total : nat;
  pr_chunks_withEmbeddings : nat;
  pr_storage : StorageResult
}.

(** Runs [m] and hands over how it ended, so that the code after it can
    tell, as the [catch] block does, what had been assigned before. *)
Definition attempt {A} (m : M A) : M (Result A) :=
  fun w => let '(r, w') := m w in (Ok r, w').

(** The [catch] block of [processFile]; [audioPath] is [None] while the
    variable is still [null]. *)
Definition processFile_failed {A} (filePath videoId : string) (audioPath : option string)
           (message : string) : M A :=
  updateProcessingStatus videoId FAILED 0 (Some message);;
  match audioPath with
  | Some path => cleanup path filePath
  | None => ret tt
  end;;
  throw ("Processing failed: " ++ message).

(** The [try] block of [processFile], after [audioPath] is assigned. *)
Definition processFile_stages (filePath : string) (metadata : Metadata) (videoId : string)
           (audioPath : string) : M ProcessingResult :=
  updateProcessingStatus videoId TRANSCRIBING 25 None;;
  transcriptionResult <- transcribeAudio audioPath videoId;;
  updateProcessingStatus videoId CHUNKING 50 None;;
  chunks <- processing_chunkText transcriptionResult videoId;;
  updateProcessingStatus videoId EMBEDDING 70 None;;
  chunksWithEmbeddings <- processing_generateEmbeddings chunks videoId;;
  updateProcessingStatus videoId STORING 85 None;;
  storageResult <- storeInPinecone videoId chunksWithEmbeddings metadata;;
  saveToDatabase videoId transcriptionResult (map seen_by_validation chunks);;
  updateProcessingStatus videoId COMPLETED 100 None;;
  cleanup audioPath filePath;;
  ret {| pr_videoId := videoId;
         pr_chunks_total := List.length chunks;
         pr_chunks_withEmbeddings :=
           List.length (filter (fun c => match embedding c with
                                         | Some _ => true
                                         | None => false
                                         end) chunksWithEmbeddings);
         pr_storage := storageResult |}.

(** [processFile] *)
Definition processFile (filePath : string) (metadata : Metadata) (videoId : string)
  : M ProcessingResult :=
  extracted <- attempt (updateProcessingStatus videoId EXTRACTING_AUDIO 10 None;;
                        extractAudio filePath videoId);;
  match extracted with
  | Throw message => processFile_failed filePath videoId None message
  | Ok audioPath =>
      done <- attempt (processFile_stages filePath metadata videoId audioPath);;
      match done with
      | Throw message => processFile_failed filePath videoId (Some audioPath) message
      | Ok result => ret result
      end
  end.

(** *** The route [POST /api/processing/reprocess/:videoId] *)

(** What the route answers: the status code, [success], and the message
    or the error. *)
Record Response := {
  http_status : nat;
  http_success : bool;
  http_message : string
}.

(** The row the route writes over the video's status. *)
Definition reset_status (v : Video) : Video :=
  {| video_id := video_id v; video_title := video_title v;
     video_subject := video_subject v;
     status := processing;
     processing_stage := UPLOADING;
     processing_progress := 5;
     error_message := None |}.

Definition other_video {A} (key : A -> string) (videoId : string) (row : A) : bool :=
  negb (String.eqb (key row) videoId).

(** [await getSupabase().from(table).delete().eq(...)]: the rows go when
    the record store performs the deletion. *)
Definition delete_rows (table : Table) (remove : World -> World) : M unit :=
  w <- get;;
  if db_delete env (List.length (log w)) table then modify remove else ret tt.

(** The rows of a table that belong to other recordings. *)
Definition without_conversations (videoId : string) (w : World) : World :=
  set_chat_conversations (filter (other_video cv_video_id videoId) (chat_conversations w)) w.

Definition without_chunks (videoId : string) (w : World) : World :=
  set_text_chunks (filter (other_video cr_video_id videoId) (text_chunks w)) w.

(** The chunk hangs on a transcript of the recording: its row goes
    with the row of the transcript ([transcript_id ... REFERENCES
    transcripts(id) ON DELETE CASCADE]). *)
Definition on_transcript_of (videoId : string) (rows : list TranscriptRow) (c : ChunkRow)
  : bool :=
  existsb (fun t => String.eqb (tr_video_id t) videoId && (tr_id t =? cr_transcript_id c)%nat)
          rows.

Definition without_transcripts (videoId : string) (w : World) : World :=
  set_transcripts (filter (other_video tr_video_id videoId) (transcripts w))
    (set_text_chunks
       (filter (fun c => negb (on_transcript_of videoId (transcripts w) c)) (text_chunks w))
       w).

(** The handler of the route.  The answers of the three deletions and
    of the update are not looked at. *)
Definition reprocess (videoId : string) : M Response :=
  try_catch
    (w <- get;;
     match find (fun v => String.eqb (video_id v) videoId) (videos w) with
     | None =>
         ret {| http_status := 404; http_success := false;
                http_message := "Video not found" |}
     | Some videoData =>
         match status videoData with
         | processing =>
             ret {| http_status := 400; http_success := false;
                    http_message := "Video is already being processed" |}
         | _ =>
             try_catch (deleteVideoVectors videoId;; ret tt) (fun _ => ret tt);;
             delete_rows ChatConversations (without_conversations videoId);;
             delete_rows TextChunks (without_chunks videoId);;
             delete_rows Transcripts (without_transcripts videoId);;
             modify (update_video videoId reset_status);;
             ret {| http_status := 200; http_success := true;
                    http_message :=
                      "Reprocessing started. Note: Original file must still be available." |}
         end
     end)
    (fun error =>
       ret {| http_status := 500; http_success := false; http_message := error |}).

(** *** The chat route *)

Record VideoData := {
  vd_title : string;
  vd_subject : string
}.

Record Source := {
  src_text : string;
  src_startTime : Q;
  src_endTime : Q;
  src_score : Q
}.

Record RagResponse := {
  rag_text : string;
  rag_timestamps : list Citation;
  rag_sources : list Source
}.

Definition not_found_text : string :=
  "I couldn't find relevant information in this video to answer your question. This might be because the video hasn't been fully processed yet, or your question is about content not covered in this video. Could you try rephrasing your question or asking about a different topic?".

Definition not_found : RagResponse :=
  {| rag_text := not_found_text; rag_timestamps := []; rag_sources := [] |}.

Definition blank_line : string := String "010" (String "010" "").

(** [`[Context ${index + 1}] (${formatTime(chunk.startTime)} -
      ${formatTime(chunk.endTime)}): ${chunk.text}`] *)
Definition context_line (chunk : ContextChunk) (index : nat) : string :=
  "[Context " ++ toString (Z.of_nat (index + 1)) ++ "] ("
    ++ formatTime (ctx_startTime chunk) ++ " - " ++ formatTime (ctx_endTime chunk)
    ++ "): " ++ ctx_text chunk.

(** [generateAIResponse] *)
Definition generateAIResponse (message : string) (context : list ContextChunk)
           (videoData : VideoData) : M string :=
  try_catch
    (let request := {| rq_title := vd_title videoData;
                       rq_subject := vd_subject videoData;
                       rq_contextText := join blank_line (mapi context_line context);
                       rq_question := message |} in
     call (ChatCompletion request) (fun t => openai_chat env t request))
    (fun error => throw ("AI response generation failed: " ++ error)).

Definition to_context (result : Match) (index : nat) : ContextChunk :=
  {| ctx_index := index + 1;
     ctx_text := match_text result;
     ctx_startTime := or0 (match_startTime result);
     ctx_endTime := or0 (match_endTime result);
     ctx_confidence := or0 (match_confidence result);
     ctx_score := match_score result |}.

Definition to_source (c : ContextChunk) : Source :=
  {| src_text := substring0 200 (ctx_text c) ++ "...";
     src_startTime := ctx_startTime c;
     src_endTime := ctx_endTime c;
     src_score := ctx_score c |}.

(** Steps 3 to 5 of [generateRAGResponse], once there are results. *)
Definition answer_from (message : string) (videoData : VideoData)
           (searchResults : list Match) : M RagResponse :=
  let context := mapi to_context searchResults in
  aiResponse <- generateAIResponse message context videoData;;
  ret {| rag_text := aiResponse;
         rag_timestamps := extractTimestamps aiResponse context;
         rag_sources := map to_source context |}.

(** [generateRAGResponse] *)
Definition generateRAGResponse (message videoId : string) (videoData : VideoData)
  : M RagResponse :=
  try_catch
    (queryEmbedding <- generateQueryEmbedding message;;
     searchResults <- searchSimilar queryEmbedding videoId 5 (3 # 10);;
     match searchResults with
     | [] =>
         fallbackResults <- searchSimilar queryEmbedding videoId 3 (1 # 10);;
         match fallbackResults with
         | [] => ret not_found
         | _ :: _ => answer_from message videoData (searchResults ++ fallbackResults)%list
         end
     | _ :: _ => answer_from message videoData searchResults
     end)
    (fun error => throw ("RAG response generation failed: " ++ error)).

(** Whether the record store performs a deletion asked for in the
    world [w]. *)
Definition deletes (table : Table) (w : World) : bool :=
  db_delete env (List.length (log w)) table.

Definition when (b : bool) (f : World -> World) (w : World) : World :=
  if b then f w else w.

(** The chunks that are left when the chunks of the recording are
    deleted ([byVideo]) and when its transcripts are ([byTranscript]). *)
Definition chunks_left (videoId : string) (byVideo byTranscript : bool) (w : World)
  : list ChunkRow :=
  filter (fun c => (negb byVideo || other_video cr_video_id videoId c)
                   && (negb byTranscript || negb (on_transcript_of videoId (transcripts w) c)))
         (text_chunks w).

(** The world a reprocess request leaves when it is accepted. *)
Definition reprocessed (videoId : string) (w : World) : World :=
  let w1 := snd (deleteVideoVectors videoId w) in
  update_video videoId reset_status
    (when (deletes Transcripts w1) (without_transcripts videoId)
       (when (deletes TextChunks w1) (without_chunks videoId)
          (when (deletes ChatConversations w1) (without_conversations videoId) w1))).

End WithEnv.

(** The calls of [callEmbeddingAPI] that follow the first one when it
    retries [k] times from the retry count [i]: a delay of
    [retryDelay * 2^i], the call again, and so on. *)
Fixpoint retries_log (texts : list string) (i k : nat) : list Event :=
  match k with
  | O => []
  | S k' =>
      Delay (retryDelay * 2 ^ N.of_nat i) :: EmbeddingsCreate texts
        :: retries_log texts (S i) k'
  end.

(** The similarity queries, and the chat completions, among some events. *)
Definition is_query (e : Event) : bool :=
  match e with
  | PineconeQuery _ _ _ => true
  | _ => false
  end.

Definition is_chat (e : Event) : bool :=
  match e with
  | ChatCompletion _ => true
  | _ => false
  end.

Definition is_delete (e : Event) : bool :=
  match e with
  | PineconeDeleteMany _ => true
  | _ => false
  end.

Definition queries_of (events : list Event) : list Event := filter is_query events.

Definition chats_of (events : list Event) : list Event := filter is_chat events.

Definition deletions_of (events : list Event) : list Event := filter is_delete events.

(** The vectors [storeChunks] prepares when the first call of [uuidv4]
    is the call number [t]. *)
Fixpoint vectors_from (env : Env) (videoId : string) (metadata : Metadata) (t : nat)
         (validChunks : list EmbeddedChunk) : list Vector :=
  match validChunks with
  | [] => []
  | chunk :: rest =>
      to_vector videoId metadata chunk (uuidv4 env t)
        :: vectors_from env videoId metadata (S t) rest
  end.

(** The chunk has a vector, or it has none and an error is recorded. *)
Definition embedded_or_failed (r : EmbeddedChunk) : Prop :=
  (exists e, embedding r = Some e /\ embeddingError r = None) \/
  (embedding r = None /\ exists message, embeddingError r = Some message).

(** *** Notions used in the statements below *)

(** What a computation may do to the log and to the index: it appends
    events that satisfy [P], and every record of the index was there
    before or satisfies [Q]. *)
Definition grows (P : Event -> Prop) (Q : Vector -> Prop) (w w' : World) : Prop :=
  (exists added, log w' = (log w ++ added)%list /\ Forall P added) /\
  (forall v, In v (pinecone_vectors w') -> In v (pinecone_vectors w) \/ Q v).

Definition not_upsert (e : Event) : Prop :=
  forall vs, e <> PineconeUpsert vs.

Definition upsert_of (batches : list (list Vector)) (e : Event) : Prop :=
  forall vs, e = PineconeUpsert vs -> In vs batches.

(** The events a computation appends are neither queries nor chat
    completions. *)
Definition silent (w w' : World) : Prop :=
  exists added, log w' = (log w ++ added)%list /\
                queries_of added = [] /\ chats_of added = [].

(** The wrapper [try { ... } catch (error) { throw new Error(...) }]
    around the body of [generateRAGResponse]. *)
Definition rethrown (r : Result RagResponse) : Result RagResponse :=
  match r with
  | Ok response => Ok response
  | Throw e => Throw ("RAG response generation failed: " ++ e)
  end.

Definition response_400 : Response :=
  {| http_status := 400; http_success := false;
     http_message := "Video is already being processed" |}.

Definition response_200 : Response :=
  {| http_status := 200; http_success := true;
     http_message :=
       "Reprocessing started. Note: Original file must still be available." |}.

(** What the pipeline may do to the world: it does not add or remove a
    recording, it only adds rows to the tables of transcripts and
    chunks, it leaves the exchanges alone, it asks for no deletion in
    the index, and a record of the index stays, or is replaced by one
    with the same identifier. *)
Definition kept (w w' : World) : Prop :=
  map video_id (videos w') = map video_id (videos w) /\
  (exists ts, transcripts w' = (transcripts w ++ ts)%list) /\
  (exists cs, text_chunks w' = (text_chunks w ++ cs)%list) /\
  chat_conversations w' = chat_conversations w /\
  (exists added, log w' = (log w ++ added)%list /\ deletions_of added = []) /\
  (forall v, In v (pinecone_vectors w) ->
             exists v', In v' (pinecone_vectors w') /\ vec_id v' = vec_id v).

Definition keeps {A} (m : M A) : Prop :=
  forall w r w', m w = (r, w') -> kept w w'.

(** Whatever [m] throws has a message that is not empty. *)
Definition loud {A} (m : M A) : Prop :=
  forall w e w', m w = (Throw e, w') -> e <> "".

(** The first stage of [processFile], with the status update before
    it: the part of the [try] block that runs while [audioPath] is
    still [null]. *)
Definition processFile_extraction (env : Env) (filePath videoId : string) : M string :=
  (updateProcessingStatus videoId EXTRACTING_AUDIO 10 None;;
   extractAudio env filePath videoId)%js.

(** The world after the status update that precedes a stage. *)
Definition marked (videoId : string) (stage : Stage) (progress : N) (w : World) : World :=
  update_video videoId (apply_status stage progress None) w.

(** One of the stages that follow the extraction of the audio throws
    [e] and leaves the world [w2], the stages before it having
    returned: the transcription, the embedding, the storage in the
    index, or the saving in the record store. *)
Definition stage_throws (env : Env) (metadata : Metadata) (videoId audioPath : string)
           (w1 : World) (e : string) (w2 : World) : Prop :=
  let transcribed := transcribeAudio env audioPath videoId (marked videoId TRANSCRIBING 25 w1) in
  transcribed = (Throw e, w2) \/
  exists transcriptionResult wt,
    transcribed = (Ok transcriptionResult, wt) /\
    let chunks := chunkText (langchain_splitText env)
                            (tn_text transcriptionResult) (tn_segments transcriptionResult)
                            (getOptimalParameters
                               (String.length (tn_text transcriptionResult))) in
    let embedded := processing_generateEmbeddings env chunks videoId
                      (marked videoId EMBEDDING 70 (marked videoId CHUNKING 50 wt)) in
    embedded = (Throw e, w2) \/
    exists chunksWithEmbeddings we,
      embedded = (Ok chunksWithEmbeddings, we) /\
      let stored := storeInPinecone env videoId chunksWithEmbeddings metadata
                      (marked videoId STORING 85 we) in
      stored = (Throw e, w2) \/
      exists storageResult ws,
        stored = (Ok storageResult, ws) /\
        saveToDatabase env videoId transcriptionResult (map seen_by_validation chunks) ws
        = (Throw e, w2).

(** The calls of the [catch] block of [processFile]: the removal of the
    temporary audio file, when [audioPath] has been assigned a path that
    is not empty and is not the path of the input. *)
Definition cleanup_events (audioPath : option string) (originalPath : string) : list Event :=
  match audioPath with
  | Some path =>
      if negb (String.length path =? 0)%nat && negb (String.eqb path originalPath)
      then [AudioCleanup path]
      else []
  | None => []
  end.

(** What the [catch] block of [processFile] makes of the world [w2]
    the failing stage has left, a status update being taken as accepted
    by the record store: the row of the recording is marked failed with
    the message, the temporary audio file is removed, and the rest is
    as it was. *)
Definition fails_from (filePath videoId : string) (audioPath : option string) (e : string)
           (w2 w' : World) : Prop :=
  videos w' = map (fun v => if String.eqb (video_id v) videoId
                            then apply_status FAILED 0 (Some e) v else v) (videos w2) /\
  log w' = (log w2 ++ cleanup_events audioPath filePath)%list /\
  transcripts w' = transcripts w2 /\ text_chunks w' = text_chunks w2 /\
  chat_conversations w' = chat_conversations w2 /\
  pinecone_vectors w' = pinecone_vectors w2 /\ pinecone_index w' = pinecone_index w2.

End Server.

(** ** Concrete inputs used below *)

Module ChunkerExamples.
Import TextChunker.

Definition mk_segment (a b : Q) (t : string) : Segment :=
  {| seg_start := a; seg_end := b; seg_text := t; seg_confidence := 1 |}.

Definition small_options : Options := {| opt_chunkSize := 8; opt_overlap := 1 |}.

(** Three sentences, the third a repetition of the first. *)
Definition refrain_text : string := "aaaa bbbb aaaa".

Definition refrain_segments : list Segment :=
  [ mk_segment 10 20 "aaaa "; mk_segment 20 30 "bbbb "; mk_segment 30 40 "aaaa" ].

(** A splitter that cuts [refrain_text] at its blanks. *)
Definition refrain_split (_ _ : nat) (_ : string) : list string :=
  [ "aaaa"; "bbbb"; "aaaa" ].

(** Three different sentences. *)
Definition plain_text : string := "aaaa bbbb cccc".

Definition plain_segments : list Segment :=
  [ mk_segment 10 20 "aaaa "; mk_segment 20 30 "bbbb "; mk_segment 30 40 "cccc" ].

Definition plain_split (_ _ : nat) (_ : string) : list string :=
  [ "aaaa"; "bbbb"; "cccc" ].

End ChunkerExamples.

Module ChatExamples.
Import Chat.

Definition mk_context (a b : Q) (t : string) : ContextChunk :=
  {| ctx_index := 1; ctx_text := t; ctx_startTime := a; ctx_endTime := b;
     ctx_confidence := 1; ctx_score := 1 # 2 |}.

(** The chunk of the specification's example: 300 to 360 seconds. *)
Definition chunk_300_360 : ContextChunk := mk_context 300 360 "machine learning".

Definition answer_one : string :=
  "The concept of machine learning is explained at [05:30].".

Definition answer_two : string :=
  "It is explained at [05:30], and again at [05:32].".

(** The citation of second 330 for the chunk of 300 to 360 seconds. *)
Definition citation_330 (text : string) : Citation :=
  {| time := 330; timeString := "05:30";
     cite_text := JS.substring0 100 text ++ "...";
     startTime := 300; endTime := 360 |}.

(** An answer with a bracket that is no token, a token of one digit for
    the minutes, one with the hours, and one that no chunk contains. *)
Definition answer_mixed : string :=
  "As [Context 1] says at [5:30], then at [01:05:30] and at [99:00].".

(** A chunk that begins one hour and five minutes into the recording. *)
Definition chunk_3900_3960 : ContextChunk := mk_context 3900 3960 "gradient descent".

(** A chunk whose start time is negative. *)
Definition chunk_negative : ContextChunk := mk_context (-1) 10 "intro".

End ChatExamples.

Module DoubleExamples.

(** A whole number of seconds that is a double, and what comes back of
    it. *)
Definition large_time : Z := 266095924504267063296.

Definition large_time_back : Z := 266095924504267030528.

End DoubleExamples.

Module ServerExamples.
Import TextChunker Server.

Definition empty_world : World :=
  {| videos := []; transcripts := []; text_chunks := []; chat_conversations := [];
     pinecone_vectors := []; pinecone_index := true; log := [] |}.

Definition mk_chunk (i : nat) (t : string) (a b : Q) : Chunk :=
  {| index := i; text := t; length := String.length t; wordCount := countWords t;
     chunk_startTime := a; chunk_endTime := b; confidence := 1 |}.

Definition two_chunks : list Chunk :=
  [ mk_chunk 0 "first part" 0 10; mk_chunk 1 "second part" 10 20 ].

Definition speech : Transcription :=
  {| tn_text := "first part second part";
     tn_segments := [ {| seg_start := 0; seg_end := 10; seg_text := "first part ";
                         seg_confidence := 1 |};
                      {| seg_start := 10; seg_end := 20; seg_text := "second part";
                         seg_confidence := 1 |} ];
     tn_language := "en"; tn_duration := 20 |}.

(** One vector per text, whatever the texts. *)
Definition unit_vectors (texts : list string) : list (list Q) :=
  map (fun _ => [1; 0]) texts.

(** An outside where every service answers at once. *)
Definition calm : Env :=
  {| openai_embeddings := fun _ texts => Ok (unit_vectors texts);
     openai_chat := fun _ _ => Ok "It is explained at [00:05].";
     pinecone_init := fun _ => Ok tt;
     pinecone_query := fun _ _ _ _ => Ok [];
     pinecone_upsert := fun _ _ => Ok tt;
     pinecone_deleteMany := fun _ _ => Ok tt;
     uuidv4 := fun t => JS.toString (Z.of_nat t);
     audio_isVideoFile := fun _ _ => Ok true;
     audio_getAudioInfo := fun _ _ => Ok tt;
     audio_extractAudio := fun _ _ => Ok "temp/audio.wav";
     whisper_estimateCost := fun _ _ => Ok tt;
     whisper_transcribeAudio := fun _ _ => Ok speech;
     langchain_splitText := fun _ _ _ => [ "first part"; "second part" ];
     db_insert_transcript := fun _ => None;
     db_insert_chunks := fun _ => None;
     db_delete := fun _ _ => true |}.

Definition with_embeddings (f : nat -> list string -> Result (list (list Q))) (e : Env)
  : Env :=
  {| openai_embeddings := f;
     openai_chat := openai_chat e; pinecone_init := pinecone_init e;
     pinecone_query := pinecone_query e; pinecone_upsert := pinecone_upsert e;
     pinecone_deleteMany := pinecone_deleteMany e; uuidv4 := uuidv4 e;
     audio_isVideoFile := audio_isVideoFile e;
     audio_getAudioInfo := audio_getAudioInfo e;
     audio_extractAudio := audio_extractAudio e;
     whisper_estimateCost := whisper_estimateCost e;
     whisper_transcribeAudio := whisper_transcribeAudio e;
     langchain_splitText := langchain_splitText e;
     db_insert_transcript := db_insert_transcript e;
     db_insert_chunks := db_insert_chunks e;
     db_delete := db_delete e |}.

Definition some_metadata : Metadata :=
  {| md_title := "Lecture 1"; md_subject := "Physics"; md_description := "" |}.

Definition one_embedded : list EmbeddedChunk :=
  [ with_embedding (mk_chunk 7 "first part" 0 10) [1; 0] ].

(** One chunk stored for the recording [vid]. *)
Definition stored : Result StorageResult * World :=
  storeChunks calm "vid" one_embedded some_metadata empty_world.

Definition failed_video : Video :=
  {| video_id := "vid"; video_title := "Lecture 1"; video_subject := "Physics";
     status := failed; processing_stage := FAILED; processing_progress := 0;
     error_message := Some "Transcription failed: timeout" |}.

Definition other_video_row : Video :=
  {| video_id := "other"; video_title := "Lecture 2"; video_subject := "Physics";
     status := ready; processing_stage := COMPLETED; processing_progress := 100;
     error_message := None |}.

Definition uploaded_video : Video :=
  {| video_id := "vid"; video_title := "Lecture 1"; video_subject := "Physics";
     status := processing; processing_stage := UPLOADING; processing_progress := 5;
     error_message := None |}.

(** A world where the recording [vid] has failed and has left rows in
    every table and a record in the index. *)
Definition failed_world : World :=
  {| videos := [ failed_video; other_video_row ];
     transcripts := [ {| tr_id := 0; tr_video_id := "vid"; tr_full_text := "first part";
                         tr_language := "en" |} ];
     text_chunks := [ chunk_row "vid" 0 (mk_chunk 0 "first part" 0 10);
                      chunk_row "other" 1 (mk_chunk 0 "elsewhere" 0 5) ];
     chat_conversations := [ {| cv_video_id := "vid"; cv_user_message := "what?";
                                cv_ai_response := "this" |} ];
     pinecone_vectors := [ to_vector "vid" some_metadata
                             (with_embedding (mk_chunk 0 "first part" 0 10) [1; 0]) "u0" ];
     pinecone_index := true;
     log := [] |}.

(** A world where the recording [vid] has just been uploaded. *)
Definition uploaded_world : World :=
  {| videos := [ uploaded_video ]; transcripts := []; text_chunks := [];
     chat_conversations := []; pinecone_vectors := []; pinecone_index := true;
     log := [] |}.

Definition with_chunk_insert (f : nat -> option string) (e : Env) : Env :=
  {| openai_embeddings := openai_embeddings e;
     openai_chat := openai_chat e; pinecone_init := pinecone_init e;
     pinecone_query := pinecone_query e; pinecone_upsert := pinecone_upsert e;
     pinecone_deleteMany := pinecone_deleteMany e; uuidv4 := uuidv4 e;
     audio_isVideoFile := audio_isVideoFile e;
     audio_getAudioInfo := audio_getAudioInfo e;
     audio_extractAudio := audio_extractAudio e;
     whisper_estimateCost := whisper_estimateCost e;
     whisper_transcribeAudio := whisper_transcribeAudio e;
     langchain_splitText := langchain_splitText e;
     db_insert_transcript := db_insert_transcript e;
     db_insert_chunks := f;
     db_delete := db_delete e |}.

Definition with_delete (f : nat -> Table -> bool) (e : Env) : Env :=
  {| openai_embeddings := openai_embeddings e;
     openai_chat := openai_chat e; pinecone_init := pinecone_init e;
     pinecone_query := pinecone_query e; pinecone_upsert := pinecone_upsert e;
     pinecone_deleteMany := pinecone_deleteMany e; uuidv4 := uuidv4 e;
     audio_isVideoFile := audio_isVideoFile e;
     audio_getAudioInfo := audio_getAudioInfo e;
     audio_extractAudio := audio_extractAudio e;
     whisper_estimateCost := whisper_estimateCost e;
     whisper_transcribeAudio := whisper_transcribeAudio e;
     langchain_splitText := langchain_splitText e;
     db_insert_transcript := db_insert_transcript e;
     db_insert_chunks := db_insert_chunks e;
     db_delete := f |}.

(** The policies of the migrations: of the four tables, only
    [chat_conversations] has a policy [FOR DELETE]. *)
Definition migrations_allow (table : Table) : bool :=
  match table with
  | ChatConversations => true
  | _ => false
  end.

(** The outside [calm] with a record store that follows the policies
    of the migrations. *)
Definition guarded : Env := with_delete (fun _ => migrations_allow) calm.

(** The outside [calm] with a record store that performs the deletion
    of the transcripts and no other. *)
Definition transcripts_only : Env :=
  with_delete (fun _ table => match table with Transcripts => true | _ => false end) calm.

(** The record store refuses the rows of the chunks. *)
Definition chunks_refused : Env :=
  with_chunk_insert (fun _ => Some "connection lost") calm.

(** The pipeline run for the recording [vid] when it ends so. *)
Definition refused_run : Result ProcessingResult * World :=
  processFile chunks_refused "temp/in.mp4" some_metadata "vid" uploaded_world.

(** The embedding service is rate limited for the first two requests
    (the calls number 0 and 2; call number 1 is the delay between them). *)
Definition flaky : Env :=
  with_embeddings
    (fun t texts => if (t <? 4)%nat then Throw "429 rate limit" else Ok (unit_vectors texts))
    calm.

(** The embedding service refuses every request that carries more than
    one text, and the text [second part] even alone. *)
Definition picky : Env :=
  with_embeddings
    (fun _ texts =>
       match texts with
       | [t] => if String.eqb t "second part" then Throw "400 bad text" else Ok [[1; 0]]
       | _ => Throw "429 rate limit"
       end)
    calm.

End ServerExamples.

(** ** The rest of the services and of the routes

    The options of the chunker as a caller passes them, the shape of
    the texts, the requests and the retries of the two clients, the
    chat and the deletion routes, the statistics and the estimate of
    the cost of the embeddings. *)

Module ChunkerOptions.
Import JS TextChunker.

(** The options as a caller passes them to [validateOptions]: a field
    may be missing, and a number may be negative or fractional. *)
Record RawOptions := {
  raw_chunkSize : option Q;
  raw_overlap : option Q
}.

(** [x || d] where [x] is [undefined] or a number. *)
Definition or_number (x : option Q) (d : Q) : Q :=
  match x with
  | None => d
  | Some q => if Qeq_bool q 0 then d else q
  end.

Record Validation := {
  valid : bool;
  errors : list string;
  warnings : list string
}.

(** [if (cond) { list.push(message); }] *)
Definition push_if (cond : bool) (message : string) (l : list string) : list string :=
  if cond then l ++ [message] else l.

(** [validateOptions] *)
Definition validateOptions (options : RawOptions) : Validation :=
  let chunkSize := or_number (raw_chunkSize options) 1000 in
  let overlap := or_number (raw_overlap options) 200 in
  let errors := push_if (Qlt_bool chunkSize 100)
                        "Chunk size too small (minimum 100 characters)" [] in
  let warnings := push_if (Qlt_bool 4000 chunkSize)
                          "Large chunk size may affect embedding quality" [] in
  let errors := push_if (Qle_bool chunkSize overlap)
                        "Overlap must be smaller than chunk size" errors in
  let errors := push_if (Qlt_bool overlap 0) "Overlap cannot be negative" errors in
  let warnings := push_if (Qlt_bool (chunkSize * (1 # 2)) overlap)
                          "Large overlap may cause excessive duplication" warnings in
  {| valid := (List.length errors =? 0)%nat; errors := errors; warnings := warnings |}.

(** The object [getOptimalParameters] returns, as [validateOptions]
    reads it. *)
Definition as_raw (options : Options) : RawOptions :=
  {| raw_chunkSize := Some (inject_Z (Z.of_nat (opt_chunkSize options)));
     raw_overlap := Some (inject_Z (Z.of_nat (opt_overlap options))) |}.

End ChunkerOptions.

Module Words.
Import JS.

(** The number of maximal runs of characters that are not white space
    which begin in [s]; [in_word] tells whether the character before
    [s] belongs to such a run. *)
Fixpoint word_starts (in_word : bool) (s : string) : nat :=
  match s with
  | EmptyString => 0
  | String c rest =>
      if is_space c then word_starts false rest
      else (if in_word then 0 else 1) + word_starts true rest
  end.

(** [word => word.length > 0] *)
Definition nonempty (word : string) : bool := (0 <? String.length word)%nat.

End Words.

Module TextShape.
Import JS.

(** Every white-space character of [s] is a plain blank. *)
Definition plain_blanks (s : string) : bool :=
  all_chars (fun c => negb (is_space c) || Ascii.eqb c " ") s.

(** No two blanks follow each other in [s]; [after_blank] tells whether
    the character before [s] is a blank. *)
Fixpoint single_blanks (after_blank : bool) (s : string) : bool :=
  match s with
  | EmptyString => true
  | String c rest =>
      if Ascii.eqb c " " then negb after_blank && single_blanks true rest
      else single_blanks false rest
  end.

Definition starts_with_space (s : string) : bool :=
  match s with
  | String c _ => is_space c
  | EmptyString => false
  end.

End TextShape.

Module EmbeddingExamples.
Import JS TextChunker ServerExamples.

(** 8000 blanks. *)
Definition blank_8000 : string := repeat_char " " 8000.

(** A chunk whose text is 8000 blanks and a letter. *)
Definition long_blank_chunk : Chunk := mk_chunk 0 (blank_8000 ++ "x") 0 10.

End EmbeddingExamples.

Module Requests.
Import Server.

Definition is_request (e : Event) : bool :=
  match e with
  | EmbeddingsCreate _ => true
  | _ => false
  end.

(** The requests to the embedding model among some events. *)
Definition requests_of (events : list Event) : list Event := filter is_request events.

(** What the embedding service may add to the log: a request that
    carries between one text and a batch of them, or a delay. *)
Definition embedding_event (e : Event) : Prop :=
  match e with
  | EmbeddingsCreate texts => (0 < List.length texts <= batchSize)%nat
  | Delay _ => True
  | _ => False
  end.

(** The computation touches nothing but the log, where it adds events
    that satisfy [P], at most [n] requests among them. *)
Definition logs_only (P : Event -> Prop) (n : nat) (w w' : World) : Prop :=
  exists added,
    w' = set_log (log w ++ added) w /\ Forall P added /\
    (List.length (requests_of added) <= n)%nat.

Definition emits {A} (P : Event -> Prop) (n : nat) (m : M A) : Prop :=
  forall w r w', m w = (r, w') -> logs_only P n w w'.

End Requests.

Module Fallback.
Import JS TextChunker Server.

(** What [processIndividually] does with the chunks when its first
    request is the call number [t].  For each chunk in turn: the
    request for its text alone, sent again [k] times, each time after
    the request before it has failed; the chunk gets the first vector
    of the answer to the last request, and a delay of 200 ms follows;
    or it gets no vector and the message of the error, which is the
    error of the last of the four requests or the one of reading an
    answer that holds no vector.  [added] is what the log gains. *)
Fixpoint submitted (env : Env) (chunks : list Chunk) (results : list EmbeddedChunk)
         (t : nat) (added : list Event) : Prop :=
  match chunks, results with
  | [], [] => added = []
  | chunk :: chunks', result :: results' =>
      let texts := [prepareTextForEmbedding (text chunk)] in
      exists k rest,
        (k <= maxRetries)%nat /\
        (forall j, (j < k)%nat ->
                   exists e, openai_embeddings env (t + 2 * j) texts = Throw e) /\
        match openai_embeddings env (t + 2 * k) texts with
        | Ok (e :: _) =>
            result = with_embedding chunk e /\
            added = EmbeddingsCreate texts :: retries_log texts 0 k ++ Delay 200 :: rest /\
            submitted env chunks' results' (t + 2 * k + 2) rest
        | Ok [] =>
            result = without_embedding chunk undefined_embedding /\
            added = EmbeddingsCreate texts :: retries_log texts 0 k ++ rest /\
            submitted env chunks' results' (t + 2 * k + 1) rest
        | Throw message =>
            k = maxRetries /\
            result = without_embedding chunk message /\
            added = EmbeddingsCreate texts :: retries_log texts 0 k ++ rest /\
            submitted env chunks' results' (t + 2 * k + 1) rest
        end
  | _, _ => False
  end.

(** The request that carries one text. *)
Definition single_request (e : Event) : Prop :=
  forall texts, e = EmbeddingsCreate texts -> List.length texts = 1%nat.

End Fallback.

Module Retries.
Import Server.

(** The calls of [upsertVectors] that follow the first one when it
    retries [k] times from the retry count [i]. *)
Fixpoint upsert_retries (vectors : list Vector) (i k : nat) : list Event :=
  match k with
  | O => []
  | S k' =>
      Delay (pinecone_retryDelay * 2 ^ N.of_nat i) :: PineconeUpsert vectors
        :: upsert_retries vectors (S i) k'
  end.

(** What an upsert that ended with [r] leaves in the index. *)
Definition after_upsert (vectors : list Vector) (r : Result unit) (stored : list Vector)
  : list Vector :=
  match r with
  | Ok _ => upsert_into vectors stored
  | Throw _ => stored
  end.

End Retries.

Module Storage.
Import Server.

(** Every upsert fails, whenever it is asked and whatever the batch. *)
Definition upserts_fail (env : Env) : Prop :=
  forall t vectors, exists message, pinecone_upsert env t vectors = Throw message.

End Storage.

Module Frames.
Import Server.

(** The row [v'] stands where [v] stood, and is [v] itself unless [v]
    is the row of the recording [videoId]. *)
Definition same_row_but (videoId : string) (v v' : Video) : Prop :=
  video_id v' = video_id v /\ (video_id v <> videoId -> v' = v).

(** The record store is the same in both worlds. *)
Definition store_same (w w' : World) : Prop :=
  videos w' = videos w /\
  transcripts w' = transcripts w /\
  text_chunks w' = text_chunks w /\
  chat_conversations w' = chat_conversations w.

(** The computation leaves the record store alone. *)
Definition still {A} (m : M A) : Prop :=
  forall w r w', m w = (r, w') -> store_same w w'.

(** The row [saveToDatabase] inserts into [transcripts]. *)
Definition transcript_row (videoId : string) (transcriptionResult : Transcription)
           (w : World) : TranscriptRow :=
  {| tr_id := List.length (transcripts w);
     tr_video_id := videoId;
     tr_full_text := tn_text transcriptionResult;
     tr_language := match tn_language transcriptionResult with
                    | EmptyString => "en"
                    | l => l
                    end |}.

Definition has_embedding (c : EmbeddedChunk) : bool :=
  match embedding c with
  | Some _ => true
  | None => false
  end.

End Frames.

Module PipelineExamples.
Import Server ServerExamples.

(** The pipeline run for the recording [vid] when every service answers. *)
Definition calm_run : Result ProcessingResult * World :=
  processFile calm "temp/in.mp4" some_metadata "vid" uploaded_world.

End PipelineExamples.

Module Routes.
Import JS TextChunker Chat Server.
Local Open Scope js_scope.

(** The body of a request to [POST /api/chat]: the message is [None]
    when it is missing or is not a string, and the recording id is
    empty when it is missing. *)
Record ChatBody := {
  body_message : option string;
  body_videoId : string
}.

(** What the route answers: an error with its code, the refusal of a
    recording that is not ready (sent with code 400), or the answer. *)
Inductive ChatReply :=
| ChatError (code : nat) (error : string)
| ChatNotReady (error : string) (processingStage : Stage)
| ChatAnswer (response : string) (timestamps : list Citation) (sources : list Source).

Definition status_name (s : Status) : string :=
  match s with
  | processing => "processing"
  | ready => "ready"
  | failed => "failed"
  end.

Definition exchange (videoId userMessage : string) (aiResponse : RagResponse)
  : ConversationRow :=
  {| cv_video_id := videoId; cv_user_message := userMessage;
     cv_ai_response := rag_text aiResponse |}.

(** What the deletion of the row of a recording leaves, the other
    tables being declared [ON DELETE CASCADE]: the rows that belong to
    other recordings, without the chunks that hang on a transcript of
    the recording. *)
Definition delete_cascade (videoId : string) (w : World) : World :=
  set_videos (filter (other_video video_id videoId) (videos w))
    (set_transcripts (filter (other_video tr_video_id videoId) (transcripts w))
       (set_text_chunks (chunks_left videoId true true w)
          (set_chat_conversations
             (filter (other_video cv_video_id videoId) (chat_conversations w)) w))).

Section WithEnv.
Variable env : Env.

(** The answers of the record store to the two requests of
    [saveConversation]: the code of the error of the select, and the
    message of the error of the insert, when there is one. *)
Variable selectError : option string.
Variable insertError : option string.

(** [ensureChatConversationsTable] *)
Definition ensureChatConversationsTable : M unit :=
  try_catch
    (match selectError with
     | Some code =>
         if String.eqb code "42P01"
         then throw "chat_conversations table not found. Please run: supabase db reset or supabase migration up"
         else ret tt
     | None => ret tt
     end)
    (fun error => throw error).

(** [saveConversation].  The identifiers of the conversation and of the
    row are left out. *)
Definition saveConversation (videoId userMessage : string) (aiResponse : RagResponse)
  : M unit :=
  try_catch
    (ensureChatConversationsTable;;
     match insertError with
     | Some message => throw ("Conversation save failed: " ++ message)
     | None =>
         modify (fun w => set_chat_conversations
                            (chat_conversations w ++ [exchange videoId userMessage aiResponse])
                            w)
     end)
    (fun error => throw error).

(** The message of the error of the look-up of the recording, when it
    fails for another reason than a missing row. *)
Variable videoError : option string.

(** The handler of [POST /api/chat].  The look-up of the recording is
    answered by the table [videos], unless it fails. *)
Definition chat (body : ChatBody) : M ChatReply :=
  try_catch
    (match body_message body with
     | None => ret (ChatError 400 "Message is required")
     | Some message =>
         if (String.length message =? 0)%nat || (String.length (trim message) =? 0)%nat
         then ret (ChatError 400 "Message is required")
         else
           match body_videoId body with
           | EmptyString => ret (ChatError 400 "Video ID is required")
           | videoId =>
               w <- get;;
               match videoError with
               | Some message => throw message
               | None =>
                   match find (fun v => String.eqb (video_id v) videoId) (videos w) with
                   | None => ret (ChatError 404 "Video not found")
                   | Some videoData =>
                       match status videoData with
                       | ready =>
                           response <- generateRAGResponse env message videoId
                                         {| vd_title := video_title videoData;
                                            vd_subject := video_subject videoData |};;
                           saveConversation videoId message response;;
                           ret (ChatAnswer (rag_text response) (rag_timestamps response)
                                           (rag_sources response))
                       | s =>
                           ret (ChatNotReady
                                  ("Video is not ready for chat. Current status: "
                                     ++ status_name s)
                                  (processing_stage videoData))
                       end
                   end
               end
           end
     end)
    (fun error => ret (ChatError 500 error)).

(** The answer of the record store to the deletion of the row of a
    recording: the message of the error, when there is one.  Without an
    error the row and what hangs on it go when the record store performs
    the deletion ([db_delete]). *)
Variable deleteError : option string.

(** The handler of [DELETE /api/upload/:videoId]. *)
Definition deleteVideo (videoId : string) : M Response :=
  try_catch
    (try_catch (deleteVideoVectors env videoId;; ret tt) (fun _ => ret tt);;
     match deleteError with
     | Some message => throw ("Database deletion failed: " ++ message)
     | None =>
         delete_rows env Videos (delete_cascade videoId);;
         ret {| http_status := 200; http_success := true;
                http_message := "Video deleted successfully" |}
     end)
    (fun error =>
       ret {| http_status := 500; http_success := false; http_message := error |}).

End WithEnv.

End Routes.

Module RouteExamples.
Import Server ServerExamples Routes.

(** A question about the recording [vid]. *)
Definition question : ChatBody :=
  {| body_message := Some "what is it?"; body_videoId := "vid" |}.

(** A question about the recording [other]. *)
Definition other_question : ChatBody :=
  {| body_message := Some "what is it?"; body_videoId := "other" |}.

End RouteExamples.

Module Stats.
Import JS TextChunker Server Routes.

(** The object [counts] of [GET /api/upload/stats]. *)
Record StatusCounts := {
  count_total : nat;
  count_ready : nat;
  count_processing : nat;
  count_failed : nat
}.

(** [counts[video.status] = (counts[video.status] || 0) + 1] *)
Definition count_status (counts : StatusCounts) (video : Video) : StatusCounts :=
  match status video with
  | ready =>
      {| count_total := count_total counts; count_ready := count_ready counts + 1;
         count_processing := count_processing counts; count_failed := count_failed counts |}
  | processing =>
      {| count_total := count_total counts; count_ready := count_ready counts;
         count_processing := count_processing counts + 1;
         count_failed := count_failed counts |}
  | failed =>
      {| count_total := count_total counts; count_ready := count_ready counts;
         count_processing := count_processing counts;
         count_failed := count_failed counts + 1 |}
  end.

(** The counts by status of the two stats routes. *)
Definition statusCounts (rows : list Video) : StatusCounts :=
  fold_left count_status rows
            {| count_total := List.length rows; count_ready := 0;
               count_processing := 0; count_failed := 0 |}.

Definition stage_eqb (a b : Stage) : bool :=
  match a, b with
  | UPLOADING, UPLOADING | EXTRACTING_AUDIO, EXTRACTING_AUDIO
  | TRANSCRIBING, TRANSCRIBING | CHUNKING, CHUNKING | EMBEDDING, EMBEDDING
  | STORING, STORING | COMPLETED, COMPLETED | FAILED, FAILED => true
  | _, _ => false
  end.

(** [videoStats.byStage[video.processing_stage] =
      (videoStats.byStage[video.processing_stage] || 0) + 1] *)
Definition count_stage (byStage : Stage -> nat) (video : Video) : Stage -> nat :=
  fun stage =>
    if stage_eqb stage (processing_stage video) then (byStage stage + 1)%nat
    else byStage stage.

(** The object [videoStats.byStage] of [GET /api/processing/stats]; a
    stage that is no key of the object counts 0. *)
Definition byStage (rows : list Video) : Stage -> nat :=
  fold_left count_stage rows (fun _ => 0%nat).

Definition all_stages : list Stage :=
  [ UPLOADING; EXTRACTING_AUDIO; TRANSCRIBING; CHUNKING; EMBEDDING; STORING;
    COMPLETED; FAILED ].

(** The counts of all the stages together. *)
Definition stage_sum (f : Stage -> nat) : nat := list_sum (map f all_stages).

End Stats.

Module Costs.
Import JS TextChunker Server.

(** [chunk.text ? chunk.text.split(/\s+/).length : 0] *)
Definition tokens (chunk : Chunk) : nat :=
  match text chunk with
  | EmptyString => 0
  | t => List.length (split_ws t)
  end.

(** [totalTokens] of [EmbeddingService.estimateCost] *)
Definition totalTokens (chunks : list Chunk) : nat :=
  fold_left (fun sum chunk => (sum + tokens chunk)%nat) chunks 0%nat.

(** [estimatedCostUSD] of [EmbeddingService.estimateCost] *)
Definition estimatedCostUSD (chunks : list Chunk) : Q :=
  inject_Z (Z.of_nat (totalTokens chunks)) / 1000 * (2 # 100000).

End Costs.

(* ================================================================== *)
(** * Properties *)

(** ** The chunker *)

Section ChunkerFacts.
Import JS TextChunker.

Lemma or0_eq (x : Q) : or0 x == x.
Proof.
  unfold or0. destruct (Qeq_bool x 0) eqn:E.
  - apply Qeq_bool_iff in E. symmetry. exact E.
  - reflexivity.
Qed.

Lemma last_cons {A} (a d : A) (l : list A) : last (a :: l) d = last l a.
Proof.
  revert a d. induction l as [|b l IH]; intros a d; [reflexivity|].
  change (last (a :: b :: l) d) with (last (b :: l) d).
  rewrite (IH b d), (IH b a). reflexivity.
Qed.

Lemma picked_cons lo hi pos s rest :
  picked lo hi pos (s :: rest) =
  let e := (pos + Z.of_nat (String.length (seg_text s)))%Z in
  if ((e >? lo) && (pos <? hi))%Z
  then s :: picked lo hi e rest
  else picked lo hi e rest.
Proof.
  unfold picked. simpl.
  destruct ((pos + Z.of_nat (String.length (seg_text s)) >? lo)%Z && (pos <? hi)%Z);
    reflexivity.
Qed.

Lemma overlapping_picked lo hi segments :
  overlapping lo hi segments = picked lo hi 0 segments.
Proof. reflexivity. Qed.

(** The loop computes the head, the last element, the sum and the
    length of the list of picked segments. *)
Lemma walk_spec lo hi segments : forall w,
  let w' := fold_left (walk_step lo hi) segments w in
  let ov := picked lo hi (currentPos w) segments in
  startTime w' = match startTime w with
                 | Some t => Some t
                 | None => hd_error (map seg_start ov)
                 end /\
  endTime w' = match ov with
               | [] => endTime w
               | x :: r => Some (seg_end (last r x))
               end /\
  totalConfidence w' == totalConfidence w + Qsum (map seg_confidence ov) /\
  segmentCount w' = (segmentCount w + List.length ov)%nat.
Proof.
  induction segments as [|s rest IH]; intros w; cbn zeta.
  - cbn. repeat split.
    + destruct (startTime w); reflexivity.
    + ring.
    + lia.
  - rewrite picked_cons. cbn [fold_left]. cbn zeta.
    specialize (IH (walk_step lo hi w s)).
    cbn zeta in IH. destruct IH as (Hs & He & Ht & Hc).
    rewrite Hs, He, Ht, Hc. clear Hs He Ht Hc.
    unfold walk_step.
    destruct ((currentPos w + Z.of_nat (String.length (seg_text s)) >? lo)%Z
              && (currentPos w <? hi)%Z); cbn.
    + repeat split.
      * destruct (startTime w); reflexivity.
      * destruct (picked lo hi _ rest); [reflexivity|].
        rewrite last_cons. reflexivity.
      * rewrite or0_eq. unfold Qsum. cbn [map fold_right]. ring.
      * lia.
    + repeat split; reflexivity.
Qed.

Lemma findSegmentAt_spec p : forall segments pos,
  findSegmentAt p pos segments =
  match find (holds p) (with_offsets pos segments) with
  | Some x =>
      {| ts_start := seg_start (placed_segment x);
         ts_end := seg_end (placed_segment x);
         ts_confidence := or0 (seg_confidence (placed_segment x)) * (7 # 10) |}
  | None => no_timestamps
  end.
Proof.
  induction segments as [|s rest IH]; intros pos; [reflexivity|].
  cbn [findSegmentAt with_offsets find holds].
  destruct ((p >=? pos)%Z && (p <? pos + Z.of_nat (String.length (seg_text s)))%Z).
  - reflexivity.
  - apply IH.
Qed.

Lemma ts_equiv_refl t : ts_equiv t t.
Proof. repeat split; reflexivity. Qed.

(** The loop of [mapChunkToTimestamps] and the procedure worded after the
    specification give the same time range and confidence. *)
Lemma mapChunkToTimestamps_equiv (chunk fullText : string) (segments : list Segment) :
  ts_equiv (mapChunkToTimestamps chunk fullText segments)
           (reconcile_spec chunk fullText segments).
Proof.
  unfold mapChunkToTimestamps, reconcile_spec.
  destruct segments as [|s0 rest0].
  - cbn. repeat match goal with |- context [if ?b then _ else _] => destruct b end;
      apply ts_equiv_refl.
  - remember (s0 :: rest0) as segments eqn:Hseg. clear Hseg.
    cbn zeta.
    destruct (indexOf fullText (trim chunk) =? -1)%Z.
    + unfold findApproximateTimestamps, slice0. cbn zeta.
      destruct (indexOf fullText (join " " (firstn 5 (split_ws (trim chunk)))) =? -1)%Z;
        [apply ts_equiv_refl|].
      rewrite findSegmentAt_spec.
      destruct (find _ _); [|apply ts_equiv_refl].
      repeat split; cbn; try reflexivity.
      rewrite or0_eq. reflexivity.
    + pose proof (walk_spec (indexOf fullText (trim chunk))
                    (indexOf fullText (trim chunk) + Z.of_nat (String.length chunk))
                    segments walk_init) as H.
      cbn zeta in H. destruct H as (Hs & He & Ht & Hc).
      change (picked _ _ (currentPos walk_init) segments)
        with (overlapping (indexOf fullText (trim chunk))
                (indexOf fullText (trim chunk) + Z.of_nat (String.length chunk))
                segments) in *.
      destruct (overlapping _ _ segments) as [|x r].
      * cbn in Hs, He, Hc. rewrite Hs, He, Hc. cbn. apply ts_equiv_refl.
      * cbn in Hs, He, Hc. rewrite Hs, He, Hc.
        repeat split; cbn [ts_start ts_end ts_confidence null_or0].
        -- apply or0_eq.
        -- apply or0_eq.
        -- replace (0 <? S (List.length r))%nat with true
             by (symmetry; apply Nat.ltb_lt; lia).
           unfold average. rewrite Ht. cbn [totalConfidence walk_init].
           rewrite length_map. cbn [List.length].
           rewrite Qplus_0_l. reflexivity.
Qed.

(** C4. Timestamp reconciliation is the three-step procedure of the
    specification: the exact locate of the trimmed chunk with the
    first and last overlapping segments and the average of their
    confidences; failing that, the locate of the first five words with
    the one segment that holds the position and its confidence times
    0.7; failing that, and wherever no segment is met, the default
    [{start: 0, end: 0, confidence: 0}].  The function is total: there
    is no input on which it raises an error. *)
Theorem reconcile_refines_spec (chunk fullText : string) (segments : list Segment) :
  let result := mapChunkToTimestamps chunk fullText segments in
  let exact := indexOf fullText (trim chunk) in
  let fuzzy := indexOf fullText (join " " (firstn 5 (split_ws (trim chunk)))) in
  ts_equiv result (reconcile_spec chunk fullText segments) /\
  (exact <> (-1)%Z ->
   forall first others,
     overlapping exact (exact + Z.of_nat (String.length chunk)) segments = first :: others ->
     ts_start result == seg_start first /\
     ts_end result == seg_end (last others first) /\
     ts_confidence result == average (map seg_confidence (first :: others))) /\
  (exact <> (-1)%Z ->
   overlapping exact (exact + Z.of_nat (String.length chunk)) segments = [] ->
   ts_equiv result no_timestamps) /\
  (exact = (-1)%Z -> fuzzy <> (-1)%Z ->
   forall x, find (holds fuzzy) (with_offsets 0 segments) = Some x ->
     ts_start result == seg_start (placed_segment x) /\
     ts_end result == seg_end (placed_segment x) /\
     ts_confidence result == seg_confidence (placed_segment x) * (7 # 10)) /\
  (exact = (-1)%Z -> fuzzy <> (-1)%Z ->
   find (holds fuzzy) (with_offsets 0 segments) = None ->
   ts_equiv result no_timestamps) /\
  (exact = (-1)%Z -> fuzzy = (-1)%Z -> ts_equiv result no_timestamps).
Proof.
  cbn zeta.
  pose proof (mapChunkToTimestamps_equiv chunk fullText segments) as H.
  split; [exact H|].
  unfold reconcile_spec in H.
  split; [|split; [|split; [|split]]].
  - intros Hex first others Hov.
    apply Z.eqb_neq in Hex. rewrite Hex, Hov in H. exact H.
  - intros Hex Hov. apply Z.eqb_neq in Hex. rewrite Hex, Hov in H. exact H.
  - intros Hex Hfz x Hx.
    apply Z.eqb_eq in Hex. apply Z.eqb_neq in Hfz. rewrite Hex, Hfz, Hx in H. exact H.
  - intros Hex Hfz Hx.
    apply Z.eqb_eq in Hex. apply Z.eqb_neq in Hfz. rewrite Hex, Hfz, Hx in H. exact H.
  - intros Hex Hfz.
    apply Z.eqb_eq in Hex. apply Z.eqb_eq in Hfz. rewrite Hex, Hfz in H. exact H.
Qed.

(** *** Order in time *)

Lemma picked_in lo hi : forall segments pos x,
  In x (picked lo hi pos segments) -> In x segments.
Proof.
  induction segments as [|s rest IH]; intros pos x; [intros []|].
  rewrite picked_cons. cbn zeta.
  destruct (_ && _)%bool; cbn [In]; intros H.
  - destruct H as [H|H]; [left; exact H | right; eapply IH; exact H].
  - right. eapply IH. exact H.
Qed.

Lemma picked_sorted lo hi : forall segments pos,
  starts_sorted segments -> starts_sorted (picked lo hi pos segments).
Proof.
  unfold starts_sorted.
  induction segments as [|s rest IH]; intros pos Hs; [constructor|].
  apply StronglySorted_inv in Hs. destruct Hs as [Hrest Hall].
  rewrite picked_cons. cbn zeta.
  destruct (_ && _)%bool.
  - constructor; [apply IH; exact Hrest|].
    rewrite Forall_forall in *. intros x Hx.
    apply Hall. eapply picked_in. exact Hx.
  - apply IH. exact Hrest.
Qed.

Lemma find_holds_in p : forall segments pos x,
  find (holds p) (with_offsets pos segments) = Some x ->
  In (placed_segment x) segments.
Proof.
  induction segments as [|s rest IH]; intros pos x; [discriminate|].
  cbn [with_offsets find holds].
  destruct (_ && _)%bool.
  - intros [= <-]. left. reflexivity.
  - intros H. right. eapply IH. exact H.
Qed.

Lemma sorted_head_last (l : list Segment) (a : Segment) :
  starts_sorted (a :: l) -> seg_start a <= seg_start (last l a).
Proof.
  intros Hs. apply StronglySorted_inv in Hs. destruct Hs as [_ Hall].
  destruct l as [|b l]; [apply Qle_refl|].
  rewrite Forall_forall in Hall. apply Hall.
  clear Hall. revert b. induction l as [|c l IH]; intros b.
  - left. reflexivity.
  - change (last (b :: c :: l) a) with (last (c :: l) a).
    right. apply IH.
Qed.

Lemma last_in (l : list Segment) (a : Segment) : In (last l a) (a :: l).
Proof.
  revert a. induction l as [|b l IH]; intros a; [left; reflexivity|].
  rewrite last_cons. right. apply IH.
Qed.

(** A chunk never ends before it starts, whatever the text. *)
Lemma mapChunkToTimestamps_span (chunk fullText : string) (segments : list Segment) :
  starts_sorted segments -> well_formed segments ->
  ts_start (mapChunkToTimestamps chunk fullText segments) <=
  ts_end (mapChunkToTimestamps chunk fullText segments).
Proof.
  intros Hsorted Hwf.
  destruct (mapChunkToTimestamps_equiv chunk fullText segments) as (Hs & He & _).
  rewrite Hs, He. clear Hs He.
  unfold well_formed in Hwf. rewrite Forall_forall in Hwf.
  unfold reconcile_spec.
  destruct (indexOf fullText (trim chunk) =? -1)%Z.
  - destruct (_ =? -1)%Z; [apply Qle_refl|].
    destruct (find _ _) as [x|] eqn:Hf; [|apply Qle_refl].
    cbn. apply Hwf. eapply find_holds_in. exact Hf.
  - destruct (overlapping _ _ segments) as [|x r] eqn:Hov; [apply Qle_refl|].
    cbn.
    assert (Hsub : starts_sorted (x :: r)).
    { rewrite <- Hov. apply picked_sorted. exact Hsorted. }
    apply Qle_trans with (seg_start (last r x)).
    + apply sorted_head_last. exact Hsub.
    + apply Hwf.
      apply (picked_in (indexOf fullText (trim chunk))
               (indexOf fullText (trim chunk) + Z.of_nat (String.length chunk))
               segments 0%Z).
      rewrite <- overlapping_picked, Hov. apply last_in.
Qed.

Lemma first_picked_mono lo1 hi1 lo2 hi2 : forall segments pos f1 r1 f2 r2,
  starts_sorted segments ->
  (pos <= lo1)%Z -> (lo1 <= lo2)%Z -> (lo1 < hi1)%Z ->
  picked lo1 hi1 pos segments = f1 :: r1 ->
  picked lo2 hi2 pos segments = f2 :: r2 ->
  seg_start f1 <= seg_start f2.
Proof.
  induction segments as [|s rest IH]; intros pos f1 r1 f2 r2 Hs Hpos Hlo Hhi;
    [discriminate|].
  apply StronglySorted_inv in Hs. destruct Hs as [Hrest Hall].
  rewrite Forall_forall in Hall.
  rewrite !picked_cons. cbn zeta.
  set (e := (pos + Z.of_nat (String.length (seg_text s)))%Z).
  destruct (Z.gtb_spec e lo1) as [E1|E1].
  - replace (pos <? hi1)%Z with true by (symmetry; apply Z.ltb_lt; lia).
    cbn [andb]. intros [= <- _].
    destruct ((e >? lo2)%Z && (pos <? hi2)%Z).
    + intros [= <- _]. apply Qle_refl.
    + intros H2. apply Hall. apply (picked_in lo2 hi2 rest e).
      rewrite H2. left. reflexivity.
  - destruct (Z.gtb_spec e lo2) as [E2|E2]; [lia|].
    cbn [andb]. apply IH; try assumption; lia.
Qed.

Lemma picked_nonempty lo hi : forall segments pos,
  (pos <= lo)%Z -> (lo < hi)%Z -> (lo < pos + covered segments)%Z ->
  picked lo hi pos segments <> [].
Proof.
  induction segments as [|s rest IH]; intros pos Hpos Hhi Hcov.
  - cbn in Hcov. lia.
  - rewrite picked_cons. cbn zeta. cbn [covered fold_right] in Hcov.
    fold (covered rest) in Hcov.
    destruct (Z.gtb_spec (pos + Z.of_nat (String.length (seg_text s))) lo) as [E|E].
    + replace (pos <? hi)%Z with true by (symmetry; apply Z.ltb_lt; lia).
      discriminate.
    + cbn [andb]. apply IH; lia.
Qed.

(** The start of a chunk that the exact locate finds among the
    segments is the start of the first segment it overlaps. *)
Lemma located_start (chunk fullText : string) (segments : list Segment) :
  (0 < String.length chunk)%nat ->
  (0 <= locate fullText chunk < covered segments)%Z ->
  exists f r,
    picked (locate fullText chunk)
           (locate fullText chunk + Z.of_nat (String.length chunk)) 0 segments = f :: r /\
    ts_start (mapChunkToTimestamps chunk fullText segments) == seg_start f.
Proof.
  intros Hlen Hloc.
  destruct (mapChunkToTimestamps_equiv chunk fullText segments) as (Hs & _).
  unfold reconcile_spec in Hs. fold (locate fullText chunk) in Hs.
  replace (locate fullText chunk =? -1)%Z with false in Hs
    by (symmetry; apply Z.eqb_neq; lia).
  rewrite overlapping_picked in Hs.
  pose proof (picked_nonempty (locate fullText chunk)
                (locate fullText chunk + Z.of_nat (String.length chunk))
                segments 0%Z) as Hne.
  destruct (picked _ _ 0 segments) as [|f r].
  - exfalso. apply Hne; [lia | lia | lia | reflexivity].
  - exists f, r. split; [reflexivity | exact Hs].
Qed.

Lemma mapChunkToTimestamps_mono (a b fullText : string) (segments : list Segment) :
  starts_sorted segments ->
  (0 < String.length a)%nat -> (0 <= locate fullText a < covered segments)%Z ->
  (0 < String.length b)%nat -> (0 <= locate fullText b < covered segments)%Z ->
  (locate fullText a <= locate fullText b)%Z ->
  ts_start (mapChunkToTimestamps a fullText segments) <=
  ts_start (mapChunkToTimestamps b fullText segments).
Proof.
  intros Hs Ha Hla Hb Hlb Hab.
  destruct (located_start a fullText segments Ha Hla) as (fa & ra & Hpa & Hsa).
  destruct (located_start b fullText segments Hb Hlb) as (fb & rb & Hpb & Hsb).
  rewrite Hsa, Hsb.
  eapply (first_picked_mono _ _ _ _ segments 0%Z); eauto; lia.
Qed.

Lemma Forall_mapi_from {A B} (P : B -> Prop) (f : A -> nat -> B) :
  forall (xs : list A) (i : nat),
    (forall x j, In x xs -> P (f x j)) -> Forall P (mapi_from i f xs).
Proof.
  induction xs as [|x xs IH]; intros i H; cbn; constructor.
  - apply H. left. reflexivity.
  - apply IH. intros y j Hy. apply H. right. exact Hy.
Qed.

(** C3, as amended. When the segments start in non-decreasing order
    and none ends before it starts, every chunk starts no later than
    it ends; and when moreover the exact locate finds every chunk text,
    not empty, among the segments, at offsets that do not decrease, the
    chunks start in non-decreasing order. *)
Theorem chunk_times_ordered
        (splitText : nat -> nat -> string -> list string)
        (fullText : string) (segments : list Segment) (options : Options) :
  starts_sorted segments ->
  well_formed segments ->
  chunk_spans_ordered (chunkText splitText fullText segments options) /\
  (located_in_order fullText segments
     (splitText (or_default (opt_chunkSize options) defaultChunkSize)
                (or_default (opt_overlap options) defaultOverlap) fullText) ->
   chunk_starts_sorted (chunkText splitText fullText segments options)).
Proof.
  intros Hsorted Hwf.
  unfold chunkText. cbn zeta.
  set (textChunks := splitText _ _ fullText) in *. clearbody textChunks.
  unfold mapi. split.
  - apply Forall_mapi_from. intros x j _. cbn.
    apply mapChunkToTimestamps_span; assumption.
  - intros [Hord Hloc].
    unfold chunk_starts_sorted. generalize 0%nat.
    induction textChunks as [|c rest IH]; intros i; [constructor|].
    apply StronglySorted_inv in Hord. destruct Hord as [Hrest Hall].
    apply Forall_cons_iff in Hloc. destruct Hloc as [[Hc1 Hc2] Hlrest].
    cbn [mapi_from]. constructor.
    + apply IH; assumption.
    + apply Forall_mapi_from. intros x j Hx. cbn.
      rewrite Forall_forall in Hall, Hlrest.
      destruct (Hlrest x Hx) as [Hx1 Hx2].
      apply mapChunkToTimestamps_mono; auto.
Qed.

Import ChunkerExamples.

Lemma chunk_times_ordered_witness :
  chunk_spans_ordered (chunkText plain_split plain_text plain_segments small_options) /\
  chunk_starts_sorted (chunkText plain_split plain_text plain_segments small_options).
Proof.
  destruct (chunk_times_ordered plain_split plain_text plain_segments small_options)
    as [Hspan Hsorted].
  - repeat constructor; vm_compute; discriminate.
  - repeat constructor; vm_compute; discriminate.
  - split; [exact Hspan|]. apply Hsorted.
    split; repeat constructor; vm_compute; try discriminate; reflexivity.
Defined.

(** C3, as stated, fails: with segments that start in non-decreasing
    order, a chunk whose text also occurs earlier in the transcript is
    located at the earlier occurrence, and starts before its
    predecessor. *)
Lemma chunk_order_counterexample :
  starts_sorted refrain_segments /\
  well_formed refrain_segments /\
  map chunk_startTime
      (chunkText refrain_split refrain_text refrain_segments small_options)
    = [10; 20; 10] /\
  ~ chunk_starts_sorted
      (chunkText refrain_split refrain_text refrain_segments small_options).
Proof.
  split; [repeat constructor; vm_compute; discriminate|].
  split; [repeat constructor; vm_compute; discriminate|].
  split; [vm_compute; reflexivity|].
  intros H.
  apply StronglySorted_inv in H. destruct H as [H _].
  apply StronglySorted_inv in H. destruct H as [_ H].
  apply Forall_inv in H. vm_compute in H. apply H. reflexivity.
Qed.

End ChunkerFacts.

(** ** Time strings and citations *)

Section ChatFacts.
Import JS Chat ChatExamples Tokens.

(** *** Splitting and decimal digits *)

Lemma all_chars_app p a b :
  all_chars p (a ++ b) = all_chars p a && all_chars p b.
Proof.
  induction a as [|c a IH]; cbn; [reflexivity|].
  rewrite IH, andb_assoc. reflexivity.
Qed.

Lemma append_assoc (a b c : string) : ((a ++ b) ++ c = a ++ (b ++ c))%string.
Proof. induction a as [|x a IH]; cbn; [reflexivity | rewrite IH; reflexivity]. Qed.

Lemma append_nil_r (a : string) : (a ++ "" = a)%string.
Proof. induction a as [|x a IH]; cbn; [reflexivity | rewrite IH; reflexivity]. Qed.

Lemma rev_string_acc s : forall acc,
  rev_string acc s = (rev_string "" s ++ acc)%string.
Proof.
  induction s as [|c s IH]; intros acc; cbn; [reflexivity|].
  rewrite IH, (IH (String c "")), append_assoc. reflexivity.
Qed.

Lemma split_char_last sep a : forall cur,
  all_chars (fun c => negb (Ascii.eqb c sep)) a = true ->
  split_char sep cur a = [(rev_string "" cur ++ a)%string].
Proof.
  induction a as [|c a IH]; intros cur H; cbn in *.
  - rewrite append_nil_r. reflexivity.
  - apply andb_prop in H. destruct H as [Hc Ha].
    apply negb_true_iff in Hc. rewrite Hc, (IH _ Ha).
    cbn. rewrite rev_string_acc, append_assoc. reflexivity.
Qed.

Lemma split_char_app sep a b : forall cur,
  all_chars (fun c => negb (Ascii.eqb c sep)) a = true ->
  split_char sep cur (a ++ String sep b) =
  (rev_string "" cur ++ a)%string :: split_char sep "" b.
Proof.
  induction a as [|c a IH]; intros cur H; cbn in *.
  - rewrite Ascii.eqb_refl, append_nil_r. reflexivity.
  - apply andb_prop in H. destruct H as [Hc Ha].
    apply negb_true_iff in Hc. rewrite Hc, (IH _ Ha).
    cbn. rewrite rev_string_acc, append_assoc. reflexivity.
Qed.

Lemma digits_of_uint d : all_chars is_digit (NilEmpty.string_of_uint d) = true.
Proof. induction d; cbn; try reflexivity; exact IHd. Qed.

Lemma digit_not_colon s :
  all_chars is_digit s = true ->
  all_chars (fun c => negb (Ascii.eqb c ":")) s = true.
Proof.
  induction s as [|c s IH]; cbn; [reflexivity|].
  intros H. apply andb_prop in H. destruct H as [Hc Hs].
  rewrite (IH Hs), andb_true_r.
  destruct (Ascii.eqb_spec c ":") as [->|]; [discriminate Hc | reflexivity].
Qed.

Lemma Number_zeros k d :
  Number (repeat_char "0" k ++ NilEmpty.string_of_uint d) = Some (N.of_uint d).
Proof.
  unfold Number. induction k as [|k IH]; cbn [repeat_char String.append].
  - rewrite NilEmpty.usu. reflexivity.
  - cbn [NilEmpty.uint_of_string].
    destruct (NilEmpty.uint_of_string _) as [u|]; [|discriminate IH].
    cbn in *. injection IH as IH. f_equal. exact IH.
Qed.

Lemma toString_nonneg z :
  (0 <= z)%Z -> toString z = NilEmpty.string_of_uint (N.to_uint (Z.to_N z)).
Proof. intros H. destruct z; [reflexivity | reflexivity | lia]. Qed.

Lemma pad2_spec z :
  (0 <= z)%Z ->
  Number (pad2 z) = Some (Z.to_N z) /\
  all_chars (fun c => negb (Ascii.eqb c ":")) (pad2 z) = true.
Proof.
  intros H. unfold pad2, padStart. rewrite (toString_nonneg z H). split.
  - rewrite Number_zeros, DecimalN.Unsigned.of_to. reflexivity.
  - apply digit_not_colon. rewrite all_chars_app, digits_of_uint, andb_true_r.
    generalize (2 - String.length (NilEmpty.string_of_uint (N.to_uint (Z.to_N z))))%nat.
    intros k. induction k; cbn; [reflexivity | exact IHk].
Qed.

Lemma parse_two a b :
  (0 <= a)%Z -> (0 <= b)%Z ->
  parseTimeString (pad2 a ++ ":" ++ pad2 b) = Some (Z.to_N a * 60 + Z.to_N b)%N.
Proof.
  intros Ha Hb. destruct (pad2_spec a Ha) as [Na Ca], (pad2_spec b Hb) as [Nb Cb].
  unfold parseTimeString, split.
  change (pad2 a ++ ":" ++ pad2 b)%string with (pad2 a ++ String ":" (pad2 b))%string.
  rewrite (split_char_app _ _ _ _ Ca), (split_char_last _ _ _ Cb).
  cbn [map rev_string String.append]. rewrite Na, Nb. reflexivity.
Qed.

Lemma parse_three a b c :
  (0 <= a)%Z -> (0 <= b)%Z -> (0 <= c)%Z ->
  parseTimeString (pad2 a ++ ":" ++ pad2 b ++ ":" ++ pad2 c) =
  Some (Z.to_N a * 3600 + Z.to_N b * 60 + Z.to_N c)%N.
Proof.
  intros Ha Hb Hc.
  destruct (pad2_spec a Ha) as [Na Ca], (pad2_spec b Hb) as [Nb Cb],
           (pad2_spec c Hc) as [Nc Cc].
  unfold parseTimeString, split.
  change (pad2 a ++ ":" ++ pad2 b ++ ":" ++ pad2 c)%string
    with (pad2 a ++ String ":" (pad2 b ++ String ":" (pad2 c)))%string.
  rewrite (split_char_app _ _ _ _ Ca), (split_char_app _ _ _ _ Cb),
    (split_char_last _ _ _ Cc).
  cbn [map rev_string String.append]. rewrite Na, Nb, Nc. reflexivity.
Qed.

(** *** [formatTime] on a whole number of seconds *)

Lemma Qfloor_div_pos (z : Z) (p : positive) :
  Qfloor (inject_Z z / inject_Z (Zpos p)) = (z / Zpos p)%Z.
Proof. symmetry. apply Zdiv_Qdiv. Qed.

Lemma rem_integers (z : Z) (p : positive) :
  (0 <= z)%Z -> rem (inject_Z z) (inject_Z (Zpos p)) == inject_Z (z mod Zpos p).
Proof.
  intros Hz. unfold rem, trunc.
  assert (Hq : Qle_bool 0 (inject_Z z / inject_Z (Z.pos p)) = true).
  { apply Qle_bool_iff. apply Qle_shift_div_l; [reflexivity|].
    rewrite Qmult_0_l. change (inject_Z 0 <= inject_Z z).
    rewrite <- Zle_Qle. exact Hz. }
  rewrite Hq, Qfloor_div_pos.
  rewrite (Z.mod_eq z (Z.pos p)) by discriminate.
  unfold Qminus. rewrite <- inject_Z_mult, <- inject_Z_opp, <- inject_Z_plus.
  reflexivity.
Qed.

Lemma formatTime_integer (z : Z) :
  (0 < z)%Z ->
  formatTime (inject_Z z) =
  if (z / 3600 >? 0)%Z
  then (pad2 (z / 3600) ++ ":" ++ pad2 (z mod 3600 / 60) ++ ":" ++ pad2 (z mod 60))%string
  else (pad2 (z mod 3600 / 60) ++ ":" ++ pad2 (z mod 60))%string.
Proof.
  intros Hz. unfold formatTime.
  assert (H0 : Qeq_bool (inject_Z z) 0 = false).
  { apply not_true_is_false. intros H. apply Qeq_bool_iff in H.
    change (inject_Z z == inject_Z 0) in H. rewrite inject_Z_injective in H. lia. }
  assert (H1 : Qlt_bool (inject_Z z) 0 = false).
  { unfold Qlt_bool. apply negb_false_iff, Qle_bool_iff.
    change (inject_Z 0 <= inject_Z z). rewrite <- Zle_Qle. lia. }
  rewrite H0, H1. cbn [orb].
  change 3600%Q with (inject_Z (Zpos 3600)).
  change 60%Q with (inject_Z (Zpos 60)).
  rewrite Qfloor_div_pos.
  rewrite (Qfloor_comp _ _ (rem_integers z 60 (Z.lt_le_incl _ _ Hz))), Qfloor_Z.
  assert (Hm : Qfloor (rem (inject_Z z) (inject_Z 3600) / inject_Z 60)
               = (z mod 3600 / 60)%Z).
  { rewrite <- Qfloor_div_pos. apply Qfloor_comp.
    rewrite (rem_integers z 3600 (Z.lt_le_incl _ _ Hz)). reflexivity. }
  rewrite Hm. reflexivity.
Qed.

(** In exact arithmetic, parsing the string [formatTime] prints for a
    whole, non-negative number of seconds gives the number back; the
    string is [MM:SS] below one hour and [HH:MM:SS] from one hour on. *)
Lemma parse_format_exact (s : N) :
  formatTime (inject_Z (Z.of_N s)) =
    (if (s <? 3600)%N
     then pad2 (Z.of_N s / 60) ++ ":" ++ pad2 (Z.of_N s mod 60)
     else pad2 (Z.of_N s / 3600) ++ ":" ++ pad2 (Z.of_N s mod 3600 / 60) ++ ":"
            ++ pad2 (Z.of_N s mod 60))%string /\
  parseTimeString (formatTime (inject_Z (Z.of_N s))) = Some s.
Proof.
  destruct (N.eq_dec s 0) as [->|Hs]; [split; reflexivity|].
  rewrite formatTime_integer by lia.
  destruct (N.ltb_spec s 3600) as [Hlt|Hge];
    destruct (Z.gtb_spec (Z.of_N s / 3600) 0) as [Hh|Hh].
  - exfalso. rewrite Z.div_small in Hh by lia. lia.
  - rewrite (Z.mod_small (Z.of_N s) 3600) by lia. split; [reflexivity|].
    rewrite parse_two.
    + f_equal.
      pose proof (Z.div_mod (Z.of_N s) 60 ltac:(discriminate)) as E.
      pose proof (Z.mod_pos_bound (Z.of_N s) 60 ltac:(reflexivity)) as B.
      pose proof (Z.div_pos (Z.of_N s) 60 ltac:(lia) ltac:(reflexivity)) as D.
      revert E B D. generalize (Z.of_N s / 60)%Z (Z.of_N s mod 60)%Z. lia.
    + apply Z.div_pos; lia.
    + apply Z.mod_pos_bound. lia.
  - split; [reflexivity|].
    rewrite parse_three.
    + f_equal.
      pose proof (Z.div_mod (Z.of_N s) 3600 ltac:(discriminate)) as E.
      pose proof (Z.mod_pos_bound (Z.of_N s) 3600 ltac:(reflexivity)) as B.
      pose proof (Z.div_mod (Z.of_N s mod 3600) 60 ltac:(discriminate)) as E'.
      pose proof (Z.mod_pos_bound (Z.of_N s mod 3600) 60 ltac:(reflexivity)) as B'.
      pose proof (Z.div_pos (Z.of_N s mod 3600) 60 ltac:(lia) ltac:(reflexivity)) as D'.
      assert (M : ((Z.of_N s mod 3600) mod 60 = Z.of_N s mod 60)%Z).
      { change 3600%Z with (60 * 60)%Z. 
        rewrite Z.rem_mul_r by lia.
        rewrite (Z.mul_comm 60), Z.mod_add by lia.
        apply Z.mod_mod. lia. }
      rewrite M in E'. rewrite M in B'.
      revert E B E' B' D' Hh.
      generalize (Z.of_N s / 3600)%Z (Z.of_N s mod 3600)%Z (Z.of_N s mod 60)%Z.
      intros h r x. generalize (r / 60)%Z. lia.
    + apply Z.div_pos; lia.
    + apply Z.div_pos; [apply Z.mod_pos_bound|]; lia.
    + apply Z.mod_pos_bound. lia.
  - exfalso. pose proof (Z.div_str_pos (Z.of_N s) 3600). lia.
Qed.

(** *** Removing duplicates *)

Lemma within5_refl x : within5 x x = true.
Proof.
  unfold within5, Qlt_bool. apply negb_true_iff, not_true_is_false.
  intros H. apply Qle_bool_iff in H.
  assert (E : Qabs (time x - time x) == 0).
  { rewrite (Qabs_wd (time x - time x) 0) by ring. reflexivity. }
  rewrite E in H. revert H. apply Qlt_not_le. reflexivity.
Qed.

Lemma findIndex_from_app {A} (p : A -> bool) : forall pre i x rest,
  findIndex_from i p (pre ++ x :: rest) =
  if forallb (fun t => negb (p t)) pre
  then (if p x then i + Z.of_nat (List.length pre)
        else findIndex_from (i + Z.of_nat (List.length pre) + 1) p rest)%Z
  else findIndex_from i p pre.
Proof.
  induction pre as [|a pre IH]; intros i x rest; cbn [app findIndex_from forallb List.length].
  - rewrite Z.add_0_r. reflexivity.
  - destruct (p a); cbn [negb andb]; [reflexivity|].
    rewrite IH. 
    replace (i + 1 + Z.of_nat (List.length pre))%Z
      with (i + Z.of_nat (S (List.length pre)))%Z by lia.
    reflexivity.
Qed.

Lemma findIndex_from_bound {A} (p : A -> bool) : forall l i,
  findIndex_from i p l = (-1)%Z \/
  (i <= findIndex_from i p l < i + Z.of_nat (List.length l))%Z.
Proof.
  induction l as [|a l IH]; intros i; cbn [findIndex_from List.length]; [left; reflexivity|].
  destruct (p a); [right; lia|].
  destruct (IH (i + 1)%Z) as [H|H]; [left; exact H | right; lia].
Qed.

Lemma uniqueTimestamps_keep : forall rest seen,
  filteri_from (Z.of_nat (List.length seen))
    (fun timestamp index =>
       (index =? findIndex (within5 timestamp) (seen ++ rest))%Z)
    rest
  = keep_first seen rest.
Proof.
  induction rest as [|x rest IH]; intros seen; [reflexivity|].
  cbn [filteri_from keep_first].
  unfold findIndex at 1. rewrite findIndex_from_app, within5_refl.
  replace (Z.of_nat (List.length seen) + 1)%Z
    with (Z.of_nat (List.length (seen ++ [x])))
    by (rewrite length_app; cbn; lia).
  replace (seen ++ x :: rest) with ((seen ++ [x]) ++ rest)
    by (rewrite <- app_assoc; reflexivity).
  rewrite IH.
  destruct (forallb _ seen) eqn:E.
  - rewrite Z.add_0_l, Z.eqb_refl. reflexivity.
  - replace (_ =? _)%Z with false; [reflexivity|].
    symmetry. apply Z.eqb_neq.
    destruct (findIndex_from_bound (within5 x) seen 0) as [H|H]; lia.
Qed.

Lemma uniqueTimestamps_eq l : uniqueTimestamps l = keep_first [] l.
Proof. unfold uniqueTimestamps. apply (uniqueTimestamps_keep l []). Qed.

Lemma keep_first_in b : forall rest seen,
  In b (keep_first seen rest) ->
  In b rest /\ Forall (fun a => within5 b a = false) seen.
Proof.
  induction rest as [|x rest IH]; intros seen; [intros []|].
  cbn [keep_first].
  assert (Hrec : In b (keep_first (seen ++ [x]) rest) ->
                 In b (x :: rest) /\ Forall (fun a => within5 b a = false) seen).
  { intros H. apply IH in H. destruct H as [H1 H2]. split; [right; exact H1|].
    apply Forall_app in H2. apply H2. }
  destruct (forallb _ seen) eqn:E; [|exact Hrec].
  intros [<-|H]; [|exact (Hrec H)].
  split; [left; reflexivity|].
  rewrite forallb_forall in E. apply Forall_forall. intros a Ha.
  apply negb_true_iff. apply E. exact Ha.
Qed.

(** No two of the citations kept are within five seconds of each other. *)
Lemma keep_first_apart : forall rest seen,
  ForallOrdPairs (fun a b => within5 b a = false) (keep_first seen rest).
Proof.
  induction rest as [|x rest IH]; intros seen; [constructor|].
  cbn [keep_first]. destruct (forallb _ seen); [|apply IH].
  constructor; [|apply IH].
  apply Forall_forall. intros b Hb. apply keep_first_in in Hb.
  destruct Hb as [_ Hb]. apply Forall_app in Hb. destruct Hb as [_ Hb].
  apply Forall_inv in Hb. exact Hb.
Qed.

(** A citation that is dropped is within five seconds of one that
    comes before it. *)
Lemma keep_first_dropped c r2 : forall r1 seen,
  In c (keep_first seen (r1 ++ c :: r2)) \/
  exists a, In a (seen ++ r1) /\ within5 c a = true.
Proof.
  induction r1 as [|y r1 IH]; intros seen; cbn [app keep_first].
  - destruct (forallb _ seen) eqn:E; [left; left; reflexivity|].
    right. rewrite app_nil_r.
    assert (Hex : existsb (fun t => within5 c t) seen = true).
    { clear -E. induction seen as [|a seen IH]; [discriminate|].
      cbn in *. destruct (within5 c a); [reflexivity|]. cbn in E. apply IH, E. }
    apply existsb_exists in Hex. exact Hex.
  - destruct (IH (seen ++ [y])) as [H|(a & Ha & Hw)].
    + left. destruct (forallb _ seen); [right|]; exact H.
    + right. exists a. split; [|exact Hw].
      rewrite <- app_assoc in Ha. exact Ha.
Qed.

(** *** From tokens to citations *)

Lemma contains_spec seconds chunk :
  contains seconds chunk = true <->
  ctx_startTime chunk <= seconds /\ seconds <= ctx_endTime chunk.
Proof.
  unfold contains. rewrite andb_true_iff, !Qle_bool_iff. reflexivity.
Qed.

Lemma explicit_citation_spec context tok c :
  In c (explicit_citation context tok) ->
  exists n chunk,
    parseTimeString tok = Some n /\
    find (contains (inject_Z (Z.of_N n))) context = Some chunk /\
    In chunk context /\
    ctx_startTime chunk <= time c /\ time c <= ctx_endTime chunk /\
    time c = inject_Z (Z.of_N n) /\ timeString c = tok /\
    startTime c = ctx_startTime chunk /\ endTime c = ctx_endTime chunk.
Proof.
  unfold explicit_citation.
  destruct (parseTimeString tok) as [n|]; [|intros []].
  cbn zeta. destruct (find _ context) as [chunk|] eqn:Hf; [|intros []].
  intros [<-|[]]. exists n, chunk. cbn [time timeString startTime endTime].
  pose proof (find_some _ _ Hf) as [Hin Hc].
  apply contains_spec in Hc. destruct Hc as [H1 H2].
  split; [reflexivity|]. split; [exact Hf|]. split; [exact Hin|].
  split; [exact H1|]. split; [exact H2|]. repeat split; reflexivity.
Qed.

Lemma explicit_citation_discard context tok :
  (forall n chunk, parseTimeString tok = Some n -> In chunk context ->
                   contains (inject_Z (Z.of_N n)) chunk = false) ->
  explicit_citation context tok = [].
Proof.
  intros H. unfold explicit_citation.
  destruct (parseTimeString tok) as [n|]; [|reflexivity].
  cbn zeta. destruct (find _ context) as [chunk|] eqn:Hf; [|reflexivity].
  apply find_some in Hf. destruct Hf as [Hin Hc].
  rewrite (H n chunk eq_refl Hin) in Hc. discriminate.
Qed.

(** *** The tokens the scan finds *)

Lemma digit_char a :
  is_digit a = true ->
  forall u, exists v, NilEmpty.uint_of_string (String a "") = Some v /\
                      forall w, NilEmpty.uint_of_string w = Some u ->
                                exists v', NilEmpty.uint_of_string (String a w) = Some v'.
Proof.
  intros H u.
  destruct a as [[] [] [] [] [] [] [] []]; try discriminate H;
    (eexists; split; [reflexivity|]; intros w Hw; cbn; rewrite Hw; eexists; reflexivity).
Qed.

Lemma digits_Number s :
  all_chars is_digit s = true -> exists v, Number s = Some v.
Proof.
  unfold Number. intros H.
  assert (exists u, NilEmpty.uint_of_string s = Some u) as [u Hu].
  { induction s as [|a s IH]; [eexists; reflexivity|].
    cbn in H. apply andb_prop in H. destruct H as [Ha Hs].
    destruct (IH Hs) as [u Hu].
    destruct (digit_char a Ha u) as (_ & _ & Hw). exact (Hw s Hu). }
  rewrite Hu. eexists. reflexivity.
Qed.

Lemma parse_digits_two a b :
  all_chars is_digit a = true -> all_chars is_digit b = true ->
  exists v, parseTimeString (a ++ ":" ++ b) = Some v.
Proof.
  intros Ha Hb.
  destruct (digits_Number a Ha) as [x Hx], (digits_Number b Hb) as [y Hy].
  unfold parseTimeString, split.
  change (a ++ ":" ++ b)%string with (a ++ String ":" b)%string.
  rewrite (split_char_app _ _ _ _ (digit_not_colon a Ha)),
    (split_char_last _ _ _ (digit_not_colon b Hb)).
  cbn [map rev_string String.append]. rewrite Hx, Hy. eexists. reflexivity.
Qed.

Lemma parse_digits_three a b c :
  all_chars is_digit a = true -> all_chars is_digit b = true ->
  all_chars is_digit c = true ->
  exists v, parseTimeString (a ++ ":" ++ b ++ ":" ++ c) = Some v.
Proof.
  intros Ha Hb Hc.
  destruct (digits_Number a Ha) as [x Hx], (digits_Number b Hb) as [y Hy],
           (digits_Number c Hc) as [z Hz].
  unfold parseTimeString, split.
  change (a ++ ":" ++ b ++ ":" ++ c)%string
    with (a ++ String ":" (b ++ String ":" c))%string.
  rewrite (split_char_app _ _ _ _ (digit_not_colon a Ha)),
    (split_char_app _ _ _ _ (digit_not_colon b Hb)),
    (split_char_last _ _ _ (digit_not_colon c Hc)).
  cbn [map rev_string String.append]. rewrite Hx, Hy, Hz. eexists. reflexivity.
Qed.

Lemma digits2_spec s xx rest :
  digits2 s = Some (xx, rest) ->
  all_chars is_digit xx = true /\ s = (xx ++ rest)%string /\ String.length xx = 2%nat.
Proof.
  unfold digits2. destruct s as [|a [|b r]]; try discriminate.
  destruct (is_digit a) eqn:Ea, (is_digit b) eqn:Eb; try discriminate.
  intros [= <- <-]. cbn. rewrite Ea, Eb. repeat split.
Qed.

Lemma digits12_spec s mm rest :
  digits12 s = Some (mm, rest) ->
  all_chars is_digit mm = true /\ s = (mm ++ rest)%string /\
  (1 <= String.length mm <= 2)%nat.
Proof.
  unfold digits12. destruct s as [|a r]; try discriminate.
  destruct (is_digit a) eqn:Ea; try discriminate.
  destruct r as [|b r'].
  - intros [= <- <-]. cbn. rewrite Ea. repeat split; lia.
  - destruct (is_digit b) eqn:Eb; intros [= <- <-]; cbn; rewrite Ea, ?Eb;
      repeat split; lia.
Qed.

Lemma expect_spec c s rest : expect c s = Some rest -> s = String c rest.
Proof.
  unfold expect. destruct s as [|x r]; try discriminate.
  destruct (Ascii.eqb_spec x c) as [->|]; try discriminate.
  intros [= <-]. reflexivity.
Qed.

(** A match is an opening bracket, one or two digits, a colon, two
    digits, possibly a colon and two more digits, and a closing
    bracket; the captured group is what stands between the brackets. *)
Lemma match_timestamp_spec s tok n :
  match_timestamp s = Some (tok, n) ->
  exists mm ss rest,
    all_chars is_digit mm = true /\ (1 <= String.length mm <= 2)%nat /\
    all_chars is_digit ss = true /\ String.length ss = 2%nat /\
    (tok = (mm ++ ":" ++ ss)%string \/
     exists xx, all_chars is_digit xx = true /\ String.length xx = 2%nat /\
                tok = (mm ++ ":" ++ ss ++ ":" ++ xx)%string) /\
    s = ("[" ++ tok ++ "]" ++ rest)%string /\
    n = (2 + String.length tok)%nat.
Proof.
  unfold match_timestamp, obind.
  destruct (expect "[" s) as [s1|] eqn:E1; [|discriminate].
  destruct (digits12 s1) as [[mm s2]|] eqn:E2; [|discriminate].
  destruct (expect ":" s2) as [s3|] eqn:E3; [|discriminate].
  destruct (digits2 s3) as [[ss s4]|] eqn:E4; [|discriminate].
  destruct (tail_group s4) as [tail|] eqn:E5; [|discriminate].
  intros [= <- <-].
  apply expect_spec in E1, E3. apply digits12_spec in E2. apply digits2_spec in E4.
  destruct E2 as (Dm & -> & Lm). destruct E4 as (Ds & -> & Ls). subst s2 s.
  unfold tail_group, obind in E5.
  destruct (expect ":" s4) as [t1|] eqn:T1.
  - destruct (digits2 t1) as [[xx t2]|] eqn:T2.
    + destruct (expect "]" t2) as [t3|] eqn:T3.
      * injection E5 as <-. apply expect_spec in T1, T3. apply digits2_spec in T2.
        destruct T2 as (Dx & -> & Lx). subst t2 s4.
        exists mm, ss, t3. repeat split; try assumption; try lia.
        -- right. exists xx. repeat split; assumption.
        -- cbn [String.append].
           repeat (rewrite !append_assoc; cbn [String.append]). reflexivity.
      * apply expect_spec in T1. subst s4. cbn in E5. discriminate.
    + apply expect_spec in T1. subst s4. cbn in E5. discriminate.
  - destruct (expect "]" s4) as [t3|] eqn:T3; [|discriminate].
    injection E5 as <-. apply expect_spec in T3. subst s4.
    exists mm, ss, t3. repeat split; try assumption; try lia.
    + left. rewrite append_nil_r. reflexivity.
    + rewrite append_nil_r. cbn [String.append].
      repeat (rewrite !append_assoc; cbn [String.append]). reflexivity.
Qed.

Lemma scan_timestamps_in tok : forall s skip,
  In tok (scan_timestamps skip s) ->
  exists s' n, match_timestamp s' = Some (tok, n).
Proof.
  induction s as [|c s IH]; intros skip; [intros []|].
  cbn [scan_timestamps]. destruct skip as [|k]; [|apply IH].
  destruct (match_timestamp (String c s)) as [[t n]|] eqn:E; [|apply IH].
  intros [<-|H]; [exists (String c s), n; exact E | exact (IH _ H)].
Qed.

(** Every token the scan finds converts to a number of seconds. *)
Lemma scanned_token_parses response tok :
  In tok (scan_timestamps 0 response) -> exists n, parseTimeString tok = Some n.
Proof.
  intros H. apply scan_timestamps_in in H. destruct H as (s' & n & H).
  apply match_timestamp_spec in H.
  destruct H as (mm & ss & rest & Dm & _ & Ds & _ & [->|(xx & Dx & _ & ->)] & _).
  - apply parse_digits_two; assumption.
  - apply parse_digits_three; assumption.
Qed.

Lemma match_timestamp_no_bracket c s :
  Ascii.eqb c "[" = false -> match_timestamp (String c s) = None.
Proof. intros H. unfold match_timestamp. cbn. rewrite H. reflexivity. Qed.

Lemma scan_no_bracket pre s :
  no_bracket pre -> scan_timestamps 0 (pre ++ s) = scan_timestamps 0 s.
Proof.
  unfold no_bracket. induction pre as [|c pre IH]; intros H; [reflexivity|].
  cbn in H. apply andb_prop in H. destruct H as [Hc Hp].
  apply negb_true_iff in Hc.
  cbn [String.append scan_timestamps].
  rewrite (match_timestamp_no_bracket c _ Hc). apply IH. exact Hp.
Qed.

Lemma scan_none s : no_bracket s -> scan_timestamps 0 s = [].
Proof.
  intros H. rewrite <- (append_nil_r s). rewrite (scan_no_bracket s "" H).
  reflexivity.
Qed.

Lemma scan_skip a s :
  scan_timestamps (String.length a) (a ++ s) = scan_timestamps 0 s.
Proof. induction a as [|c a IH]; [reflexivity | exact IH]. Qed.

Lemma scan_0530 post :
  scan_timestamps 0 ("[05:30]" ++ post) = "05:30" :: scan_timestamps 0 post.
Proof. exact (f_equal (cons "05:30") (scan_skip "05:30]" post)). Qed.

Lemma scan_0532 post :
  scan_timestamps 0 ("[05:32]" ++ post) = "05:32" :: scan_timestamps 0 post.
Proof. exact (f_equal (cons "05:32") (scan_skip "05:32]" post)). Qed.

Lemma example_one_token pre post text :
  no_bracket pre -> no_bracket post ->
  extractTimestamps (pre ++ "[05:30]" ++ post) [mk_context 300 360 text]
  = [citation_330 text].
Proof.
  intros Hpre Hpost. unfold extractTimestamps, explicit_citations.
  rewrite (scan_no_bracket _ _ Hpre), scan_0530, (scan_none _ Hpost).
  reflexivity.
Qed.

Lemma example_two_tokens pre mid post text :
  no_bracket pre -> no_bracket mid -> no_bracket post ->
  extractTimestamps (pre ++ "[05:30]" ++ mid ++ "[05:32]" ++ post)
                    [mk_context 300 360 text]
  = [citation_330 text].
Proof.
  intros Hpre Hmid Hpost. unfold extractTimestamps, explicit_citations.
  rewrite (scan_no_bracket _ _ Hpre), scan_0530, (scan_no_bracket _ _ Hmid),
    scan_0532, (scan_none _ Hpost).
  reflexivity.
Qed.

Lemma digits12_complete mm rest :
  all_chars is_digit mm = true -> (1 <= String.length mm <= 2)%nat ->
  digits12 (mm ++ String ":" rest)%string = Some (mm, String ":" rest).
Proof.
  intros Hd Hl. destruct mm as [|a [|b [|c r]]]; cbn in Hl; try lia.
  - cbn in Hd. rewrite andb_true_r in Hd. cbn. rewrite Hd. reflexivity.
  - cbn in Hd. apply andb_prop in Hd. destruct Hd as [Ha Hb].
    rewrite andb_true_r in Hb. cbn. rewrite Ha, Hb. reflexivity.
Qed.

Lemma digits2_complete ss rest :
  all_chars is_digit ss = true -> String.length ss = 2%nat ->
  digits2 (ss ++ rest)%string = Some (ss, rest).
Proof.
  intros Hd Hl. destruct ss as [|a [|b [|c r]]]; cbn in Hl; try lia.
  cbn in Hd. apply andb_prop in Hd. destruct Hd as [Ha Hb].
  rewrite andb_true_r in Hb. cbn. rewrite Ha, Hb. reflexivity.
Qed.

(** The expression matches a token in brackets, whatever follows. *)
Lemma match_timestamp_complete tok post :
  time_token tok ->
  match_timestamp ("[" ++ tok ++ "]" ++ post)%string
  = Some (tok, (2 + String.length tok)%nat).
Proof.
  intros (mm & ss & Dm & Lm & Ds & Ls & [->|(xx & Dx & Lx & ->)]).
  - unfold match_timestamp. cbn [String.append expect obind Ascii.eqb Bool.eqb].
    rewrite !append_assoc. cbn [String.append obind].
    rewrite (digits12_complete mm _ Dm Lm). cbn [obind expect Ascii.eqb Bool.eqb].
    rewrite (digits2_complete ss _ Ds Ls). cbn [obind].
    unfold tail_group. cbn [expect obind String.append Ascii.eqb Bool.eqb].
    rewrite append_nil_r. reflexivity.
  - unfold match_timestamp. cbn [String.append expect obind Ascii.eqb Bool.eqb].
    rewrite !append_assoc. cbn [String.append obind]. rewrite !append_assoc.
    cbn [String.append obind].
    rewrite (digits12_complete mm _ Dm Lm). cbn [obind expect Ascii.eqb Bool.eqb].
    rewrite (digits2_complete ss _ Ds Ls). cbn [obind].
    unfold tail_group. cbn [expect obind String.append Ascii.eqb Bool.eqb].
    rewrite (digits2_complete xx _ Dx Lx). cbn [obind expect Ascii.eqb Bool.eqb].
    reflexivity.
Qed.

(** The expression matches at the head of a text exactly when the text
    begins with a token in brackets; the token is the captured group. *)
Lemma match_timestamp_iff s tok n :
  match_timestamp s = Some (tok, n) <->
  time_token tok /\ n = (2 + String.length tok)%nat /\
  exists post, s = ("[" ++ tok ++ "]" ++ post)%string.
Proof.
  split.
  - intros H. apply match_timestamp_spec in H.
    destruct H as (mm & ss & rest & Dm & Lm & Ds & Ls & Htok & -> & ->).
    split; [exists mm, ss; repeat split; assumption || lia|].
    split; [reflexivity|]. exists rest. reflexivity.
  - intros (Ht & -> & post & ->). apply match_timestamp_complete. exact Ht.
Qed.

(** The scan finds a token in brackets and goes on after it. *)
Lemma scan_token tok post :
  time_token tok ->
  scan_timestamps 0 ("[" ++ tok ++ "]" ++ post)%string = tok :: scan_timestamps 0 post.
Proof.
  intros H. pose proof (match_timestamp_complete tok post H) as Hm.
  change ("[" ++ tok ++ "]" ++ post)%string with (String "[" (tok ++ "]" ++ post)%string) in *.
  cbn [scan_timestamps]. rewrite Hm. f_equal.
  replace (2 + String.length tok - 1)%nat with (String.length (tok ++ "]")%string).
  - rewrite <- (scan_skip (tok ++ "]")%string post), append_assoc. reflexivity.
  - clear. induction tok as [|c tok IH]; cbn; [reflexivity|]. rewrite IH. cbn. lia.
Qed.

(** The scan passes a text in which no match begins. *)
Lemma scan_unmatched : forall gap rest,
  unmatched gap rest -> scan_timestamps 0 (gap ++ rest) = scan_timestamps 0 rest.
Proof.
  induction gap as [|c gap IH]; intros rest H; [reflexivity|].
  cbn [String.append scan_timestamps].
  pose proof (H "" (String c gap) eq_refl ltac:(discriminate)) as Hm.
  cbn [String.append] in Hm. rewrite Hm. apply IH.
  intros a b -> Hb. apply (H (String c a) b eq_refl Hb).
Qed.

Lemma scan_unmatched_end last : unmatched last "" -> scan_timestamps 0 last = [].
Proof.
  intros H. rewrite <- (append_nil_r last). rewrite (scan_unmatched _ _ H). reflexivity.
Qed.

(** A text without an opening bracket holds no match, whatever
    follows. *)
Lemma no_bracket_unmatched gap rest : no_bracket gap -> unmatched gap rest.
Proof.
  unfold no_bracket. intros H a b -> Hb.
  rewrite all_chars_app in H. apply andb_prop in H. destruct H as [_ H].
  destruct b as [|c b]; [exfalso; apply Hb; reflexivity|].
  cbn in H. apply andb_prop in H. destruct H as [Hc _]. apply negb_true_iff in Hc.
  cbn [String.append]. apply match_timestamp_no_bracket. exact Hc.
Qed.

(** The tokens of an answer are found, all of them and in order. *)
Lemma scan_bracketed : forall parts last,
  tokens_of parts last ->
  scan_timestamps 0 (bracketed parts last) = map snd parts.
Proof.
  induction parts as [|[before tok] parts IH]; intros last H.
  - cbn. apply scan_unmatched_end. exact H.
  - cbn [tokens_of] in H. destruct H as (Hb & Ht & Hrest).
    cbn [bracketed map snd].
    rewrite (scan_unmatched _ _ Hb), (scan_token _ _ Ht), (IH _ Hrest).
    reflexivity.
Qed.

Lemma length_append (a b : string) :
  String.length (a ++ b)%string = (String.length a + String.length b)%nat.
Proof. induction a as [|c a IH]; cbn; [reflexivity | rewrite IH; reflexivity]. Qed.

(** Every answer is made of its tokens and of the texts between
    them. *)
Lemma bracketed_exists : forall n response,
  (String.length response <= n)%nat ->
  exists parts last, response = bracketed parts last /\ tokens_of parts last.
Proof.
  induction n as [|n IH]; intros response Hn.
  - destruct response; [|cbn in Hn; lia].
    exists [], "". split; [reflexivity|]. intros a b E Hb.
    destruct a, b; try discriminate E. exfalso. apply Hb. reflexivity.
  - destruct response as [|c r].
    + exists [], "". split; [reflexivity|]. intros a b E Hb.
      destruct a, b; try discriminate E. exfalso. apply Hb. reflexivity.
    + destruct (match_timestamp (String c r)) as [[tok m]|] eqn:Em.
      * apply match_timestamp_iff in Em. destruct Em as (Ht & _ & post & E).
        assert (Hlen : (String.length post <= n)%nat).
        { apply (f_equal String.length) in E. cbn in E.
          rewrite !length_append in E. cbn in Hn. cbn in E. lia. }
        destruct (IH post Hlen) as (parts & last & -> & Hp).
        exists (("", tok) :: parts), last. split; [exact E|].
        cbn [tokens_of]. split; [|split; assumption].
        intros a b Eab Hb. destruct a, b; try discriminate Eab.
        exfalso. apply Hb. reflexivity.
      * cbn in Hn. destruct (IH r ltac:(lia)) as (parts & last & E & Hp).
        destruct parts as [|[before tok] parts].
        -- cbn in E. subst r. exists [], (String c last). split; [reflexivity|].
           cbn [tokens_of] in *. intros a b Eab Hb.
           destruct a as [|x a].
           ++ cbn in Eab. subst b. rewrite append_nil_r. exact Em.
           ++ cbn in Eab. injection Eab as _ Eab. exact (Hp a b Eab Hb).
        -- cbn [bracketed] in E. subst r.
           exists ((String c before, tok) :: parts), last. split; [reflexivity|].
           cbn [tokens_of] in *. destruct Hp as (Hb & Ht & Hrest).
           split; [|split; assumption].
           intros a b Eab Hne. destruct a as [|x a].
           ++ cbn in Eab. subst b. exact Em.
           ++ cbn in Eab. injection Eab as _ Eab. exact (Hb a b Eab Hne).
Qed.

(** The seconds of a token. *)
Lemma parse_value_two a b x y :
  all_chars is_digit a = true -> all_chars is_digit b = true ->
  Number a = Some x -> Number b = Some y ->
  parseTimeString (a ++ ":" ++ b)%string = Some (x * 60 + y)%N.
Proof.
  intros Ha Hb Hx Hy. unfold parseTimeString, split.
  change (a ++ ":" ++ b)%string with (a ++ String ":" b)%string.
  rewrite (split_char_app _ _ _ _ (digit_not_colon a Ha)),
    (split_char_last _ _ _ (digit_not_colon b Hb)).
  cbn [map rev_string String.append]. rewrite Hx, Hy. reflexivity.
Qed.

Lemma parse_value_three a b c x y z :
  all_chars is_digit a = true -> all_chars is_digit b = true ->
  all_chars is_digit c = true ->
  Number a = Some x -> Number b = Some y -> Number c = Some z ->
  parseTimeString (a ++ ":" ++ b ++ ":" ++ c)%string = Some (x * 3600 + y * 60 + z)%N.
Proof.
  intros Ha Hb Hc Hx Hy Hz. unfold parseTimeString, split.
  change (a ++ ":" ++ b ++ ":" ++ c)%string
    with (a ++ String ":" (b ++ String ":" c))%string.
  rewrite (split_char_app _ _ _ _ (digit_not_colon a Ha)),
    (split_char_app _ _ _ _ (digit_not_colon b Hb)),
    (split_char_last _ _ _ (digit_not_colon c Hc)).
  cbn [map rev_string String.append]. rewrite Hx, Hy, Hz. reflexivity.
Qed.

Lemma digit_cases a :
  is_digit a = true ->
  a = "0"%char \/ a = "1"%char \/ a = "2"%char \/ a = "3"%char \/ a = "4"%char \/
  a = "5"%char \/ a = "6"%char \/ a = "7"%char \/ a = "8"%char \/ a = "9"%char.
Proof.
  destruct a as [[] [] [] [] [] [] [] []]; intros H; try discriminate H; tauto.
Qed.

(** The number two digits denote, and the one a single digit denotes. *)
Lemma Number_digits a b :
  is_digit a = true -> is_digit b = true ->
  Number (String a "") = Some (digit_value a) /\
  Number (String a (String b "")) = Some (10 * digit_value a + digit_value b)%N.
Proof.
  intros Ha Hb.
  destruct (digit_cases a Ha) as [->|[->|[->|[->|[->|[->|[->|[->|[->| ->]]]]]]]]];
    (split; [reflexivity|]);
    destruct (digit_cases b Hb) as [->|[->|[->|[->|[->|[->|[->|[->|[->| ->]]]]]]]]];
    reflexivity.
Qed.

(** A token of which a chunk contains the second is attributed to the
    first such chunk. *)
Lemma explicit_citation_first before chunk after tok n :
  parseTimeString tok = Some n ->
  Forall (fun c => contains (inject_Z (Z.of_N n)) c = false) before ->
  contains (inject_Z (Z.of_N n)) chunk = true ->
  explicit_citation (before ++ chunk :: after) tok = [citation_of tok n chunk].
Proof.
  intros Hp Hb Hc. unfold explicit_citation. rewrite Hp. cbn zeta.
  assert (Hf : find (contains (inject_Z (Z.of_N n))) (before ++ chunk :: after)
               = Some chunk).
  { induction Hb as [|c before Hcf _ IH]; cbn [app find]; [rewrite Hc; reflexivity|].
    rewrite Hcf. exact IH. }
  rewrite Hf. reflexivity.
Qed.

(** The citations of the tokens are what is returned, without the ones
    within five seconds of an earlier one, as soon as one token is
    attributed. *)
Lemma extractTimestamps_explicit response context :
  explicit_citations response context
  = flat_map (explicit_citation context) (scan_timestamps 0 response) /\
  (explicit_citations response context <> [] ->
   extractTimestamps response context
   = uniqueTimestamps (explicit_citations response context)).
Proof.
  split; [reflexivity|]. intros H. unfold extractTimestamps.
  destruct (explicit_citations response context); [exfalso; apply H; reflexivity|].
  reflexivity.
Qed.

Lemma example_hours pre post text :
  no_bracket pre -> no_bracket post ->
  extractTimestamps (pre ++ "[01:05:30]" ++ post)%string [mk_context 3900 3960 text]
  = [citation_of "01:05:30" 3930 (mk_context 3900 3960 text)].
Proof.
  intros Hpre Hpost. unfold extractTimestamps, explicit_citations.
  rewrite (scan_no_bracket _ _ Hpre).
  change ("[01:05:30]" ++ post)%string with ("[" ++ "01:05:30" ++ "]" ++ post)%string.
  rewrite (scan_token "01:05:30" post).
  - rewrite (scan_none _ Hpost). reflexivity.
  - exists "01", "05". repeat split; try reflexivity; try (cbn; lia).
    right. exists "30". repeat split.
Qed.

(** C6. Citation extraction.  The expression matches exactly a token in
    brackets, [[M:SS]], [[MM:SS]] or [[HH:MM:SS]], and every answer is
    made of such tokens and of texts in which no match begins: the scan
    finds these tokens, all of them and in order.  A token converts to
    the minutes times 60 plus the seconds, and with three parts to the
    hours times 3600 plus the minutes times 60 plus the seconds.  A
    token the second of which a chunk contains gets one citation, which
    carries that second and the bounds of the first such chunk; a token
    that no chunk contains gives no citation.  Once a token is
    attributed, what is returned are the citations of the tokens, and
    among them no two are within five seconds of each other: the first
    citation is always kept, and one that is dropped is within five
    seconds of an earlier one.  An answer with the one token [[05:30]]
    against a chunk of 300 to 360 seconds yields exactly one citation,
    for that chunk, and a second token [[05:32]] in the same answer
    changes nothing; the token [[01:05:30]] against a chunk of 3900 to
    3960 seconds yields the citation of the second 3930. *)
Theorem citation_extraction :
  (forall response tok,
      In tok (scan_timestamps 0 response) -> exists n, parseTimeString tok = Some n) /\
  (forall response context c,
      In c (explicit_citations response context) ->
      exists tok n chunk,
        In tok (scan_timestamps 0 response) /\
        parseTimeString tok = Some n /\
        find (contains (inject_Z (Z.of_N n))) context = Some chunk /\
        In chunk context /\
        ctx_startTime chunk <= time c /\ time c <= ctx_endTime chunk /\
        time c = inject_Z (Z.of_N n) /\ timeString c = tok /\
        startTime c = ctx_startTime chunk /\ endTime c = ctx_endTime chunk) /\
  (forall context tok,
      (forall n chunk, parseTimeString tok = Some n -> In chunk context ->
                       contains (inject_Z (Z.of_N n)) chunk = false) ->
      explicit_citation context tok = []) /\
  (forall timestamps,
      ForallOrdPairs (fun a b => within5 b a = false) (uniqueTimestamps timestamps)) /\
  (forall first others,
      exists kept, uniqueTimestamps (first :: others) = first :: kept) /\
  (forall before c after,
      In c (uniqueTimestamps (before ++ c :: after)) \/
      exists a, In a before /\ within5 c a = true) /\
  (forall pre post text,
      no_bracket pre -> no_bracket post ->
      extractTimestamps (pre ++ "[05:30]" ++ post) [mk_context 300 360 text]
      = [citation_330 text]) /\
  (forall pre mid post text,
      no_bracket pre -> no_bracket mid -> no_bracket post ->
      extractTimestamps (pre ++ "[05:30]" ++ mid ++ "[05:32]" ++ post)
                        [mk_context 300 360 text]
      = [citation_330 text]) /\
  (forall s tok n,
      match_timestamp s = Some (tok, n) <->
      time_token tok /\ n = (2 + String.length tok)%nat /\
      exists post, s = ("[" ++ tok ++ "]" ++ post)%string) /\
  (forall response,
      exists parts last,
        response = bracketed parts last /\ tokens_of parts last /\
        scan_timestamps 0 response = map snd parts) /\
  (forall parts last,
      tokens_of parts last -> scan_timestamps 0 (bracketed parts last) = map snd parts) /\
  (forall gap rest, no_bracket gap -> unmatched gap rest) /\
  (forall a b x y,
      all_chars is_digit a = true -> all_chars is_digit b = true ->
      Number a = Some x -> Number b = Some y ->
      parseTimeString (a ++ ":" ++ b)%string = Some (x * 60 + y)%N) /\
  (forall a b c x y z,
      all_chars is_digit a = true -> all_chars is_digit b = true ->
      all_chars is_digit c = true ->
      Number a = Some x -> Number b = Some y -> Number c = Some z ->
      parseTimeString (a ++ ":" ++ b ++ ":" ++ c)%string
      = Some (x * 3600 + y * 60 + z)%N) /\
  (forall a b,
      is_digit a = true -> is_digit b = true ->
      Number (String a "") = Some (digit_value a) /\
      Number (String a (String b "")) = Some (10 * digit_value a + digit_value b)%N) /\
  (forall before chunk after tok n,
      parseTimeString tok = Some n ->
      Forall (fun c => contains (inject_Z (Z.of_N n)) c = false) before ->
      contains (inject_Z (Z.of_N n)) chunk = true ->
      explicit_citation (before ++ chunk :: after) tok = [citation_of tok n chunk]) /\
  (forall response context,
      explicit_citations response context
      = flat_map (explicit_citation context) (scan_timestamps 0 response) /\
      (explicit_citations response context <> [] ->
       extractTimestamps response context
       = uniqueTimestamps (explicit_citations response context))) /\
  (forall pre post text,
      no_bracket pre -> no_bracket post ->
      extractTimestamps (pre ++ "[01:05:30]" ++ post)%string [mk_context 3900 3960 text]
      = [citation_of "01:05:30" 3930 (mk_context 3900 3960 text)]).
Proof.
  split; [exact scanned_token_parses|].
  split.
  { intros response context c H. unfold explicit_citations in H.
    apply in_flat_map in H. destruct H as (tok & Htok & Hc).
    apply explicit_citation_spec in Hc.
    destruct Hc as (n & chunk & H1 & H2 & H3 & H4 & H5 & H6 & H7 & H8 & H9).
    exists tok, n, chunk. repeat split; assumption. }
  split; [exact explicit_citation_discard|].
  split; [intros l; rewrite uniqueTimestamps_eq; apply keep_first_apart|].
  split.
  { intros first others. rewrite uniqueTimestamps_eq. cbn. eexists. reflexivity. }
  split.
  { intros before c after. rewrite uniqueTimestamps_eq.
    apply (keep_first_dropped c after before []). }
  split; [exact example_one_token|]. split; [exact example_two_tokens|].
  split; [exact match_timestamp_iff|].
  split.
  { intros response.
    destruct (bracketed_exists (String.length response) response (le_n _))
      as (parts & last & E & H).
    exists parts, last. split; [exact E|]. split; [exact H|].
    rewrite E. apply scan_bracketed. exact H. }
  split; [exact scan_bracketed|].
  split; [exact no_bracket_unmatched|].
  split; [exact parse_value_two|].
  split; [exact parse_value_three|].
  split; [exact Number_digits|].
  split; [exact explicit_citation_first|].
  split; [exact extractTimestamps_explicit | exact example_hours].
Qed.

Example answer_one_citations :
  extractTimestamps answer_one [chunk_300_360] = [citation_330 "machine learning"].
Proof. reflexivity. Qed.

Example answer_two_citations :
  extractTimestamps answer_two [chunk_300_360] = [citation_330 "machine learning"].
Proof. reflexivity. Qed.

Example answer_mixed_citations :
  scan_timestamps 0 answer_mixed = [ "5:30"; "01:05:30"; "99:00" ] /\
  map parseTimeString [ "5:30"; "01:05:30"; "99:00" ]
  = [ Some 330%N; Some 3930%N; Some 5940%N ] /\
  extractTimestamps answer_mixed [chunk_3900_3960; chunk_300_360]
  = [ citation_of "5:30" 330 chunk_300_360; citation_of "01:05:30" 3930 chunk_3900_3960 ].
Proof. repeat split. Qed.

(** *** The fallback *)

Lemma uniqueTimestamps_nonempty l : l <> [] -> uniqueTimestamps l <> [].
Proof.
  destruct l as [|x l]; [intros H; exfalso; apply H; reflexivity|].
  intros _. rewrite uniqueTimestamps_eq. cbn. discriminate.
Qed.

Lemma fallback_citation_nonneg chunk :
  0 <= ctx_startTime chunk -> fallback_citation chunk <> [].
Proof.
  intros H. unfold fallback_citation. cbn zeta.
  replace (Qle_bool 0 (or0 (ctx_startTime chunk))) with true; [discriminate|].
  symmetry. apply Qle_bool_iff. rewrite or0_eq. exact H.
Qed.

Lemma fallback_citations_nonempty context :
  (exists chunk, In chunk context /\ 0 <= ctx_startTime chunk) ->
  fallback_citations context <> [].
Proof.
  intros (chunk & Hin & Hpos) E.
  pose proof (fallback_citation_nonneg chunk Hpos) as Hne.
  destruct (fallback_citation chunk) as [|c l] eqn:Ec; [apply Hne; reflexivity|].
  assert (Hc : In c (fallback_citations context)).
  { unfold fallback_citations. apply in_flat_map. exists chunk.
    split; [exact Hin | rewrite Ec; left; reflexivity]. }
  rewrite E in Hc. exact Hc.
Qed.

Lemma explicit_citations_outside response context :
  (forall tok n chunk,
      In tok (scan_timestamps 0 response) -> parseTimeString tok = Some n ->
      In chunk context -> contains (inject_Z (Z.of_N n)) chunk = false) ->
  explicit_citations response context = [].
Proof.
  intros H. unfold explicit_citations.
  induction (scan_timestamps 0 response) as [|tok toks IH]; [reflexivity|].
  cbn [flat_map]. rewrite explicit_citation_discard.
  - apply IH. intros t n chunk Ht. apply H. right. exact Ht.
  - intros n chunk Hn Hc. apply (H tok n chunk); [left; reflexivity | exact Hn | exact Hc].
Qed.

(** C9, as amended. For every answer and every context list in which
    some chunk has a start time that is not negative, citation
    extraction returns at least one citation.  The per-chunk fallback
    fires whenever no token was attributed: when the answer holds no
    token, and also when no token falls inside the interval of a
    context chunk. *)
Theorem citations_never_empty (response : string) (context : list ContextChunk) :
  (exists chunk, In chunk context /\ 0 <= ctx_startTime chunk) ->
  extractTimestamps response context <> [] /\
  (explicit_citations response context = [] ->
   extractTimestamps response context = uniqueTimestamps (fallback_citations context)) /\
  ((forall tok n chunk,
       In tok (scan_timestamps 0 response) -> parseTimeString tok = Some n ->
       In chunk context -> contains (inject_Z (Z.of_N n)) chunk = false) ->
   extractTimestamps response context = uniqueTimestamps (fallback_citations context)).
Proof.
  intros Hex.
  assert (Hctx : (0 <? List.length context)%nat = true).
  { destruct Hex as (chunk & Hin & _). destruct context; [destruct Hin | reflexivity]. }
  assert (Hfall : explicit_citations response context = [] ->
                  extractTimestamps response context
                  = uniqueTimestamps (fallback_citations context)).
  { intros E. unfold extractTimestamps. rewrite E, Hctx. reflexivity. }
  split; [|split; [exact Hfall|]].
  - destruct (explicit_citations response context) as [|c l] eqn:E.
    + rewrite (Hfall eq_refl). apply uniqueTimestamps_nonempty.
      apply fallback_citations_nonempty. exact Hex.
    + unfold extractTimestamps. rewrite E. cbn [List.length Nat.eqb andb].
      apply uniqueTimestamps_nonempty. discriminate.
  - intros H. apply Hfall. apply explicit_citations_outside. exact H.
Qed.

Lemma citations_never_empty_witness :
  extractTimestamps "Covered at [10:00]." [chunk_300_360] <> [] /\
  (explicit_citations "Covered at [10:00]." [chunk_300_360] = [] ->
   extractTimestamps "Covered at [10:00]." [chunk_300_360]
   = uniqueTimestamps (fallback_citations [chunk_300_360])) /\
  ((forall tok n chunk,
       In tok (scan_timestamps 0 "Covered at [10:00].") ->
       parseTimeString tok = Some n ->
       In chunk [chunk_300_360] -> contains (inject_Z (Z.of_N n)) chunk = false) ->
   extractTimestamps "Covered at [10:00]." [chunk_300_360]
   = uniqueTimestamps (fallback_citations [chunk_300_360])).
Proof.
  apply (citations_never_empty "Covered at [10:00]." [chunk_300_360]).
  exists chunk_300_360. split; [left; reflexivity | vm_compute; discriminate].
Defined.

(** C9, as stated, fails: the fallback passes over a chunk whose start
    time is negative, so a context of such chunks yields no citation,
    whether the answer holds a token or not. *)
Lemma citations_empty_counterexample :
  [chunk_negative] <> [] /\
  extractTimestamps "" [chunk_negative] = [] /\
  extractTimestamps "Covered at [10:00]." [chunk_negative] = [].
Proof. split; [discriminate | split; reflexivity]. Qed.

End ChatFacts.

(** ** The time strings in double precision *)

Section DoubleFacts.
Import JS Chat Double.

Lemma two_pos k : 0 < 2 ^ k.
Proof. apply Qpower_0_lt. reflexivity. Qed.

Lemma two_plus a b : 2 ^ (a + b) == 2 ^ a * 2 ^ b.
Proof. apply Qpower_plus. discriminate. Qed.

Lemma two_Z k : (0 <= k)%Z -> 2 ^ k == inject_Z (2 ^ k).
Proof. intros H. rewrite (Zpower_Qpower 2 k H). reflexivity. Qed.

Lemma two_succ k : 2 ^ (k + 1) == 2 * 2 ^ k.
Proof. rewrite two_plus. change (2 ^ 1) with 2%Q. ring. Qed.

Lemma log2_le n : (0 < n)%Z -> 2 ^ Z.log2 n <= inject_Z n.
Proof.
  intros H. rewrite two_Z by apply Z.log2_nonneg.
  rewrite <- Zle_Qle. apply Z.log2_spec. exact H.
Qed.

Lemma log2_lt n : (0 < n)%Z -> inject_Z n < 2 * 2 ^ Z.log2 n.
Proof.
  intros H. rewrite <- two_succ. rewrite two_Z by (pose proof (Z.log2_nonneg n); lia).
  rewrite <- Zlt_Qlt. apply Z.log2_spec. exact H.
Qed.

Lemma Qlt_bool_true a b : Qlt_bool a b = true -> a < b.
Proof.
  unfold Qlt_bool. rewrite negb_true_iff. intros H. apply Qnot_le_lt.
  intros Hle. apply Qle_bool_iff in Hle. congruence.
Qed.

Lemma Qlt_bool_not a b : Qlt_bool a b = false -> b <= a.
Proof. unfold Qlt_bool. rewrite negb_false_iff. apply Qle_bool_iff. Qed.

(** The exponent is not above the number. *)
Lemma exponent_le q : 0 < q -> 2 ^ exponent q <= q.
Proof.
  intros Hq. unfold exponent.
  set (a := Z.log2 (Qnum q)). set (b := Z.log2 (Zpos (Qden q))).
  destruct (Qlt_bool q (2 ^ (a - b))) eqn:E; [|apply Qlt_bool_not; exact E].
  assert (Hn : (0 < Qnum q)%Z).
  { destruct q as [n d]. unfold Qlt in Hq. cbn in *. lia. }
  pose proof (log2_le _ Hn) as Ha. fold a in Ha.
  pose proof (log2_lt (Zpos (Qden q)) eq_refl) as Hb. fold b in Hb.
  pose proof (two_pos a) as Pa. pose proof (two_pos b) as Pb.
  pose proof (two_pos (a - b - 1)) as Px.
  assert (Ex : 2 ^ (a - b - 1) * (2 * 2 ^ b) == 2 ^ a).
  { rewrite <- two_succ, <- two_plus. apply Qpower_comp; [reflexivity | lia]. }
  assert (Eq : q == inject_Z (Qnum q) / inject_Z (Zpos (Qden q))).
  { destruct q as [n d]. cbn [Qnum Qden]. apply Qmake_Qdiv. }
  rewrite Eq. apply Qle_shift_div_l; [reflexivity|].
  set (X := 2 ^ (a - b - 1)) in *. set (B := 2 ^ b) in *. set (A := 2 ^ a) in *.
  set (D := inject_Z (Zpos (Qden q))) in *. set (N := inject_Z (Qnum q)) in *.
  assert (HD : 0 < D) by reflexivity.
  nra.
Qed.

Lemma exponent_int n : (0 < n)%Z -> exponent (inject_Z n) = Z.log2 n.
Proof.
  intros H. unfold exponent. cbn [Qnum Qden inject_Z].
  change (Z.log2 1) with 0%Z. rewrite Z.sub_0_r.
  destruct (Qlt_bool _ _) eqn:E; [|reflexivity].
  exfalso. apply Qlt_bool_true in E. pose proof (log2_le n H) as Hl.
  apply (Qlt_not_le _ _ E). exact Hl.
Qed.

Lemma nearest_even_comp x y : x == y -> nearest_even x = nearest_even y.
Proof.
  intros H. unfold nearest_even. rewrite (Qfloor_comp _ _ H).
  assert (E : ((x - inject_Z (Qfloor y) ?= 1 # 2) = (y - inject_Z (Qfloor y) ?= 1 # 2))%Q).
  { apply Qcompare_comp; [rewrite H; reflexivity | reflexivity]. }
  rewrite E. reflexivity.
Qed.

Lemma nearest_even_Z z : nearest_even (inject_Z z) = z.
Proof.
  unfold nearest_even. rewrite Qfloor_Z.
  assert (E : (inject_Z z - inject_Z z ?= 1 # 2)%Q = Lt).
  { apply Qlt_alt. setoid_replace (inject_Z z - inject_Z z) with 0%Q by ring. reflexivity. }
  rewrite E. reflexivity.
Qed.

Lemma nearest_even_floor x : (Qfloor x <= nearest_even x)%Z.
Proof.
  unfold nearest_even. destruct (Qcompare _ _); [destruct (Z.even _)| |]; lia.
Qed.

Lemma nearest_even_upper x : inject_Z (nearest_even x) <= x + (1 # 2).
Proof.
  unfold nearest_even. pose proof (Qfloor_le x) as Hf.
  destruct (x - inject_Z (Qfloor x) ?= 1 # 2)%Q eqn:E.
  - apply Qeq_alt in E. destruct (Z.even _); [lra|].
    rewrite inject_Z_plus. change (inject_Z 1) with 1%Q. lra.
  - lra.
  - apply Qgt_alt in E. rewrite inject_Z_plus. change (inject_Z 1) with 1%Q. lra.
Qed.

Lemma Qred_Z n : Qred (inject_Z n) = inject_Z n.
Proof.
  unfold Qred, inject_Z.
  pose proof (Z.ggcd_gcd n 1) as Hg. pose proof (Z.ggcd_correct_divisors n 1) as Hd.
  destruct (Z.ggcd n 1) as [g [aa bb]]. cbn [fst snd] in *.
  rewrite Z.gcd_1_r in Hg. subst g. destruct Hd as [-> Hb].
  rewrite Z.mul_1_l in *. subst bb. reflexivity.
Qed.

Lemma round_comp q q' : q == q' -> round q = round q'.
Proof. intros H. unfold round. rewrite (Qred_complete _ _ H). reflexivity. Qed.

(** An integer below [2^53] is a double. *)
Lemma round_small n : (0 <= n < 2 ^ 53)%Z -> round (inject_Z n) == inject_Z n.
Proof.
  intros [H0 H1]. unfold round. rewrite Qred_Z. cbn [Qnum inject_Z].
  destruct n as [|p|p]; [reflexivity| |lia].
  unfold round_pos. change (Zpos p # 1) with (inject_Z (Zpos p)).
  rewrite exponent_int by reflexivity.
  set (e := Z.log2 (Zpos p)).
  assert (He : (0 <= e < 53)%Z).
  { split; [apply Z.log2_nonneg|]. apply Z.log2_lt_pow2; [reflexivity | exact H1]. }
  assert (E : inject_Z (Zpos p) * 2 ^ (52 - e) == inject_Z (Zpos p * 2 ^ (52 - e))).
  { rewrite two_Z by lia. rewrite inject_Z_mult. reflexivity. }
  rewrite (nearest_even_comp _ _ E), nearest_even_Z, inject_Z_mult.
  rewrite <- two_Z by lia. rewrite <- Qmult_assoc, <- two_plus.
  replace (52 - e + (e - 52))%Z with 0%Z by lia. change (2 ^ 0) with 1%Q. ring.
Qed.

Lemma round_int_small n : (0 <= n < 2 ^ 53)%Z -> round_int n = n.
Proof.
  intros H. unfold round_int. rewrite (Qfloor_comp _ _ (round_small n H)). apply Qfloor_Z.
Qed.

(** The double that stands for an integer from [2^53] on is not below
    [2^53]. *)
Lemma round_large n : (2 ^ 53 <= n)%Z -> inject_Z (2 ^ 53) <= round (inject_Z n).
Proof.
  intros H. unfold round. rewrite Qred_Z. cbn [Qnum inject_Z].
  destruct n as [|p|p]; [lia| |lia].
  unfold round_pos. change (Zpos p # 1) with (inject_Z (Zpos p)).
  rewrite exponent_int by reflexivity.
  set (e := Z.log2 (Zpos p)).
  assert (He : (53 <= e)%Z).
  { apply Z.log2_le_pow2; [reflexivity | exact H]. }
  pose proof (log2_le (Zpos p) eq_refl) as Hp. fold e in Hp.
  set (x := inject_Z (Zpos p) * 2 ^ (52 - e)).
  assert (Hx : inject_Z (2 ^ 52) <= x).
  { unfold x. rewrite <- two_Z by lia.
    assert (E : 2 ^ 52 == 2 ^ e * 2 ^ (52 - e)).
    { rewrite <- two_plus. apply Qpower_comp; [reflexivity | lia]. }
    rewrite E. apply Qmult_le_compat_r; [exact Hp | apply Qlt_le_weak, two_pos]. }
  assert (Hm : (2 ^ 52 <= nearest_even x)%Z).
  { eapply Z.le_trans; [|apply nearest_even_floor].
    rewrite <- (Qfloor_Z (2 ^ 52)). apply Qfloor_resp_le. exact Hx. }
  rewrite <- two_Z by lia.
  assert (E : 2 ^ 53 == inject_Z (2 ^ 52) * 2 ^ 1) by reflexivity.
  rewrite E.
  apply Qle_trans with (inject_Z (nearest_even x) * 2 ^ 1).
  - apply Qmult_le_compat_r; [rewrite <- Zle_Qle; exact Hm | discriminate].
  - apply Qmult_le_l.
    + eapply Qlt_le_trans; [|rewrite <- Zle_Qle; exact Hm]. reflexivity.
    + apply Qpower_le_compat_l; [lia | discriminate].
Qed.

(** Only itself stands for an integer below [2^53]. *)
Lemma round_is_small v x :
  (0 <= v)%Z -> (0 <= x < 2 ^ 53)%Z -> round (inject_Z v) == inject_Z x -> v = x.
Proof.
  intros Hv Hx H. destruct (Z.lt_ge_cases v (2 ^ 53)) as [Hlt|Hge].
  - rewrite round_small in H by lia. unfold Qeq in H. cbn in H. lia.
  - exfalso. pose proof (round_large v Hge) as Hl. rewrite H in Hl.
    rewrite <- Zle_Qle in Hl. lia.
Qed.

Lemma floor_between q k : inject_Z k <= q -> q < inject_Z (k + 1) -> Qfloor q = k.
Proof.
  intros Hle Hlt.
  assert (H1 : (k <= Qfloor q)%Z).
  { rewrite <- (Qfloor_Z k). apply Qfloor_resp_le. exact Hle. }
  assert (H2 : (Qfloor q < k + 1)%Z).
  { rewrite Zlt_Qlt. eapply Qle_lt_trans; [apply Qfloor_le | exact Hlt]. }
  lia.
Qed.

(** [Math.floor(a / d)] is exact on integers below [2^53]. *)
Lemma floor_round_div q a d :
  q == inject_Z a / inject_Z (Zpos d) -> (0 <= a < 2 ^ 53)%Z ->
  Qfloor (round q) = (a / Zpos d)%Z.
Proof.
  intros Hq [Ha0 Ha1].
  destruct (Z.eq_dec a 0) as [->|Hne].
  { assert (E : q == inject_Z 0) by (rewrite Hq; reflexivity).
    rewrite (round_comp _ _ E). reflexivity. }
  assert (Hpos : 0 < Qred q).
  { rewrite Qred_correct, Hq. apply Qlt_shift_div_l; [reflexivity|].
    rewrite Qmult_0_l. change 0%Q with (inject_Z 0). rewrite <- Zlt_Qlt. lia. }
  unfold round.
  assert (Hr : Qred q == inject_Z a / inject_Z (Zpos d)) by (rewrite Qred_correct; exact Hq).
  set (r := Qred q) in *.
  destruct (Qnum r) as [|p|p] eqn:En.
  { exfalso. destruct r as [n dd]. unfold Qlt in Hpos. cbn in *. lia. }
  2:{ exfalso. destruct r as [n dd]. unfold Qlt in Hpos. cbn in *. lia. }
  unfold round_pos. pose proof (exponent_le r Hpos) as He. set (e := exponent r) in *.
  set (k := (a / Zpos d)%Z).
  pose proof (Z.div_mod a (Zpos d) ltac:(discriminate)) as Hdm. fold k in Hdm.
  pose proof (Z.mod_pos_bound a (Zpos d) eq_refl) as Hmod.
  set (D := inject_Z (Zpos d)) in *.
  assert (HD : 0 < D) by reflexivity.
  assert (HD1 : 1 <= D).
  { unfold D. change 1%Q with (inject_Z 1). rewrite <- Zle_Qle. lia. }
  (* the quotient in terms of [k] *)
  assert (Hk1 : inject_Z k <= r).
  { rewrite Hr. apply Qle_shift_div_l; [exact HD|]. unfold D.
    rewrite <- inject_Z_mult, <- Zle_Qle. lia. }
  assert (Hk2 : r * D <= inject_Z (k + 1) * D - 1).
  { rewrite Hr. unfold Qdiv. rewrite <- Qmult_assoc, (Qmult_comm (/ D)), Qmult_inv_r, Qmult_1_r
      by (intros E; rewrite E in HD; discriminate).
    unfold D. rewrite <- inject_Z_mult. change 1%Q with (inject_Z 1).
    unfold Qminus. rewrite <- inject_Z_opp, <- inject_Z_plus, <- Zle_Qle. lia. }
  (* the scale *)
  assert (Hj : (0 <= 52 - e)%Z).
  { assert (H : 2 ^ e < 2 ^ 53).
    { apply Qle_lt_trans with r; [exact He|]. rewrite Hr.
      apply Qlt_shift_div_r; [exact HD|].
      apply Qlt_le_trans with (inject_Z (2 ^ 53)).
      - rewrite <- Zlt_Qlt. exact Ha1.
      - assert (P : 0 < 2 ^ 53) by reflexivity.
        change (inject_Z (2 ^ 53)) with (2 ^ 53). nra. }
    apply Qpower_lt_compat_l_inv in H; [lia | reflexivity]. }
  set (J := inject_Z (2 ^ (52 - e))).
  assert (EJ : 2 ^ (52 - e) == J) by (apply two_Z; exact Hj).
  assert (PJ : 0 < J) by (rewrite <- EJ; apply two_pos).
  assert (EJ' : 2 ^ (e - 52) * J == 1).
  { rewrite <- EJ, <- two_plus. replace (e - 52 + (52 - e))%Z with 0%Z by lia. reflexivity. }
  assert (HJD : D < 2 * J).
  { assert (H : 2 ^ e * D < 2 ^ e * (2 * J)).
    { apply Qle_lt_trans with (r * D).
      - apply Qmult_le_compat_r; [exact He | apply Qlt_le_weak, HD].
      - apply Qlt_le_trans with (inject_Z (2 ^ 53)).
        + rewrite Hr. unfold Qdiv.
          rewrite <- Qmult_assoc, (Qmult_comm (/ D)), Qmult_inv_r, Qmult_1_r
            by (intros E; rewrite E in HD; discriminate).
          rewrite <- Zlt_Qlt. exact Ha1.
        + rewrite <- EJ, <- two_succ, <- two_plus.
          replace (e + (52 - e + 1))%Z with 53%Z by lia. apply Qle_refl. }
    pose proof (two_pos e) as Pe. nra. }
  set (m := nearest_even (r * 2 ^ (52 - e))).
  assert (Hm1 : (k * 2 ^ (52 - e) <= m)%Z).
  { eapply Z.le_trans; [|apply nearest_even_floor].
    rewrite <- (Qfloor_Z (k * 2 ^ (52 - e))). apply Qfloor_resp_le.
    rewrite inject_Z_mult. fold J. rewrite EJ.
    apply Qmult_le_compat_r; [exact Hk1 | apply Qlt_le_weak, PJ]. }
  assert (Hm2 : (m < (k + 1) * 2 ^ (52 - e))%Z).
  { rewrite Zlt_Qlt. eapply Qle_lt_trans; [apply nearest_even_upper|].
    rewrite inject_Z_mult. fold J. rewrite EJ.
    set (K := inject_Z (k + 1)) in *.
    assert (H : r * J * D <= (K * D - 1) * J) by nra.
    assert (H' : (r * J + (1 # 2)) * D < K * J * D) by nra.
    nra. }
  apply floor_between.
  - apply Qle_trans with (inject_Z (k * 2 ^ (52 - e)) * 2 ^ (e - 52)).
    + rewrite inject_Z_mult. fold J. rewrite <- Qmult_assoc, (Qmult_comm J), EJ'. lra.
    + apply Qmult_le_compat_r; [rewrite <- Zle_Qle; exact Hm1 | apply Qlt_le_weak, two_pos].
  - apply Qlt_le_trans with (inject_Z ((k + 1) * 2 ^ (52 - e)) * 2 ^ (e - 52)).
    + apply Qmult_lt_r; [apply two_pos | rewrite <- Zlt_Qlt; exact Hm2].
    + rewrite inject_Z_mult. fold J. rewrite <- Qmult_assoc, (Qmult_comm J), EJ'. lra.
Qed.

End DoubleFacts.

Section TimeStringFacts.
Import JS Chat Double.

Lemma shortest_from_small x : (0 <= x < 2 ^ 53)%Z ->
  forall e, Chat64.shortest_from e x = x.
Proof.
  intros Hx.
  assert (Hok : forall v, (0 <= v)%Z ->
                          Qeq_bool (round (inject_Z v)) (inject_Z x) = true -> v = x).
  { intros v Hv H. apply Qeq_bool_iff in H. exact (round_is_small v x Hv Hx H). }
  induction e as [|e IH]; cbn [Chat64.shortest_from]; cbv zeta.
  - change (10 ^ Z.of_nat 0)%Z with 1%Z. rewrite Z.div_1_r, Z.mul_1_r.
    destruct (Qeq_bool (round (inject_Z x)) (inject_Z x)) eqn:E1;
      destruct (Qeq_bool (round (inject_Z (x + 1))) (inject_Z x)) eqn:E2;
      try reflexivity.
    + apply Hok in E2; lia.
    + apply Hok in E2; lia.
  - set (p := (10 ^ Z.of_nat (S e))%Z).
    assert (Hp : (0 < p)%Z) by (apply Z.pow_pos_nonneg; lia).
    pose proof (Z.div_mod x p ltac:(lia)) as Hdm.
    pose proof (Z.mod_pos_bound x p Hp) as Hmod.
    assert (Hlo : (0 <= x / p * p)%Z).
    { apply Z.mul_nonneg_nonneg; [apply Z.div_pos|]; lia. }
    destruct (Qeq_bool (round (inject_Z (x / p * p))) (inject_Z x)) eqn:E1;
      destruct (Qeq_bool (round (inject_Z (x / p * p + p))) (inject_Z x)) eqn:E2.
    + apply Hok in E1; [|exact Hlo]. apply Hok in E2; [|lia]. lia.
    + apply Hok in E1; [exact E1 | exact Hlo].
    + apply Hok in E2; [exact E2 | lia].
    + exact IH.
Qed.

(** Below [2^53] a whole number prints with its own digits. *)
Lemma pad2_small z : (0 <= z < 2 ^ 53)%Z -> Chat64.pad2 z = pad2 z.
Proof.
  intros H. unfold Chat64.pad2, Chat64.toString, Chat64.shortest, pad2.
  rewrite (shortest_from_small z H). reflexivity.
Qed.

Lemma formatTime_small z : (0 <= z < 2 ^ 53)%Z ->
  Chat64.formatTime (inject_Z z) = formatTime (inject_Z z).
Proof.
  intros [H0 H1]. destruct (Z.eq_dec z 0) as [->|Hne]; [reflexivity|].
  rewrite formatTime_integer by lia. unfold Chat64.formatTime.
  assert (E0 : Qeq_bool (inject_Z z) 0 = false).
  { apply not_true_is_false. intros H. apply Qeq_bool_iff in H.
    unfold Qeq in H. cbn in H. lia. }
  assert (E1 : Qlt_bool (inject_Z z) 0 = false).
  { unfold Qlt_bool. apply negb_false_iff, Qle_bool_iff.
    change 0%Q with (inject_Z 0). rewrite <- Zle_Qle. exact H0. }
  rewrite E0, E1. cbn [orb].
  pose proof (Z.mod_pos_bound z 3600 eq_refl) as B1.
  pose proof (Z.mod_pos_bound z 60 eq_refl) as B2.
  pose proof (Z.div_pos z 3600 H0 eq_refl) as D1.
  pose proof (Z.div_pos (z mod 3600) 60 ltac:(lia) eq_refl) as D2.
  assert (D1' : (z / 3600 <= z)%Z) by (apply Z.div_le_upper_bound; lia).
  assert (D2' : (z mod 3600 / 60 <= z mod 3600)%Z) by (apply Z.div_le_upper_bound; lia).
  assert (Hh : Qfloor (round (inject_Z z / 3600)) = (z / 3600)%Z).
  { apply (floor_round_div _ z 3600); [reflexivity | lia]. }
  assert (Hm : Qfloor (round (rem (inject_Z z) 3600 / 60)) = (z mod 3600 / 60)%Z).
  { apply (floor_round_div _ (z mod 3600) 60); [|lia].
    change 3600%Q with (inject_Z 3600). rewrite (rem_integers z 3600 H0). reflexivity. }
  assert (Hs : Qfloor (rem (inject_Z z) 60) = (z mod 60)%Z).
  { change 60%Q with (inject_Z 60).
    rewrite (Qfloor_comp _ _ (rem_integers z 60 H0)). apply Qfloor_Z. }
  rewrite Hh, Hm, Hs.
  rewrite !pad2_small by lia. reflexivity.
Qed.

(** Below [2^53] the sums of [parseTimeString] are exact. *)
Lemma parseTimeString_small timeString n :
  parseTimeString timeString = Some n -> (n < 2 ^ 53)%N ->
  Chat64.parseTimeString timeString = Some (Z.of_N n).
Proof.
  unfold parseTimeString, Chat64.parseTimeString, Chat64.Number,
    Chat64.times, Chat64.plus.
  destruct (split ":" timeString) as [|a [|b [|c [|d l]]]]; cbn [map].
  - intros [= <-] _. reflexivity.
  - destruct (Number a); intros [= <-] _; reflexivity.
  - destruct (Number a) as [x|], (Number b) as [y|]; cbn [option_map];
      try discriminate.
    intros [= <-] H. apply N2Z.inj_lt in H.
    rewrite N2Z.inj_add, N2Z.inj_mul in *. change (Z.of_N (2 ^ 53)) with (2 ^ 53)%Z in H.
    change (Z.of_N 60) with 60%Z in *.
    pose proof (N2Z.is_nonneg x). pose proof (N2Z.is_nonneg y).
    rewrite (round_int_small (Z.of_N x)), (round_int_small (Z.of_N y)) by lia.
    rewrite (round_int_small (Z.of_N x * 60)) by lia.
    rewrite round_int_small by lia. reflexivity.
  - destruct (Number a) as [x|], (Number b) as [y|], (Number c) as [z|];
      cbn [option_map]; try discriminate.
    intros [= <-] H. apply N2Z.inj_lt in H.
    rewrite !N2Z.inj_add, !N2Z.inj_mul in *. change (Z.of_N (2 ^ 53)) with (2 ^ 53)%Z in H.
    change (Z.of_N 60) with 60%Z in *. change (Z.of_N 3600) with 3600%Z in *.
    pose proof (N2Z.is_nonneg x). pose proof (N2Z.is_nonneg y). pose proof (N2Z.is_nonneg z).
    rewrite (round_int_small (Z.of_N x)), (round_int_small (Z.of_N y)),
      (round_int_small (Z.of_N z)) by lia.
    rewrite (round_int_small (Z.of_N x * 3600)), (round_int_small (Z.of_N y * 60)) by lia.
    rewrite (round_int_small (Z.of_N x * 3600 + Z.of_N y * 60)) by lia.
    rewrite round_int_small by lia. reflexivity.
  - destruct (Number a), (Number b), (Number c), (Number d);
      intros [= <-] _; reflexivity.
Qed.

End TimeStringFacts.

Section RoundTrip.
Import JS Chat Double.

(** C10, as amended. For a whole number of seconds below [2^53],
    parsing the string [formatTime] prints gives the number back, the
    arithmetic being the one of doubles; the string is [MM:SS] below one
    hour and [HH:MM:SS] from one hour on, and the exact arithmetic gives
    the same string and the same number. *)
Theorem parse_format_bounded (s : N) :
  (s < 2 ^ 53)%N ->
  Chat64.formatTime (inject_Z (Z.of_N s)) =
    (if (s <? 3600)%N
     then pad2 (Z.of_N s / 60) ++ ":" ++ pad2 (Z.of_N s mod 60)
     else pad2 (Z.of_N s / 3600) ++ ":" ++ pad2 (Z.of_N s mod 3600 / 60) ++ ":"
            ++ pad2 (Z.of_N s mod 60))%string /\
  Chat64.parseTimeString (Chat64.formatTime (inject_Z (Z.of_N s))) = Some (Z.of_N s) /\
  Chat64.formatTime (inject_Z (Z.of_N s)) = formatTime (inject_Z (Z.of_N s)) /\
  parseTimeString (formatTime (inject_Z (Z.of_N s))) = Some s.
Proof.
  intros Hs.
  assert (Hz : (0 <= Z.of_N s < 2 ^ 53)%Z).
  { split; [apply N2Z.is_nonneg|]. apply N2Z.inj_lt in Hs. exact Hs. }
  destruct (parse_format_exact s) as [Hshape Hback].
  rewrite (formatTime_small _ Hz).
  split; [exact Hshape|]. split; [|split; [reflexivity | exact Hback]].
  apply parseTimeString_small; assumption.
Qed.

End RoundTrip.

Lemma parse_format_bounded_witness :
  Chat64.formatTime (inject_Z (Z.of_N 3725)) =
    (if (3725 <? 3600)%N
     then Chat.pad2 (Z.of_N 3725 / 60) ++ ":" ++ Chat.pad2 (Z.of_N 3725 mod 60)
     else Chat.pad2 (Z.of_N 3725 / 3600) ++ ":" ++ Chat.pad2 (Z.of_N 3725 mod 3600 / 60) ++ ":"
            ++ Chat.pad2 (Z.of_N 3725 mod 60))%string /\
  Chat64.parseTimeString (Chat64.formatTime (inject_Z (Z.of_N 3725))) = Some (Z.of_N 3725) /\
  Chat64.formatTime (inject_Z (Z.of_N 3725)) = Chat.formatTime (inject_Z (Z.of_N 3725)) /\
  Chat.parseTimeString (Chat.formatTime (inject_Z (Z.of_N 3725))) = Some 3725%N.
Proof. apply (parse_format_bounded 3725). reflexivity. Defined.

(** C10, as stated, fails: in doubles the hours of a large whole number
    of seconds are rounded, once by the division and once more by
    [toString], and the string parses back to another number. *)
Lemma parse_format_large_counterexample :
  Double.round (inject_Z DoubleExamples.large_time) == inject_Z DoubleExamples.large_time /\
  Chat64.formatTime (inject_Z DoubleExamples.large_time) = "73915534584518620:41:36" /\
  Chat64.parseTimeString "73915534584518620:41:36" = Some DoubleExamples.large_time_back /\
  DoubleExamples.large_time_back <> DoubleExamples.large_time /\
  ~ (forall s : N,
        Chat64.parseTimeString (Chat64.formatTime (inject_Z (Z.of_N s))) = Some (Z.of_N s)).
Proof.
  split; [vm_compute; reflexivity|]. split; [vm_compute; reflexivity|].
  split; [vm_compute; reflexivity|]. split; [discriminate|].
  intros H. specialize (H (Z.to_N DoubleExamples.large_time)).
  vm_compute in H. discriminate H.
Qed.

(** ** The embedder *)

Section EmbeddingFacts.
Import JS TextChunker Server Requests Fallback.
Local Open Scope js_scope.

Variable env : Env.

Lemma set_log_set_log l l' w : set_log l (set_log l' w) = set_log l w.
Proof. reflexivity. Qed.

Lemma log_set_log l w : log (set_log l w) = l.
Proof. reflexivity. Qed.

(** The unfolding of [callEmbeddingAPI], as the source has it. *)
Lemma callEmbeddingAPI_unfold texts retryCount w :
  callEmbeddingAPI env texts retryCount w =
  try_catch
    (call (EmbeddingsCreate texts) (fun t => openai_embeddings env t texts))
    (fun error =>
       if (retryCount <? maxRetries)%nat
       then (delay (retryDelay * 2 ^ N.of_nat retryCount);;
             callEmbeddingAPI env texts (S retryCount))
       else throw error) w.
Proof.
  unfold callEmbeddingAPI.
  destruct (Nat.ltb_spec retryCount maxRetries) as [H|H].
  - replace (maxRetries - retryCount)%nat with (S (maxRetries - S retryCount)) by lia.
    cbn [callEmbeddingAPI_left].
    replace (retryCount <? maxRetries)%nat with true
      by (symmetry; apply Nat.ltb_lt; exact H).
    reflexivity.
  - destruct (maxRetries - retryCount)%nat; cbn [callEmbeddingAPI_left];
      replace (retryCount <? maxRetries)%nat with false
        by (symmetry; apply Nat.ltb_ge; exact H);
      reflexivity.
Qed.

(** Whatever the service answers, a call of [callEmbeddingAPI] makes
    one request and at most [left] retries, each after a delay twice
    the one before, and touches nothing but the log. *)
Lemma callEmbeddingAPI_left_log texts : forall left retryCount w,
  exists k, (k <= left)%nat /\
    snd (callEmbeddingAPI_left env left texts retryCount w) =
    set_log (log w ++ EmbeddingsCreate texts :: retries_log texts retryCount k) w.
Proof.
  induction left as [|left IH]; intros retryCount w;
    cbn [callEmbeddingAPI_left]; unfold try_catch, call at 1;
    destruct (openai_embeddings env (List.length (log w)) texts) as [data|error].
  - exists 0%nat. split; [lia | reflexivity].
  - exists 0%nat. split; [lia|]. destruct (retryCount <? maxRetries)%nat; reflexivity.
  - exists 0%nat. split; [lia | reflexivity].
  - destruct (retryCount <? maxRetries)%nat; [|exists 0%nat; split; [lia | reflexivity]].
    unfold bind, delay, emit, call at 1.
    destruct (IH (S retryCount)
                (set_log (log (set_log (log w ++ [EmbeddingsCreate texts]) w)
                            ++ [Delay (retryDelay * 2 ^ N.of_nat retryCount)])
                   (set_log (log w ++ [EmbeddingsCreate texts]) w)))
      as (k & Hk & E).
    exists (S k). split; [lia|].
    rewrite E. rewrite !log_set_log, !set_log_set_log.
    rewrite <- !app_assoc. reflexivity.
Qed.

Lemma callEmbeddingAPI_log texts w :
  exists k, (k <= maxRetries)%nat /\
    snd (callEmbeddingAPI env texts 0 w) =
    set_log (log w ++ EmbeddingsCreate texts :: retries_log texts 0 k) w.
Proof. apply (callEmbeddingAPI_left_log texts maxRetries 0%nat w). Qed.

Lemma callEmbeddingAPI_ok texts retryCount w data :
  openai_embeddings env (List.length (log w)) texts = Ok data ->
  callEmbeddingAPI env texts retryCount w =
  (Ok data, set_log (log w ++ [EmbeddingsCreate texts]) w).
Proof.
  intros H. rewrite callEmbeddingAPI_unfold. unfold try_catch, call.
  rewrite H. reflexivity.
Qed.

Lemma callEmbeddingAPI_retry texts retryCount w e :
  (retryCount < maxRetries)%nat ->
  openai_embeddings env (List.length (log w)) texts = Throw e ->
  callEmbeddingAPI env texts retryCount w =
  callEmbeddingAPI env texts (S retryCount)
    (set_log (log w ++ [EmbeddingsCreate texts;
                        Delay (retryDelay * 2 ^ N.of_nat retryCount)]) w).
Proof.
  intros Hlt H. rewrite callEmbeddingAPI_unfold. unfold try_catch, call at 1.
  rewrite H.
  replace (retryCount <? maxRetries)%nat with true by (symmetry; apply Nat.ltb_lt; exact Hlt).
  unfold bind, delay, emit, call.
  rewrite log_set_log, set_log_set_log, <- app_assoc. reflexivity.
Qed.

Lemma callEmbeddingAPI_give_up texts w e :
  openai_embeddings env (List.length (log w)) texts = Throw e ->
  callEmbeddingAPI env texts maxRetries w =
  (Throw e, set_log (log w ++ [EmbeddingsCreate texts]) w).
Proof.
  intros H. rewrite callEmbeddingAPI_unfold. unfold try_catch, call.
  rewrite H. reflexivity.
Qed.

(** Two failures, then the answer: three requests, with delays of
    1000 and 2000 milliseconds between them. *)
Lemma callEmbeddingAPI_third_attempt texts w e1 e2 data :
  openai_embeddings env (List.length (log w)) texts = Throw e1 ->
  openai_embeddings env (List.length (log w) + 2) texts = Throw e2 ->
  openai_embeddings env (List.length (log w) + 4) texts = Ok data ->
  callEmbeddingAPI env texts 0 w =
  (Ok data,
   set_log (log w ++ [EmbeddingsCreate texts; Delay 1000; EmbeddingsCreate texts;
                      Delay 2000; EmbeddingsCreate texts]) w).
Proof.
  intros H1 H2 H3.
  rewrite (callEmbeddingAPI_retry texts 0 w e1) by (unfold maxRetries; lia || exact H1).
  rewrite (callEmbeddingAPI_retry texts 1 _ e2).
  - rewrite (callEmbeddingAPI_ok texts 2 _ data).
    + rewrite !log_set_log, !set_log_set_log, <- !app_assoc. reflexivity.
    + rewrite !log_set_log, !length_app. cbn [List.length].
      replace (List.length (log w) + 2 + 2)%nat with (List.length (log w) + 4)%nat by lia.
      exact H3.
  - unfold maxRetries. lia.
  - rewrite log_set_log, length_app. exact H2.
Qed.

(** Four failures: the last error is thrown, after delays of 1000,
    2000 and 4000 milliseconds. *)
Lemma callEmbeddingAPI_exhausted texts w e1 e2 e3 e4 :
  openai_embeddings env (List.length (log w)) texts = Throw e1 ->
  openai_embeddings env (List.length (log w) + 2) texts = Throw e2 ->
  openai_embeddings env (List.length (log w) + 4) texts = Throw e3 ->
  openai_embeddings env (List.length (log w) + 6) texts = Throw e4 ->
  callEmbeddingAPI env texts 0 w =
  (Throw e4,
   set_log (log w ++ [EmbeddingsCreate texts; Delay 1000; EmbeddingsCreate texts;
                      Delay 2000; EmbeddingsCreate texts;
                      Delay 4000; EmbeddingsCreate texts]) w).
Proof.
  intros H1 H2 H3 H4.
  rewrite (callEmbeddingAPI_retry texts 0 w e1) by (unfold maxRetries; lia || exact H1).
  rewrite (callEmbeddingAPI_retry texts 1 _ e2);
    [|unfold maxRetries; lia | rewrite log_set_log, length_app; exact H2].
  rewrite (callEmbeddingAPI_retry texts 2 _ e3);
    [|unfold maxRetries; lia
     |rewrite !log_set_log, !length_app; cbn [List.length];
      replace (List.length (log w) + 2 + 2)%nat with (List.length (log w) + 4)%nat by lia;
      exact H3].
  rewrite (callEmbeddingAPI_give_up texts _ e4).
  - rewrite !log_set_log, !set_log_set_log, <- !app_assoc. reflexivity.
  - rewrite !log_set_log, !length_app. cbn [List.length].
    replace (List.length (log w) + 2 + 2 + 2)%nat with (List.length (log w) + 6)%nat by lia.
    exact H4.
Qed.

Lemma attach_embeddings_all : forall batch pre data w,
  (List.length batch <= List.length data)%nat ->
  attach_embeddings batch (List.length pre) (pre ++ data) w =
  (Ok (map (fun '(chunk, e) => with_embedding chunk e) (combine batch data)), w).
Proof.
  induction batch as [|chunk batch IH]; intros pre data w Hlen; [reflexivity|].
  destruct data as [|e data]; [cbn in Hlen; lia|].
  cbn [attach_embeddings]. rewrite nth_error_app2 by lia.
  rewrite Nat.sub_diag. cbn [nth_error]. unfold bind.
  replace (S (List.length pre)) with (List.length (pre ++ [e]))
    by (rewrite length_app; cbn; lia).
  replace (pre ++ e :: data) with ((pre ++ [e]) ++ data)
    by (rewrite <- app_assoc; reflexivity).
  rewrite IH by (cbn in Hlen; lia). reflexivity.
Qed.

Lemma attach_embeddings_ok : forall batch index data w r w',
  attach_embeddings batch index data w = (r, w') ->
  w' = w /\
  forall results, r = Ok results ->
    map ec_chunk results = batch /\
    Forall (fun x => exists e, embedding x = Some e /\ embeddingError x = None) results.
Proof.
  induction batch as [|chunk batch IH]; intros index data w r w'; cbn [attach_embeddings].
  - intros [= <- <-]. split; [reflexivity|]. intros results [= <-]. split; constructor.
  - destruct (nth_error data index) as [e|].
    + unfold bind.
      destruct (attach_embeddings batch (S index) data w) as [[more|err] w1] eqn:E;
        intros [= <- <-]; apply IH in E; destruct E as [-> E]; (split; [reflexivity|]).
      * intros results [= <-]. destruct (E more eq_refl) as [E1 E2].
        split; [cbn; rewrite E1; reflexivity|].
        constructor; [exists e; split; reflexivity | exact E2].
      * intros results [=].
    + intros [= <- <-]. split; [reflexivity|]. intros results [=].
Qed.

Lemma processBatch_ok batch w results w' :
  processBatch env batch w = (Ok results, w') ->
  map ec_chunk results = batch /\ Forall embedded_or_failed results.
Proof.
  unfold processBatch, try_catch, bind.
  destruct (callEmbeddingAPI env _ 0 w) as [[data|e] w1]; [|intros [=]].
  destruct (attach_embeddings batch 0 data w1) as [[rs|e] w2] eqn:E; [|intros [=]].
  intros [= <- <-]. apply attach_embeddings_ok in E. destruct E as [_ E].
  destruct (E rs eq_refl) as [E1 E2]. split; [exact E1|].
  eapply Forall_impl; [|exact E2]. intros x Hx. left. exact Hx.
Qed.

(** The per-item fallback always returns, with one entry per chunk. *)
Lemma processIndividually_total : forall chunks w,
  exists results w',
    processIndividually env chunks w = (Ok results, w') /\
    map ec_chunk results = chunks /\ Forall embedded_or_failed results.
Proof.
  induction chunks as [|chunk chunks IH]; intros w.
  - exists [], w. repeat split; constructor.
  - cbn [processIndividually]. unfold bind at 1, try_catch, bind at 1.
    assert (Hitem : exists result w1,
               match
                 match callEmbeddingAPI env [prepareTextForEmbedding (text chunk)] 0 w with
                 | (Ok response, w0) =>
                     match nth_error response 0 with
                     | Some e => (delay 200;; ret (with_embedding chunk e))
                     | None => throw undefined_embedding
                     end w0
                 | (Throw e, w0) => (Throw e, w0)
                 end
               with
               | (Ok a, w0) => (Ok a, w0)
               | (Throw e, w0) => ret (without_embedding chunk e) w0
               end = (Ok result, w1) /\
               ec_chunk result = chunk /\ embedded_or_failed result).
    { destruct (callEmbeddingAPI env _ 0 w) as [[response|e] w0].
      - destruct (nth_error response 0) as [v|].
        + eexists _, _. split; [reflexivity|]. split; [reflexivity|].
          left. exists v. split; reflexivity.
        + eexists _, _. split; [reflexivity|]. split; [reflexivity|].
          right. split; [reflexivity | eexists; reflexivity].
      - eexists _, _. split; [reflexivity|]. split; [reflexivity|].
        right. split; [reflexivity | eexists; reflexivity]. }
    destruct Hitem as (result & w1 & -> & Hc & Hr).
    destruct (IH w1) as (more & w2 & Hm & Hmc & Hmr).
    unfold bind. rewrite Hm. exists (result :: more), w2.
    split; [reflexivity|]. split; [cbn; rewrite Hc, Hmc; reflexivity|].
    constructor; assumption.
Qed.

Lemma concat_createBatches_fuel {A} (n : nat) : forall fuel (xs : list A),
  (0 < n)%nat -> (List.length xs <= fuel)%nat ->
  List.concat (createBatches_fuel fuel xs n) = xs.
Proof.
  induction fuel as [|fuel IH]; intros xs Hn Hlen.
  - destruct xs; [reflexivity | cbn in Hlen; lia].
  - destruct xs as [|x xs]; [reflexivity|].
    cbn [createBatches_fuel List.concat]. rewrite IH.
    + apply firstn_skipn.
    + exact Hn.
    + rewrite length_skipn. cbn [List.length] in *. lia.
Qed.

Lemma concat_createBatches {A} (xs : list A) :
  List.concat (createBatches xs batchSize) = xs.
Proof.
  apply concat_createBatches_fuel; [unfold batchSize; lia | lia].
Qed.

(** The loop over the batches always returns: a batch that fails is
    handed to the per-item fallback, and the batches after it are
    processed all the same. *)
Lemma embed_batches_total : forall batches w,
  exists results w',
    embed_batches env batches w = (Ok results, w') /\
    map ec_chunk results = List.concat batches /\ Forall embedded_or_failed results.
Proof.
  induction batches as [|batch rest IH]; intros w.
  - exists [], w. repeat split; constructor.
  - cbn [embed_batches]. unfold bind at 1, try_catch.
    assert (Hb : exists results w1,
               match (batchResults <- processBatch env batch;;
                      match rest with
                      | [] => ret tt
                      | _ :: _ => delay 500
                      end;; ret batchResults) w with
               | (Ok a, w0) => (Ok a, w0)
               | (Throw e, w0) => processIndividually env batch w0
               end = (Ok results, w1) /\
               map ec_chunk results = batch /\ Forall embedded_or_failed results).
    { unfold bind.
      destruct (processBatch env batch w) as [[rs|e] w0] eqn:E.
      - apply processBatch_ok in E. destruct E as [E1 E2].
        destruct rest; eexists _, _; (split; [reflexivity | split; assumption]).
      - apply processIndividually_total. }
    destruct Hb as (results & w1 & -> & Hc & Hr).
    destruct (IH w1) as (more & w2 & Hm & Hmc & Hmr).
    unfold bind. rewrite Hm. exists (results ++ more)%list, w2.
    split; [reflexivity|]. split.
    + rewrite map_app, Hc, Hmc. reflexivity.
    + apply Forall_app. split; assumption.
Qed.

Lemma generateEmbeddings_total chunks w :
  chunks <> [] ->
  exists results w',
    generateEmbeddings env chunks w = (Ok results, w') /\
    map ec_chunk results = validateChunks chunks /\
    Forall embedded_or_failed results.
Proof.
  intros Hne. unfold generateEmbeddings, try_catch.
  destruct chunks as [|c chunks]; [exfalso; apply Hne; reflexivity|].
  destruct (embed_batches_total (createBatches (validateChunks (c :: chunks)) batchSize) w)
    as (results & w' & E & Hc & Hr).
  rewrite E. exists results, w'. split; [reflexivity|]. split; [|exact Hr].
  rewrite Hc. apply concat_createBatches.
Qed.

Lemma processBatch_third_attempt batch w e1 e2 data :
  let texts := map (fun chunk => prepareTextForEmbedding (text chunk)) batch in
  openai_embeddings env (List.length (log w)) texts = Throw e1 ->
  openai_embeddings env (List.length (log w) + 2) texts = Throw e2 ->
  openai_embeddings env (List.length (log w) + 4) texts = Ok data ->
  List.length data = List.length batch ->
  processBatch env batch w =
  (Ok (map (fun '(chunk, e) => with_embedding chunk e) (combine batch data)),
   set_log (log w ++ [EmbeddingsCreate texts; Delay 1000; EmbeddingsCreate texts;
                      Delay 2000; EmbeddingsCreate texts]) w).
Proof.
  intros texts H1 H2 H3 Hlen. unfold processBatch, try_catch, bind.
  fold texts. rewrite (callEmbeddingAPI_third_attempt texts w e1 e2 data H1 H2 H3).
  rewrite (attach_embeddings_all batch [] data) by lia. reflexivity.
Qed.

Lemma embed_batches_fallback batch rest w e w1 :
  processBatch env batch w = (Throw e, w1) ->
  embed_batches env (batch :: rest) w =
  (results <- processIndividually env batch;;
   more <- embed_batches env rest;;
   ret (results ++ more)%list) w1.
Proof.
  intros H. cbn [embed_batches]. unfold bind at 1, try_catch, bind at 1.
  rewrite H. reflexivity.
Qed.

Lemma retry_delay_doubles (i : nat) :
  (retryDelay * 2 ^ N.of_nat (S i) = 2 * (retryDelay * 2 ^ N.of_nat i))%N /\
  (retryDelay * 2 ^ N.of_nat i < retryDelay * 2 ^ N.of_nat (S i))%N.
Proof.
  rewrite Nat2N.inj_succ, N.pow_succ_r by lia.
  assert (0 < 2 ^ N.of_nat i)%N by (apply N.neq_0_lt_0, N.pow_nonzero; lia).
  unfold retryDelay. lia.
Qed.

Lemma callEmbeddingAPI_left_run texts : forall left retryCount w,
  (retryCount + left = maxRetries)%nat ->
  exists k,
    (k <= left)%nat /\
    snd (callEmbeddingAPI_left env left texts retryCount w)
    = set_log (log w ++ EmbeddingsCreate texts :: retries_log texts retryCount k) w /\
    fst (callEmbeddingAPI_left env left texts retryCount w)
    = openai_embeddings env (List.length (log w) + 2 * k) texts /\
    (forall e, fst (callEmbeddingAPI_left env left texts retryCount w) = Throw e -> k = left) /\
    (forall j, (j < k)%nat ->
               exists e, openai_embeddings env (List.length (log w) + 2 * j) texts = Throw e).
Proof.
  induction left as [|left IH]; intros retryCount w Hsum;
    cbn [callEmbeddingAPI_left]; unfold try_catch, call.
  - exists 0%nat.
    replace (List.length (log w) + 2 * 0)%nat with (List.length (log w)) by lia.
    replace (retryCount <? maxRetries)%nat with false by (symmetry; apply Nat.ltb_ge; lia).
    destruct (openai_embeddings env (List.length (log w)) texts) as [data|error] eqn:E;
      cbn [fst snd retries_log];
      (split; [lia|]); (split; [reflexivity|]); (split; [reflexivity|]);
      (split; [intros; reflexivity | intros j Hj; lia]).
  - replace (retryCount <? maxRetries)%nat with true by (symmetry; apply Nat.ltb_lt; lia).
    destruct (openai_embeddings env (List.length (log w)) texts) as [data|error] eqn:E.
    + exists 0%nat.
      replace (List.length (log w) + 2 * 0)%nat with (List.length (log w)) by lia.
      rewrite E. cbn [fst snd retries_log].
      (split; [lia|]); (split; [reflexivity|]); (split; [reflexivity|]);
      (split; [discriminate | intros j Hj; lia]).
    + unfold bind, delay, emit, call.
      set (w2 := set_log (log (set_log (log w ++ [EmbeddingsCreate texts]) w)
                            ++ [Delay (retryDelay * 2 ^ N.of_nat retryCount)])
                   (set_log (log w ++ [EmbeddingsCreate texts]) w)).
      destruct (IH (S retryCount) w2 ltac:(lia)) as (k & Hk & Hw & Hr & Hthrow & Hprev).
      assert (Hlen : List.length (log w2) = (List.length (log w) + 2)%nat).
      { unfold w2. rewrite !log_set_log, !length_app. cbn. lia. }
      exists (S k). split; [lia|].
      destruct (callEmbeddingAPI_left env left texts (S retryCount) w2) as [r w3].
      cbn [fst snd] in *. split; [|split; [|split]].
      * rewrite Hw. unfold w2. rewrite !log_set_log, !set_log_set_log, <- !app_assoc.
        reflexivity.
      * rewrite Hr, Hlen. f_equal. lia.
      * intros e He. rewrite (Hthrow e He). reflexivity.
      * intros j Hj. destruct j as [|j].
        -- exists error. rewrite Nat.add_0_r. exact E.
        -- destruct (Hprev j ltac:(lia)) as (e & He). exists e.
           rewrite Hlen in He. rewrite <- He. f_equal. lia.
Qed.

Lemma retries_log_length texts : forall k i, List.length (retries_log texts i k) = (2 * k)%nat.
Proof. induction k as [|k IH]; intros i; cbn; [reflexivity | rewrite IH; lia]. Qed.

Lemma retries_log_single text : forall k i, Forall single_request (retries_log [text] i k).
Proof.
  induction k as [|k IH]; intros i; cbn [retries_log]; [constructor|].
  constructor; [intros texts [=]|]. constructor; [intros texts [= <-]; reflexivity|]. apply IH.
Qed.

(** The per-item fallback, item by item. *)
Lemma processIndividually_run : forall chunks w,
  exists results added,
    processIndividually env chunks w = (Ok results, set_log (log w ++ added) w) /\
    submitted env chunks results (List.length (log w)) added.
Proof.
  induction chunks as [|chunk chunks IH]; intros w.
  - exists [], []. rewrite app_nil_r. split; [|reflexivity].
    cbn. destruct w; reflexivity.
  - cbn [processIndividually]. unfold bind at 1, try_catch, bind at 1.
    set (texts := [prepareTextForEmbedding (text chunk)]).
    destruct (callEmbeddingAPI_left_run texts maxRetries 0%nat w eq_refl)
      as (k & Hk & Hw & Hr & Hthrow & Hprev).
    change (callEmbeddingAPI_left env maxRetries texts 0 w)
      with (callEmbeddingAPI env texts 0 w) in Hw, Hr, Hthrow.
    destruct (callEmbeddingAPI env texts 0 w) as [r w0]. cbn [fst snd] in Hw, Hr, Hthrow.
    subst w0.
    set (w0 := set_log (log w ++ EmbeddingsCreate texts :: retries_log texts 0 k) w).
    assert (L0 : List.length (log w0) = (List.length (log w) + 2 * k + 1)%nat).
    { unfold w0. rewrite log_set_log, length_app. cbn [List.length].
      rewrite retries_log_length. lia. }
    destruct r as [response|message].
    + destruct response as [|e es]; cbn [nth_error].
      * unfold throw, ret.
        destruct (IH w0) as (more & rest & Hm & Hs).
        unfold bind. rewrite Hm.
        exists (without_embedding chunk undefined_embedding :: more),
               (EmbeddingsCreate texts :: retries_log texts 0 k ++ rest).
        split.
        { unfold w0. rewrite log_set_log, set_log_set_log, <- app_assoc. reflexivity. }
        cbn [submitted]. fold texts. exists k, rest.
        split; [exact Hk|]. split; [exact Hprev|]. rewrite <- Hr.
        split; [reflexivity|]. split; [reflexivity|].
        rewrite L0 in Hs. exact Hs.
      * unfold bind at 1, delay, emit, call, ret.
        set (w1 := set_log (log w0 ++ [Delay 200]) w0).
        destruct (IH w1) as (more & rest & Hm & Hs).
        unfold bind. rewrite Hm.
        exists (with_embedding chunk e :: more),
               (EmbeddingsCreate texts :: retries_log texts 0 k ++ Delay 200 :: rest).
        split.
        { unfold w1, w0. rewrite !log_set_log, !set_log_set_log, <- !app_assoc.
          reflexivity. }
        cbn [submitted]. fold texts. exists k, rest.
        split; [exact Hk|]. split; [exact Hprev|]. rewrite <- Hr.
        split; [reflexivity|]. split; [reflexivity|].
        assert (L1 : List.length (log w1) = (List.length (log w) + 2 * k + 2)%nat).
        { unfold w1. rewrite log_set_log, length_app, L0. cbn. lia. }
        rewrite L1 in Hs. exact Hs.
    + unfold ret.
      destruct (IH w0) as (more & rest & Hm & Hs).
      unfold bind. rewrite Hm.
      exists (without_embedding chunk message :: more),
             (EmbeddingsCreate texts :: retries_log texts 0 k ++ rest).
      split.
      { unfold w0. rewrite log_set_log, set_log_set_log, <- app_assoc. reflexivity. }
      cbn [submitted]. fold texts. exists k, rest.
      split; [exact Hk|]. split; [exact Hprev|]. rewrite <- Hr.
      split; [exact (Hthrow message eq_refl)|]. split; [reflexivity|]. split; [reflexivity|].
      rewrite L0 in Hs. exact Hs.
Qed.

(** What follows for the requests and for the entries. *)
Lemma submitted_each : forall chunks results t added,
  submitted env chunks results t added ->
  map ec_chunk results = chunks /\
  Forall (fun chunk => In (EmbeddingsCreate [prepareTextForEmbedding (text chunk)]) added)
         chunks /\
  Forall single_request added /\
  (List.length chunks <= List.length (requests_of added) <= 4 * List.length chunks)%nat /\
  ((forall t texts, exists e es, openai_embeddings env t texts = Ok (e :: es)) ->
   Forall (fun r => exists e, embedding r = Some e) results /\
   List.length (requests_of added) = List.length chunks).
Proof.
  induction chunks as [|chunk chunks IH]; intros [|result results] t added H;
    cbn [submitted] in H; try contradiction.
  - subst added. repeat split; try constructor; cbn; lia.
  - destruct H as (k & rest & Hk & Hprev & H).
    set (texts := [prepareTextForEmbedding (text chunk)]) in *.
    assert (Hcount : forall i, List.length (requests_of (retries_log texts i k)) = k).
    { clear. induction k as [|k IHk]; intros i; cbn; [reflexivity | rewrite IHk; reflexivity]. }
    assert (Hgoal : forall t' rest' tail,
               result = with_embedding chunk tail \/
               (exists m, result = without_embedding chunk m) ->
               submitted env chunks results t' rest ->
               (added = EmbeddingsCreate texts :: retries_log texts 0 k ++ rest' /\
                (rest' = rest \/ rest' = Delay 200 :: rest)) ->
               map ec_chunk (result :: results) = chunk :: chunks /\
               Forall (fun chunk => In (EmbeddingsCreate
                                          [prepareTextForEmbedding (text chunk)]) added)
                      (chunk :: chunks) /\
               Forall single_request added /\
               (List.length (chunk :: chunks) <= List.length (requests_of added)
                <= 4 * List.length (chunk :: chunks))%nat /\
               (List.length (requests_of added)
                = S k + List.length (requests_of rest))%nat).
    { intros t' rest' tail Hres Hs [-> Hrest].
      destruct (IH _ _ _ Hs) as (I1 & I2 & I3 & I4 & _).
      assert (Hreq : requests_of rest' = requests_of rest)
        by (destruct Hrest as [->| ->]; reflexivity).
      assert (Hin : forall e, In e rest -> In e rest')
        by (intros e He; destruct Hrest as [->| ->]; [exact He | right; exact He]).
      split.
      { cbn [map]. rewrite I1. destruct Hres as [->|(m & ->)]; reflexivity. }
      split.
      { constructor; [left; reflexivity|].
        eapply Forall_impl; [|exact I2]. intros c Hc. right. apply in_or_app. right.
        apply Hin. exact Hc. }
      split.
      { constructor; [intros ts [= <-]; reflexivity|]. apply Forall_app. split.
        - apply retries_log_single.
        - destruct Hrest as [->| ->]; [exact I3|]. constructor; [intros ts [=] | exact I3]. }
      assert (Hlen : List.length (requests_of
                                    (EmbeddingsCreate texts :: retries_log texts 0 k ++ rest'))
                     = (S k + List.length (requests_of rest))%nat).
      { unfold requests_of in *. cbn [filter is_request List.length].
        rewrite filter_app, length_app, Hcount, Hreq. reflexivity. }
      split; [|exact Hlen]. rewrite Hlen. cbn [List.length]. unfold maxRetries in Hk. lia. }
    destruct (openai_embeddings env (t + 2 * k) texts) as [[|e es]|message] eqn:E.
    + destruct H as (Hres & Hadd & Hs).
      destruct (Hgoal _ rest [] (or_intror (ex_intro _ _ Hres)) Hs
                      (conj Hadd (or_introl eq_refl))) as (G1 & G2 & G3 & G4 & _).
      split; [exact G1|]. split; [exact G2|]. split; [exact G3|]. split; [exact G4|].
      intros Hall. destruct (Hall (t + 2 * k)%nat texts) as (e & es & He). congruence.
    + destruct H as (Hres & Hadd & Hs).
      destruct (Hgoal _ (Delay 200 :: rest) e (or_introl Hres) Hs
                      (conj Hadd (or_intror eq_refl))) as (G1 & G2 & G3 & G4 & G5).
      split; [exact G1|]. split; [exact G2|]. split; [exact G3|]. split; [exact G4|].
      intros Hall. destruct (IH _ _ _ Hs) as (_ & _ & _ & _ & I5).
      destruct (I5 Hall) as [I6 I7].
      assert (k = 0)%nat as ->.
      { destruct k as [|k]; [reflexivity|]. exfalso.
        destruct (Hprev 0%nat ltac:(lia)) as (err & Herr).
        destruct (Hall (t + 2 * 0)%nat texts) as (e' & es' & He'). congruence. }
      split.
      * constructor; [|exact I6]. rewrite Hres. eexists. reflexivity.
      * rewrite G5, I7. reflexivity.
    + destruct H as (_ & Hres & Hadd & Hs).
      destruct (Hgoal _ rest [] (or_intror (ex_intro _ _ Hres)) Hs
                      (conj Hadd (or_introl eq_refl))) as (G1 & G2 & G3 & G4 & _).
      split; [exact G1|]. split; [exact G2|]. split; [exact G3|]. split; [exact G4|].
      intros Hall. destruct (Hall (t + 2 * k)%nat texts) as (e & es & He). congruence.
Qed.

(** A batch whose four requests fail throws the last error. *)
Lemma processBatch_exhausted batch w e1 e2 e3 e4 :
  let texts := map (fun chunk => prepareTextForEmbedding (text chunk)) batch in
  openai_embeddings env (List.length (log w)) texts = Throw e1 ->
  openai_embeddings env (List.length (log w) + 2) texts = Throw e2 ->
  openai_embeddings env (List.length (log w) + 4) texts = Throw e3 ->
  openai_embeddings env (List.length (log w) + 6) texts = Throw e4 ->
  processBatch env batch w =
  (Throw e4,
   set_log (log w ++ [EmbeddingsCreate texts; Delay 1000; EmbeddingsCreate texts;
                      Delay 2000; EmbeddingsCreate texts;
                      Delay 4000; EmbeddingsCreate texts]) w).
Proof.
  cbn zeta. intros H1 H2 H3 H4. unfold processBatch, try_catch. cbn zeta.
  unfold bind at 1.
  rewrite (callEmbeddingAPI_exhausted _ w e1 e2 e3 e4 H1 H2 H3 H4). reflexivity.
Qed.

(** C7. A call of the embedding service makes one request and at most
    [maxRetries] retries, the retry number [i] after a delay of
    [retryDelay * 2^i], each delay twice the one before.  A batch whose
    request fails twice and succeeds the third time yields one vector
    per chunk, after delays of 1000 and then 2000 milliseconds.  A batch
    whose four requests fail throws, and is then processed chunk by
    chunk, the batches after it being processed all the same.  The
    fallback returns: it sends, for each chunk in turn, a request that
    carries the prepared text of this chunk alone, retried like any
    other; a chunk whose request is answered gets the first vector of
    the answer, and a chunk whose requests have all failed gets a null
    vector and the message of the last error, the chunks after it being
    submitted all the same.  [generateEmbeddings] returns one entry per
    valid chunk, each with its vector, or else with a null vector and
    the error message. *)
Theorem embedding_retry_and_fallback :
  (forall texts w,
      exists k, (k <= maxRetries)%nat /\
        snd (callEmbeddingAPI env texts 0 w) =
        set_log (log w ++ EmbeddingsCreate texts :: retries_log texts 0 k) w) /\
  (forall i,
      (retryDelay * 2 ^ N.of_nat (S i) = 2 * (retryDelay * 2 ^ N.of_nat i))%N /\
      (retryDelay * 2 ^ N.of_nat i < retryDelay * 2 ^ N.of_nat (S i))%N) /\
  (forall batch w e1 e2 data,
      let texts := map (fun chunk => prepareTextForEmbedding (text chunk)) batch in
      openai_embeddings env (List.length (log w)) texts = Throw e1 ->
      openai_embeddings env (List.length (log w) + 2) texts = Throw e2 ->
      openai_embeddings env (List.length (log w) + 4) texts = Ok data ->
      List.length data = List.length batch ->
      processBatch env batch w =
      (Ok (map (fun '(chunk, e) => with_embedding chunk e) (combine batch data)),
       set_log (log w ++ [EmbeddingsCreate texts; Delay 1000; EmbeddingsCreate texts;
                          Delay 2000; EmbeddingsCreate texts]) w)) /\
  (forall batch rest w e w1,
      processBatch env batch w = (Throw e, w1) ->
      embed_batches env (batch :: rest) w =
      (results <- processIndividually env batch;;
       more <- embed_batches env rest;;
       ret (results ++ more)%list) w1) /\
  (forall chunks w,
      exists results w',
        processIndividually env chunks w = (Ok results, w') /\
        map ec_chunk results = chunks /\ Forall embedded_or_failed results) /\
  (forall chunks w,
      chunks <> [] ->
      exists results w',
        generateEmbeddings env chunks w = (Ok results, w') /\
        map ec_chunk results = validateChunks chunks /\
        Forall embedded_or_failed results) /\
  (forall batch w e1 e2 e3 e4,
      let texts := map (fun chunk => prepareTextForEmbedding (text chunk)) batch in
      openai_embeddings env (List.length (log w)) texts = Throw e1 ->
      openai_embeddings env (List.length (log w) + 2) texts = Throw e2 ->
      openai_embeddings env (List.length (log w) + 4) texts = Throw e3 ->
      openai_embeddings env (List.length (log w) + 6) texts = Throw e4 ->
      processBatch env batch w =
      (Throw e4,
       set_log (log w ++ [EmbeddingsCreate texts; Delay 1000; EmbeddingsCreate texts;
                          Delay 2000; EmbeddingsCreate texts;
                          Delay 4000; EmbeddingsCreate texts]) w)) /\
  (forall chunks w,
      exists results added,
        processIndividually env chunks w = (Ok results, set_log (log w ++ added) w) /\
        submitted env chunks results (List.length (log w)) added) /\
  (forall chunks results t added,
      submitted env chunks results t added ->
      map ec_chunk results = chunks /\
      Forall (fun chunk => In (EmbeddingsCreate [prepareTextForEmbedding (text chunk)]) added)
             chunks /\
      Forall single_request added /\
      (List.length chunks <= List.length (requests_of added) <= 4 * List.length chunks)%nat /\
      ((forall t texts, exists e es, openai_embeddings env t texts = Ok (e :: es)) ->
       Forall (fun r => exists e, embedding r = Some e) results /\
       List.length (requests_of added) = List.length chunks)).
Proof.
  split; [exact callEmbeddingAPI_log|].
  split; [exact retry_delay_doubles|].
  split; [exact processBatch_third_attempt|].
  split; [exact embed_batches_fallback|].
  split; [exact processIndividually_total|].
  split; [exact generateEmbeddings_total|].
  split; [exact processBatch_exhausted|].
  split; [exact processIndividually_run | exact submitted_each].
Qed.

End EmbeddingFacts.

Example flaky_batch :
  Server.processBatch ServerExamples.flaky ServerExamples.two_chunks ServerExamples.empty_world =
  (Server.Ok [ Server.with_embedding (ServerExamples.mk_chunk 0 "first part" 0 10) [1; 0];
               Server.with_embedding (ServerExamples.mk_chunk 1 "second part" 10 20) [1; 0] ],
   Server.set_log
     [ Server.EmbeddingsCreate ["first part"; "second part"]; Server.Delay 1000;
       Server.EmbeddingsCreate ["first part"; "second part"]; Server.Delay 2000;
       Server.EmbeddingsCreate ["first part"; "second part"] ]
     ServerExamples.empty_world).
Proof.
  apply (proj1 (proj2 (proj2 (embedding_retry_and_fallback ServerExamples.flaky)))
           ServerExamples.two_chunks ServerExamples.empty_world
           "429 rate limit" "429 rate limit" [[1; 0]; [1; 0]]);
    reflexivity.
Defined.

(** A batch that fails for good, chunk by chunk: the first chunk gets
    its vector from a request of its own, the second, refused four
    times more, gets none and the message of the error. *)
Example picky_batch :
  Server.generateEmbeddings ServerExamples.picky ServerExamples.two_chunks
    ServerExamples.empty_world =
  (Server.Ok [ Server.with_embedding (ServerExamples.mk_chunk 0 "first part" 0 10) [1; 0];
               Server.without_embedding (ServerExamples.mk_chunk 1 "second part" 10 20)
                 "400 bad text" ],
   Server.set_log
     [ Server.EmbeddingsCreate ["first part"; "second part"]; Server.Delay 1000;
       Server.EmbeddingsCreate ["first part"; "second part"]; Server.Delay 2000;
       Server.EmbeddingsCreate ["first part"; "second part"]; Server.Delay 4000;
       Server.EmbeddingsCreate ["first part"; "second part"];
       Server.EmbeddingsCreate ["first part"]; Server.Delay 200;
       Server.EmbeddingsCreate ["second part"]; Server.Delay 1000;
       Server.EmbeddingsCreate ["second part"]; Server.Delay 2000;
       Server.EmbeddingsCreate ["second part"]; Server.Delay 4000;
       Server.EmbeddingsCreate ["second part"] ]
     ServerExamples.empty_world).
Proof. reflexivity. Qed.

(** ** The vector index *)

Section PineconeFacts.
Import JS TextChunker Server.
Local Open Scope js_scope.

Variable env : Env.

Lemma bind_ok {A B} (m : M A) (k : A -> M B) w a w' :
  m w = (Ok a, w') -> bind m k w = k a w'.
Proof. intros H. unfold bind. rewrite H. reflexivity. Qed.

Lemma bind_throw {A B} (m : M A) (k : A -> M B) w e w' :
  m w = (Throw e, w') -> bind m k w = (Throw e, w').
Proof. intros H. unfold bind. rewrite H. reflexivity. Qed.

Lemma grows_refl P Q w : grows P Q w w.
Proof.
  split; [exists []; split; [rewrite app_nil_r; reflexivity | constructor]|].
  intros v Hv. left. exact Hv.
Qed.

Lemma grows_trans P Q w1 w2 w3 :
  grows P Q w1 w2 -> grows P Q w2 w3 -> grows P Q w1 w3.
Proof.
  intros [(a1 & L1 & F1) V1] [(a2 & L2 & F2) V2]. split.
  - exists (a1 ++ a2)%list. split; [rewrite L2, L1, app_assoc; reflexivity|].
    apply Forall_app. split; assumption.
  - intros v Hv. destruct (V2 v Hv) as [H|H]; [apply V1; exact H | right; exact H].
Qed.

Lemma grows_event P Q (e : Event) w :
  P e -> grows P Q w (set_log (log w ++ [e]) w).
Proof.
  intros He. split.
  - exists [e]. split; [reflexivity | constructor; [exact He | constructor]].
  - intros v Hv. left. exact Hv.
Qed.

Lemma grows_weaken (P P' : Event -> Prop) (Q Q' : Vector -> Prop) w w' :
  (forall e, P e -> P' e) -> (forall v, Q v -> Q' v) ->
  grows P Q w w' -> grows P' Q' w w'.
Proof.
  intros HP HQ [(a & L & F) V]. split.
  - exists a. split; [exact L|]. eapply Forall_impl; [|exact F]. exact HP.
  - intros v Hv. destruct (V v Hv) as [H|H]; [left; exact H | right; apply HQ; exact H].
Qed.

Lemma initializeIndex_grows w r w' :
  initializeIndex env w = (r, w') -> grows not_upsert (fun _ => False) w w'.
Proof.
  unfold initializeIndex, try_catch, bind, call at 1, modify, ret, throw.
  destruct (pinecone_init env (List.length (log w))) as [[]|e]; intros [= <- <-].
  - split; [exists [InitializeIndex]; split; [reflexivity|]|].
    + constructor; [intros vs; discriminate | constructor].
    + intros v Hv. left. exact Hv.
  - apply grows_event. intros vs. discriminate.
Qed.

Lemma ensure_index_grows w r w' :
  ensure_index env w = (r, w') -> grows not_upsert (fun _ => False) w w'.
Proof.
  unfold ensure_index, bind at 1, get.
  destruct (pinecone_index w).
  - intros [= <- <-]. apply grows_refl.
  - unfold bind. destruct (initializeIndex env w) as [[b|e] w1] eqn:E;
      intros [= <- <-]; eapply initializeIndex_grows; exact E.
Qed.

Lemma upsertVectors_left_grows vectors : forall left retryCount w r w',
  upsertVectors_left env left vectors retryCount w = (r, w') ->
  grows (upsert_of [vectors]) (fun v => In v vectors) w w'.
Proof.
  assert (Hcall : forall w, grows (upsert_of [vectors]) (fun v => In v vectors) w
                              (set_log (log w ++ [PineconeUpsert vectors]) w)).
  { intros w. apply grows_event. intros vs [= <-]. left. reflexivity. }
  induction left as [|left IH]; intros retryCount w r w';
    cbn [upsertVectors_left]; unfold try_catch, bind at 1, call at 1, modify;
    destruct (pinecone_upsert env (List.length (log w)) vectors) as [[]|e].
  - intros [= <- <-]. eapply grows_trans; [apply Hcall|].
    split; [exists []; split; [rewrite app_nil_r; reflexivity | constructor]|].
    cbn. unfold upsert_into. intros v Hv. apply in_app_or in Hv.
    destruct Hv as [Hv|Hv]; [left; apply filter_In in Hv; apply Hv | right; exact Hv].
  - destruct (retryCount <? pinecone_maxRetries)%nat; intros [= <- <-]; apply Hcall.
  - intros [= <- <-]. eapply grows_trans; [apply Hcall|].
    split; [exists []; split; [rewrite app_nil_r; reflexivity | constructor]|].
    cbn. unfold upsert_into. intros v Hv. apply in_app_or in Hv.
    destruct Hv as [Hv|Hv]; [left; apply filter_In in Hv; apply Hv | right; exact Hv].
  - destruct (retryCount <? pinecone_maxRetries)%nat; [|intros [= <- <-]; apply Hcall].
    unfold bind, delay, emit, call at 1. intros H. apply IH in H.
    eapply grows_trans; [apply Hcall|].
    eapply grows_trans; [|exact H].
    apply grows_event. intros vs. discriminate.
Qed.

Lemma store_batches_grows : forall batches i results w r w',
  store_batches env i batches results w = (r, w') ->
  grows (upsert_of batches) (fun v => exists b, In b batches /\ In v b) w w'.
Proof.
  induction batches as [|batch rest IH]; intros i results w r w'; cbn [store_batches].
  - intros [= <- <-]. apply grows_refl.
  - unfold bind at 1, try_catch, bind at 1.
    assert (Hstep : forall r1 w1,
               match
                 match upsertVectors env batch 0 w with
                 | (Ok _, w0) =>
                     (match rest with [] => ret tt | _ :: _ => delay 500 end;;
                      ret (batch_stored results)) w0
                 | (Throw e, w0) => (Throw e, w0)
                 end
               with
               | (Ok a, w0) => (Ok a, w0)
               | (Throw e, w0) => ret (batch_failed i e results) w0
               end = (r1, w1) ->
               grows (upsert_of (batch :: rest))
                     (fun v => exists b, In b (batch :: rest) /\ In v b) w w1).
    { intros r1 w1.
      destruct (upsertVectors env batch 0 w) as [[[]|e] w0] eqn:E;
        apply upsertVectors_left_grows in E;
        assert (E' : grows (upsert_of (batch :: rest))
                           (fun v => exists b, In b (batch :: rest) /\ In v b) w w0)
          by (eapply grows_weaken; [| |exact E];
              [intros e0 He vs Hvs; destruct (He vs Hvs) as [<-|[]]; left; reflexivity
              |intros v Hv; exists batch; split; [left; reflexivity | exact Hv]]).
      - unfold bind. destruct rest; cbn; intros [= <- <-]; [exact E'|].
        eapply grows_trans; [exact E'|]. apply grows_event. intros vs. discriminate.
      - intros [= <- <-]. exact E'. }
    destruct (match _ with (Ok a, w0) => _ | (Throw e, w0) => _ end) as [[results'|e] w1] eqn:E1.
    + intros H. apply IH in H. eapply grows_trans; [apply (Hstep _ _ eq_refl)|].
      eapply grows_weaken; [| |exact H].
      * intros e0 He vs Hvs. right. apply He. exact Hvs.
      * intros v (b & Hb & Hv). exists b. split; [right; exact Hb | exact Hv].
    + intros [= <- <-]. apply (Hstep _ _ eq_refl).
Qed.

Lemma prepare_vectors_spec videoId metadata : forall validChunks w,
  prepare_vectors env videoId metadata validChunks w =
  (Ok (vectors_from env videoId metadata (List.length (log w)) validChunks),
   set_log (log w ++ repeat Uuid (List.length validChunks)) w).
Proof.
  induction validChunks as [|chunk rest IH]; intros w.
  - cbn. unfold ret. rewrite app_nil_r. destruct w; reflexivity.
  - cbn [prepare_vectors]. unfold bind at 1, call at 1.
    unfold bind. rewrite IH. unfold ret.
    rewrite log_set_log, set_log_set_log, length_app, <- app_assoc.
    cbn [List.length vectors_from repeat app].
    replace (List.length (log w) + 1)%nat with (S (List.length (log w))) by lia.
    reflexivity.
Qed.

Lemma vectors_from_in videoId metadata v : forall validChunks t,
  In v (vectors_from env videoId metadata t validChunks) ->
  exists i chunk,
    nth_error validChunks i = Some chunk /\
    v = to_vector videoId metadata chunk (uuidv4 env (t + i)).
Proof.
  induction validChunks as [|c rest IH]; intros t; [intros []|].
  cbn [vectors_from]. intros [<-|H].
  - exists 0%nat, c. split; [reflexivity | rewrite Nat.add_0_r; reflexivity].
  - apply IH in H. destruct H as (i & chunk & Hn & ->).
    exists (S i), chunk. split; [exact Hn|].
    replace (t + S i)%nat with (S t + i)%nat by lia. reflexivity.
Qed.

Lemma createBatches_fuel_incl {A} (n : nat) (b : list A) : forall fuel xs,
  In b (createBatches_fuel fuel xs n) -> incl b xs.
Proof.
  induction fuel as [|fuel IH]; intros xs; [destruct xs; intros []|].
  destruct xs as [|x xs]; [intros []|].
  cbn [createBatches_fuel]. intros [<-|H].
  - intros y Hy. rewrite <- (firstn_skipn n (x :: xs)). apply in_or_app. left. exact Hy.
  - apply IH in H. intros y Hy. rewrite <- (firstn_skipn n (x :: xs)).
    apply in_or_app. right. apply H. exact Hy.
Qed.

Lemma nth_error_uuid (pre post : list Event) (n i : nat) :
  (i < n)%nat ->
  nth_error ((pre ++ repeat Uuid n) ++ post) (List.length pre + i) = Some Uuid.
Proof.
  intros Hi. rewrite nth_error_app1 by (rewrite length_app, repeat_length; lia).
  rewrite nth_error_app2 by lia.
  replace (List.length pre + i - List.length pre)%nat with i by lia.
  apply nth_error_repeat. exact Hi.
Qed.

(** C8. Every record [storeChunks] sends to the index, and every record
    it leaves there, is built from a chunk that has a vector, and its
    identifier is the recording id, [_chunk_], the index of the chunk,
    [_], and the result of the call of [uuidv4] made for that chunk: the
    chunk number [i] among the valid ones gets the call number [t0 + i]. *)
Theorem vector_ids_composite
        (videoId : string) (chunks : list EmbeddedChunk) (metadata : Metadata)
        (w : World) (r : Result StorageResult) (w' : World) :
  storeChunks env videoId chunks metadata w = (r, w') ->
  exists t0 added,
    log w' = (log w ++ added)%list /\
    forall v,
      (exists vectors, In (PineconeUpsert vectors) added /\ In v vectors) \/
      (In v (pinecone_vectors w') /\ ~ In v (pinecone_vectors w)) ->
      exists i chunk,
        nth_error (filter has_vector chunks) i = Some chunk /\
        nth_error (log w') (t0 + i) = Some Uuid /\
        v = to_vector videoId metadata chunk (uuidv4 env (t0 + i)) /\
        vec_id v = (videoId ++ "_chunk_" ++ toString (Z.of_nat (index (ec_chunk chunk)))
                      ++ "_" ++ uuidv4 env (t0 + i))%string.
Proof.
  intros Hrun.
  (* a run that sends nothing *)
  assert (Hquiet : forall w1, grows not_upsert (fun _ => False) w w1 -> w' = w1 ->
            exists t0 added,
              log w' = (log w ++ added)%list /\
              forall v,
                (exists vectors, In (PineconeUpsert vectors) added /\ In v vectors) \/
                (In v (pinecone_vectors w') /\ ~ In v (pinecone_vectors w)) ->
                exists i chunk,
                  nth_error (filter has_vector chunks) i = Some chunk /\
                  nth_error (log w') (t0 + i) = Some Uuid /\
                  v = to_vector videoId metadata chunk (uuidv4 env (t0 + i)) /\
                  vec_id v = (videoId ++ "_chunk_"
                                ++ toString (Z.of_nat (index (ec_chunk chunk)))
                                ++ "_" ++ uuidv4 env (t0 + i))%string).
  { intros w1 [(a & L & F) V] ->. exists 0%nat, a. split; [exact L|].
    intros v [(vectors & Hin & _)|[Hin Hnot]]; exfalso.
    - rewrite Forall_forall in F. exact (F _ Hin vectors eq_refl).
    - destruct (V v Hin) as [H|[]]. exact (Hnot H). }
  unfold storeChunks, try_catch, bind at 1 in Hrun.
  destruct (ensure_index env w) as [[[]|e0] w1] eqn:E0;
    pose proof (ensure_index_grows _ _ _ E0) as G0;
    [|injection Hrun as _ <-; exact (Hquiet w1 G0 eq_refl)].
  destruct (filter has_vector chunks) as [|c0 cs] eqn:Ev;
    [injection Hrun as _ <-; exact (Hquiet w1 G0 eq_refl)|].
  clear Hquiet. rewrite <- Ev in *. set (valid := filter has_vector chunks) in *.
  unfold bind in Hrun. rewrite prepare_vectors_spec in Hrun.
  set (vs := vectors_from env videoId metadata (List.length (log w1)) valid) in *.
  set (w2 := set_log (log w1 ++ repeat Uuid (List.length valid)) w1) in *.
  destruct (store_batches env 0 (createBatches vs pinecone_batchSize) _ w2)
    as [r3 w3] eqn:E3.
  assert (w' = w3) as -> by (destruct r3; injection Hrun as _ <-; reflexivity).
  clear Hrun. apply store_batches_grows in E3.
  destruct G0 as [(a0 & L0 & F0) V0]. destruct E3 as [(a2 & L2 & F2) V2].
  assert (Hvs : forall v, In v vs ->
            exists i chunk,
              nth_error valid i = Some chunk /\
              nth_error (log w3) (List.length (log w1) + i) = Some Uuid /\
              v = to_vector videoId metadata chunk (uuidv4 env (List.length (log w1) + i)) /\
              vec_id v = (videoId ++ "_chunk_"
                            ++ toString (Z.of_nat (index (ec_chunk chunk)))
                            ++ "_" ++ uuidv4 env (List.length (log w1) + i))%string).
  { intros v Hv. apply vectors_from_in in Hv. destruct Hv as (i & chunk & Hn & ->).
    exists i, chunk. split; [exact Hn|]. split; [|split; reflexivity].
    rewrite L2. unfold w2. rewrite log_set_log.
    apply nth_error_uuid. apply nth_error_Some. rewrite Hn. discriminate. }
  assert (Hbatch : forall b v, In b (createBatches vs pinecone_batchSize) -> In v b -> In v vs).
  { intros b v Hb Hv. apply createBatches_fuel_incl in Hb. apply Hb. exact Hv. }
  exists (List.length (log w1)), (a0 ++ repeat Uuid (List.length valid) ++ a2)%list.
  split.
  - rewrite L2. unfold w2. rewrite log_set_log, L0, <- !app_assoc. reflexivity.
  - intros v [(vectors & Hin & Hv)|[Hin Hnot]]; apply Hvs.
    + apply in_app_or in Hin. destruct Hin as [Hin|Hin].
      { exfalso. rewrite Forall_forall in F0. exact (F0 _ Hin vectors eq_refl). }
      apply in_app_or in Hin. destruct Hin as [Hin|Hin].
      { apply repeat_spec in Hin. discriminate. }
      rewrite Forall_forall in F2. apply (Hbatch vectors v); [|exact Hv].
      apply (F2 _ Hin). reflexivity.
    + destruct (V2 v Hin) as [H|(b & Hb & Hvb)]; [|exact (Hbatch b v Hb Hvb)].
      exfalso. unfold w2 in H. cbn in H. destruct (V0 v H) as [H'|[]]. exact (Hnot H').
Qed.

End PineconeFacts.

Lemma vector_ids_witness :
  exists t0 added,
    Server.log (snd ServerExamples.stored)
    = (Server.log ServerExamples.empty_world ++ added)%list /\
    forall v,
      (exists vectors, In (Server.PineconeUpsert vectors) added /\ In v vectors) \/
      (In v (Server.pinecone_vectors (snd ServerExamples.stored)) /\
       ~ In v (Server.pinecone_vectors ServerExamples.empty_world)) ->
      exists i chunk,
        nth_error (filter Server.has_vector ServerExamples.one_embedded) i = Some chunk /\
        nth_error (Server.log (snd ServerExamples.stored)) (t0 + i) = Some Server.Uuid /\
        v = Server.to_vector "vid" ServerExamples.some_metadata chunk
              (Server.uuidv4 ServerExamples.calm (t0 + i)) /\
        Server.vec_id v
        = ("vid" ++ "_chunk_"
             ++ JS.toString (Z.of_nat (TextChunker.index (Server.ec_chunk chunk)))
             ++ "_" ++ Server.uuidv4 ServerExamples.calm (t0 + i))%string.
Proof.
  apply (vector_ids_composite ServerExamples.calm "vid" ServerExamples.one_embedded
           ServerExamples.some_metadata ServerExamples.empty_world
           (fst ServerExamples.stored)).
  reflexivity.
Defined.

Example stored_vector_id :
  map Server.vec_id (Server.pinecone_vectors (snd ServerExamples.stored))
  = [ "vid_chunk_7_0" ].
Proof. reflexivity. Qed.

(** ** Retrieval *)

Section RetrievalFacts.
Import JS TextChunker Chat Server.
Local Open Scope js_scope.

Variable env : Env.

Lemma silent_refl w : silent w w.
Proof. exists []. rewrite app_nil_r. repeat split. Qed.

Lemma initializeIndex_log w r w' :
  initializeIndex env w = (r, w') ->
  silent w w' /\ (forall b, r = Ok b -> pinecone_index w' = true).
Proof.
  unfold initializeIndex, try_catch, bind, call at 1, modify, ret, throw.
  destruct (pinecone_init env (List.length (log w))) as [[]|e]; intros [= <- <-];
    (split; [exists [InitializeIndex]; repeat split|]).
  - intros b _. reflexivity.
  - intros b [=].
Qed.

Lemma ensure_index_log w r w' :
  ensure_index env w = (r, w') ->
  silent w w' /\ (forall u, r = Ok u -> pinecone_index w' = true).
Proof.
  unfold ensure_index, bind at 1, get.
  destruct (pinecone_index w) eqn:Ei.
  - intros [= <- <-]. split; [apply silent_refl | intros _ _; exact Ei].
  - unfold bind. destruct (initializeIndex env w) as [[b|e] w1] eqn:E;
      intros [= <- <-]; apply initializeIndex_log in E; destruct E as [E1 E2];
      (split; [exact E1|]).
    + intros _ _. apply (E2 b). reflexivity.
    + intros u [=].
Qed.

(** A search makes at most one query, the one it was asked for, and
    none only if it throws; after a search that returned the index
    handle is set. *)
Lemma searchSimilar_log qe videoId topK minScore w r w' :
  searchSimilar env qe videoId topK minScore w = (r, w') ->
  exists added,
    log w' = (log w ++ added)%list /\ chats_of added = [] /\
    ((queries_of added = [] /\ exists e, r = Throw e) \/
     (queries_of added = [PineconeQuery qe topK (filter_of videoId)] /\
      pinecone_index w' = true)).
Proof.
  unfold searchSimilar, try_catch, bind at 1.
  destruct (ensure_index env w) as [[[]|e0] w1] eqn:E0;
    apply ensure_index_log in E0; destruct E0 as [(a0 & L0 & Q0 & C0) I0].
  - cbn zeta. unfold bind, call at 1, ret.
    destruct (pinecone_query env _ qe topK (filter_of videoId)) as [ms|e];
      intros [= <- <-];
      exists (a0 ++ [PineconeQuery qe topK (filter_of videoId)])%list;
      (split; [cbn; rewrite L0, app_assoc; reflexivity|]);
      (split; [unfold chats_of in *; rewrite filter_app, C0; reflexivity|]);
      right; (split; [unfold queries_of in *; rewrite filter_app, Q0; reflexivity|]);
      cbn; apply (I0 tt); reflexivity.
  - intros [= <- <-]. exists a0. split; [exact L0|]. split; [exact C0|].
    left. split; [exact Q0 | eexists; reflexivity].
Qed.

Lemma generateQueryEmbedding_log message w r w' :
  generateQueryEmbedding env message w = (r, w') -> silent w w'.
Proof.
  unfold generateQueryEmbedding, try_catch.
  destruct (_ || _)%bool; [intros [= <- <-]; apply silent_refl|].
  unfold bind, call at 1.
  destruct (openai_embeddings env _ _) as [response|e].
  - destruct (nth_error response 0); intros [= <- <-];
      exists [EmbeddingsCreate [prepareTextForEmbedding message]]; repeat split.
  - intros [= <- <-].
    exists [EmbeddingsCreate [prepareTextForEmbedding message]]. repeat split.
Qed.

(** Answering from results makes no query and one chat completion, and
    an answer it returns lists one source per result. *)
Lemma answer_from_log message videoData searchResults w r w' :
  answer_from env message videoData searchResults w = (r, w') ->
  (exists added, log w' = (log w ++ added)%list /\ queries_of added = [] /\
                 List.length (chats_of added) = 1%nat) /\
  (forall response, r = Ok response ->
                    List.length (rag_sources response) = List.length searchResults).
Proof.
  unfold answer_from, bind, generateAIResponse, try_catch, call at 1. cbn zeta.
  destruct (openai_chat env _ _) as [aiResponse|e]; intros [= <- <-]; split;
    try (eexists [_]; repeat split).
  - intros response [= <-]. cbn. rewrite length_map. unfold mapi.
    generalize 0%nat. induction searchResults as [|m ms IH]; intros i; cbn;
      [reflexivity | rewrite IH; reflexivity].
  - intros response [=].
Qed.

Lemma searchSimilar_ready qe videoId topK minScore w r w' :
  pinecone_index w = true ->
  searchSimilar env qe videoId topK minScore w = (r, w') ->
  log w' = (log w ++ [PineconeQuery qe topK (filter_of videoId)])%list.
Proof.
  intros Hi. unfold searchSimilar, try_catch, bind at 1, ensure_index, bind at 1, get.
  rewrite Hi. unfold ret at 1. cbn zeta. unfold bind, call at 1, ret.
  destruct (pinecone_query env _ qe topK (filter_of videoId)); intros [= <- <-]; reflexivity.
Qed.

Lemma queries_of_app a b : queries_of (a ++ b) = (queries_of a ++ queries_of b)%list.
Proof. apply filter_app. Qed.

Lemma chats_of_app a b : chats_of (a ++ b) = (chats_of a ++ chats_of b)%list.
Proof. apply filter_app. Qed.

(** The run of [generateRAGResponse], case by case. *)
Lemma generateRAGResponse_cases message videoId videoData w :
  let run := generateRAGResponse env message videoId videoData w in
  (exists e w1, generateQueryEmbedding env message w = (Throw e, w1) /\
                run = (rethrown (Throw e), w1)) \/
  (exists qe w1, generateQueryEmbedding env message w = (Ok qe, w1) /\
     ((exists e w2, searchSimilar env qe videoId 5 (3 # 10) w1 = (Throw e, w2) /\
                    run = (rethrown (Throw e), w2)) \/
      (exists m ms w2 r w3,
          searchSimilar env qe videoId 5 (3 # 10) w1 = (Ok (m :: ms), w2) /\
          answer_from env message videoData (m :: ms) w2 = (r, w3) /\
          run = (rethrown r, w3)) \/
      (exists w2, searchSimilar env qe videoId 5 (3 # 10) w1 = (Ok [], w2) /\
         ((exists e w3, searchSimilar env qe videoId 3 (1 # 10) w2 = (Throw e, w3) /\
                        run = (rethrown (Throw e), w3)) \/
          (exists w3, searchSimilar env qe videoId 3 (1 # 10) w2 = (Ok [], w3) /\
                      run = (Ok not_found, w3)) \/
          (exists m ms w3 r w4,
              searchSimilar env qe videoId 3 (1 # 10) w2 = (Ok (m :: ms), w3) /\
              answer_from env message videoData (m :: ms) w3 = (r, w4) /\
              run = (rethrown r, w4)))))).
Proof.
  cbn zeta. unfold generateRAGResponse, try_catch.
  destruct (generateQueryEmbedding env message w) as [[qe|e] w1] eqn:E1.
  2:{ left. exists e, w1. split; [reflexivity|].
      rewrite (bind_throw _ _ _ _ _ E1). reflexivity. }
  right. exists qe, w1. split; [reflexivity|].
  rewrite (bind_ok _ _ _ _ _ E1).
  destruct (searchSimilar env qe videoId 5 (3 # 10) w1) as [[[|m ms]|e] w2] eqn:E2.
  - right. right. exists w2. split; [reflexivity|].
    rewrite (bind_ok _ _ _ _ _ E2).
    destruct (searchSimilar env qe videoId 3 (1 # 10) w2) as [[[|m ms]|e] w3] eqn:E3.
    + right. left. exists w3. split; [reflexivity|].
      rewrite (bind_ok _ _ _ _ _ E3). reflexivity.
    + right. right. rewrite (bind_ok _ _ _ _ _ E3). cbn [app].
      destruct (answer_from env message videoData (m :: ms) w3) as [r w4] eqn:E.
      exists m, ms, w3, r, w4. split; [reflexivity|]. split; [exact E|].
      destruct r; reflexivity.
    + left. exists e, w3. split; [reflexivity|].
      rewrite (bind_throw _ _ _ _ _ E3). reflexivity.
  - right. left. rewrite (bind_ok _ _ _ _ _ E2).
    destruct (answer_from env message videoData (m :: ms) w2) as [r w3] eqn:E.
    exists m, ms, w2, r, w3. split; [reflexivity|]. split; [exact E|].
    destruct r; reflexivity.
  - left. exists e, w2. split; [reflexivity|].
    rewrite (bind_throw _ _ _ _ _ E2). reflexivity.
Qed.

Lemma answer_not_not_found message videoData m ms w r w' :
  answer_from env message videoData (m :: ms) w = (r, w') ->
  rethrown r <> Ok not_found.
Proof.
  intros H. apply answer_from_log in H. destruct H as [_ H].
  destruct r as [response|e]; [|discriminate].
  cbn. intros [= ->]. specialize (H not_found eq_refl). discriminate H.
Qed.

(** C5. The queries [generateRAGResponse] makes are, in this order, the
    primary one ([topK] 5, filtered to the recording, whose identifier
    the route has checked not to be empty) and at most one fallback
    ([topK] 3, same vector, same filter).  The fallback is made
    if and only if the primary search, with its floor of 0.3, returned
    no match; the fixed answer with no citation and no source is
    returned if and only if the fallback search, with its floor of 0.1,
    returned no match either, and then no chat completion was asked
    for. *)
Theorem retrieval_threshold_fallback
        (message videoId : string) (videoData : VideoData) (w : World) :
  let run := generateRAGResponse env message videoId videoData w in
  (videoId <> "" -> filter_of videoId = Some videoId) /\
  exists added,
    log (snd run) = (log w ++ added)%list /\
    (exists qe,
        queries_of added = [] \/
        queries_of added = [PineconeQuery qe 5 (filter_of videoId)] \/
        queries_of added = [PineconeQuery qe 5 (filter_of videoId);
                            PineconeQuery qe 3 (filter_of videoId)]) /\
    (List.length (queries_of added) = 2%nat <->
     exists qe w1 w2,
       generateQueryEmbedding env message w = (Ok qe, w1) /\
       searchSimilar env qe videoId 5 (3 # 10) w1 = (Ok [], w2)) /\
    (fst run = Ok not_found <->
     exists qe w1 w2 w3,
       generateQueryEmbedding env message w = (Ok qe, w1) /\
       searchSimilar env qe videoId 5 (3 # 10) w1 = (Ok [], w2) /\
       searchSimilar env qe videoId 3 (1 # 10) w2 = (Ok [], w3)) /\
    (fst run = Ok not_found -> chats_of added = []) /\
    (List.length (chats_of added) <= 1)%nat.
Proof.
  cbn zeta.
  split; [destruct videoId; [intros H; exfalso; apply H; reflexivity | reflexivity]|].
  destruct (generateRAGResponse_cases message videoId videoData w)
    as [(e & w1 & E1 & Hrun)|(qe & w1 & E1 & Hcases)].
  { (* the question could not be embedded *)
    rewrite Hrun. cbn [fst snd rethrown].
    destruct (generateQueryEmbedding_log _ _ _ _ E1) as (a0 & L0 & Q0 & C0).
    exists a0. split; [exact L0|]. rewrite Q0, C0.
    split; [exists []; left; reflexivity|].
    split; [split; [discriminate|]|].
    { intros (qe' & w1' & w2' & H1 & _). rewrite E1 in H1. discriminate. }
    split; [split; [discriminate|]|].
    { intros (qe' & w1' & w2' & w3' & H1 & _). rewrite E1 in H1. discriminate. }
    split; [reflexivity | cbn; lia]. }
  destruct (generateQueryEmbedding_log _ _ _ _ E1) as (a0 & L0 & Q0 & C0).
  destruct Hcases as [(e & w2 & E2 & Hrun)|[(m & ms & w2 & r & w3 & E2 & E3 & Hrun)|
                      (w2 & E2 & Hcases)]].
  { (* the primary search threw *)
    rewrite Hrun. cbn [fst snd rethrown].
    destruct (searchSimilar_log _ _ _ _ _ _ _ E2) as (a1 & L1 & C1 & HQ1).
    exists (a0 ++ a1)%list. split; [rewrite L1, L0, app_assoc; reflexivity|].
    rewrite queries_of_app, chats_of_app, Q0, C0, C1. cbn [app].
    split; [exists qe; destruct HQ1 as [[-> _]|[-> _]]; [left | right; left]; reflexivity|].
    split; [split; [destruct HQ1 as [[-> _]|[-> _]]; discriminate|]|].
    { intros (qe' & w1' & w2' & H1 & H2). rewrite E1 in H1. injection H1 as <- <-.
      rewrite E2 in H2. discriminate. }
    split; [split; [discriminate|]|].
    { intros (qe' & w1' & w2' & w3' & H1 & H2 & _). rewrite E1 in H1.
      injection H1 as <- <-. rewrite E2 in H2. discriminate. }
    split; [reflexivity | cbn; lia]. }
  { (* the primary search found something *)
    rewrite Hrun. cbn [fst snd].
    destruct (searchSimilar_log _ _ _ _ _ _ _ E2) as (a1 & L1 & C1 & HQ1).
    destruct HQ1 as [[_ [e He]]|[Q1 _]]; [discriminate He|].
    pose proof (answer_not_not_found _ _ _ _ _ _ _ E3) as Hnf.
    destruct (answer_from_log _ _ _ _ _ _ E3) as [(a2 & L2 & Q2 & C2) _].
    exists (a0 ++ a1 ++ a2)%list.
    split; [rewrite L2, L1, L0, <- !app_assoc; reflexivity|].
    rewrite !queries_of_app, !chats_of_app, Q0, C0, C1, Q1, Q2. cbn [app].
    split; [exists qe; right; left; reflexivity|].
    split; [split; [discriminate|]|].
    { intros (qe' & w1' & w2' & H1 & H2). rewrite E1 in H1. injection H1 as <- <-.
      rewrite E2 in H2. discriminate. }
    split; [split; [intros H; exfalso; exact (Hnf H)|]|].
    { intros (qe' & w1' & w2' & w3' & H1 & H2 & _). rewrite E1 in H1.
      injection H1 as <- <-. rewrite E2 in H2. discriminate. }
    split; [intros H; exfalso; exact (Hnf H) | rewrite C2; lia]. }
  (* the primary search found nothing *)
  destruct (searchSimilar_log _ _ _ _ _ _ _ E2) as (a1 & L1 & C1 & HQ1).
  destruct HQ1 as [[_ [e He]]|[Q1 I1]]; [discriminate He|].
  assert (Hprimary : exists qe' w1' w2',
             generateQueryEmbedding env message w = (Ok qe', w1') /\
             searchSimilar env qe' videoId 5 (3 # 10) w1' = (Ok [], w2'))
    by (exists qe, w1, w2; split; assumption).
  assert (Hlog : forall r3 w3,
             searchSimilar env qe videoId 3 (1 # 10) w2 = (r3, w3) ->
             log w3 = (log w ++ a0 ++ a1 ++ [PineconeQuery qe 3 (filter_of videoId)])%list).
  { intros r3 w3 H. rewrite (searchSimilar_ready _ _ _ _ _ _ _ I1 H), L1, L0.
    rewrite <- !app_assoc. reflexivity. }
  destruct Hcases as [(e & w3 & E3 & Hrun)|[(w3 & E3 & Hrun)|
                      (m & ms & w3 & r & w4 & E3 & E4 & Hrun)]];
    rewrite Hrun; cbn [fst snd rethrown].
  - (* the fallback search threw *)
    exists (a0 ++ a1 ++ [PineconeQuery qe 3 (filter_of videoId)])%list.
    split; [apply (Hlog _ _ E3)|].
    rewrite !queries_of_app, !chats_of_app, Q0, C0, C1, Q1. cbn.
    split; [exists qe; right; right; reflexivity|].
    split; [split; [intros _; exact Hprimary | reflexivity]|].
    split; [split; [discriminate|]|].
    { intros (qe' & w1' & w2' & w3' & H1 & H2 & H3). rewrite E1 in H1.
      injection H1 as <- <-. rewrite E2 in H2. injection H2 as <-.
      rewrite E3 in H3. discriminate. }
    split; [reflexivity | lia].
  - (* the fallback search found nothing either *)
    exists (a0 ++ a1 ++ [PineconeQuery qe 3 (filter_of videoId)])%list.
    split; [apply (Hlog _ _ E3)|].
    rewrite !queries_of_app, !chats_of_app, Q0, C0, C1, Q1. cbn.
    split; [exists qe; right; right; reflexivity|].
    split; [split; [intros _; exact Hprimary | reflexivity]|].
    split; [split; [intros _; exists qe, w1, w2, w3; repeat split; assumption
                   | reflexivity]|].
    split; [reflexivity | lia].
  - (* the fallback search found something *)
    pose proof (answer_not_not_found _ _ _ _ _ _ _ E4) as Hnf.
    destruct (answer_from_log _ _ _ _ _ _ E4) as [(a2 & L2 & Q2 & C2) _].
    exists (a0 ++ a1 ++ [PineconeQuery qe 3 (filter_of videoId)] ++ a2)%list.
    split; [rewrite L2, (Hlog _ _ E3), <- !app_assoc; reflexivity|].
    rewrite !queries_of_app, !chats_of_app, Q0, C0, C1, Q1, Q2. cbn.
    split; [exists qe; right; right; reflexivity|].
    split; [split; [intros _; exact Hprimary | reflexivity]|].
    split; [split; [intros H; exfalso; exact (Hnf H)|]|].
    { intros (qe' & w1' & w2' & w3' & H1 & H2 & H3). rewrite E1 in H1.
      injection H1 as <- <-. rewrite E2 in H2. injection H2 as <-.
      rewrite E3 in H3. discriminate. }
    split; [intros H; exfalso; exact (Hnf H) | rewrite C2; lia].
Qed.

End RetrievalFacts.

(** ** Reprocessing *)

Section ReprocessFacts.
Import JS TextChunker Server.
Local Open Scope js_scope.

Variable env : Env.

(** Deleting the vectors of a recording touches no table, and when it
    returns no record of the recording is left in the index. *)
Lemma deleteVideoVectors_frame videoId w r w' :
  deleteVideoVectors env videoId w = (r, w') ->
  videos w' = videos w /\ transcripts w' = transcripts w /\
  text_chunks w' = text_chunks w /\ chat_conversations w' = chat_conversations w /\
  (forall b, r = Ok b ->
             forall v, In v (pinecone_vectors w') -> vec_videoId v <> videoId).
Proof.
  assert (Hinit : forall w0 r0 w1, ensure_index env w0 = (r0, w1) ->
            videos w1 = videos w0 /\ transcripts w1 = transcripts w0 /\
            text_chunks w1 = text_chunks w0 /\
            chat_conversations w1 = chat_conversations w0).
  { intros w0 r0 w1. unfold ensure_index, bind at 1, get.
    destruct (pinecone_index w0); [intros [= <- <-]; repeat split|].
    unfold bind, initializeIndex, try_catch, bind, call at 1, modify, ret, throw.
    destruct (pinecone_init env _) as [[]|e]; intros [= <- <-]; repeat split. }
  unfold deleteVideoVectors, try_catch, bind at 1.
  destruct (ensure_index env w) as [[[]|e0] w1] eqn:E0; apply Hinit in E0;
    destruct E0 as (V & T & C & K).
  - unfold bind, call at 1, modify, ret.
    destruct (pinecone_deleteMany env _ videoId) as [[]|e]; intros [= <- <-]; cbn;
      (repeat split; try assumption).
    + intros b _ v Hv. apply filter_In in Hv. destruct Hv as [_ Hv].
      apply negb_true_iff in Hv. apply String.eqb_neq. exact Hv.
    + intros b [=].
  - intros [= <- <-]. repeat split; try assumption. intros b [=].
Qed.

Lemma delete_rows_run table remove w :
  delete_rows env table remove w = (Ok tt, when (deletes env table w) remove w).
Proof.
  unfold delete_rows, bind, get, deletes, when, modify, ret.
  destruct (db_delete env _ table); reflexivity.
Qed.

Lemma reprocess_accepted videoId w video :
  find (fun v => String.eqb (video_id v) videoId) (videos w) = Some video ->
  status video <> processing ->
  reprocess env videoId w = (Ok response_200, reprocessed env videoId w).
Proof.
  intros Hfind Hst. unfold reprocess, try_catch.
  rewrite (bind_ok get _ w w w eq_refl). rewrite Hfind.
  unfold reprocessed.
  destruct (deleteVideoVectors env videoId w) as [rd w1] eqn:Ed.
  assert (Hrest : forall w2 : World, log w2 = log w1 ->
            (delete_rows env TextChunks (without_chunks videoId);;
             delete_rows env Transcripts (without_transcripts videoId);;
             modify (update_video videoId reset_status);;
             ret response_200) w2
            = (Ok response_200,
               update_video videoId reset_status
                 (when (deletes env Transcripts w1) (without_transcripts videoId)
                    (when (deletes env TextChunks w1) (without_chunks videoId) w2)))).
  { intros w2 Hlog. unfold bind. rewrite delete_rows_run.
    assert (E1 : deletes env TextChunks w2 = deletes env TextChunks w1)
      by (unfold deletes; rewrite Hlog; reflexivity).
    rewrite E1. rewrite delete_rows_run.
    assert (E2 : deletes env Transcripts
                   (when (deletes env TextChunks w1) (without_chunks videoId) w2)
                 = deletes env Transcripts w1).
    { unfold deletes, when. destruct (db_delete env _ TextChunks); cbn; rewrite Hlog;
        reflexivity. }
    rewrite E2. reflexivity. }
  assert (Hall : (delete_rows env ChatConversations (without_conversations videoId);;
                  delete_rows env TextChunks (without_chunks videoId);;
                  delete_rows env Transcripts (without_transcripts videoId);;
                  modify (update_video videoId reset_status);;
                  ret response_200) w1
                 = (Ok response_200,
                    update_video videoId reset_status
                      (when (deletes env Transcripts w1) (without_transcripts videoId)
                         (when (deletes env TextChunks w1) (without_chunks videoId)
                            (when (deletes env ChatConversations w1)
                               (without_conversations videoId) w1))))).
  { unfold bind at 1. rewrite delete_rows_run. apply Hrest.
    unfold when. destruct (deletes env ChatConversations w1); reflexivity. }
  destruct (status video); [exfalso; apply Hst; reflexivity| |];
    unfold bind at 1, try_catch, bind at 1; rewrite Ed;
    destruct rd; cbn [snd]; unfold ret at 1; cbv beta iota;
    change (Build_Response 200 true
              "Reprocessing started. Note: Original file must still be available.")
      with response_200;
    rewrite Hall; reflexivity.
Qed.

Lemma reprocess_rejected videoId w video :
  find (fun v => String.eqb (video_id v) videoId) (videos w) = Some video ->
  status video = processing ->
  reprocess env videoId w = (Ok response_400, w).
Proof.
  intros Hfind Hst. unfold reprocess, try_catch.
  rewrite (bind_ok get _ w w w eq_refl). rewrite Hfind, Hst. reflexivity.
Qed.

Lemma other_rows {A} (key : A -> string) videoId (rows : list A) (row : A) :
  key row <> videoId ->
  (In row (filter (other_video key videoId) rows) <-> In row rows).
Proof.
  intros Hkey. rewrite filter_In. unfold other_video.
  apply String.eqb_neq in Hkey. rewrite Hkey. cbn. tauto.
Qed.

Lemma no_row_left {A} (key : A -> string) videoId (rows : list A) (row : A) :
  In row (filter (other_video key videoId) rows) -> key row <> videoId.
Proof.
  intros H. apply filter_In in H. destruct H as [_ H].
  apply negb_true_iff in H. apply String.eqb_neq. exact H.
Qed.

Lemma filter_both {A} (p q : A -> bool) (rows : list A) :
  filter (fun x => p x && q x) rows = filter q (filter p rows).
Proof.
  induction rows as [|x rows IH]; [reflexivity|]. cbn [filter].
  destruct (p x); cbn [andb filter]; [destruct (q x)|]; rewrite IH; reflexivity.
Qed.

Lemma filter_true {A} (rows : list A) : filter (fun _ => true) rows = rows.
Proof. induction rows as [|x rows IH]; [reflexivity|]. cbn. rewrite IH. reflexivity. Qed.

(** The chunks that are left, case by case. *)
Lemma chunks_left_cases videoId w :
  chunks_left videoId true true w
  = filter (fun c => negb (on_transcript_of videoId (transcripts w) c))
           (filter (other_video cr_video_id videoId) (text_chunks w)) /\
  chunks_left videoId true false w = filter (other_video cr_video_id videoId) (text_chunks w) /\
  chunks_left videoId false true w
  = filter (fun c => negb (on_transcript_of videoId (transcripts w) c)) (text_chunks w) /\
  chunks_left videoId false false w = text_chunks w.
Proof.
  unfold chunks_left. cbn [negb orb]. repeat split.
  - apply filter_both.
  - apply filter_ext. intros c. apply andb_true_r.
  - rewrite <- (filter_true (text_chunks w)) at 2. apply filter_ext. reflexivity.
Qed.

(** The tables and the index after an accepted reprocess request. *)
Lemma reprocessed_tables videoId w :
  let w1 := snd (deleteVideoVectors env videoId w) in
  let w' := reprocessed env videoId w in
  text_chunks w'
  = chunks_left videoId (deletes env TextChunks w1) (deletes env Transcripts w1) w /\
  transcripts w'
  = (if deletes env Transcripts w1
     then filter (other_video tr_video_id videoId) (transcripts w)
     else transcripts w) /\
  chat_conversations w'
  = (if deletes env ChatConversations w1
     then filter (other_video cv_video_id videoId) (chat_conversations w)
     else chat_conversations w) /\
  videos w' = map (fun v => if String.eqb (video_id v) videoId then reset_status v else v)
                  (videos w) /\
  pinecone_vectors w' = pinecone_vectors w1 /\
  log w' = log w1.
Proof.
  cbn zeta. unfold reprocessed.
  destruct (deleteVideoVectors env videoId w) as [rd w1] eqn:Ed.
  destruct (deleteVideoVectors_frame _ _ _ _ Ed) as (V & T & C & K & _).
  destruct (chunks_left_cases videoId w) as (L1 & L2 & L3 & L4).
  cbn [snd]. unfold when.
  destruct (deletes env Transcripts w1), (deletes env TextChunks w1),
    (deletes env ChatConversations w1); cbn; rewrite ?V, ?T, ?C, ?K, ?L1, ?L2, ?L3, ?L4;
    repeat split.
Qed.

Lemma chunks_left_in videoId byVideo byTranscript w c :
  In c (chunks_left videoId byVideo byTranscript w) <->
  In c (text_chunks w) /\
  (byVideo = true -> cr_video_id c <> videoId) /\
  (byTranscript = true ->
   forall t, In t (transcripts w) -> tr_video_id t = videoId ->
             tr_id t <> cr_transcript_id c).
Proof.
  unfold chunks_left. rewrite filter_In, andb_true_iff, !orb_true_iff, !negb_true_iff.
  split.
  - intros (Hin & Hv & Ht). split; [exact Hin|]. split.
    + intros ->. destruct Hv as [Hv|Hv]; [discriminate Hv|].
      unfold other_video in Hv. apply negb_true_iff in Hv. apply String.eqb_neq. exact Hv.
    + intros -> t Hin' Hvid Hid. destruct Ht as [Ht|Ht]; [discriminate Ht|].
      unfold on_transcript_of in Ht.
      assert (existsb (fun t => String.eqb (tr_video_id t) videoId
                                && (tr_id t =? cr_transcript_id c)%nat) (transcripts w)
              = true); [|congruence].
      apply existsb_exists. exists t. split; [exact Hin'|].
      apply andb_true_iff. split; [apply String.eqb_eq; exact Hvid | apply Nat.eqb_eq; exact Hid].
  - intros (Hin & Hv & Ht). split; [exact Hin|]. split.
    + destruct byVideo; [right | left; reflexivity].
      unfold other_video. apply negb_true_iff. apply String.eqb_neq. exact (Hv eq_refl).
    + destruct byTranscript; [right | left; reflexivity].
      unfold on_transcript_of.
      destruct (existsb _ (transcripts w)) eqn:E; [|reflexivity]. exfalso.
      apply existsb_exists in E. destruct E as (t & Hin' & E).
      apply andb_true_iff in E. destruct E as [E1 E2].
      apply String.eqb_eq in E1. apply Nat.eqb_eq in E2.
      exact (Ht eq_refl t Hin' E1 E2).
Qed.

(** C2, as amended. For a recording whose status is not [processing], a
    reprocess request is answered 200.  It asks the index to delete the
    vectors of the recording and the record store to delete its
    exchanges, its chunks and its transcript, and looks at no outcome:
    the rows of a table are gone when the record store performs the
    deletion, and with the transcript go the chunks that hang on it;
    the rows stay as they were when it performs none.  The vectors are
    gone when the deletion in the index succeeds.  The rows of other
    recordings stay in every case, a chunk as long as it hangs on no
    transcript of the recording.  The recording is then reset to status
    [processing], stage [UPLOADING], progress 5 and no error, the update
    being taken as accepted by the record store.  For a recording whose
    status is [processing] the request is answered 400 and the world is
    left as it was. *)
Theorem reprocess_resets (videoId : string) (w : World) (video : Video) :
  find (fun v => String.eqb (video_id v) videoId) (videos w) = Some video ->
  (status video = processing -> reprocess env videoId w = (Ok response_400, w)) /\
  (status video <> processing ->
   fst (reprocess env videoId w) = Ok response_200 /\
   let w1 := snd (deleteVideoVectors env videoId w) in
   let w' := snd (reprocess env videoId w) in
   text_chunks w'
   = chunks_left videoId (deletes env TextChunks w1) (deletes env Transcripts w1) w /\
   transcripts w'
   = (if deletes env Transcripts w1
      then filter (other_video tr_video_id videoId) (transcripts w)
      else transcripts w) /\
   chat_conversations w'
   = (if deletes env ChatConversations w1
      then filter (other_video cv_video_id videoId) (chat_conversations w)
      else chat_conversations w) /\
   (forall c, In c (text_chunks w') <->
              In c (text_chunks w) /\
              (deletes env TextChunks w1 = true -> cr_video_id c <> videoId) /\
              (deletes env Transcripts w1 = true ->
               forall t, In t (transcripts w) -> tr_video_id t = videoId ->
                         tr_id t <> cr_transcript_id c)) /\
   (deletes env TextChunks w1 = false -> deletes env Transcripts w1 = false ->
    text_chunks w' = text_chunks w) /\
   (deletes env Transcripts w1 = true ->
    forall t, In t (transcripts w') -> tr_video_id t <> videoId) /\
   (deletes env ChatConversations w1 = true ->
    forall c, In c (chat_conversations w') -> cv_video_id c <> videoId) /\
   (forall t, tr_video_id t <> videoId -> In t (transcripts w') <-> In t (transcripts w)) /\
   (forall c, cv_video_id c <> videoId ->
              In c (chat_conversations w') <-> In c (chat_conversations w)) /\
   videos w' = map (fun v => if String.eqb (video_id v) videoId then reset_status v else v)
                   (videos w) /\
   (exists v, In v (videos w') /\ video_id v = videoId) /\
   (forall v, In v (videos w') -> video_id v = videoId ->
              status v = processing /\ processing_stage v = UPLOADING /\
              processing_progress v = 5%N /\ error_message v = None) /\
   (forall b w2, deleteVideoVectors env videoId w = (Ok b, w2) ->
                 forall v, In v (pinecone_vectors w') -> vec_videoId v <> videoId)).
Proof.
  intros Hfind. split; [apply reprocess_rejected; exact Hfind|].
  intros Hst. rewrite (reprocess_accepted _ _ _ Hfind Hst). cbn [fst snd].
  split; [reflexivity|]. cbn zeta.
  destruct (reprocessed_tables videoId w) as (C & T & K & V & P & _). cbn zeta in *.
  rewrite C, T, K, V, P.
  split; [reflexivity|]. split; [reflexivity|]. split; [reflexivity|].
  split; [intros c; apply chunks_left_in|].
  split.
  { intros -> ->. apply (chunks_left_cases videoId w). }
  split; [intros -> t; apply no_row_left|].
  split; [intros -> c; apply no_row_left|].
  split.
  { intros t Ht. destruct (deletes env Transcripts _); [apply other_rows; exact Ht|tauto]. }
  split.
  { intros c Hc.
    destruct (deletes env ChatConversations _); [apply other_rows; exact Hc|tauto]. }
  split; [reflexivity|].
  split.
  { apply find_some in Hfind. destruct Hfind as [Hin Heq].
    exists (reset_status video). split; [|apply String.eqb_eq; exact Heq].
    apply in_map_iff. exists video. rewrite Heq. split; [reflexivity | exact Hin]. }
  split.
  { intros v Hv Hid. apply in_map_iff in Hv. destruct Hv as (v0 & Hv0 & _).
    destruct (String.eqb (video_id v0) videoId) eqn:E0.
    - subst v. repeat split.
    - subst v. apply String.eqb_neq in E0. contradiction. }
  intros b w2 Ed. destruct (deleteVideoVectors_frame _ _ _ _ Ed) as (_ & _ & _ & _ & Hdel).
  rewrite Ed. cbn [snd]. exact (Hdel b eq_refl).
Qed.

End ReprocessFacts.

Lemma reprocess_resets_witness :
  Server.reprocess ServerExamples.calm "vid" ServerExamples.uploaded_world
  = (Server.Ok Server.response_400, ServerExamples.uploaded_world) /\
  fst (Server.reprocess ServerExamples.guarded "vid" ServerExamples.failed_world)
  = Server.Ok Server.response_200.
Proof.
  split.
  - apply (proj1 (reprocess_resets ServerExamples.calm "vid" ServerExamples.uploaded_world
                    ServerExamples.uploaded_video eq_refl)).
    reflexivity.
  - apply (proj2 (reprocess_resets ServerExamples.guarded "vid" ServerExamples.failed_world
                    ServerExamples.failed_video eq_refl)).
    discriminate.
Defined.

(** C2, as stated, fails: the reset writes progress 5, the value an
    upload starts from, not 0. *)
Lemma reprocess_progress_counterexample :
  Server.status ServerExamples.failed_video = Server.failed /\
  find (fun v => String.eqb (Server.video_id v) "vid")
       (Server.videos ServerExamples.failed_world) = Some ServerExamples.failed_video /\
  map (fun v => (Server.video_id v, Server.processing_stage v,
                 Server.processing_progress v, Server.error_message v))
      (Server.videos (snd (Server.reprocess ServerExamples.calm "vid"
                             ServerExamples.failed_world)))
  = [ ("vid", Server.UPLOADING, 5%N, None); ("other", Server.COMPLETED, 100%N, None) ] /\
  ~ (forall v,
        In v (Server.videos (snd (Server.reprocess ServerExamples.calm "vid"
                                    ServerExamples.failed_world))) ->
        Server.video_id v = "vid" -> Server.processing_progress v = 0%N).
Proof.
  split; [reflexivity|]. split; [reflexivity|]. split; [reflexivity|].
  intros H. specialize (H (Server.reset_status ServerExamples.failed_video)).
  cbn in H. discriminate H; [left; reflexivity | reflexivity].
Qed.

(** With a record store that performs every deletion, the rows of the
    recording are gone from the three tables. *)
Example reprocess_clears :
  let w' := snd (Server.reprocess ServerExamples.calm "vid" ServerExamples.failed_world) in
  map Server.cr_video_id (Server.text_chunks w') = [ "other" ] /\
  Server.transcripts w' = [] /\ Server.chat_conversations w' = [] /\
  Server.pinecone_vectors w' = [] /\
  Server.log w' = [ Server.PineconeDeleteMany "vid" ].
Proof. repeat split. Qed.

(** With the policies of the migrations, the request is answered 200
    and the recording is reset, the exchanges and the vectors are gone,
    and the chunks and the transcript of the recording are still
    there. *)
Example reprocess_under_policies :
  let run := Server.reprocess ServerExamples.guarded "vid" ServerExamples.failed_world in
  fst run = Server.Ok Server.response_200 /\
  Server.text_chunks (snd run) = Server.text_chunks ServerExamples.failed_world /\
  Server.transcripts (snd run) = Server.transcripts ServerExamples.failed_world /\
  Server.chat_conversations (snd run) = [] /\
  Server.pinecone_vectors (snd run) = [] /\
  map (fun v => (Server.video_id v, Server.status v, Server.processing_progress v))
      (Server.videos (snd run))
  = [ ("vid", Server.processing, 5%N); ("other", Server.ready, 100%N) ].
Proof. repeat split. Qed.

(** When the record store performs the deletion of the transcript and
    no other, the chunk that hangs on the transcript goes with it, and
    the exchange stays. *)
Example reprocess_cascade :
  let run := Server.reprocess ServerExamples.transcripts_only "vid"
               ServerExamples.failed_world in
  fst run = Server.Ok Server.response_200 /\
  map Server.cr_video_id (Server.text_chunks (snd run)) = [ "other" ] /\
  Server.transcripts (snd run) = [] /\
  Server.chat_conversations (snd run)
  = Server.chat_conversations ServerExamples.failed_world.
Proof. repeat split. Qed.

(** ** The pipeline *)

Section PipelineFacts.
Import JS TextChunker Server.
Local Open Scope js_scope.

Variable env : Env.

(** Splits a goal [kept w w'] into its six parts and closes the parts
    where nothing has changed. *)
Ltac kept_parts :=
  unfold kept; cbn;
  split;
  [ try reflexivity
  | split;
    [ try (exists []; rewrite app_nil_r; reflexivity)
    | split;
      [ try (exists []; rewrite app_nil_r; reflexivity)
      | split;
        [ try reflexivity
        | split;
          [ try (exists []; split; [rewrite app_nil_r; reflexivity | reflexivity])
          | try (intros v Hv; exists v; split; [exact Hv | reflexivity]) ] ] ] ] ].

Lemma kept_refl w : kept w w.
Proof. kept_parts. Qed.

Lemma kept_trans w1 w2 w3 : kept w1 w2 -> kept w2 w3 -> kept w1 w3.
Proof.
  intros (V1 & (t1 & T1) & (c1 & C1) & K1 & (a1 & L1 & D1) & P1)
         (V2 & (t2 & T2) & (c2 & C2) & K2 & (a2 & L2 & D2) & P2).
  unfold kept. split; [|split; [|split; [|split; [|split]]]].
  - rewrite V2. exact V1.
  - exists (t1 ++ t2)%list. rewrite T2, T1, app_assoc. reflexivity.
  - exists (c1 ++ c2)%list. rewrite C2, C1, app_assoc. reflexivity.
  - rewrite K2. exact K1.
  - exists (a1 ++ a2)%list. split; [rewrite L2, L1, app_assoc; reflexivity|].
    unfold deletions_of in *. rewrite filter_app, D1, D2. reflexivity.
  - intros v Hv. destruct (P1 v Hv) as (v' & Hv' & E1).
    destruct (P2 v' Hv') as (v'' & Hv'' & E2).
    exists v''. split; [exact Hv'' | rewrite E2; exact E1].
Qed.

Lemma keeps_ret {A} (a : A) : keeps (ret a).
Proof. intros w r w' [= <- <-]. apply kept_refl. Qed.

Lemma keeps_throw {A} (e : string) : keeps (@throw A e).
Proof. intros w r w' [= <- <-]. apply kept_refl. Qed.

Lemma keeps_get : keeps get.
Proof. intros w r w' [= <- <-]. apply kept_refl. Qed.

Lemma keeps_bind {A B} (m : M A) (k : A -> M B) :
  keeps m -> (forall a, keeps (k a)) -> keeps (bind m k).
Proof.
  intros Hm Hk w r w'. unfold bind.
  destruct (m w) as [[a|e] w1] eqn:E; apply Hm in E.
  - intros H. apply Hk in H. eapply kept_trans; eassumption.
  - intros [= <- <-]. exact E.
Qed.

Lemma keeps_try_catch {A} (m : M A) (h : string -> M A) :
  keeps m -> (forall e, keeps (h e)) -> keeps (try_catch m h).
Proof.
  intros Hm Hh w r w'. unfold try_catch.
  destruct (m w) as [[a|e] w1] eqn:E; apply Hm in E.
  - intros [= <- <-]. exact E.
  - intros H. apply Hh in H. eapply kept_trans; eassumption.
Qed.

Lemma keeps_attempt {A} (m : M A) : keeps m -> keeps (attempt m).
Proof.
  intros Hm w r w'. unfold attempt.
  destruct (m w) as [r0 w1] eqn:E. apply Hm in E. intros [= <- <-]. exact E.
Qed.

Lemma keeps_call {A} (e : Event) (answer : nat -> Result A) :
  is_delete e = false -> keeps (call e answer).
Proof.
  intros He w r w' [= <- <-]. kept_parts.
  exists [e]. split; [reflexivity|]. cbn. rewrite He. reflexivity.
Qed.

Lemma keeps_modify (f : World -> World) :
  (forall w, kept w (f w)) -> keeps (modify f).
Proof. intros Hf w r w' [= <- <-]. apply Hf. Qed.

Lemma kept_upsert batch w :
  kept w (set_vectors (upsert_into batch (pinecone_vectors w)) w).
Proof.
  kept_parts. unfold upsert_into. intros v Hv.
  destruct (existsb (fun b => String.eqb (vec_id b) (vec_id v)) batch) eqn:E.
  - apply existsb_exists in E. destruct E as (b & Hb & Eb).
    exists b. split; [apply in_or_app; right; exact Hb | apply String.eqb_eq; exact Eb].
  - exists v. split; [|reflexivity]. apply in_or_app. left.
    apply filter_In. split; [exact Hv | rewrite E; reflexivity].
Qed.

Lemma kept_update_video videoId (f : Video -> Video) w :
  (forall v, video_id (f v) = video_id v) -> kept w (update_video videoId f w).
Proof.
  intros Hf. kept_parts.
  rewrite map_map. apply map_ext. intros v.
  destruct (String.eqb (video_id v) videoId); [apply Hf | reflexivity].
Qed.

Lemma kept_set_index b w : kept w (set_index b w).
Proof. kept_parts. Qed.

Lemma kept_add_transcripts ts w : kept w (set_transcripts (transcripts w ++ ts) w).
Proof. kept_parts. exists ts. reflexivity. Qed.

Lemma kept_add_chunks cs w : kept w (set_text_chunks (text_chunks w ++ cs) w).
Proof. kept_parts. exists cs. reflexivity. Qed.

(** One step of a proof that a computation keeps the world. *)
Ltac keeps_step :=
  first
    [ match goal with H : _ |- keeps _ => apply H end
    | apply keeps_ret | apply keeps_throw | apply keeps_get
    | apply keeps_bind | apply keeps_try_catch | apply keeps_attempt
    | apply keeps_call; reflexivity
    | apply keeps_modify; intros ?;
      first [ apply kept_upsert | apply kept_set_index
            | apply kept_add_transcripts | apply kept_add_chunks
            | apply kept_update_video; intros ?; reflexivity ]
    | match goal with
      | |- forall _, _ => intros ?
      | |- keeps (match ?x with _ => _ end) => destruct x
      | |- keeps (if ?b then _ else _) => destruct b
      | |- keeps (let _ := _ in _) => cbn zeta
      | H : _ |- keeps _ => apply H
      end ].

Ltac keeps_all := repeat keeps_step.

Lemma keeps_delay ms : keeps (delay ms).
Proof. unfold delay, emit. keeps_all. Qed.

Lemma keeps_callEmbeddingAPI_left texts : forall left retryCount,
  keeps (callEmbeddingAPI_left env left texts retryCount).
Proof.
  induction left as [|left IH]; intros retryCount; cbn [callEmbeddingAPI_left];
    pose proof keeps_delay; keeps_all.
Qed.

Lemma keeps_attach_embeddings data : forall batch index,
  keeps (attach_embeddings batch index data).
Proof.
  induction batch as [|chunk batch IH]; intros index; cbn [attach_embeddings]; keeps_all.
Qed.

Lemma keeps_processBatch batch : keeps (processBatch env batch).
Proof.
  unfold processBatch, callEmbeddingAPI.
  pose proof keeps_callEmbeddingAPI_left. pose proof keeps_attach_embeddings. keeps_all.
Qed.

Lemma keeps_processIndividually : forall chunks, keeps (processIndividually env chunks).
Proof.
  induction chunks as [|chunk chunks IH]; cbn [processIndividually];
    unfold callEmbeddingAPI;
    pose proof keeps_callEmbeddingAPI_left; pose proof keeps_delay; keeps_all.
Qed.

Lemma keeps_embed_batches : forall batches, keeps (embed_batches env batches).
Proof.
  induction batches as [|batch rest IH]; cbn [embed_batches];
    pose proof keeps_processBatch; pose proof keeps_processIndividually;
    pose proof keeps_delay; keeps_all.
Qed.

Lemma keeps_generateEmbeddings chunks : keeps (generateEmbeddings env chunks).
Proof. unfold generateEmbeddings. pose proof keeps_embed_batches. keeps_all. Qed.

Lemma keeps_initializeIndex : keeps (initializeIndex env).
Proof. unfold initializeIndex. keeps_all. Qed.

Lemma keeps_ensure_index : keeps (ensure_index env).
Proof. unfold ensure_index. pose proof keeps_initializeIndex. keeps_all. Qed.

Lemma keeps_upsertVectors_left vectors : forall left retryCount,
  keeps (upsertVectors_left env left vectors retryCount).
Proof.
  induction left as [|left IH]; intros retryCount; cbn [upsertVectors_left];
    pose proof keeps_delay; keeps_all.
Qed.

Lemma keeps_prepare_vectors videoId metadata : forall validChunks,
  keeps (prepare_vectors env videoId metadata validChunks).
Proof.
  induction validChunks as [|chunk rest IH]; cbn [prepare_vectors]; keeps_all.
Qed.

Lemma keeps_store_batches : forall batches i results,
  keeps (store_batches env i batches results).
Proof.
  induction batches as [|batch rest IH]; intros i results; cbn [store_batches];
    unfold upsertVectors; pose proof keeps_upsertVectors_left; pose proof keeps_delay;
    keeps_all.
Qed.

Lemma keeps_storeChunks videoId chunks metadata :
  keeps (storeChunks env videoId chunks metadata).
Proof.
  unfold storeChunks.
  pose proof keeps_ensure_index. pose proof keeps_prepare_vectors.
  pose proof keeps_store_batches. keeps_all.
Qed.

Lemma keeps_updateProcessingStatus videoId stage progress errorMessage :
  keeps (updateProcessingStatus videoId stage progress errorMessage).
Proof. unfold updateProcessingStatus. keeps_all. Qed.

Lemma keeps_cleanup audioPath originalPath : keeps (cleanup audioPath originalPath).
Proof. unfold cleanup, emit. keeps_all. Qed.

Lemma keeps_extractAudio filePath videoId : keeps (extractAudio env filePath videoId).
Proof. unfold extractAudio. keeps_all. Qed.

Lemma keeps_transcribeAudio audioPath videoId :
  keeps (transcribeAudio env audioPath videoId).
Proof. unfold transcribeAudio. keeps_all. Qed.

Lemma keeps_storeInPinecone videoId chunks metadata :
  keeps (storeInPinecone env videoId chunks metadata).
Proof.
  unfold storeInPinecone.
  pose proof keeps_initializeIndex. pose proof keeps_storeChunks. keeps_all.
Qed.

Lemma keeps_saveToDatabase videoId transcriptionResult chunks :
  keeps (saveToDatabase env videoId transcriptionResult chunks).
Proof. unfold saveToDatabase. keeps_all. Qed.

Lemma keeps_processFile_stages filePath metadata videoId audioPath :
  keeps (processFile_stages env filePath metadata videoId audioPath).
Proof.
  unfold processFile_stages, processing_chunkText, processing_generateEmbeddings.
  pose proof keeps_updateProcessingStatus. pose proof keeps_transcribeAudio.
  pose proof keeps_generateEmbeddings. pose proof keeps_storeInPinecone.
  pose proof keeps_saveToDatabase. pose proof keeps_cleanup.
  keeps_all.
Qed.

(** *** The messages of the errors *)

Lemma loud_bind {A B} (m : M A) (k : A -> M B) :
  loud m -> (forall a, loud (k a)) -> loud (bind m k).
Proof.
  intros Hm Hk w e w'. unfold bind.
  destruct (m w) as [[a|e0] w1] eqn:E.
  - apply Hk.
  - intros [= <- <-]. eapply Hm. exact E.
Qed.

Lemma loud_prefixed {A} (m : M A) (c : ascii) (prefix : string) :
  loud (try_catch m (fun error => throw (String c prefix ++ error))).
Proof.
  intros w e w'. unfold try_catch, throw.
  destruct (m w) as [[a|e0] w1]; intros [= <- <-]. discriminate.
Qed.

Lemma loud_modify (f : World -> World) : loud (modify f).
Proof. intros w e w' [=]. Qed.

Lemma loud_ret {A} (a : A) : loud (ret a).
Proof. intros w e w' [=]. Qed.

Lemma loud_cleanup audioPath originalPath : loud (cleanup audioPath originalPath).
Proof.
  unfold cleanup. destruct (_ && _)%bool; [|apply loud_ret].
  intros w e w' [=].
Qed.

Lemma loud_extract filePath videoId :
  loud (updateProcessingStatus videoId EXTRACTING_AUDIO 10 None;;
        extractAudio env filePath videoId).
Proof.
  apply loud_bind; [apply loud_modify|]. intros _. apply loud_prefixed.
Qed.

Lemma loud_processFile_stages filePath metadata videoId audioPath :
  loud (processFile_stages env filePath metadata videoId audioPath).
Proof.
  unfold processFile_stages.
  repeat first
    [ apply loud_bind; [|intros ?]
    | apply loud_modify
    | apply loud_ret
    | apply loud_cleanup
    | apply loud_prefixed ].
Qed.

(** The [catch] block marks the recording, removes at most the
    temporary audio file, and throws. *)
Lemma processFile_failed_run {A} filePath videoId audioPath message w :
  exists w',
    @processFile_failed A filePath videoId audioPath message w =
    (Throw ("Processing failed: " ++ message), w') /\
    videos w' = map (fun v => if String.eqb (video_id v) videoId
                              then apply_status FAILED 0 (Some message) v else v)
                    (videos w) /\
    kept w w'.
Proof.
  unfold processFile_failed.
  assert (Hstatus : kept w (update_video videoId (apply_status FAILED 0 (Some message)) w))
    by (apply kept_update_video; intros v; reflexivity).
  unfold bind, updateProcessingStatus, modify, throw.
  destruct audioPath as [path|].
  - unfold cleanup. destruct (_ && _)%bool.
    + eexists. split; [reflexivity|]. split; [reflexivity|].
      eapply kept_trans; [exact Hstatus|].
      apply (keeps_call (AudioCleanup path) (fun _ => Ok tt) eq_refl _ (Ok tt)).
      reflexivity.
    + eexists. split; [reflexivity|]. split; [reflexivity | exact Hstatus].
  - eexists. split; [reflexivity|]. split; [reflexivity | exact Hstatus].
Qed.

Lemma marked_failed videoId message (rows : list Video) v :
  message <> "" ->
  In v (map (fun v => if String.eqb (video_id v) videoId
                      then apply_status FAILED 0 (Some message) v else v) rows) ->
  video_id v = videoId ->
  status v = failed /\ processing_stage v = FAILED /\
  processing_progress v = 0%N /\ error_message v = Some message.
Proof.
  intros Hne Hv Hid. apply in_map_iff in Hv. destruct Hv as (v0 & Hv0 & _).
  destruct (String.eqb (video_id v0) videoId) eqn:E0.
  - subst v. destruct message as [|c m]; [exfalso; apply Hne; reflexivity|].
    repeat split.
  - subst v. apply String.eqb_neq in E0. contradiction.
Qed.

(** The stages after the extraction throw when one of the four
    stages that can fail throws, with its message. *)
Lemma processFile_stages_throws filePath metadata videoId audioPath w1 e w2 :
  processFile_stages env filePath metadata videoId audioPath w1 = (Throw e, w2) <->
  stage_throws env metadata videoId audioPath w1 e w2.
Proof.
  unfold processFile_stages, stage_throws, marked. cbn zeta.
  unfold bind at 1, updateProcessingStatus at 1, modify at 1. unfold bind at 1.
  destruct (transcribeAudio env audioPath videoId _) as [[tr|m1] wt] eqn:E1.
  2:{ split; [intros [= <- <-]; left; reflexivity|].
      intros [H|(tr & wt' & [=] & _)]. injection H as <- <-. reflexivity. }
  unfold bind at 1, updateProcessingStatus at 1, modify at 1.
  unfold bind at 1, processing_chunkText at 1, ret at 1.
  unfold bind at 1, updateProcessingStatus at 1, modify at 1. unfold bind at 1.
  destruct (processing_generateEmbeddings env _ videoId _) as [[emb|m2] we] eqn:E2.
  2:{ split.
      - intros [= <- <-]. right. exists tr, wt. split; [reflexivity|]. left. exact E2.
      - intros [[=]|(tr' & wt' & [= <- <-] & H)]. rewrite E2 in H.
        destruct H as [H|(emb & we' & [=] & _)]. injection H as <- <-. reflexivity. }
  unfold bind at 1, updateProcessingStatus at 1, modify at 1. unfold bind at 1.
  destruct (storeInPinecone env videoId emb metadata _) as [[sr|m3] ws] eqn:E3.
  2:{ split.
      - intros [= <- <-]. right. exists tr, wt. split; [reflexivity|]. right.
        exists emb, we. split; [exact E2|]. left. exact E3.
      - intros [[=]|(tr' & wt' & [= <- <-] & H)]. rewrite E2 in H.
        destruct H as [[=]|(emb' & we' & [= <- <-] & H)]. rewrite E3 in H.
        destruct H as [H|(sr & ws' & [=] & _)]. injection H as <- <-. reflexivity. }
  unfold bind at 1.
  destruct (saveToDatabase env videoId tr _ ws) as [[[]|m4] wd] eqn:E4.
  - split.
    + unfold bind, updateProcessingStatus, modify, cleanup, emit, call, ret.
      destruct (_ && _)%bool; intros [=].
    + intros [[=]|(tr' & wt' & [= <- <-] & H)]. rewrite E2 in H.
      destruct H as [[=]|(emb' & we' & [= <- <-] & H)]. rewrite E3 in H.
      destruct H as [[=]|(sr' & ws' & [= <- <-] & H)]. rewrite E4 in H. discriminate H.
  - split.
    + intros [= <- <-]. right. exists tr, wt. split; [reflexivity|]. right.
      exists emb, we. split; [exact E2|]. right. exists sr, ws. split; [exact E3 | exact E4].
    + intros [[=]|(tr' & wt' & [= <- <-] & H)]. rewrite E2 in H.
      destruct H as [[=]|(emb' & we' & [= <- <-] & H)]. rewrite E3 in H.
      destruct H as [[=]|(sr' & ws' & [= <- <-] & H)]. rewrite E4 in H.
      injection H as <- <-. reflexivity.
Qed.

(** The [catch] block, run in the world the failing stage has left. *)
Lemma processFile_failed_from {A} filePath videoId audioPath e w2 :
  exists w',
    @processFile_failed A filePath videoId audioPath e w2 =
    (Throw ("Processing failed: " ++ e), w') /\
    fails_from filePath videoId audioPath e w2 w'.
Proof.
  unfold processFile_failed, fails_from, cleanup_events.
  unfold bind, updateProcessingStatus, modify, throw.
  destruct audioPath as [path|].
  - unfold cleanup. destruct (_ && _)%bool.
    + eexists. split; [reflexivity|]. cbn. repeat split.
    + eexists. split; [reflexivity|]. cbn. rewrite app_nil_r. repeat split.
  - eexists. split; [reflexivity|]. cbn. rewrite app_nil_r. repeat split.
Qed.

(** C1, as amended. When a stage of the pipeline throws, whether the
    extraction of the audio or one of the four stages after it,
    [processFile] marks the recording failed, with stage [FAILED],
    progress 0 and the message of the error (the status update being
    taken as accepted by the record store, whose refusal the code only
    logs), asks the audio extractor to remove the temporary audio file
    when one had been extracted, and throws in its turn, with the
    message of the stage behind [Processing failed: ].  It throws in no
    other case.  It asks for no deletion in the vector index: the
    records already written stay, as do the transcript and the chunks
    already saved. *)
Theorem processFile_failure
        (filePath : string) (metadata : Metadata) (videoId : string) (w : World) :
  (forall e w1,
      processFile_extraction env filePath videoId w = (Throw e, w1) ->
      exists w',
        processFile env filePath metadata videoId w
        = (Throw ("Processing failed: " ++ e), w') /\
        fails_from filePath videoId None e w1 w') /\
  (forall audioPath w1 e w2,
      processFile_extraction env filePath videoId w = (Ok audioPath, w1) ->
      stage_throws env metadata videoId audioPath w1 e w2 ->
      exists w',
        processFile env filePath metadata videoId w
        = (Throw ("Processing failed: " ++ e), w') /\
        fails_from filePath videoId (Some audioPath) e w2 w') /\
  (forall audioPath w1 e w2,
      processFile_stages env filePath metadata videoId audioPath w1 = (Throw e, w2) <->
      stage_throws env metadata videoId audioPath w1 e w2) /\
  (forall message w',
      processFile env filePath metadata videoId w = (Throw message, w') ->
      exists inner,
        message = ("Processing failed: " ++ inner)%string /\ inner <> "" /\
        (forall v, In v (videos w') -> video_id v = videoId ->
                   status v = failed /\ processing_stage v = FAILED /\
                   processing_progress v = 0%N /\ error_message v = Some inner) /\
        map video_id (videos w') = map video_id (videos w) /\
        (exists added, log w' = (log w ++ added)%list /\ deletions_of added = []) /\
        (forall v, In v (pinecone_vectors w) ->
                   exists v', In v' (pinecone_vectors w') /\ vec_id v' = vec_id v) /\
        (exists ts, transcripts w' = (transcripts w ++ ts)%list) /\
        (exists cs, text_chunks w' = (text_chunks w ++ cs)%list) /\
        exists audioPath w2,
          fails_from filePath videoId audioPath inner w2 w' /\
          match audioPath with
          | None => processFile_extraction env filePath videoId w = (Throw inner, w2)
          | Some path =>
              exists w1,
                processFile_extraction env filePath videoId w = (Ok path, w1) /\
                stage_throws env metadata videoId path w1 inner w2
          end).
Proof.
  split; [|split; [|split]].
  - intros e w1 E1.
    destruct (@processFile_failed_from ProcessingResult filePath videoId None e w1)
      as (w' & E & F).
    exists w'. split; [|exact F].
    unfold processFile, bind at 1, attempt at 1.
    unfold processFile_extraction in E1. rewrite E1. exact E.
  - intros audioPath w1 e w2 E1 E2. apply processFile_stages_throws with (filePath := filePath) in E2.
    destruct (@processFile_failed_from ProcessingResult filePath videoId (Some audioPath) e w2)
      as (w' & E & F).
    exists w'. split; [|exact F].
    unfold processFile, bind at 1, attempt at 1.
    unfold processFile_extraction in E1. rewrite E1.
    unfold bind at 1, attempt at 1. rewrite E2. exact E.
  - intros audioPath w1 e w2. apply processFile_stages_throws.
  - intros message w' Hrun.
    assert (Hend : forall audioPath inner w2,
               inner <> "" -> kept w w2 ->
               @processFile_failed ProcessingResult filePath videoId audioPath inner w2
               = (Throw message, w') ->
               message = ("Processing failed: " ++ inner)%string /\
               (forall v, In v (videos w') -> video_id v = videoId ->
                          status v = failed /\ processing_stage v = FAILED /\
                          processing_progress v = 0%N /\ error_message v = Some inner) /\
               kept w w' /\ fails_from filePath videoId audioPath inner w2 w').
    { intros audioPath inner w2 Hne Hk H.
      destruct (@processFile_failed_run ProcessingResult filePath videoId audioPath inner w2)
        as (w3 & E & V & K).
      destruct (@processFile_failed_from ProcessingResult filePath videoId audioPath inner w2)
        as (w4 & E' & F).
      rewrite E in E'. injection E' as <-.
      rewrite E in H. injection H as <- <-.
      split; [reflexivity|]. split; [|split; [eapply kept_trans; eassumption | exact F]].
      intros v Hv Hid. rewrite V in Hv. exact (marked_failed _ _ _ _ Hne Hv Hid). }
    unfold processFile, bind at 1, attempt at 1 in Hrun.
    fold (processFile_extraction env filePath videoId) in Hrun.
    destruct (processFile_extraction env filePath videoId w) as [[audioPath|m1] w1] eqn:E1.
    + assert (K1 : kept w w1).
      { revert E1. apply keeps_bind;
          [apply keeps_updateProcessingStatus | intros _; apply keeps_extractAudio]. }
      unfold bind at 1, attempt at 1 in Hrun.
      destruct (processFile_stages env filePath metadata videoId audioPath w1)
        as [[result|m2] w2] eqn:E2; [discriminate Hrun|].
      assert (Hne : m2 <> "") by (eapply loud_processFile_stages; exact E2).
      destruct (Hend (Some audioPath) m2 w2) as (Hm & Hst & (V & T & C & _ & L & P) & F).
      * exact Hne.
      * eapply kept_trans; [exact K1|]. eapply keeps_processFile_stages. exact E2.
      * exact Hrun.
      * exists m2. repeat (split; [assumption|]).
        exists (Some audioPath), w2. split; [exact F|].
        exists w1. split; [reflexivity|]. apply processFile_stages_throws in E2. exact E2.
    + assert (Hne : m1 <> "") by (eapply loud_extract; exact E1).
      destruct (Hend None m1 w1) as (Hm & Hst & (V & T & C & _ & L & P) & F).
      * exact Hne.
      * revert E1. apply keeps_bind;
          [apply keeps_updateProcessingStatus | intros _; apply keeps_extractAudio].
      * exact Hrun.
      * exists m1. repeat (split; [assumption|]).
        exists None, w1. split; [exact F | reflexivity].
Qed.

End PipelineFacts.

Lemma processFile_failure_witness :
  exists inner,
    "Processing failed: Database save failed: Chunks save failed: connection lost"
    = ("Processing failed: " ++ inner)%string /\ inner <> "" /\
    (forall v, In v (Server.videos (snd ServerExamples.refused_run)) ->
               Server.video_id v = "vid" ->
               Server.status v = Server.failed /\
               Server.processing_stage v = Server.FAILED /\
               Server.processing_progress v = 0%N /\
               Server.error_message v = Some inner) /\
    map Server.video_id (Server.videos (snd ServerExamples.refused_run))
    = map Server.video_id (Server.videos ServerExamples.uploaded_world) /\
    (exists added,
        Server.log (snd ServerExamples.refused_run)
        = (Server.log ServerExamples.uploaded_world ++ added)%list /\
        Server.deletions_of added = []) /\
    (forall v, In v (Server.pinecone_vectors ServerExamples.uploaded_world) ->
               exists v', In v' (Server.pinecone_vectors (snd ServerExamples.refused_run)) /\
                          Server.vec_id v' = Server.vec_id v) /\
    (exists ts, Server.transcripts (snd ServerExamples.refused_run)
                = (Server.transcripts ServerExamples.uploaded_world ++ ts)%list) /\
    (exists cs, Server.text_chunks (snd ServerExamples.refused_run)
                = (Server.text_chunks ServerExamples.uploaded_world ++ cs)%list) /\
    exists audioPath w2,
      Server.fails_from "temp/in.mp4" "vid" audioPath inner w2 (snd ServerExamples.refused_run) /\
      match audioPath with
      | None =>
          Server.processFile_extraction ServerExamples.chunks_refused "temp/in.mp4" "vid"
            ServerExamples.uploaded_world = (Server.Throw inner, w2)
      | Some path =>
          exists w1,
            Server.processFile_extraction ServerExamples.chunks_refused "temp/in.mp4" "vid"
              ServerExamples.uploaded_world = (Server.Ok path, w1) /\
            Server.stage_throws ServerExamples.chunks_refused ServerExamples.some_metadata
              "vid" path w1 inner w2
      end.
Proof.
  apply (proj2 (proj2 (proj2
           (processFile_failure ServerExamples.chunks_refused "temp/in.mp4"
              ServerExamples.some_metadata "vid" ServerExamples.uploaded_world)))).
  reflexivity.
Defined.

(** The run that the record store ends by refusing the chunks: the last
    call of the pipeline is the removal of the temporary audio file, and
    it is the only one. *)
Example processFile_failure_cleanup :
  last (Server.log (snd ServerExamples.refused_run)) Server.Uuid
  = Server.AudioCleanup "temp/audio.wav" /\
  filter (fun e => match e with Server.AudioCleanup _ => true | _ => false end)
         (Server.log (snd ServerExamples.refused_run))
  = [ Server.AudioCleanup "temp/audio.wav" ] /\
  map (fun v => (Server.status v, Server.processing_stage v, Server.processing_progress v,
                 Server.error_message v))
      (Server.videos (snd ServerExamples.refused_run))
  = [ (Server.failed, Server.FAILED, 0%N,
       Some "Database save failed: Chunks save failed: connection lost") ].
Proof. repeat split. Qed.

(** C1, as stated, fails: when the record store refuses the chunks, the
    two vector records of the recording have been written, the
    recording is marked failed, and no deletion is asked of the index:
    the records stay there, beside the transcript already saved. *)
Lemma processFile_no_vector_cleanup :
  fst ServerExamples.refused_run
  = Server.Throw
      "Processing failed: Database save failed: Chunks save failed: connection lost" /\
  map Server.status (Server.videos (snd ServerExamples.refused_run)) = [ Server.failed ] /\
  map (fun v => (Server.vec_videoId v, Server.vec_id v))
      (Server.pinecone_vectors (snd ServerExamples.refused_run))
  = [ ("vid", "vid_chunk_0_6"); ("vid", "vid_chunk_1_7") ] /\
  map Server.tr_video_id (Server.transcripts (snd ServerExamples.refused_run)) = [ "vid" ] /\
  Server.deletions_of (Server.log (snd ServerExamples.refused_run)) = [] /\
  ~ In (Server.PineconeDeleteMany "vid") (Server.log (snd ServerExamples.refused_run)).
Proof.
  repeat (split; [reflexivity|]).
  vm_compute. intros H.
  repeat (destruct H as [H|H]; [discriminate H|]). exact H.
Qed.

Example nothing_found :
  Server.generateRAGResponse ServerExamples.calm "what is it?" "vid"
    {| Server.vd_title := "Lecture 1"; Server.vd_subject := "Physics" |}
    ServerExamples.empty_world
  = (Server.Ok Server.not_found,
     Server.set_log
       [ Server.EmbeddingsCreate ["what is it?"];
         Server.PineconeQuery [1; 0] 5 (Some "vid");
         Server.PineconeQuery [1; 0] 3 (Some "vid") ]
       ServerExamples.empty_world).
Proof. reflexivity. Qed.

(* ================================================================== *)
(** * Further properties of the services and of the routes *)

Section OptionsFacts.
Import JS TextChunker ChunkerOptions.

Lemma getOptimalParameters_cases n :
  getOptimalParameters n = {| opt_chunkSize := 500; opt_overlap := 100 |} \/
  getOptimalParameters n = {| opt_chunkSize := 1000; opt_overlap := 200 |} \/
  getOptimalParameters n = {| opt_chunkSize := 1500; opt_overlap := 300 |} \/
  getOptimalParameters n = {| opt_chunkSize := 2000; opt_overlap := 400 |}.
Proof.
  unfold getOptimalParameters.
  destruct (n <? 2000)%nat; [left; reflexivity|].
  destruct (n <? 10000)%nat; [right; left; reflexivity|].
  destruct (n <? 50000)%nat; [right; right; left; reflexivity|].
  right; right; right; reflexivity.
Qed.

(** The parameters that [getOptimalParameters] proposes pass
    [validateOptions] without an error or a warning, whatever the
    length of the text, and the chunk size is five times the overlap. *)
Theorem optimal_parameters_validate (textLength : nat) :
  validateOptions (as_raw (getOptimalParameters textLength)) =
  {| valid := true; errors := []; warnings := [] |} /\
  (opt_chunkSize (getOptimalParameters textLength)
   = 5 * opt_overlap (getOptimalParameters textLength))%nat.
Proof.
  destruct (getOptimalParameters_cases textLength) as [E|[E|[E|E]]];
    rewrite E; split; reflexivity.
Qed.

End OptionsFacts.

Section OptionsValidity.
Import JS TextChunker ChunkerOptions.

Lemma Qlt_bool_iff (a b : Q) : Qlt_bool a b = true <-> a < b.
Proof.
  unfold Qlt_bool. rewrite negb_true_iff. split.
  - intros H. apply Qnot_le_lt. intros Hle. apply Qle_bool_iff in Hle. congruence.
  - intros H. apply not_true_is_false. intros Hle. apply Qle_bool_iff in Hle.
    apply (Qlt_not_le _ _ H). exact Hle.
Qed.

Lemma Qlt_bool_false (a b : Q) : Qlt_bool a b = false <-> b <= a.
Proof.
  unfold Qlt_bool. rewrite negb_false_iff. apply Qle_bool_iff.
Qed.

Lemma Qle_bool_false (a b : Q) : Qle_bool a b = false <-> b < a.
Proof.
  split.
  - intros H. apply Qnot_le_lt. intros Hle. apply Qle_bool_iff in Hle. congruence.
  - intros H. apply not_true_is_false. intros Hle. apply Qle_bool_iff in Hle.
    apply (Qlt_not_le _ _ H). exact Hle.
Qed.

(** The options are valid when the chunk size is at least 100 and the
    overlap is not negative and is less than the chunk size, a size or
    an overlap that is missing or is 0 standing for the default, 1000
    or 200.  So an overlap of 0 cannot be asked for: it counts as 200,
    and is refused with a chunk size of 200 or less. *)
Theorem validateOptions_valid (options : RawOptions) :
  let chunkSize := or_number (raw_chunkSize options) 1000 in
  let overlap := or_number (raw_overlap options) 200 in
  (valid (validateOptions options) = true <->
   100 <= chunkSize /\ 0 <= overlap /\ overlap < chunkSize) /\
  (valid (validateOptions options) = true <-> errors (validateOptions options) = []) /\
  validateOptions {| raw_chunkSize := raw_chunkSize options; raw_overlap := Some 0 |}
  = validateOptions {| raw_chunkSize := raw_chunkSize options; raw_overlap := None |} /\
  (chunkSize <= 200 ->
   valid (validateOptions {| raw_chunkSize := raw_chunkSize options;
                             raw_overlap := Some 0 |}) = false).
Proof.
  cbn zeta. split; [|split; [|split]].
  - unfold validateOptions, push_if. cbn zeta.
    set (c := or_number (raw_chunkSize options) 1000).
    set (o := or_number (raw_overlap options) 200).
    destruct (Qlt_bool c 100) eqn:H1; destruct (Qle_bool c o) eqn:H2;
      destruct (Qlt_bool o 0) eqn:H3; cbn [valid app List.length Nat.eqb];
      try apply Qlt_bool_iff in H1; try apply Qlt_bool_false in H1;
      try apply Qle_bool_iff in H2; try apply Qle_bool_false in H2;
      try apply Qlt_bool_iff in H3; try apply Qlt_bool_false in H3;
      split; try discriminate; try (intros (A & B & C); exfalso; lra);
      intros _; repeat split; lra.
  - unfold validateOptions, push_if. cbn zeta.
    destruct (Qlt_bool _ 100); destruct (Qle_bool _ _); destruct (Qlt_bool _ 0);
      cbn; split; intros H; try reflexivity; discriminate H.
  - reflexivity.
  - intros Hc. unfold validateOptions, push_if. cbn zeta. cbn [raw_chunkSize raw_overlap].
    change (or_number (Some 0) 200) with 200%Q.
    replace (Qle_bool (or_number (raw_chunkSize options) 1000) 200) with true
      by (symmetry; apply Qle_bool_iff; exact Hc).
    destruct (Qlt_bool _ 100); destruct (Qlt_bool 200 0); reflexivity.
Qed.

End OptionsValidity.

Section WordFacts.
Import JS TextChunker Words.

Lemma rev_string_app a b :
  rev_string "" (a ++ b) = (rev_string "" b ++ rev_string "" a)%string.
Proof.
  induction a as [|c a IH]; cbn [String.append rev_string].
  - rewrite append_nil_r. reflexivity.
  - rewrite (rev_string_acc (a ++ b)), (rev_string_acc a), IH, append_assoc. reflexivity.
Qed.

Lemma string_length_app a b :
  String.length (a ++ b) = (String.length a + String.length b)%nat.
Proof. induction a as [|c a IH]; cbn; [reflexivity | rewrite IH; reflexivity]. Qed.

Lemma rev_string_length s : String.length (rev_string "" s) = String.length s.
Proof.
  induction s as [|c s IH]; [reflexivity|].
  cbn [rev_string]. rewrite rev_string_acc, string_length_app, IH. cbn. lia.
Qed.

Lemma all_chars_rev p s : all_chars p (rev_string "" s) = all_chars p s.
Proof.
  induction s as [|c s IH]; [reflexivity|].
  cbn [rev_string]. rewrite rev_string_acc, all_chars_app, IH. cbn.
  rewrite andb_true_r. apply andb_comm.
Qed.

Lemma trimStart_blank s : all_chars is_space s = true -> trimStart s = "".
Proof.
  induction s as [|c s IH]; [reflexivity|]. cbn.
  intros H. apply andb_prop in H. destruct H as [Hc Hs]. rewrite Hc. exact (IH Hs).
Qed.

Lemma trimStart_app a b :
  trimStart (a ++ b) = if all_chars is_space a then trimStart b else (trimStart a ++ b)%string.
Proof.
  induction a as [|c a IH]; [reflexivity|]. cbn.
  destruct (is_space c); [exact IH | reflexivity].
Qed.

(** [trimEnd] told from the front of the string. *)
Lemma trimEnd_cons c r :
  trimEnd (String c r) =
  if all_chars is_space (String c r) then "" else String c (trimEnd r).
Proof.
  unfold trimEnd. cbn [rev_string].
  rewrite (rev_string_acc r (String c "")), trimStart_app, all_chars_rev.
  cbn [all_chars]. destruct (all_chars is_space r) eqn:Hr.
  - rewrite andb_true_r. cbn [trimStart].
    rewrite (trimStart_blank (rev_string "" r)) by (rewrite all_chars_rev; exact Hr).
    destruct (is_space c); reflexivity.
  - rewrite andb_false_r, rev_string_app. reflexivity.
Qed.

Lemma trimStart_length s : (String.length (trimStart s) <= String.length s)%nat.
Proof.
  induction s as [|c s IH]; cbn; [lia|]. destruct (is_space c); cbn; lia.
Qed.

Lemma trimEnd_length s : (String.length (trimEnd s) <= String.length s)%nat.
Proof.
  induction s as [|c s IH]; [cbn; lia|]. rewrite trimEnd_cons.
  destruct (all_chars is_space (String c s)); cbn; lia.
Qed.

Lemma trim_length s : (String.length (trim s) <= String.length s)%nat.
Proof.
  unfold trim. pose proof (trimEnd_length (trimStart s)). pose proof (trimStart_length s). lia.
Qed.

Lemma word_starts_blank s : forall b,
  all_chars is_space s = true -> word_starts b s = 0%nat.
Proof.
  induction s as [|c s IH]; intros b H; [reflexivity|]. cbn in *.
  apply andb_prop in H. destruct H as [Hc Hs]. rewrite Hc. exact (IH false Hs).
Qed.

Lemma word_starts_trimStart s : word_starts false (trimStart s) = word_starts false s.
Proof.
  induction s as [|c s IH]; [reflexivity|]. cbn.
  destruct (is_space c) eqn:Hc; [exact IH|]. cbn. rewrite Hc. reflexivity.
Qed.

Lemma word_starts_trimEnd s : forall b, word_starts b (trimEnd s) = word_starts b s.
Proof.
  induction s as [|c s IH]; intros b; [reflexivity|]. rewrite trimEnd_cons.
  destruct (all_chars is_space (String c s)) eqn:H.
  - rewrite (word_starts_blank _ b H). reflexivity.
  - cbn. destruct (is_space c); rewrite IH; reflexivity.
Qed.

Lemma word_starts_trim s : word_starts false (trim s) = word_starts false s.
Proof. unfold trim. rewrite word_starts_trimEnd. apply word_starts_trimStart. Qed.

Lemma nonempty_rev cur : nonempty (rev_string "" cur) = nonempty cur.
Proof. unfold nonempty. rewrite rev_string_length. reflexivity. Qed.

(** The pieces of [split(/\s+/)] that are not empty are the runs of
    characters that are not white space. *)
Lemma split_ws_from_words s : forall in_run cur,
  (in_run = true -> cur = "") ->
  List.length (filter nonempty (split_ws_from in_run cur s)) =
  ((if nonempty cur then 1 else 0) + word_starts (nonempty cur) s)%nat.
Proof.
  induction s as [|c s IH]; intros in_run cur Hinv; cbn [split_ws_from word_starts].
  - cbn [filter]. rewrite nonempty_rev. destruct (nonempty cur); reflexivity.
  - destruct (is_space c).
    + destruct in_run.
      * rewrite (Hinv eq_refl). rewrite IH by reflexivity. reflexivity.
      * cbn [filter]. rewrite nonempty_rev.
        destruct (nonempty cur); cbn [List.length]; rewrite IH by reflexivity; reflexivity.
    + rewrite IH by discriminate.
      change (nonempty (String c cur)) with true.
      destruct (nonempty cur); reflexivity.
Qed.

Lemma countWords_word_starts text : countWords text = word_starts false text.
Proof.
  unfold countWords.
  assert (E : List.length (filter (fun word => (0 <? String.length word)%nat)
                                  (split_ws (trim text)))
              = word_starts false text).
  { unfold split_ws. change (fun word => (0 <? String.length word)%nat) with nonempty.
    rewrite split_ws_from_words by discriminate. cbn. apply word_starts_trim. }
  destruct text; [reflexivity | exact E].
Qed.

Lemma word_starts_app a b : forall w,
  word_starts w (a ++ String " " b) = (word_starts w a + word_starts false b)%nat.
Proof.
  induction a as [|c a IH]; intros w; cbn; [reflexivity|].
  destruct (is_space c); rewrite IH; lia.
Qed.

Lemma countWords_trim text : countWords (trim text) = countWords text.
Proof. rewrite !countWords_word_starts. apply word_starts_trim. Qed.

(** [countWords] counts the maximal runs of characters that are not
    white space: white space around the text does not count, and the
    words of two texts joined by a blank add up. *)
Theorem countWords_counts_runs (text : string) :
  countWords text = word_starts false text /\
  countWords (trim text) = countWords text /\
  (all_chars is_space text = true -> countWords text = 0%nat) /\
  (forall other, countWords (text ++ " " ++ other) = (countWords text + countWords other)%nat).
Proof.
  split; [apply countWords_word_starts|].
  split; [apply countWords_trim|].
  split.
  - intros H. rewrite countWords_word_starts. apply word_starts_blank. exact H.
  - intros other. rewrite !countWords_word_starts. apply word_starts_app.
Qed.

Lemma chunkText_fields
      (splitText : nat -> nat -> string -> list string)
      (fullText : string) (segments : list Segment) (options : Options) :
  let pieces := splitText (or_default (opt_chunkSize options) defaultChunkSize)
                          (or_default (opt_overlap options) defaultOverlap) fullText in
  let chunks := chunkText splitText fullText segments options in
  map index chunks = seq 0 (List.length pieces) /\
  map text chunks = map trim pieces /\
  map length chunks = map String.length pieces /\
  Forall (fun c => wordCount c = countWords (text c) /\
                   (String.length (text c) <= length c)%nat) chunks.
Proof.
  cbn zeta. unfold chunkText, mapi. cbn zeta.
  generalize (splitText (or_default (opt_chunkSize options) defaultChunkSize)
                (or_default (opt_overlap options) defaultOverlap) fullText).
  intros pieces. generalize 0%nat.
  induction pieces as [|p pieces IH]; intros i; cbn [mapi_from map List.length seq].
  - repeat split; constructor.
  - destruct (IH (S i)) as (H1 & H2 & H3 & H4).
    cbn [index text length]. rewrite H1, H2, H3.
    repeat split. constructor; [|exact H4]. cbn.
    split; [symmetry; apply countWords_trim | apply trim_length].
Qed.

(** What [chunkText] records about each piece the splitter returns:
    the pieces are numbered from 0 in order, the text is the piece
    without the white space around it, the word count is the one of
    that text, and the length is the one of the piece before trimming. *)
Theorem chunkText_metadata
        (splitText : nat -> nat -> string -> list string)
        (fullText : string) (segments : list Segment) (options : Options) :
  let pieces := splitText (or_default (opt_chunkSize options) defaultChunkSize)
                          (or_default (opt_overlap options) defaultOverlap) fullText in
  let chunks := chunkText splitText fullText segments options in
  map index chunks = seq 0 (List.length pieces) /\
  map text chunks = map trim pieces /\
  map length chunks = map String.length pieces /\
  Forall (fun c => wordCount c = countWords (text c) /\
                   (String.length (text c) <= length c)%nat) chunks.
Proof. apply chunkText_fields. Qed.

End WordFacts.

Section TimestampFacts.
Import JS TextChunker.

(** [mapChunkToTimestamps] invents no time: it returns the default, or
    the start of one segment and the end of one segment. *)
Theorem timestamps_come_from_segments (chunk fullText : string) (segments : list Segment) :
  let result := mapChunkToTimestamps chunk fullText segments in
  ts_equiv result no_timestamps \/
  exists first final,
    In first segments /\ In final segments /\
    ts_start result == seg_start first /\ ts_end result == seg_end final.
Proof.
  cbn zeta.
  destruct (mapChunkToTimestamps_equiv chunk fullText segments) as (Hs & He & Hc).
  unfold reconcile_spec in Hs, He, Hc.
  destruct (indexOf fullText (trim chunk) =? -1)%Z.
  - destruct (_ =? -1)%Z; [left; repeat split; assumption|].
    destruct (find _ _) as [x|] eqn:Hf; [|left; repeat split; assumption].
    right. exists (placed_segment x), (placed_segment x).
    pose proof (find_holds_in _ _ _ _ Hf) as Hin.
    repeat split; assumption.
  - destruct (overlapping _ _ segments) as [|x r] eqn:Hov;
      [left; repeat split; assumption|].
    right. exists x, (last r x).
    assert (Hsub : forall y, In y (x :: r) -> In y segments).
    { intros y Hy. rewrite <- Hov in Hy. rewrite overlapping_picked in Hy.
      eapply picked_in. exact Hy. }
    split; [apply Hsub; left; reflexivity|].
    split; [apply Hsub; apply last_in|].
    split; assumption.
Qed.

End TimestampFacts.

Section PrepareFacts.
Import JS TextChunker Server TextShape.

Lemma substring0_cons n c s :
  substring0 (S n) (String c s) = String c (substring0 n s).
Proof. reflexivity. Qed.

Lemma substring0_nil n : substring0 n "" = "".
Proof. destruct n; reflexivity. Qed.

Lemma substring0_zero s : substring0 0 s = "".
Proof. destruct s; reflexivity. Qed.

Lemma substring0_length n : forall s,
  String.length (substring0 n s) = Nat.min n (String.length s).
Proof.
  induction n as [|n IH]; intros s.
  - rewrite substring0_zero. reflexivity.
  - destruct s as [|c s]; [reflexivity|].
    rewrite substring0_cons. cbn [String.length]. rewrite IH. reflexivity.
Qed.

Lemma substring0_all_chars p n : forall s,
  all_chars p s = true -> all_chars p (substring0 n s) = true.
Proof.
  induction n as [|n IH]; intros s H.
  - rewrite substring0_zero. reflexivity.
  - destruct s as [|c s]; [reflexivity|].
    rewrite substring0_cons. cbn in *.
    apply andb_prop in H. destruct H as [Hc Hs]. rewrite Hc, (IH s Hs). reflexivity.
Qed.

Lemma substring0_single_blanks n : forall s b,
  single_blanks b s = true -> single_blanks b (substring0 n s) = true.
Proof.
  induction n as [|n IH]; intros s b H.
  - rewrite substring0_zero. reflexivity.
  - destruct s as [|c s]; [reflexivity|].
    rewrite substring0_cons. cbn in *.
    destruct (Ascii.eqb c " ").
    + apply andb_prop in H. destruct H as [Hb Hs]. rewrite Hb, (IH s true Hs). reflexivity.
    + apply IH. exact H.
Qed.

Lemma substring0_exact a b :
  substring0 (String.length a) (a ++ b) = a.
Proof.
  induction a as [|c a IH]; cbn [String.length String.append].
  - apply substring0_zero.
  - rewrite substring0_cons, IH. reflexivity.
Qed.

Lemma substring0_short n : forall s,
  (String.length s <= n)%nat -> substring0 n s = s.
Proof.
  induction n as [|n IH]; intros s H.
  - destruct s; [reflexivity | cbn in H; lia].
  - destruct s as [|c s]; [reflexivity|].
    rewrite substring0_cons, IH by (cbn in H; lia). reflexivity.
Qed.

Lemma blank_is_space c : Ascii.eqb c " " = true -> is_space c = true.
Proof. intros H. apply Ascii.eqb_eq in H. subst c. reflexivity. Qed.

Lemma not_space_not_blank c : is_space c = false -> Ascii.eqb c " " = false.
Proof.
  intros H. destruct (Ascii.eqb c " ") eqn:E; [|reflexivity].
  apply blank_is_space in E. congruence.
Qed.

Lemma line_break_is_space c : is_line_break c = true -> is_space c = true.
Proof.
  unfold is_line_break, is_space. intros H.
  apply orb_prop in H. destruct H as [H|H]; apply Nat.eqb_eq in H; rewrite H; reflexivity.
Qed.

Lemma blank_not_line_break c : Ascii.eqb c " " = true -> is_line_break c = false.
Proof. intros H. apply Ascii.eqb_eq in H. subst c. reflexivity. Qed.

Lemma replace_spaces_plain s : forall in_run,
  plain_blanks (replace_runs is_space in_run s) = true.
Proof.
  unfold plain_blanks.
  induction s as [|c s IH]; intros in_run; cbn [replace_runs]; [reflexivity|].
  destruct (is_space c) eqn:Hc.
  - destruct in_run; [apply IH|]. cbn. apply IH.
  - cbn. rewrite Hc. apply IH.
Qed.

Lemma replace_spaces_single s : forall in_run,
  single_blanks in_run (replace_runs is_space in_run s) = true.
Proof.
  induction s as [|c s IH]; intros in_run; cbn [replace_runs]; [reflexivity|].
  destruct (is_space c) eqn:Hc.
  - destruct in_run; [apply IH|]. cbn. apply IH.
  - cbn [single_blanks]. rewrite (not_space_not_blank c Hc). apply IH.
Qed.

(** Replacing the runs of a class of characters changes nothing in a
    text that has no character of the class. *)
Lemma replace_runs_none p s : forall in_run,
  all_chars (fun c => negb (p c)) s = true -> replace_runs p in_run s = s.
Proof.
  induction s as [|c s IH]; intros in_run H; [reflexivity|]. cbn in *.
  apply andb_prop in H. destruct H as [Hc Hs]. apply negb_true_iff in Hc.
  rewrite Hc, (IH false Hs). reflexivity.
Qed.

Lemma plain_no_line_break s :
  plain_blanks s = true -> all_chars (fun c => negb (is_line_break c)) s = true.
Proof.
  unfold plain_blanks. induction s as [|c s IH]; [reflexivity|]. cbn.
  intros H. apply andb_prop in H. destruct H as [Hc Hs]. rewrite (IH Hs), andb_true_r.
  apply negb_true_iff. apply orb_prop in Hc. destruct Hc as [Hc|Hc].
  - apply negb_true_iff in Hc. destruct (is_line_break c) eqn:E; [|reflexivity].
    apply line_break_is_space in E. congruence.
  - apply blank_not_line_break. exact Hc.
Qed.

Lemma trimStart_no_space s : starts_with_space (trimStart s) = false.
Proof.
  induction s as [|c s IH]; [reflexivity|]. cbn.
  destruct (is_space c) eqn:Hc; [exact IH | cbn; exact Hc].
Qed.

Lemma trimEnd_no_space s :
  starts_with_space s = false -> starts_with_space (trimEnd s) = false.
Proof.
  destruct s as [|c s]; [reflexivity|]. rewrite trimEnd_cons.
  destruct (all_chars is_space (String c s)); [reflexivity|]. intros H. exact H.
Qed.

Lemma trim_no_space s : starts_with_space (trim s) = false.
Proof. apply trimEnd_no_space, trimStart_no_space. Qed.

Lemma replace_spaces_start s :
  starts_with_space s = false ->
  starts_with_space (replace_runs is_space false s) = false.
Proof.
  destruct s as [|c s]; [reflexivity|]. cbn. intros H. rewrite H. cbn. exact H.
Qed.

Lemma substring0_start n s :
  starts_with_space s = false -> starts_with_space (substring0 n s) = false.
Proof.
  destruct n as [|n]; [rewrite substring0_zero; reflexivity|].
  destruct s as [|c s]; [reflexivity|]. rewrite substring0_cons. intros H. exact H.
Qed.

Lemma prepareTextForEmbedding_eq text :
  prepareTextForEmbedding text = substring0 8000 (replace_runs is_space false (trim text)).
Proof.
  unfold prepareTextForEmbedding.
  rewrite (replace_runs_none is_line_break)
    by (apply plain_no_line_break, replace_spaces_plain).
  destruct text; reflexivity.
Qed.

(** The text sent to the embedding model: at most 8000 characters, no
    white space but single blanks, none at the start; the second
    replacement, of the line breaks, never finds any. *)
Theorem prepareTextForEmbedding_shape (text : string) :
  let prepared := prepareTextForEmbedding text in
  (String.length prepared <= 8000)%nat /\
  plain_blanks prepared = true /\
  single_blanks false prepared = true /\
  starts_with_space prepared = false /\
  prepared = substring0 8000 (replace_runs is_space false (trim text)).
Proof.
  cbn zeta. rewrite prepareTextForEmbedding_eq.
  split; [rewrite substring0_length; lia|].
  split; [apply substring0_all_chars, replace_spaces_plain|].
  split; [apply substring0_single_blanks, replace_spaces_single|].
  split; [|reflexivity].
  apply substring0_start, replace_spaces_start, trim_no_space.
Qed.

End PrepareFacts.

Section ValidateFacts.
Import JS TextChunker Server TextShape.

Lemma limit_positive : (0 < 8000)%nat.
Proof. apply Nat.ltb_lt. vm_compute. reflexivity. Qed.

Lemma truncate_text_length c :
  (String.length (text (truncate_text c)) = Nat.min 8000 (String.length (text c)))%nat.
Proof.
  unfold truncate_text.
  destruct (Nat.ltb_spec 8000 (String.length (text c))) as [H|H].
  - cbn [text set_text]. apply substring0_length.
  - lia.
Qed.

Lemma valid_text_nonempty c : valid_text c = true -> (0 < String.length (text c))%nat.
Proof.
  unfold valid_text. intros H. apply andb_prop in H. destruct H as [H _].
  apply negb_true_iff, Nat.eqb_neq in H. lia.
Qed.

Lemma truncate_text_short c :
  (String.length (text c) <= 8000)%nat -> truncate_text c = c.
Proof.
  intros H. unfold truncate_text.
  replace (8000 <? String.length (text c))%nat with false
    by (symmetry; apply Nat.ltb_ge; exact H).
  reflexivity.
Qed.

(** What [validateChunks] keeps has a text of 1 to 8000 characters; it
    changes nothing in a list of chunks that are all valid and short. *)
Theorem validateChunks_texts (chunks : list Chunk) :
  Forall (fun c => (0 < String.length (text c) <= 8000)%nat) (validateChunks chunks) /\
  (List.length (validateChunks chunks) <= List.length chunks)%nat /\
  (Forall (fun c => valid_text c = true /\ (String.length (text c) <= 8000)%nat) chunks ->
   validateChunks chunks = chunks).
Proof.
  unfold validateChunks. split; [|split].
  - apply Forall_forall. intros c Hc. apply in_map_iff in Hc.
    destruct Hc as (c0 & <- & Hc0). apply filter_In in Hc0. destruct Hc0 as [_ Hv].
    apply valid_text_nonempty in Hv. rewrite truncate_text_length.
    pose proof limit_positive. lia.
  - rewrite length_map. apply filter_length_le.
  - induction 1 as [|c cs [Hv Hlen] _ IH]; [reflexivity|].
    cbn [filter]. rewrite Hv. cbn [map]. rewrite IH, truncate_text_short by exact Hlen.
    reflexivity.
Qed.

Lemma trim_blank s : all_chars is_space s = true -> trim s = "".
Proof. intros H. unfold trim. rewrite (trimStart_blank s H). reflexivity. Qed.

Lemma trim_after_blank blank rest :
  all_chars is_space blank = true -> trim (blank ++ rest) = trim rest.
Proof. intros H. unfold trim. rewrite trimStart_app, H. reflexivity. Qed.

(** The blank check of [validateChunks] comes before the truncation: a
    text that has more than 8000 characters, the first 8000 of them
    white space, passes the check, is cut down to white space, and is
    sent to the model as the empty string. *)
Theorem validateChunks_checks_before_truncating (c : Chunk) (blank rest : string) :
  text c = (blank ++ rest)%string ->
  all_chars is_space blank = true ->
  String.length blank = 8000%nat ->
  trim rest <> "" ->
  validateChunks [c] = [set_text blank c] /\
  prepareTextForEmbedding blank = "".
Proof.
  intros Htext Hblank Hlen Hrest.
  assert (Hne : rest <> "") by (intros ->; apply Hrest; reflexivity).
  assert (Hrl : (0 < String.length rest)%nat) by (destruct rest; [congruence | cbn; lia]).
  assert (Htl : (0 < String.length (trim rest))%nat)
    by (destruct (trim rest); [congruence | cbn; lia]).
  split.
  - unfold validateChunks. cbn [filter].
    assert (Hv : valid_text c = true).
    { unfold valid_text. rewrite Htext, trim_after_blank by exact Hblank.
      rewrite string_length_app.
      apply andb_true_intro. split; apply negb_true_iff, Nat.eqb_neq; lia. }
    rewrite Hv. cbn [map]. unfold truncate_text.
    replace (8000 <? String.length (text c))%nat with true
      by (symmetry; apply Nat.ltb_lt; rewrite Htext, string_length_app; lia).
    rewrite Htext. pose proof (substring0_exact blank rest) as E.
    rewrite Hlen in E. rewrite E. reflexivity.
  - rewrite prepareTextForEmbedding_eq, (trim_blank blank Hblank). cbn [replace_runs].
    apply substring0_nil.
Qed.

Lemma prepare_keeps_first c0 r :
  is_space c0 = false ->
  exists r', prepareTextForEmbedding (String c0 r) = String c0 r'.
Proof.
  intros Hc. rewrite prepareTextForEmbedding_eq. unfold trim.
  cbn [trimStart]. rewrite Hc. rewrite trimEnd_cons. cbn [all_chars]. rewrite Hc.
  cbn [andb replace_runs]. rewrite Hc.
  change 8000%nat with (S 7999). rewrite substring0_cons. eexists. reflexivity.
Qed.

(** The chunks of the chunker never reach the model empty: a chunk of
    [chunkText] that [validateChunks] keeps is sent as a text that is
    not empty. *)
Theorem chunker_texts_reach_the_model
        (splitText : nat -> nat -> string -> list string)
        (fullText : string) (segments : list Segment) (options : Options) :
  Forall (fun c => prepareTextForEmbedding (text c) <> "")
         (validateChunks (chunkText splitText fullText segments options)).
Proof.
  destruct (chunkText_fields splitText fullText segments options) as (_ & Htexts & _).
  cbn zeta in Htexts.
  apply Forall_forall. intros c Hc. unfold validateChunks in Hc.
  apply in_map_iff in Hc. destruct Hc as (c0 & <- & Hc0).
  apply filter_In in Hc0. destruct Hc0 as [Hin Hv].
  assert (Hstart : starts_with_space (text c0) = false).
  { apply (in_map text) in Hin. rewrite Htexts in Hin.
    apply in_map_iff in Hin. destruct Hin as (p & <- & _). apply trim_no_space. }
  pose proof (valid_text_nonempty c0 Hv) as Hlen.
  destruct (text c0) as [|x r] eqn:Et; [cbn in Hlen; lia|].
  cbn in Hstart.
  assert (Hfirst : exists r', text (truncate_text c0) = String x r').
  { unfold truncate_text. destruct (8000 <? String.length (text c0))%nat.
    - cbn [text set_text]. rewrite Et. change 8000%nat with (S 7999).
      rewrite substring0_cons. eexists. reflexivity.
    - exists r. exact Et. }
  destruct Hfirst as (r' & ->).
  destruct (prepare_keeps_first x r' Hstart) as (r'' & ->). discriminate.
Qed.

End ValidateFacts.

Lemma validateChunks_checks_before_truncating_witness :
  Server.validateChunks [EmbeddingExamples.long_blank_chunk] = [Server.set_text EmbeddingExamples.blank_8000 EmbeddingExamples.long_blank_chunk] /\
  Server.prepareTextForEmbedding EmbeddingExamples.blank_8000 = "".
Proof.
  apply (validateChunks_checks_before_truncating EmbeddingExamples.long_blank_chunk
           EmbeddingExamples.blank_8000 "x").
  - reflexivity.
  - vm_compute. reflexivity.
  - vm_compute. reflexivity.
  - discriminate.
Defined.

Section BatchFacts.
Import JS TextChunker Server.

Lemma createBatches_fuel_shape {A} (n : nat) : forall fuel (xs : list A),
  (0 < n)%nat -> (List.length xs <= fuel)%nat ->
  Forall (fun b => (0 < List.length b <= n)%nat) (createBatches_fuel fuel xs n) /\
  List.length (createBatches_fuel fuel xs n) = ((List.length xs + n - 1) / n)%nat /\
  (forall i, (S i < List.length (createBatches_fuel fuel xs n))%nat ->
             List.length (nth i (createBatches_fuel fuel xs n) []) = n).
Proof.
  induction fuel as [|fuel IH]; intros xs Hn Hlen.
  - destruct xs; [|cbn in Hlen; lia]. cbn.
    split; [constructor|]. split; [|intros i Hi; lia].
    symmetry. apply Nat.div_small. lia.
  - destruct xs as [|x xs].
    + cbn. split; [constructor|]. split; [|intros i Hi; lia].
      symmetry. apply Nat.div_small. lia.
    + cbn [createBatches_fuel].
      assert (Hys : (0 < List.length (x :: xs))%nat) by (cbn; lia).
      remember (x :: xs) as ys eqn:Eys. clear Eys x xs.
      destruct (IH (skipn n ys) Hn) as (IH1 & IH2 & IH3).
      { rewrite length_skipn. lia. }
      split; [|split].
      * constructor; [|exact IH1]. rewrite length_firstn. lia.
      * cbn [List.length]. rewrite IH2, length_skipn.
        destruct (Nat.le_gt_cases n (List.length ys)) as [Hge|Hlt].
        -- replace (List.length ys + n - 1)%nat
             with ((List.length ys - n + n - 1) + 1 * n)%nat by lia.
           rewrite Nat.div_add by lia. lia.
        -- replace (List.length ys - n + n - 1)%nat with (n - 1)%nat by lia.
           rewrite (Nat.div_small (n - 1) n) by lia.
           replace (List.length ys + n - 1)%nat
             with ((List.length ys - 1) + 1 * n)%nat by lia.
           rewrite Nat.div_add by lia. rewrite Nat.div_small by lia. reflexivity.
      * intros i Hi. cbn [List.length] in Hi. destruct i as [|i].
        -- cbn [nth]. rewrite length_firstn.
           assert (Hrest : (0 < List.length (createBatches_fuel fuel (skipn n ys) n))%nat) by lia.
           rewrite IH2, length_skipn in Hrest.
           destruct (Nat.le_gt_cases (List.length ys) n) as [Hle|Hgt]; [|lia].
           exfalso. replace (List.length ys - n + n - 1)%nat with (n - 1)%nat in Hrest by lia.
           rewrite Nat.div_small in Hrest by lia. lia.
        -- cbn [nth]. apply IH3. lia.
Qed.

(** [createBatches] cuts the array into consecutive batches: put end to
    end they give the array back; none is empty, none is longer than
    the batch size, and all but the last have exactly that size. *)
Theorem createBatches_partition {A} (xs : list A) (batchSize : nat) :
  (0 < batchSize)%nat ->
  List.concat (createBatches xs batchSize) = xs /\
  Forall (fun b => (0 < List.length b <= batchSize)%nat) (createBatches xs batchSize) /\
  List.length (createBatches xs batchSize)
  = ((List.length xs + batchSize - 1) / batchSize)%nat /\
  (forall i, (S i < List.length (createBatches xs batchSize))%nat ->
             List.length (nth i (createBatches xs batchSize) []) = batchSize).
Proof.
  intros Hn. unfold createBatches. split.
  - apply concat_createBatches_fuel; [exact Hn | lia].
  - apply createBatches_fuel_shape; [exact Hn | lia].
Qed.

End BatchFacts.

Lemma createBatches_partition_witness :
  List.concat (Server.createBatches [1; 2; 3; 4; 5]%nat 2) = [1; 2; 3; 4; 5]%nat /\
  Forall (fun b => (0 < List.length b <= 2)%nat) (Server.createBatches [1; 2; 3; 4; 5]%nat 2) /\
  List.length (Server.createBatches [1; 2; 3; 4; 5]%nat 2) = ((5 + 2 - 1) / 2)%nat /\
  (forall i, (S i < List.length (Server.createBatches [1; 2; 3; 4; 5]%nat 2))%nat ->
             List.length (nth i (Server.createBatches [1; 2; 3; 4; 5]%nat 2) []) = 2%nat).
Proof. apply (createBatches_partition [1; 2; 3; 4; 5]%nat 2). lia. Defined.

Section RequestFacts.
Import JS TextChunker Server Requests.
Local Open Scope js_scope.

Variable env : Env.

Lemma set_log_same w : set_log (log w) w = w.
Proof. destruct w; reflexivity. Qed.

Lemma logs_only_refl P w : logs_only P 0 w w.
Proof.
  exists []. rewrite app_nil_r, set_log_same. repeat split; [constructor | cbn; lia].
Qed.

Lemma logs_only_trans P n m w1 w2 w3 :
  logs_only P n w1 w2 -> logs_only P m w2 w3 -> logs_only P (n + m) w1 w3.
Proof.
  intros (a1 & -> & F1 & C1) (a2 & -> & F2 & C2).
  exists (a1 ++ a2). split; [|split].
  - cbn. rewrite app_assoc. reflexivity.
  - apply Forall_app. split; assumption.
  - unfold requests_of in *. rewrite filter_app, length_app. lia.
Qed.

Lemma logs_only_weaken P n m w w' : (n <= m)%nat -> logs_only P n w w' -> logs_only P m w w'.
Proof. intros H (a & E & F & C). exists a. repeat split; [assumption.. | lia]. Qed.

Lemma emits_weaken {A} P n m (c : M A) : (n <= m)%nat -> emits P n c -> emits P m c.
Proof. intros H Hc w r w' E. eapply logs_only_weaken; [exact H | eapply Hc; exact E]. Qed.

Lemma emits_ret {A} P (a : A) : emits P 0 (ret a).
Proof. intros w r w' [= <- <-]. apply logs_only_refl. Qed.

Lemma emits_throw {A} P (e : string) : emits P 0 (@throw A e).
Proof. intros w r w' [= <- <-]. apply logs_only_refl. Qed.

Lemma emits_bind {A B} P n k (m : M A) (f : A -> M B) :
  emits P n m -> (forall a, emits P k (f a)) -> emits P (n + k) (bind m f).
Proof.
  intros Hm Hf w r w'. unfold bind.
  destruct (m w) as [[a|e] w1] eqn:E; apply Hm in E.
  - intros H. apply Hf in H. eapply logs_only_trans; eassumption.
  - intros [= <- <-]. eapply logs_only_weaken; [|exact E]. lia.
Qed.

Lemma emits_try_catch {A} P n k (m : M A) (h : string -> M A) :
  emits P n m -> (forall e, emits P k (h e)) -> emits P (n + k) (try_catch m h).
Proof.
  intros Hm Hh w r w'. unfold try_catch.
  destruct (m w) as [[a|e] w1] eqn:E; apply Hm in E.
  - intros [= <- <-]. eapply logs_only_weaken; [|exact E]. lia.
  - intros H. apply Hh in H. eapply logs_only_trans; eassumption.
Qed.

Lemma emits_delay ms : emits embedding_event 0 (delay ms).
Proof.
  intros w r w' [= <- <-]. exists [Delay ms].
  repeat split; [repeat constructor | cbn; lia].
Qed.

Lemma retries_log_events texts : forall k i,
  (0 < List.length texts <= batchSize)%nat ->
  Forall embedding_event (retries_log texts i k) /\
  List.length (requests_of (retries_log texts i k)) = k.
Proof.
  induction k as [|k IH]; intros i H; cbn [retries_log].
  - split; [constructor | reflexivity].
  - destruct (IH (S i) H) as [F C]. split.
    + constructor; [exact I|]. constructor; [exact H | exact F].
    + cbn. f_equal. exact C.
Qed.

Lemma emits_callEmbeddingAPI texts :
  (0 < List.length texts <= batchSize)%nat ->
  emits embedding_event (S maxRetries) (callEmbeddingAPI env texts 0).
Proof.
  intros H w r w' E.
  destruct (callEmbeddingAPI_log env texts w) as (k & Hk & Hlog).
  rewrite E in Hlog. cbn [snd] in Hlog.
  destruct (retries_log_events texts k 0 H) as [F C].
  exists (EmbeddingsCreate texts :: retries_log texts 0 k).
  split; [exact Hlog|]. split; [constructor; assumption|].
  cbn. unfold requests_of in C. rewrite C. lia.
Qed.

Lemma emits_attach_embeddings data : forall batch index,
  emits embedding_event 0 (attach_embeddings batch index data).
Proof.
  intros batch index w r w' E. apply attach_embeddings_ok in E.
  destruct E as [-> _]. apply logs_only_refl.
Qed.

Lemma emits_processBatch batch :
  (0 < List.length batch <= batchSize)%nat ->
  emits embedding_event (S maxRetries) (processBatch env batch).
Proof.
  intros H. unfold processBatch.
  apply (emits_weaken _ (S maxRetries + 0 + 0)); [lia|].
  apply emits_try_catch; [|intros e; apply emits_throw].
  apply emits_bind; [|intros a; apply emits_attach_embeddings].
  apply emits_callEmbeddingAPI. rewrite length_map. exact H.
Qed.

Lemma emits_processIndividually : forall chunks,
  emits embedding_event (S maxRetries * List.length chunks) (processIndividually env chunks).
Proof.
  induction chunks as [|chunk chunks IH]; cbn [processIndividually].
  - apply emits_ret.
  - apply (emits_weaken _ ((S maxRetries + 0 + 0) + (S maxRetries * List.length chunks + 0)));
      [cbn [List.length]; lia|].
    apply emits_bind.
    + apply emits_try_catch; [|intros e; apply emits_ret].
      apply emits_bind.
      * apply emits_callEmbeddingAPI. cbn. unfold batchSize. lia.
      * intros response. destruct (nth_error response 0); [|apply emits_throw].
        apply (emits_bind _ 0 0); [apply emits_delay | intros _; apply emits_ret].
    + intros result. apply emits_bind; [exact IH | intros more; apply emits_ret].
Qed.

Lemma emits_embed_batches : forall batches,
  Forall (fun b => (0 < List.length b <= batchSize)%nat) batches ->
  emits embedding_event
        (S maxRetries * (List.length batches + List.length (List.concat batches)))
        (embed_batches env batches).
Proof.
  induction 1 as [|batch rest Hb _ IH]; cbn [embed_batches].
  - apply emits_ret.
  - apply (emits_weaken _
             (((S maxRetries + (0 + 0)) + S maxRetries * List.length batch)
              + (S maxRetries * (List.length rest + List.length (List.concat rest)) + 0))).
    { cbn [List.length List.concat]. rewrite length_app. lia. }
    apply emits_bind.
    + apply emits_try_catch; [|intros e; apply emits_processIndividually].
      apply emits_bind; [apply emits_processBatch; exact Hb|].
      intros batchResults. apply emits_bind; [|intros _; apply emits_ret].
      destruct rest; [apply emits_ret | apply emits_delay].
    + intros results. apply emits_bind; [exact IH | intros more; apply emits_ret].
Qed.

(** [generateEmbeddings] touches nothing but the log.  Every request it
    sends carries between 1 and 100 texts, and for [n] valid chunks it
    sends at most four requests per batch and, for the batches that
    failed, four more per chunk. *)
Theorem generateEmbeddings_requests (chunks : list Chunk) (w : World) :
  let n := List.length (validateChunks chunks) in
  exists added,
    snd (generateEmbeddings env chunks w) = set_log (log w ++ added) w /\
    Forall embedding_event added /\
    (List.length (requests_of added) <= 4 * ((n + 99) / 100 + n))%nat.
Proof.
  cbn zeta.
  assert (H : emits embedding_event
                (4 * ((List.length (validateChunks chunks) + 99) / 100
                      + List.length (validateChunks chunks)))
                (generateEmbeddings env chunks)).
  { unfold generateEmbeddings.
    apply (emits_weaken _ ((4 * ((List.length (validateChunks chunks) + 99) / 100
                             + List.length (validateChunks chunks))) + 0)); [lia|].
    apply emits_try_catch; [|intros e; apply emits_throw].
    destruct chunks as [|c cs]; [eapply emits_weaken; [|apply emits_throw]; lia|].
    destruct (createBatches_fuel_shape batchSize
                (List.length (validateChunks (c :: cs))) (validateChunks (c :: cs)))
      as (Hshape & Hcount & _); [unfold batchSize; lia | lia |].
    eapply emits_weaken; [|apply emits_embed_batches; exact Hshape].
    fold (createBatches (validateChunks (c :: cs)) batchSize).
    fold (createBatches (validateChunks (c :: cs)) batchSize) in Hcount.
    rewrite concat_createBatches, Hcount. unfold maxRetries, batchSize.
    replace (List.length (validateChunks (c :: cs)) + 100 - 1)%nat
      with (List.length (validateChunks (c :: cs)) + 99)%nat by lia.
    lia. }
  destruct (generateEmbeddings env chunks w) as [r w'] eqn:E.
  apply H in E. exact E.
Qed.

(** Only an empty list makes the embedding stage fail, and it does so
    before any request, with the prefix of the message doubled by the
    wrapper of the pipeline.  A list of blank chunks is no failure: it
    yields no entry, without a request. *)
Theorem generateEmbeddings_fails_on_empty_only (chunks : list Chunk) (videoId : string)
        (w : World) :
  (chunks = [] ->
   generateEmbeddings env chunks w
   = (Throw "Embedding generation failed: No chunks provided for embedding generation", w) /\
   processing_generateEmbeddings env chunks videoId w
   = (Throw "Embedding generation failed: Embedding generation failed: No chunks provided for embedding generation", w)) /\
  (chunks <> [] ->
   exists results w',
     generateEmbeddings env chunks w = (Ok results, w') /\
     processing_generateEmbeddings env chunks videoId w = (Ok results, w')) /\
  (chunks <> [] -> validateChunks chunks = [] ->
   generateEmbeddings env chunks w = (Ok [], w)).
Proof.
  split; [|split].
  - intros ->. split; reflexivity.
  - intros Hne. destruct (generateEmbeddings_total env chunks w Hne) as (results & w' & E & _).
    exists results, w'. split; [exact E|].
    unfold processing_generateEmbeddings, try_catch. rewrite E. reflexivity.
  - intros Hne Hblank. unfold generateEmbeddings, try_catch.
    destruct chunks as [|c cs]; [congruence|]. rewrite Hblank. reflexivity.
Qed.

(** The embedding of a question is asked for once: a blank question is
    refused before any request, and a request that fails is not sent
    again. *)
Theorem generateQueryEmbedding_single_request (query : string) (w : World) :
  (trim query = "" ->
   generateQueryEmbedding env query w
   = (Throw "Query embedding failed: Invalid query for embedding", w)) /\
  (trim query <> "" ->
   generateQueryEmbedding env query w
   = (match openai_embeddings env (List.length (log w)) [prepareTextForEmbedding query] with
      | Ok (e :: _) => Ok e
      | Ok [] => Throw ("Query embedding failed: " ++ undefined_embedding)
      | Throw message => Throw ("Query embedding failed: " ++ message)
      end,
      set_log (log w ++ [EmbeddingsCreate [prepareTextForEmbedding query]]) w)).
Proof.
  unfold generateQueryEmbedding, try_catch. split.
  - intros H. rewrite H. cbn [String.length Nat.eqb]. rewrite orb_true_r. reflexivity.
  - intros H.
    assert (H1 : (String.length (trim query) =? 0)%nat = false).
    { destruct (trim query); [congruence | reflexivity]. }
    assert (H2 : (String.length query =? 0)%nat = false).
    { destruct query; [exfalso; apply H; reflexivity | reflexivity]. }
    rewrite H1, H2. cbn [orb]. unfold bind, call.
    destruct (openai_embeddings env _ _) as [[|e es]|message]; reflexivity.
Qed.

End RequestFacts.

Section RetryFacts.
Import JS TextChunker Server Requests Retries.
Local Open Scope js_scope.

Variable env : Env.

(** [callEmbeddingAPI] returns the answer to the last request it sent:
    the first answer that is no error, among four requests at most, or
    else the error of the fourth. *)
Theorem callEmbeddingAPI_persists (texts : list string) (w : World) :
  exists k,
    (k <= maxRetries)%nat /\
    snd (callEmbeddingAPI env texts 0 w)
    = set_log (log w ++ EmbeddingsCreate texts :: retries_log texts 0 k) w /\
    fst (callEmbeddingAPI env texts 0 w)
    = openai_embeddings env (List.length (log w) + 2 * k) texts /\
    (forall e, fst (callEmbeddingAPI env texts 0 w) = Throw e -> k = maxRetries) /\
    (forall j, (j < k)%nat ->
               exists e, openai_embeddings env (List.length (log w) + 2 * j) texts = Throw e).
Proof. apply (callEmbeddingAPI_left_run env texts maxRetries 0%nat w). reflexivity. Qed.

Lemma upsertVectors_left_run vectors : forall left retryCount w,
  (retryCount + left = pinecone_maxRetries)%nat ->
  exists k,
    (k <= left)%nat /\
    log (snd (upsertVectors_left env left vectors retryCount w))
    = (log w ++ PineconeUpsert vectors :: upsert_retries vectors retryCount k) /\
    fst (upsertVectors_left env left vectors retryCount w)
    = pinecone_upsert env (List.length (log w) + 2 * k) vectors /\
    (forall e, fst (upsertVectors_left env left vectors retryCount w) = Throw e -> k = left) /\
    (forall j, (j < k)%nat ->
               exists e, pinecone_upsert env (List.length (log w) + 2 * j) vectors = Throw e) /\
    pinecone_vectors (snd (upsertVectors_left env left vectors retryCount w))
    = after_upsert vectors (fst (upsertVectors_left env left vectors retryCount w))
                   (pinecone_vectors w) /\
    pinecone_index (snd (upsertVectors_left env left vectors retryCount w)) = pinecone_index w.
Proof.
  induction left as [|left IH]; intros retryCount w Hsum;
    cbn [upsertVectors_left]; unfold try_catch, bind, call, modify.
  - exists 0%nat.
    replace (List.length (log w) + 2 * 0)%nat with (List.length (log w)) by lia.
    replace (retryCount <? pinecone_maxRetries)%nat with false
      by (symmetry; apply Nat.ltb_ge; lia).
    destruct (pinecone_upsert env (List.length (log w)) vectors) as [[]|error] eqn:E;
      cbn [fst snd upsert_retries];
      (split; [lia|]); (split; [reflexivity|]); (split; [reflexivity|]);
      (split; [intros; reflexivity|]); (split; [intros j Hj; lia|]);
      (split; reflexivity).
  - replace (retryCount <? pinecone_maxRetries)%nat with true
      by (symmetry; apply Nat.ltb_lt; lia).
    destruct (pinecone_upsert env (List.length (log w)) vectors) as [[]|error] eqn:E.
    + exists 0%nat.
      replace (List.length (log w) + 2 * 0)%nat with (List.length (log w)) by lia.
      rewrite E. cbn [fst snd upsert_retries].
      (split; [lia|]); (split; [reflexivity|]); (split; [reflexivity|]);
      (split; [discriminate|]); (split; [intros j Hj; lia|]);
      (split; reflexivity).
    + unfold delay, emit, call.
      set (w2 := set_log (log (set_log (log w ++ [PineconeUpsert vectors]) w)
                            ++ [Delay (pinecone_retryDelay * 2 ^ N.of_nat retryCount)])
                   (set_log (log w ++ [PineconeUpsert vectors]) w)).
      destruct (IH (S retryCount) w2 ltac:(lia))
        as (k & Hk & Hw & Hr & Hthrow & Hprev & Hvec & Hidx).
      assert (Hlen : List.length (log w2) = (List.length (log w) + 2)%nat).
      { unfold w2. rewrite !log_set_log, !length_app. cbn. lia. }
      exists (S k). split; [lia|].
      destruct (upsertVectors_left env left vectors (S retryCount) w2) as [r w3].
      cbn [fst snd] in *. split; [|split; [|split; [|split; [|split]]]].
      * rewrite Hw. unfold w2. rewrite !log_set_log, <- !app_assoc. reflexivity.
      * rewrite Hr, Hlen. f_equal. lia.
      * intros e He. rewrite (Hthrow e He). reflexivity.
      * intros j Hj. destruct j as [|j].
        -- exists error. rewrite Nat.add_0_r. exact E.
        -- destruct (Hprev j ltac:(lia)) as (e & He). exists e.
           rewrite Hlen in He. rewrite <- He. f_equal. lia.
      * exact Hvec.
      * exact Hidx.
Qed.

(** [upsertVectors] sends the batch up to four times, after delays of
    1000, 2000 and 4000 milliseconds, and returns the answer to the
    last attempt; the batch is in the index when that answer is no
    error, and the index is as it was otherwise. *)
Theorem upsertVectors_backoff (vectors : list Vector) (w : World) :
  upsert_retries vectors 0 3
  = [ Delay 1000; PineconeUpsert vectors; Delay 2000; PineconeUpsert vectors;
      Delay 4000; PineconeUpsert vectors ] /\
  exists k,
    (k <= pinecone_maxRetries)%nat /\
    log (snd (upsertVectors env vectors 0 w))
    = (log w ++ PineconeUpsert vectors :: upsert_retries vectors 0 k) /\
    fst (upsertVectors env vectors 0 w)
    = pinecone_upsert env (List.length (log w) + 2 * k) vectors /\
    (forall e, fst (upsertVectors env vectors 0 w) = Throw e -> k = pinecone_maxRetries) /\
    (forall j, (j < k)%nat ->
               exists e, pinecone_upsert env (List.length (log w) + 2 * j) vectors = Throw e) /\
    pinecone_vectors (snd (upsertVectors env vectors 0 w))
    = after_upsert vectors (fst (upsertVectors env vectors 0 w)) (pinecone_vectors w).
Proof.
  split; [reflexivity|].
  destruct (upsertVectors_left_run vectors pinecone_maxRetries 0%nat w eq_refl)
    as (k & H1 & H2 & H3 & H4 & H5 & H6 & _).
  exists k. repeat (split; [assumption|]). exact H6.
Qed.

End RetryFacts.

Section StorageFacts.
Import JS TextChunker Server Requests Retries Storage.
Local Open Scope js_scope.

Variable env : Env.

Lemma ensure_index_cases w :
  (exists w1, ensure_index env w = (Ok tt, w1) /\
              pinecone_vectors w1 = pinecone_vectors w) \/
  (exists m w1, ensure_index env w
                = (Throw ("Pinecone initialization failed: " ++ m)%string, w1) /\
                pinecone_index w = false /\
                pinecone_init env (List.length (log w)) = Throw m).
Proof.
  unfold ensure_index, bind, get.
  destruct (pinecone_index w) eqn:Hi.
  - left. eexists. split; reflexivity.
  - unfold initializeIndex, try_catch, bind, call, modify, ret, throw.
    destruct (pinecone_init env (List.length (log w))) as [[]|m] eqn:E.
    + left. eexists. split; reflexivity.
    + right. exists m. eexists. repeat split.
Qed.

Lemma vectors_from_length videoId metadata : forall validChunks t,
  List.length (vectors_from env videoId metadata t validChunks) = List.length validChunks.
Proof.
  induction validChunks as [|c rest IH]; intros t; cbn; [reflexivity|].
  rewrite IH. reflexivity.
Qed.

(** The loop over the batches always returns: a batch whose upsert has
    failed for good is counted, and the loop goes on. *)
Lemma store_batches_total : forall batches i results w,
  exists results' w',
    store_batches env i batches results w = (Ok results', w') /\
    totalVectors results' = totalVectors results /\
    (successfulBatches results' + failedBatches results'
     = successfulBatches results + failedBatches results + List.length batches)%nat /\
    (List.length (errors results') + failedBatches results
     = List.length (errors results) + failedBatches results')%nat /\
    (upserts_fail env ->
     successfulBatches results' = successfulBatches results /\
     pinecone_vectors w' = pinecone_vectors w).
Proof.
  induction batches as [|batch rest IH]; intros i results w; cbn [store_batches].
  - exists results, w. cbn [List.length].
    split; [reflexivity|]. split; [reflexivity|]. split; [lia|]. split; [lia|].
    intros _. split; reflexivity.
  - unfold bind at 1, try_catch, bind at 1.
    destruct (upsertVectors_left_run env batch pinecone_maxRetries 0%nat w eq_refl)
      as (k & _ & _ & Hr & _ & _ & Hvec & _).
    change (upsertVectors_left env pinecone_maxRetries batch 0 w)
      with (upsertVectors env batch 0 w) in Hr, Hvec.
    destruct (upsertVectors env batch 0 w) as [[[]|e] w1] eqn:E; cbn [fst snd] in Hr, Hvec.
    + assert (Hstep : exists w2,
                 (match rest with [] => ret tt | _ :: _ => delay 500 end;;
                  ret (batch_stored results)) w1 = (Ok (batch_stored results), w2) /\
                 pinecone_vectors w2 = pinecone_vectors w1).
      { destruct rest; eexists; split; reflexivity. }
      destruct Hstep as (w2 & -> & Hv2).
      destruct (IH (S i) (batch_stored results) w2) as (r' & w' & E' & H1 & H2 & H3 & H4).
      exists r', w'. split; [exact E'|]. cbn in H1, H2, H3.
      split; [exact H1|]. split; [cbn [List.length]; lia|]. split; [lia|].
      intros Hfail. exfalso. destruct (Hfail (List.length (log w) + 2 * k)%nat batch) as (m & Hm).
      congruence.
    + unfold ret at 1.
      destruct (IH (S i) (batch_failed i e results) w1) as (r' & w' & E' & H1 & H2 & H3 & H4).
      exists r', w'. split; [exact E'|]. cbn in H1, H2, H3. rewrite length_app in H3.
      cbn in H3.
      split; [exact H1|]. split; [cbn [List.length]; lia|]. split; [lia|].
      intros Hfail. destruct (H4 Hfail) as [H5 H6]. cbn in H5.
      split; [exact H5|]. rewrite H6. exact Hvec.
Qed.

(** [storeChunks] throws in two cases only: the index cannot be
    initialised, or no chunk has a vector.  An upsert that fails never
    makes it throw: the batch is counted as failed, and the result
    accounts for every batch, even when none was stored. *)
Theorem storeChunks_accounting (videoId : string) (chunks : list EmbeddedChunk)
        (metadata : Metadata) (w : World) :
  match storeChunks env videoId chunks metadata w with
  | (Throw e, w') =>
      (pinecone_index w = false /\
       exists m, pinecone_init env (List.length (log w)) = Throw m /\
                 e = ("Pinecone storage failed: Pinecone initialization failed: " ++ m)%string) \/
      (filter has_vector chunks = [] /\
       e = "Pinecone storage failed: No valid chunks with embeddings to store")
  | (Ok results, w') =>
      let n := List.length (filter has_vector chunks) in
      (0 < n)%nat /\
      totalVectors results = n /\
      (successfulBatches results + failedBatches results = (n + 99) / 100)%nat /\
      List.length (errors results) = failedBatches results /\
      (upserts_fail env ->
       successfulBatches results = 0%nat /\ pinecone_vectors w' = pinecone_vectors w)
  end.
Proof.
  unfold storeChunks, try_catch, bind at 1.
  destruct (ensure_index_cases w) as [(w1 & -> & Hv1)|(m & w1 & -> & Hi & Hm)].
  - destruct (filter has_vector chunks) as [|c cs] eqn:Ev.
    + right. split; reflexivity.
    + rewrite <- Ev. set (valid := filter has_vector chunks).
      assert (Hn : (0 < List.length valid)%nat) by (unfold valid; rewrite Ev; cbn; lia).
      clearbody valid. clear Ev c cs.
      unfold bind. rewrite prepare_vectors_spec.
      set (vs := vectors_from env videoId metadata (List.length (log w1)) valid).
      assert (Hlen : List.length vs = List.length valid) by apply vectors_from_length.
      destruct (createBatches_fuel_shape pinecone_batchSize (List.length vs) vs)
        as (_ & Hcount & _); [unfold pinecone_batchSize; lia | lia |].
      fold (createBatches vs pinecone_batchSize) in Hcount.
      destruct (store_batches_total (createBatches vs pinecone_batchSize) 0
                  {| totalVectors := List.length vs; successfulBatches := 0;
                     failedBatches := 0; errors := [] |}
                  (set_log (log w1 ++ repeat Uuid (List.length valid)) w1))
        as (r' & w' & -> & H1 & H2 & H3 & H4).
      cbn in H1, H2, H3. cbn zeta. rewrite Hcount, Hlen in H2.
      unfold pinecone_batchSize in H2.
      replace (List.length valid + 100 - 1)%nat with (List.length valid + 99)%nat in H2 by lia.
      split; [exact Hn|]. split; [lia|]. split; [lia|]. split; [lia|].
      intros Hfail. destruct (H4 Hfail) as [H5 H6]. cbn in H5, H6.
      split; [exact H5 | rewrite H6; exact Hv1].
  - left. split; [exact Hi|]. exists m. split; [exact Hm | reflexivity].
Qed.

End StorageFacts.

Section FrameFacts.
Import JS TextChunker Server Frames.
Local Open Scope js_scope.

Variable env : Env.
Variable videoId : string.

Lemma same_rows_refl rows : Forall2 (same_row_but videoId) rows rows.
Proof. induction rows; constructor; [split; [reflexivity | intros _; reflexivity] | assumption]. Qed.

Lemma same_rows_trans r1 r2 r3 :
  Forall2 (same_row_but videoId) r1 r2 -> Forall2 (same_row_but videoId) r2 r3 ->
  Forall2 (same_row_but videoId) r1 r3.
Proof.
  intros H12. revert r3.
  induction H12 as [|a b r1 r2 [I1 K1] _ IH]; intros r3 H23;
    inversion H23 as [|b' c r2' r3' [I2 K2] H23']; subst; constructor.
  - split.
    + rewrite I2. exact I1.
    + intros Hne. rewrite K2 by (rewrite I1; exact Hne). apply K1. exact Hne.
  - apply IH. exact H23'.
Qed.

Lemma store_same_refl w : store_same w w.
Proof. repeat split. Qed.

Lemma store_same_trans w1 w2 w3 :
  store_same w1 w2 -> store_same w2 w3 -> store_same w1 w3.
Proof.
  intros (V1 & T1 & C1 & K1) (V2 & T2 & C2 & K2).
  split; [congruence|]. split; [congruence|]. split; congruence.
Qed.

Lemma still_ret {A} (a : A) : still (ret a).
Proof. intros w r w' [= <- <-]. apply store_same_refl. Qed.

Lemma still_throw {A} (e : string) : still (@throw A e).
Proof. intros w r w' [= <- <-]. apply store_same_refl. Qed.

Lemma still_get : still get.
Proof. intros w r w' [= <- <-]. apply store_same_refl. Qed.

Lemma still_bind {A B} (m : M A) (k : A -> M B) :
  still m -> (forall a, still (k a)) -> still (bind m k).
Proof.
  intros Hm Hk w r w'. unfold bind.
  destruct (m w) as [[a|e] w1] eqn:E; apply Hm in E.
  - intros H. apply Hk in H. eapply store_same_trans; eassumption.
  - intros [= <- <-]. exact E.
Qed.

Lemma still_try_catch {A} (m : M A) (h : string -> M A) :
  still m -> (forall e, still (h e)) -> still (try_catch m h).
Proof.
  intros Hm Hh w r w'. unfold try_catch.
  destruct (m w) as [[a|e] w1] eqn:E; apply Hm in E.
  - intros [= <- <-]. exact E.
  - intros H. apply Hh in H. eapply store_same_trans; eassumption.
Qed.

Lemma still_call {A} (e : Event) (answer : nat -> Result A) : still (call e answer).
Proof. intros w r w' [= <- <-]. repeat split. Qed.

Lemma still_modify (f : World -> World) :
  (forall w, store_same w (f w)) -> still (modify f).
Proof. intros Hf w r w' [= <- <-]. apply Hf. Qed.

Lemma store_same_set_index b w : store_same w (set_index b w).
Proof. repeat split. Qed.

Lemma store_same_set_vectors vs w : store_same w (set_vectors vs w).
Proof. repeat split. Qed.

Lemma update_rows (f : Video -> Video) rows :
  (forall v, video_id (f v) = video_id v) ->
  Forall2 (same_row_but videoId) rows
          (map (fun v => if String.eqb (video_id v) videoId then f v else v) rows).
Proof.
  intros Hf. induction rows as [|v rows IH]; cbn [map]; constructor; [|exact IH].
  destruct (String.eqb_spec (video_id v) videoId) as [E|E].
  - split; [apply Hf | intros Hne; contradiction].
  - split; [reflexivity | intros _; reflexivity].
Qed.

(** One step of a proof that a computation leaves the record store
    alone. *)
Ltac still_step :=
  first
    [ match goal with H : _ |- still _ => apply H end
    | apply still_ret | apply still_throw | apply still_get
    | apply still_bind | apply still_try_catch
    | apply still_call
    | apply still_modify; intros ?;
      first [ apply store_same_set_index | apply store_same_set_vectors ]
    | match goal with
      | |- forall _, _ => intros ?
      | |- still (match ?x with _ => _ end) => destruct x
      | |- still (if ?b then _ else _) => destruct b
      | |- still (let _ := _ in _) => cbn zeta
      end ].

Ltac still_all := repeat still_step.

Lemma still_delay ms : still (delay ms).
Proof. unfold delay, emit. still_all. Qed.

Lemma still_callEmbeddingAPI_left texts : forall left retryCount,
  still (callEmbeddingAPI_left env left texts retryCount).
Proof.
  induction left as [|left IH]; intros retryCount; cbn [callEmbeddingAPI_left];
    pose proof still_delay; still_all.
Qed.

Lemma still_attach_embeddings data : forall batch index,
  still (attach_embeddings batch index data).
Proof.
  induction batch as [|chunk batch IH]; intros index; cbn [attach_embeddings]; still_all.
Qed.

Lemma still_processBatch batch : still (processBatch env batch).
Proof.
  unfold processBatch, callEmbeddingAPI.
  pose proof still_callEmbeddingAPI_left. pose proof still_attach_embeddings. still_all.
Qed.

Lemma still_processIndividually : forall chunks,
  still (processIndividually env chunks).
Proof.
  induction chunks as [|chunk chunks IH]; cbn [processIndividually];
    unfold callEmbeddingAPI;
    pose proof still_callEmbeddingAPI_left; pose proof still_delay; still_all.
Qed.

Lemma still_embed_batches : forall batches, still (embed_batches env batches).
Proof.
  induction batches as [|batch rest IH]; cbn [embed_batches];
    pose proof still_processBatch; pose proof still_processIndividually;
    pose proof still_delay; still_all.
Qed.

Lemma still_generateEmbeddings chunks : still (generateEmbeddings env chunks).
Proof. unfold generateEmbeddings. pose proof still_embed_batches. still_all. Qed.

Lemma still_generateQueryEmbedding query : still (generateQueryEmbedding env query).
Proof. unfold generateQueryEmbedding. still_all. Qed.

Lemma still_initializeIndex : still (initializeIndex env).
Proof. unfold initializeIndex. still_all. Qed.

Lemma still_ensure_index : still (ensure_index env).
Proof. unfold ensure_index. pose proof still_initializeIndex. still_all. Qed.

Lemma still_upsertVectors_left vectors : forall left retryCount,
  still (upsertVectors_left env left vectors retryCount).
Proof.
  induction left as [|left IH]; intros retryCount; cbn [upsertVectors_left];
    pose proof still_delay; still_all.
Qed.

Lemma still_prepare_vectors vid metadata : forall validChunks,
  still (prepare_vectors env vid metadata validChunks).
Proof.
  induction validChunks as [|chunk rest IH]; cbn [prepare_vectors]; still_all.
Qed.

Lemma still_store_batches : forall batches i results,
  still (store_batches env i batches results).
Proof.
  induction batches as [|batch rest IH]; intros i results; cbn [store_batches];
    unfold upsertVectors; pose proof still_upsertVectors_left; pose proof still_delay;
    still_all.
Qed.

Lemma still_storeChunks vid chunks metadata :
  still (storeChunks env vid chunks metadata).
Proof.
  unfold storeChunks.
  pose proof still_ensure_index. pose proof still_prepare_vectors.
  pose proof still_store_batches. still_all.
Qed.

Lemma still_searchSimilar qe vid topK minScore :
  still (searchSimilar env qe vid topK minScore).
Proof. unfold searchSimilar. pose proof still_ensure_index. still_all. Qed.

Lemma still_deleteVideoVectors vid : still (deleteVideoVectors env vid).
Proof. unfold deleteVideoVectors. pose proof still_ensure_index. still_all. Qed.

Lemma still_cleanup audioPath originalPath : still (cleanup audioPath originalPath).
Proof. unfold cleanup, emit. still_all. Qed.

Lemma still_extractAudio filePath : still (extractAudio env filePath videoId).
Proof. unfold extractAudio. still_all. Qed.

Lemma still_transcribeAudio audioPath : still (transcribeAudio env audioPath videoId).
Proof. unfold transcribeAudio. still_all. Qed.

Lemma still_storeInPinecone chunks metadata :
  still (storeInPinecone env videoId chunks metadata).
Proof.
  unfold storeInPinecone.
  pose proof still_initializeIndex. pose proof still_storeChunks. still_all.
Qed.

Lemma still_processing_generateEmbeddings chunks :
  still (processing_generateEmbeddings env chunks videoId).
Proof. unfold processing_generateEmbeddings. pose proof still_generateEmbeddings. still_all. Qed.

Lemma still_generateAIResponse message context videoData :
  still (generateAIResponse env message context videoData).
Proof. unfold generateAIResponse. still_all. Qed.

Lemma still_generateRAGResponse message vid videoData :
  still (generateRAGResponse env message vid videoData).
Proof.
  unfold generateRAGResponse, answer_from.
  pose proof still_generateQueryEmbedding. pose proof still_searchSimilar.
  pose proof still_generateAIResponse. still_all.
Qed.

End FrameFacts.

Section SuccessFacts.
Import JS TextChunker Server Frames Storage.
Local Open Scope js_scope.

Variable env : Env.

Lemma bind_inv {A B} (m : M A) (k : A -> M B) w b w' :
  bind m k w = (Ok b, w') -> exists a w1, m w = (Ok a, w1) /\ k a w1 = (Ok b, w').
Proof.
  unfold bind. destruct (m w) as [[a|e] w1]; [|discriminate].
  intros H. exists a, w1. split; [reflexivity | exact H].
Qed.

Lemma rethrow_inv {A} (m : M A) (prefix : string) w a w' :
  try_catch m (fun error => throw (prefix ++ error)) w = (Ok a, w') -> m w = (Ok a, w').
Proof.
  unfold try_catch, throw. destruct (m w) as [[a0|e] w1]; [|discriminate].
  intros H. exact H.
Qed.

(** What [saveToDatabase] leaves when it returns: one more transcript,
    and one more row per chunk, none of them marked as embedded. *)
Lemma saveToDatabase_ok videoId transcriptionResult chunks w w' :
  saveToDatabase env videoId transcriptionResult chunks w = (Ok tt, w') ->
  videos w' = videos w /\
  chat_conversations w' = chat_conversations w /\
  transcripts w' = transcripts w ++ [transcript_row videoId transcriptionResult w] /\
  text_chunks w'
  = text_chunks w ++ map (chunk_row videoId (List.length (transcripts w))) chunks.
Proof.
  unfold saveToDatabase, try_catch, bind, call, get, modify, throw.
  destruct (db_insert_transcript env (List.length (log w))) as [m|]; [discriminate|].
  cbn [log set_log set_transcripts transcripts].
  destruct (db_insert_chunks env _) as [m|]; [discriminate|].
  intros [= <-]. repeat split.
Qed.

Lemma completed_rows videoId (rows : list Video) v :
  In v (map (fun v => if String.eqb (video_id v) videoId
                      then apply_status COMPLETED 100 None v else v) rows) ->
  video_id v = videoId ->
  status v = ready /\ processing_stage v = COMPLETED /\ processing_progress v = 100%N.
Proof.
  intros Hv Hid. apply in_map_iff in Hv. destruct Hv as (v0 & Hv0 & _).
  destruct (String.eqb (video_id v0) videoId) eqn:E0.
  - subst v. repeat split.
  - subst v. apply String.eqb_neq in E0. contradiction.
Qed.

Lemma updateProcessingStatus_run videoId stage progress errorMessage w :
  updateProcessingStatus videoId stage progress errorMessage w
  = (Ok tt, update_video videoId (apply_status stage progress errorMessage) w).
Proof. reflexivity. Qed.

Lemma update_video_rows videoId stage progress errorMessage w :
  Forall2 (same_row_but videoId) (videos w)
          (videos (update_video videoId (apply_status stage progress errorMessage) w)).
Proof. apply update_rows. intros v. reflexivity. Qed.

Lemma has_vector_has_embedding c : has_vector c = true -> has_embedding c = true.
Proof. unfold has_vector, has_embedding. destruct (embedding c) as [[|]|]; congruence. Qed.

Lemma filter_nonempty_length {A} (p q : A -> bool) (l : list A) :
  (forall x, p x = true -> q x = true) -> filter p l <> [] ->
  (1 <= List.length (filter q l))%nat.
Proof.
  intros Hpq Hne. induction l as [|x l IH]; [exfalso; apply Hne; reflexivity|].
  cbn [filter] in *. destruct (p x) eqn:Hp.
  - rewrite (Hpq x Hp). cbn. lia.
  - destruct (q x); cbn; [lia | apply IH; exact Hne].
Qed.

Lemma storeChunks_ok_valid videoId chunks metadata w results w' :
  storeChunks env videoId chunks metadata w = (Ok results, w') ->
  filter has_vector chunks <> [].
Proof.
  unfold storeChunks, try_catch, bind at 1.
  destruct (ensure_index env w) as [[[]|e] w1]; [|discriminate].
  destruct (filter has_vector chunks); [discriminate|]. intros _. discriminate.
Qed.

(** The stages after the extraction of the audio, when they all
    return. *)
Lemma processFile_stages_ok filePath metadata videoId audioPath w result w' :
  processFile_stages env filePath metadata videoId audioPath w = (Ok result, w') ->
  Forall2 (same_row_but videoId) (videos w) (videos w') /\
  (forall v, In v (videos w') -> video_id v = videoId ->
             status v = ready /\ processing_stage v = COMPLETED /\
             processing_progress v = 100%N) /\
  (exists row rows,
      transcripts w' = transcripts w ++ [row] /\ tr_video_id row = videoId /\
      text_chunks w' = text_chunks w ++ rows /\
      List.length rows = pr_chunks_total result /\
      Forall (fun r => cr_video_id r = videoId /\ cr_transcript_id r = tr_id row /\
                       cr_has_embedding r = false) rows) /\
  chat_conversations w' = chat_conversations w /\
  pr_videoId result = videoId /\
  (1 <= pr_chunks_withEmbeddings result <= pr_chunks_total result)%nat.
Proof.
  unfold processFile_stages. intros H.
  apply bind_inv in H. destruct H as ([] & w1 & E1 & H).
  apply bind_inv in H. destruct H as (tr & w2 & E2 & H).
  apply bind_inv in H. destruct H as ([] & w3 & E3 & H).
  apply bind_inv in H. destruct H as (chunks & w4 & E4 & H).
  apply bind_inv in H. destruct H as ([] & w5 & E5 & H).
  apply bind_inv in H. destruct H as (emb & w6 & E6 & H).
  apply bind_inv in H. destruct H as ([] & w7 & E7 & H).
  apply bind_inv in H. destruct H as (sr & w8 & E8 & H).
  apply bind_inv in H. destruct H as ([] & w9 & E9 & H).
  apply bind_inv in H. destruct H as ([] & w10 & E10 & H).
  apply bind_inv in H. destruct H as ([] & w11 & E11 & H).
  injection H as <- <-.
  rewrite updateProcessingStatus_run in E1, E3, E5, E7, E10.
  injection E1 as <-. injection E3 as <-. injection E5 as <-. injection E7 as <-.
  injection E10 as <-.
  injection E4 as _ <-.
  apply still_transcribeAudio in E2. destruct E2 as (V2 & T2 & C2 & K2).
  pose proof (still_processing_generateEmbeddings env videoId _ _ _ _ E6) as S6.
  destruct S6 as (V6 & T6 & C6 & K6).
  pose proof (still_storeInPinecone env videoId _ _ _ _ _ E8) as S8.
  destruct S8 as (V8 & T8 & C8 & K8).
  apply saveToDatabase_ok in E9. destruct E9 as (V9 & K9 & T9 & C9).
  apply still_cleanup in E11. destruct E11 as (V11 & T11 & C11 & K11).
  cbn [videos transcripts text_chunks chat_conversations update_video set_videos] in *.
  (* the embedding stage *)
  unfold processing_generateEmbeddings in E6. apply rethrow_inv in E6.
  assert (Hne : chunks <> []).
  { intros ->. discriminate E6. }
  match type of E6 with
  | generateEmbeddings _ _ ?w0 = _ =>
      destruct (generateEmbeddings_total env chunks w0 Hne) as (emb' & w6' & E6' & Hemb & _)
  end.
  rewrite E6 in E6'. injection E6' as <- <-.
  (* the storage stage *)
  unfold storeInPinecone in E8. apply rethrow_inv in E8.
  apply bind_inv in E8. destruct E8 as ([] & w7' & _ & E8).
  apply storeChunks_ok_valid in E8.
  split; [|split; [|split; [|split; [|split]]]].
  - rewrite V11, V9, V8, V6, V2.
    repeat (eapply same_rows_trans; [|apply update_rows; intros v; reflexivity]).
    apply same_rows_refl.
  - intros v Hv Hid. rewrite V11 in Hv. eapply completed_rows; eassumption.
  - exists (transcript_row videoId tr w8),
           (map (chunk_row videoId (List.length (transcripts w8)))
                (map seen_by_validation chunks)).
    split; [rewrite T11, T9, T8, T6, T2; reflexivity|].
    split; [reflexivity|].
    split; [rewrite C11, C9, C8, C6, C2; reflexivity|].
    split; [cbn [pr_chunks_total]; rewrite !length_map; reflexivity|].
    apply Forall_forall. intros r Hr. apply in_map_iff in Hr.
    destruct Hr as (c & <- & _). repeat split.
  - rewrite K11, K9, K8, K6, K2. reflexivity.
  - reflexivity.
  - cbn [pr_chunks_withEmbeddings pr_chunks_total]. split.
    + apply (filter_nonempty_length has_vector); [apply has_vector_has_embedding | exact E8].
    + eapply Nat.le_trans; [apply filter_length_le|].
      rewrite <- (length_map ec_chunk), Hemb. unfold validateChunks.
      rewrite length_map. apply filter_length_le.
Qed.

(** The whole pipeline, when it returns. *)
Lemma processFile_ok_rows
      (filePath : string) (metadata : Metadata) (videoId : string)
      (w : World) (result : ProcessingResult) (w' : World) :
  processFile env filePath metadata videoId w = (Ok result, w') ->
  Forall2 (same_row_but videoId) (videos w) (videos w') /\
  (forall v, In v (videos w') -> video_id v = videoId ->
             status v = ready /\ processing_stage v = COMPLETED /\
             processing_progress v = 100%N) /\
  (exists row rows,
      transcripts w' = transcripts w ++ [row] /\ tr_video_id row = videoId /\
      text_chunks w' = text_chunks w ++ rows /\
      List.length rows = pr_chunks_total result /\
      Forall (fun r => cr_video_id r = videoId /\ cr_transcript_id r = tr_id row /\
                       cr_has_embedding r = false) rows) /\
  chat_conversations w' = chat_conversations w /\
  pr_videoId result = videoId /\
  (1 <= pr_chunks_withEmbeddings result <= pr_chunks_total result)%nat.
Proof.
  unfold processFile, bind at 1, attempt at 1. intros H.
  destruct ((updateProcessingStatus videoId EXTRACTING_AUDIO 10 None;;
             extractAudio env filePath videoId) w) as [[audioPath|m1] w1] eqn:E1.
  - unfold bind at 1, attempt at 1 in H.
    destruct (processFile_stages env filePath metadata videoId audioPath w1)
      as [[result'|m2] w2] eqn:E2.
    + injection H as <- <-.
      apply bind_inv in E1. destruct E1 as ([] & w0 & E0 & E1).
      rewrite updateProcessingStatus_run in E0. injection E0 as <-.
      apply still_extractAudio in E1. destruct E1 as (V1 & T1 & C1 & K1).
      apply processFile_stages_ok in E2.
      destruct E2 as (H1 & H2 & (row & rows & H3 & H4 & H5 & H6 & H7) & H8 & H9 & H10).
      cbn [videos transcripts text_chunks chat_conversations update_video set_videos] in *.
      split; [|split; [|split; [|split; [|split]]]]; try assumption.
      * eapply same_rows_trans; [|exact H1]. rewrite V1.
        apply update_rows. intros v. reflexivity.
      * exists row, rows. rewrite H3, H5, T1, C1. repeat split; assumption.
      * rewrite H8, K1. reflexivity.
    + exfalso. revert H. unfold processFile_failed, bind, updateProcessingStatus, modify.
      destruct (cleanup audioPath filePath _) as [[[]|e] w3]; discriminate.
  - exfalso. revert H. unfold processFile_failed, bind, updateProcessingStatus, modify, ret.
    discriminate.
Qed.

(** When [processFile] returns, the recording is ready, with stage
    [COMPLETED] and progress 100; the rows of the other recordings are
    as they were; there is one more transcript and one more row per
    chunk, none of them marked as embedded; the exchanges are as they
    were; and at least one chunk has an embedding. *)
Theorem processFile_success
        (filePath : string) (metadata : Metadata) (videoId : string)
        (w : World) (result : ProcessingResult) (w' : World) :
  processFile env filePath metadata videoId w = (Ok result, w') ->
  Forall2 (same_row_but videoId) (videos w) (videos w') /\
  (forall v, In v (videos w') -> video_id v = videoId ->
             status v = ready /\ processing_stage v = COMPLETED /\
             processing_progress v = 100%N) /\
  (exists row rows,
      transcripts w' = transcripts w ++ [row] /\ tr_video_id row = videoId /\
      text_chunks w' = text_chunks w ++ rows /\
      List.length rows = pr_chunks_total result /\
      Forall (fun r => cr_video_id r = videoId /\ cr_transcript_id r = tr_id row /\
                       cr_has_embedding r = false) rows) /\
  chat_conversations w' = chat_conversations w /\
  pr_videoId result = videoId /\
  (1 <= pr_chunks_withEmbeddings result <= pr_chunks_total result)%nat.
Proof. apply processFile_ok_rows. Qed.

(** [saveToDatabase] is not atomic: when the insertion of the chunks is
    refused, the transcript that was inserted before it stays, without
    any chunk.  In every case the rows of the recordings and the
    exchanges are as they were. *)
Theorem saveToDatabase_not_atomic
        (videoId : string) (transcriptionResult : Transcription) (chunks : list Chunk)
        (w : World) :
  let run := saveToDatabase env videoId transcriptionResult chunks w in
  videos (snd run) = videos w /\
  chat_conversations (snd run) = chat_conversations w /\
  match fst run with
  | Ok _ =>
      transcripts (snd run) = transcripts w ++ [transcript_row videoId transcriptionResult w] /\
      text_chunks (snd run)
      = text_chunks w ++ map (chunk_row videoId (List.length (transcripts w))) chunks
  | Throw e =>
      text_chunks (snd run) = text_chunks w /\
      ((exists m, e = ("Database save failed: Transcript save failed: " ++ m)%string /\
                  transcripts (snd run) = transcripts w) \/
       (exists m, e = ("Database save failed: Chunks save failed: " ++ m)%string /\
                  transcripts (snd run)
                  = transcripts w ++ [transcript_row videoId transcriptionResult w]))
  end.
Proof.
  cbn zeta. unfold saveToDatabase, try_catch, bind, call, get, modify, throw.
  destruct (db_insert_transcript env (List.length (log w))) as [m|].
  - cbn. split; [reflexivity|]. split; [reflexivity|]. split; [reflexivity|].
    left. exists m. split; reflexivity.
  - cbn [log set_log set_transcripts transcripts].
    destruct (db_insert_chunks env _) as [m|].
    + cbn. split; [reflexivity|]. split; [reflexivity|]. split; [reflexivity|].
      right. exists m. split; reflexivity.
    + cbn. repeat split.
Qed.

End SuccessFacts.

Lemma processFile_success_witness :
  exists result,
    fst PipelineExamples.calm_run = Server.Ok result /\
    Forall2 (Frames.same_row_but "vid") (Server.videos ServerExamples.uploaded_world)
            (Server.videos (snd PipelineExamples.calm_run)) /\
    (forall v, In v (Server.videos (snd PipelineExamples.calm_run)) ->
               Server.video_id v = "vid" ->
               Server.status v = Server.ready /\
               Server.processing_stage v = Server.COMPLETED /\
               Server.processing_progress v = 100%N) /\
    (exists row rows,
        Server.transcripts (snd PipelineExamples.calm_run)
        = Server.transcripts ServerExamples.uploaded_world ++ [row] /\
        Server.tr_video_id row = "vid" /\
        Server.text_chunks (snd PipelineExamples.calm_run)
        = Server.text_chunks ServerExamples.uploaded_world ++ rows /\
        List.length rows = Server.pr_chunks_total result /\
        Forall (fun r => Server.cr_video_id r = "vid" /\
                         Server.cr_transcript_id r = Server.tr_id row /\
                         Server.cr_has_embedding r = false) rows) /\
    Server.chat_conversations (snd PipelineExamples.calm_run)
    = Server.chat_conversations ServerExamples.uploaded_world /\
    Server.pr_videoId result = "vid" /\
    (1 <= Server.pr_chunks_withEmbeddings result <= Server.pr_chunks_total result)%nat.
Proof.
  eexists. split; [reflexivity|].
  apply (processFile_success ServerExamples.calm "temp/in.mp4" ServerExamples.some_metadata
           "vid" ServerExamples.uploaded_world).
  vm_compute. reflexivity.
Defined.

Section RouteFacts.
Import JS TextChunker Chat Server Frames Routes.
Local Open Scope js_scope.

Variable env : Env.
Variable selectError insertError videoError : option string.

Lemma saveConversation_cases videoId userMessage aiResponse w :
  (exists e, saveConversation selectError insertError videoId userMessage aiResponse w
             = (Throw e, w)) \/
  saveConversation selectError insertError videoId userMessage aiResponse w
  = (Ok tt, set_chat_conversations
              (chat_conversations w ++ [exchange videoId userMessage aiResponse]) w).
Proof.
  unfold saveConversation, ensureChatConversationsTable, try_catch, bind, modify, throw, ret.
  destruct selectError as [code|]; [destruct (String.eqb code "42P01")|];
    destruct insertError as [m|];
    first [right; reflexivity | left; eexists; reflexivity].
Qed.

(** The chat route always answers.  An answer with code 400 or 404, or
    the answer that the recording is not ready, is given before any
    call to the outside: the world is left as it was.  An answer with
    code 500 leaves the record store as it was: no exchange is saved. *)
Theorem chat_refusals (body : ChatBody) (w : World) :
  exists reply w',
    chat env selectError insertError videoError body w = (Ok reply, w') /\
    match reply with
    | ChatAnswer _ _ _ => True
    | ChatNotReady _ _ => w' = w
    | ChatError code _ => if (code =? 500)%nat then store_same w w' else w' = w
    end.
Proof.
  unfold chat, try_catch.
  destruct (body_message body) as [message|]; [|eexists _, _; split; reflexivity].
  destruct ((String.length message =? 0)%nat || (String.length (trim message) =? 0)%nat);
    [eexists _, _; split; reflexivity|].
  destruct (body_videoId body) as [|c videoId]; [eexists _, _; split; reflexivity|].
  unfold bind at 1, get.
  destruct videoError as [m|];
    [eexists _, _; split; [reflexivity | apply store_same_refl]|].
  destruct (find _ (videos w)) as [videoData|]; [|eexists _, _; split; reflexivity].
  destruct (status videoData); try (eexists _, _; split; reflexivity).
  unfold bind at 1.
  destruct (generateRAGResponse env message (String c videoId) _ w) as [[response|e] w1] eqn:E;
    apply still_generateRAGResponse in E.
  - unfold bind.
    destruct (saveConversation_cases (String c videoId) message response w1) as [(e & ->)| ->].
    + eexists _, _. split; [reflexivity|]. exact E.
    + eexists _, _. split; [reflexivity|]. exact I.
  - eexists _, _. split; [reflexivity|]. exact E.
Qed.

(** The chat route answers a question only for a recording that is
    ready, and then it saves exactly one exchange, with the question
    and the text of the answer; the other tables are as they were. *)
Theorem chat_answer (body : ChatBody) (w : World)
        (response : string) (timestamps : list Citation) (sources : list Source)
        (w' : World) :
  chat env selectError insertError videoError body w
  = (Ok (ChatAnswer response timestamps sources), w') ->
  exists message videoData,
    body_message body = Some message /\ trim message <> "" /\
    In videoData (videos w) /\ video_id videoData = body_videoId body /\
    status videoData = ready /\
    chat_conversations w'
    = chat_conversations w
        ++ [ {| cv_video_id := body_videoId body; cv_user_message := message;
                cv_ai_response := response |} ] /\
    videos w' = videos w /\ transcripts w' = transcripts w /\
    text_chunks w' = text_chunks w.
Proof.
  unfold chat, try_catch.
  destruct (body_message body) as [message|]; [|discriminate].
  destruct (String.length message =? 0)%nat eqn:H1; [discriminate|].
  destruct (String.length (trim message) =? 0)%nat eqn:H2; [discriminate|].
  cbn [orb].
  destruct (body_videoId body) as [|c videoId]; [discriminate|].
  unfold bind at 1, get.
  destruct videoError as [m|]; [discriminate|].
  destruct (find _ (videos w)) as [videoData|] eqn:Hfind; [|discriminate].
  destruct (status videoData) eqn:Hst; try discriminate.
  unfold bind at 1.
  destruct (generateRAGResponse env message (String c videoId) _ w) as [[rag|e] w1] eqn:E;
    [|discriminate].
  apply still_generateRAGResponse in E. destruct E as (V & T & C & K).
  unfold bind.
  destruct (saveConversation_cases (String c videoId) message rag w1) as [(e & ->)| ->];
    [discriminate|].
  intros [= <- _ _ <-].
  apply find_some in Hfind. destruct Hfind as [Hin Hid]. apply String.eqb_eq in Hid.
  exists message, videoData.
  split; [reflexivity|].
  split; [intros Ht; rewrite Ht in H2; discriminate|].
  split; [exact Hin|]. split; [exact Hid|]. split; [exact Hst|].
  cbn. rewrite K, V, T, C. repeat split.
Qed.

Lemma ensure_index_vectors w r w1 :
  ensure_index env w = (r, w1) -> pinecone_vectors w1 = pinecone_vectors w.
Proof.
  unfold ensure_index, bind, get.
  destruct (pinecone_index w); [intros [= <- <-]; reflexivity|].
  unfold initializeIndex, try_catch, bind, call, modify, ret, throw.
  destruct (pinecone_init env (List.length (log w))) as [[]|m]; intros [= <- <-]; reflexivity.
Qed.

Lemma deleteVideoVectors_throw videoId w e w1 :
  deleteVideoVectors env videoId w = (Throw e, w1) ->
  pinecone_vectors w1 = pinecone_vectors w.
Proof.
  unfold deleteVideoVectors, try_catch, bind at 1.
  destruct (ensure_index env w) as [[[]|e0] w2] eqn:E0; apply ensure_index_vectors in E0.
  - unfold bind, call, modify, ret, throw.
    destruct (pinecone_deleteMany env _ videoId) as [[]|e']; intros [= <- <-].
    cbn. exact E0.
  - unfold throw. intros [= <- <-]. exact E0.
Qed.

Variable deleteError : option string.

Lemma deleteVideo_run videoId w :
  deleteVideo env deleteError videoId w =
  let w1 := snd (deleteVideoVectors env videoId w) in
  match deleteError with
  | None =>
      (Ok {| http_status := 200; http_success := true;
             http_message := "Video deleted successfully" |},
       when (deletes env Videos w1) (delete_cascade videoId) w1)
  | Some message =>
      (Ok {| http_status := 500; http_success := false;
             http_message := "Database deletion failed: " ++ message |},
       w1)
  end.
Proof.
  unfold deleteVideo, try_catch, bind at 1 2.
  destruct (deleteVideoVectors env videoId w) as [[b|e] w1]; cbn [snd];
    unfold ret at 1; cbv beta iota;
    (destruct deleteError; [reflexivity|]);
    unfold bind; rewrite delete_rows_run; reflexivity.
Qed.

(** The deletion of a recording is not atomic, and its answer does not
    tell whether the rows are gone.  The vectors are deleted first, and
    the record store is asked after, whatever the index answered: the
    vectors stay when the index refuses.  When the record store reports
    an error, the route answers 500 and the rows stay, while the vectors
    may be gone already.  When it reports none, the route answers 200:
    the row of the recording and the rows that hang on it, or on its
    transcript, are gone if the record store performed the deletion, and
    every row stays if it did not, as when no policy of the table allows
    the deletion. *)
Theorem deleteVideo_not_atomic (videoId : string) (w : World) :
  let vectors := deleteVideoVectors env videoId w in
  let run := deleteVideo env deleteError videoId w in
  pinecone_vectors (snd run) = pinecone_vectors (snd vectors) /\
  (forall e, fst vectors = Throw e -> pinecone_vectors (snd run) = pinecone_vectors w) /\
  (forall b, fst vectors = Ok b ->
             forall v, In v (pinecone_vectors (snd run)) -> vec_videoId v <> videoId) /\
  match deleteError with
  | None =>
      fst run = Ok {| http_status := 200; http_success := true;
                      http_message := "Video deleted successfully" |} /\
      if deletes env Videos (snd vectors)
      then
        videos (snd run) = filter (other_video video_id videoId) (videos w) /\
        transcripts (snd run) = filter (other_video tr_video_id videoId) (transcripts w) /\
        text_chunks (snd run) = chunks_left videoId true true w /\
        (forall c, In c (text_chunks (snd run)) <->
                   In c (text_chunks w) /\ cr_video_id c <> videoId /\
                   forall t, In t (transcripts w) -> tr_video_id t = videoId ->
                             tr_id t <> cr_transcript_id c) /\
        chat_conversations (snd run)
        = filter (other_video cv_video_id videoId) (chat_conversations w) /\
        (forall v, In v (videos (snd run)) -> video_id v <> videoId)
      else store_same w (snd run)
  | Some message =>
      fst run = Ok {| http_status := 500; http_success := false;
                      http_message := "Database deletion failed: " ++ message |} /\
      store_same w (snd run)
  end.
Proof.
  cbn zeta. rewrite deleteVideo_run. cbn zeta.
  destruct (deleteVideoVectors env videoId w) as [rd w1] eqn:Ed.
  destruct (deleteVideoVectors_frame env _ _ _ _ Ed) as (V & T & C & K & Hdel).
  assert (Hthrow : forall e, rd = Throw e -> pinecone_vectors w1 = pinecone_vectors w).
  { intros e ->. eapply deleteVideoVectors_throw. exact Ed. }
  cbn [fst snd].
  destruct deleteError as [message|]; cbn [fst snd].
  - split; [reflexivity|]. split; [exact Hthrow|]. split; [exact Hdel|].
    split; [reflexivity|]. repeat split; assumption.
  - unfold when. destruct (deletes env Videos w1).
    + split; [reflexivity|]. split; [exact Hthrow|]. split; [exact Hdel|].
      assert (L : chunks_left videoId true true w1 = chunks_left videoId true true w)
        by (unfold chunks_left; rewrite T, C; reflexivity).
      cbn. rewrite V, T, K, L. repeat (split; [reflexivity|]).
      split.
      { intros c. rewrite chunks_left_in. split.
        - intros (H1 & H2 & H3). split; [exact H1|]. split; [exact (H2 eq_refl)|].
          exact (H3 eq_refl).
        - intros (H1 & H2 & H3). split; [exact H1|]. split; intros _; assumption. }
      split; [reflexivity|].
      intros v Hv. apply filter_In in Hv. destruct Hv as [_ Hv].
      apply negb_true_iff in Hv. apply String.eqb_neq. exact Hv.
    + split; [reflexivity|]. split; [exact Hthrow|]. split; [exact Hdel|].
      split; [reflexivity|]. repeat split; assumption.
Qed.

End RouteFacts.

Lemma chat_answer_witness :
  exists message videoData,
    Routes.body_message RouteExamples.other_question = Some message /\
    JS.trim message <> "" /\
    In videoData (Server.videos ServerExamples.failed_world) /\
    Server.video_id videoData = Routes.body_videoId RouteExamples.other_question /\
    Server.status videoData = Server.ready /\
    Server.chat_conversations
      (snd (Routes.chat ServerExamples.calm None None None RouteExamples.other_question
              ServerExamples.failed_world))
    = Server.chat_conversations ServerExamples.failed_world
        ++ [ {| Server.cv_video_id := Routes.body_videoId RouteExamples.other_question;
                Server.cv_user_message := message;
                Server.cv_ai_response := Server.not_found_text |} ] /\
    Server.videos
      (snd (Routes.chat ServerExamples.calm None None None RouteExamples.other_question
              ServerExamples.failed_world))
    = Server.videos ServerExamples.failed_world /\
    Server.transcripts
      (snd (Routes.chat ServerExamples.calm None None None RouteExamples.other_question
              ServerExamples.failed_world))
    = Server.transcripts ServerExamples.failed_world /\
    Server.text_chunks
      (snd (Routes.chat ServerExamples.calm None None None RouteExamples.other_question
              ServerExamples.failed_world))
    = Server.text_chunks ServerExamples.failed_world.
Proof.
  apply (chat_answer ServerExamples.calm None None None RouteExamples.other_question
           ServerExamples.failed_world Server.not_found_text [] []).
  vm_compute. reflexivity.
Defined.

Section StatsFacts.
Import JS TextChunker Server Routes Stats.

Lemma count_status_sum counts video :
  (count_ready (count_status counts video) + count_processing (count_status counts video)
   + count_failed (count_status counts video)
   = count_ready counts + count_processing counts + count_failed counts + 1)%nat /\
  count_total (count_status counts video) = count_total counts.
Proof.
  unfold count_status.
  destruct (status video);
    cbn [count_ready count_processing count_failed count_total]; split; lia.
Qed.

Lemma fold_count_status rows : forall counts,
  let result := fold_left count_status rows counts in
  (count_ready result + count_processing result + count_failed result
   = count_ready counts + count_processing counts + count_failed counts
     + List.length rows)%nat /\
  count_total result = count_total counts.
Proof.
  induction rows as [|v rows IH]; intros counts; cbn zeta; cbn [fold_left List.length].
  - split; [lia | reflexivity].
  - destruct (IH (count_status counts v)) as [H1 H2].
    destruct (count_status_sum counts v) as [H3 H4].
    cbn zeta in H1, H2. split; [lia | congruence].
Qed.

Lemma stage_eqb_refl s : stage_eqb s s = true.
Proof. destruct s; reflexivity. Qed.

Lemma count_stage_sum f video : stage_sum (count_stage f video) = (stage_sum f + 1)%nat.
Proof.
  unfold stage_sum, count_stage, all_stages.
  destruct (processing_stage video); cbn; lia.
Qed.

Lemma fold_count_stage rows : forall f,
  stage_sum (fold_left count_stage rows f) = (stage_sum f + List.length rows)%nat.
Proof.
  induction rows as [|v rows IH]; intros f; cbn [fold_left List.length]; [lia|].
  rewrite IH, count_stage_sum. lia.
Qed.

Lemma fold_count_ready rows : forall counts,
  count_ready (fold_left count_status rows counts)
  = (count_ready counts
     + List.length (filter (fun v => match status v with
                                     | ready => true
                                     | _ => false
                                     end) rows))%nat.
Proof.
  induction rows as [|v rows IH]; intros counts; cbn [fold_left filter List.length].
  - lia.
  - rewrite IH. unfold count_status. destruct (status v); cbn; lia.
Qed.

(** The statistics account for every recording once: the counts by
    status add up to the total, and so do the counts by stage. *)
Theorem stats_add_up (rows : list Video) :
  count_total (statusCounts rows) = List.length rows /\
  (count_ready (statusCounts rows) + count_processing (statusCounts rows)
   + count_failed (statusCounts rows) = List.length rows)%nat /\
  list_sum (map (byStage rows) all_stages) = List.length rows /\
  count_ready (statusCounts rows)
  = List.length (filter (fun v => match status v with ready => true | _ => false end) rows).
Proof.
  unfold statusCounts, byStage.
  destruct (fold_count_status rows
              {| count_total := List.length rows; count_ready := 0;
                 count_processing := 0; count_failed := 0 |}) as [H1 H2].
  cbn zeta in H1, H2. cbn in H1, H2.
  split; [exact H2|]. split; [lia|]. split.
  - pose proof (fold_count_stage rows (fun _ => 0%nat)) as H. unfold stage_sum in H.
    rewrite H. reflexivity.
  - rewrite fold_count_ready. reflexivity.
Qed.

End StatsFacts.

Section TokenFacts.
Import JS TextChunker Server Costs Words TextShape.

Lemma trimEnd_blank s : trimEnd s = "" -> all_chars is_space s = true.
Proof.
  destruct s as [|c r]; [reflexivity|]. rewrite trimEnd_cons.
  destruct (all_chars is_space (String c r)); [reflexivity | discriminate].
Qed.

Lemma trimEnd_idem s : trimEnd (trimEnd s) = trimEnd s.
Proof.
  induction s as [|c r IH]; [reflexivity|]. rewrite trimEnd_cons.
  destruct (all_chars is_space (String c r)) eqn:H; [reflexivity|].
  rewrite trimEnd_cons, IH.
  destruct (all_chars is_space (String c (trimEnd r))) eqn:H'; [|reflexivity].
  exfalso. cbn [all_chars] in H, H'. apply andb_prop in H'. destruct H' as [Hc Hr].
  rewrite Hc in H. cbn [andb] in H.
  assert (E : trimEnd r = "").
  { destruct r as [|x r']; [reflexivity|]. rewrite trimEnd_cons in *.
    destruct (all_chars is_space (String x r')) eqn:Hx; [reflexivity|].
    cbn [all_chars] in Hr, Hx. apply andb_prop in Hr. destruct Hr as [Hx1 Hx2].
    rewrite Hx1 in Hx. cbn [andb] in Hx.
    clear -Hx Hx2 H IH. exfalso.
    (* the white space of [trimEnd r'] would be all of [r'] *)
    assert (G : forall t, all_chars is_space (trimEnd t) = true -> all_chars is_space t = true).
    { induction t as [|y t IHt]; [reflexivity|]. rewrite trimEnd_cons.
      destruct (all_chars is_space (String y t)) eqn:Hy; [reflexivity|].
      cbn [all_chars] in *. intros G. apply andb_prop in G. destruct G as [G1 G2].
      rewrite G1, (IHt G2) in Hy. discriminate. }
    rewrite (G r' Hx2) in Hx. discriminate. }
  apply trimEnd_blank in E. congruence.
Qed.

(** In a text with no white space at either end, every piece of
    [split(/\s+/)] is a word. *)
Lemma split_ws_from_full s : forall in_run cur,
  trimEnd s = s ->
  (s = "" -> cur <> "") ->
  (in_run = false -> cur = "" -> starts_with_space s = false) ->
  forallb nonempty (split_ws_from in_run cur s) = true.
Proof.
  induction s as [|c r IH]; intros in_run cur Hend Hcur Hstart; cbn [split_ws_from].
  - cbn [forallb]. rewrite nonempty_rev, andb_true_r.
    destruct cur; [exfalso; apply Hcur; reflexivity | reflexivity].
  - rewrite trimEnd_cons in Hend.
    destruct (all_chars is_space (String c r)) eqn:Hall; [discriminate|].
    injection Hend as Hend.
    assert (Hr : is_space c = true -> r <> "").
    { intros Hc ->. cbn in Hall. rewrite Hc in Hall. discriminate. }
    destruct (is_space c) eqn:Hc.
    + destruct in_run.
      * apply IH; [exact Hend | | discriminate].
        intros E. exfalso. exact (Hr eq_refl E).
      * cbn [forallb]. rewrite nonempty_rev.
        assert (Hne : nonempty cur = true).
        { destruct cur; [|reflexivity]. specialize (Hstart eq_refl eq_refl).
          cbn in Hstart. congruence. }
        rewrite Hne. cbn [andb]. apply IH; [exact Hend | | discriminate].
        intros E. exfalso. exact (Hr eq_refl E).
    + apply IH; [exact Hend | discriminate | discriminate].
Qed.

Lemma filter_all {A} (p : A -> bool) (l : list A) : forallb p l = true -> filter p l = l.
Proof.
  induction l as [|x l IH]; [reflexivity|]. cbn. intros H.
  apply andb_prop in H. destruct H as [Hx Hl]. rewrite Hx, (IH Hl). reflexivity.
Qed.

Lemma split_ws_pieces t :
  (word_starts false t <= List.length (split_ws t))%nat.
Proof.
  unfold split_ws.
  pose proof (split_ws_from_words t false "" ltac:(discriminate)) as H. cbn in H.
  rewrite <- H. apply filter_length_le.
Qed.

Lemma tokens_at_least chunk : (countWords (text chunk) <= tokens chunk)%nat.
Proof.
  unfold tokens. rewrite countWords_word_starts.
  destruct (text chunk) as [|c r] eqn:E; [cbn; lia|]. apply split_ws_pieces.
Qed.

Lemma tokens_trimmed chunk piece :
  text chunk = trim piece -> tokens chunk = countWords (text chunk).
Proof.
  intros E. unfold tokens. rewrite countWords_word_starts.
  destruct (text chunk) as [|c r] eqn:Et; [reflexivity|].
  unfold split_ws.
  pose proof (split_ws_from_words (String c r) false "" ltac:(discriminate)) as H.
  cbn [nonempty String.length Nat.ltb Nat.leb Nat.add] in H. rewrite <- H.
  rewrite filter_all; [reflexivity|].
  apply split_ws_from_full.
  - rewrite E. unfold trim. apply trimEnd_idem.
  - discriminate.
  - intros _ _. rewrite E. apply trim_no_space.
Qed.

Lemma totalTokens_sum chunks : totalTokens chunks = list_sum (map tokens chunks).
Proof.
  unfold totalTokens.
  assert (G : forall acc, fold_left (fun sum chunk => (sum + tokens chunk)%nat) chunks acc
                          = (acc + list_sum (map tokens chunks))%nat).
  { induction chunks as [|c cs IH]; intros acc; cbn [fold_left map].
    - unfold list_sum. cbn [fold_right]. lia.
    - rewrite IH. unfold list_sum. cbn [fold_right]. lia. }
  apply G.
Qed.

(** The embedding cost is estimated from the pieces between white
    space: never fewer than the words of the chunks, and for the chunks
    of the chunker exactly the words it has counted. *)
Theorem estimateCost_counts_words
        (splitText : nat -> nat -> string -> list string)
        (fullText : string) (segments : list Segment) (options : Options) :
  (forall chunks,
      (list_sum (map (fun c => countWords (text c)) chunks) <= totalTokens chunks)%nat) /\
  totalTokens (chunkText splitText fullText segments options)
  = list_sum (map wordCount (chunkText splitText fullText segments options)) /\
  (forall chunks, estimatedCostUSD chunks
                  == inject_Z (Z.of_nat (totalTokens chunks)) * (2 # 100000000)).
Proof.
  split; [|split].
  - intros chunks. rewrite totalTokens_sum.
    induction chunks as [|c cs IH]; cbn [map]; unfold list_sum in *; cbn [fold_right];
      [lia|].
    pose proof (tokens_at_least c). lia.
  - rewrite totalTokens_sum.
    destruct (chunkText_fields splitText fullText segments options) as (_ & Htexts & _ & Hwc).
    cbn zeta in Htexts, Hwc.
    revert Htexts Hwc.
    generalize (splitText (or_default (opt_chunkSize options) defaultChunkSize)
                  (or_default (opt_overlap options) defaultOverlap) fullText).
    generalize (chunkText splitText fullText segments options).
    induction l as [|c cs IH]; intros pieces Htexts Hwc; [reflexivity|].
    destruct pieces as [|p ps]; [discriminate|].
    cbn [map] in Htexts. injection Htexts as Ht Hts.
    apply Forall_cons_iff in Hwc. destruct Hwc as [[Hw _] Hwc].
    cbn [map]. unfold list_sum in *. cbn [fold_right].
    rewrite (IH ps Hts Hwc), (tokens_trimmed c p Ht), Hw. reflexivity.
  - intros chunks. unfold estimatedCostUSD. field.
Qed.

End TokenFacts.

Section AvailabilityFacts.
Import JS TextChunker Chat Server Frames Routes.
Local Open Scope js_scope.

Variable env : Env.
Variable selectError insertError : option string.

Lemma find_row videoId (rows : list Video) :
  (exists v, In v rows /\ video_id v = videoId) ->
  exists v, find (fun v => String.eqb (video_id v) videoId) rows = Some v /\
            In v rows /\ video_id v = videoId.
Proof.
  intros (v & Hv & Hid).
  destruct (find (fun v => String.eqb (video_id v) videoId) rows) as [v'|] eqn:E.
  - exists v'. split; [reflexivity|]. apply find_some in E. destruct E as [Hin Heq].
    split; [exact Hin | apply String.eqb_eq; exact Heq].
  - exfalso. apply (find_none _ _ E) in Hv. rewrite Hid, String.eqb_refl in Hv. discriminate.
Qed.

Lemma same_ids_row videoId (rows rows' : list Video) :
  map video_id rows' = map video_id rows ->
  (exists v, In v rows /\ video_id v = videoId) ->
  exists v, In v rows' /\ video_id v = videoId.
Proof.
  intros Hmap (v & Hv & Hid).
  assert (H : In videoId (map video_id rows')).
  { rewrite Hmap, <- Hid. apply in_map. exact Hv. }
  apply in_map_iff in H. destruct H as (v' & Hid' & Hv'). exists v'. split; assumption.
Qed.

(** The chat route on a question that passes the checks, for a
    recording that has a row. *)
Lemma chat_found message videoId w videoData :
  videoId <> "" -> trim message <> "" ->
  find (fun v => String.eqb (video_id v) videoId) (videos w) = Some videoData ->
  chat env selectError insertError None
       {| body_message := Some message; body_videoId := videoId |} w =
  match status videoData with
  | ready =>
      try_catch
        (response <- generateRAGResponse env message videoId
                       {| vd_title := video_title videoData;
                          vd_subject := video_subject videoData |};;
         saveConversation selectError insertError videoId message response;;
         ret (ChatAnswer (rag_text response) (rag_timestamps response)
                         (rag_sources response)))
        (fun error => ret (ChatError 500 error)) w
  | s =>
      (Ok (ChatNotReady ("Video is not ready for chat. Current status: " ++ status_name s)
                        (processing_stage videoData)), w)
  end.
Proof.
  intros Hid Hmsg Hfind. unfold chat. cbn [body_message body_videoId].
  assert (H1 : (String.length (trim message) =? 0)%nat = false).
  { destruct (trim message); [congruence | reflexivity]. }
  assert (H2 : (String.length message =? 0)%nat = false).
  { destruct message; [exfalso; apply Hmsg; reflexivity | reflexivity]. }
  rewrite H1, H2. cbn [orb].
  destruct videoId as [|c videoId]; [congruence|].
  unfold try_catch, bind at 1, get. rewrite Hfind.
  destruct (status videoData); reflexivity.
Qed.

Lemma chat_ready message videoId w videoData :
  videoId <> "" -> trim message <> "" ->
  find (fun v => String.eqb (video_id v) videoId) (videos w) = Some videoData ->
  status videoData = ready ->
  exists reply w',
    chat env selectError insertError None
         {| body_message := Some message; body_videoId := videoId |} w = (Ok reply, w') /\
    match reply with
    | ChatAnswer _ _ _ => True
    | ChatError code _ => code = 500%nat
    | ChatNotReady _ _ => False
    end.
Proof.
  intros Hid Hmsg Hfind Hst. rewrite (chat_found _ _ _ _ Hid Hmsg Hfind), Hst.
  unfold try_catch, bind at 1.
  destruct (generateRAGResponse env message videoId _ w) as [[response|e] w1].
  - unfold bind.
    destruct (saveConversation_cases selectError insertError videoId message response w1)
      as [(e & ->)| ->]; eexists _, _; (split; [reflexivity|]); [reflexivity | exact I].
  - eexists _, _. split; reflexivity.
Qed.

Lemma reprocess_accepted_only videoId w :
  fst (reprocess env videoId w) = Ok response_200 ->
  exists video,
    find (fun v => String.eqb (video_id v) videoId) (videos w) = Some video /\
    status video <> processing.
Proof.
  destruct (find (fun v => String.eqb (video_id v) videoId) (videos w)) as [video|] eqn:Hfind.
  - intros H. exists video. split; [reflexivity|]. intros Hst.
    rewrite (reprocess_rejected env _ _ _ Hfind Hst) in H. discriminate H.
  - unfold reprocess, try_catch, bind at 1, get. rewrite Hfind. discriminate.
Qed.

Lemma find_updated videoId (f : Video -> Video) (rows : list Video) video :
  (forall v, video_id (f v) = video_id v) ->
  find (fun v => String.eqb (video_id v) videoId) rows = Some video ->
  find (fun v => String.eqb (video_id v) videoId)
       (map (fun v => if String.eqb (video_id v) videoId then f v else v) rows)
  = Some (f video).
Proof.
  intros Hf. induction rows as [|v rows IH]; [discriminate|]. cbn [find map].
  destruct (String.eqb (video_id v) videoId) eqn:E.
  - intros [= <-]. rewrite Hf, E. reflexivity.
  - rewrite E. exact IH.
Qed.

(** After a reprocess request has been accepted, the recording cannot
    be asked about: the chat route answers that it is not ready, and
    stays at that, since the reprocess route does not start the
    pipeline. *)
Theorem chat_after_reprocess (message videoId : string) (w : World) :
  videoId <> "" -> trim message <> "" ->
  fst (reprocess env videoId w) = Ok response_200 ->
  chat env selectError insertError None
       {| body_message := Some message; body_videoId := videoId |}
       (snd (reprocess env videoId w))
  = (Ok (ChatNotReady "Video is not ready for chat. Current status: processing" UPLOADING),
     snd (reprocess env videoId w)).
Proof.
  intros Hid Hmsg H. destruct (reprocess_accepted_only _ _ H) as (video & Hfind & Hst).
  rewrite (reprocess_accepted env _ _ _ Hfind Hst). cbn [snd].
  assert (Hfind' : find (fun v => String.eqb (video_id v) videoId)
                        (videos (reprocessed env videoId w)) = Some (reset_status video)).
  { destruct (reprocessed_tables env videoId w) as (_ & _ & _ & V & _).
    cbn zeta in V. rewrite V.
    apply find_updated; [intros v; reflexivity | exact Hfind]. }
  rewrite (chat_found _ _ _ _ Hid Hmsg Hfind'). reflexivity.
Qed.

(** The rows of the recording after a run of the pipeline that has
    thrown. *)
Lemma processFile_throw_rows filePath metadata videoId w message w' :
  processFile env filePath metadata videoId w = (Throw message, w') ->
  map video_id (videos w') = map video_id (videos w) /\
  forall v, In v (videos w') -> video_id v = videoId ->
            status v = failed /\ processing_stage v = FAILED.
Proof.
  assert (Hend : forall audioPath inner w0,
             kept w w0 ->
             @processFile_failed ProcessingResult filePath videoId audioPath inner w0
             = (Throw message, w') ->
             map video_id (videos w') = map video_id (videos w) /\
             forall v, In v (videos w') -> video_id v = videoId ->
                       status v = failed /\ processing_stage v = FAILED).
  { intros audioPath inner w0 K0 H.
    destruct (@processFile_failed_run ProcessingResult filePath videoId audioPath inner w0)
      as (w1 & E & V & K1).
    rewrite E in H. injection H as _ <-.
    split; [apply (kept_trans _ _ _ K0 K1)|].
    intros v Hv Hid. rewrite V in Hv. apply in_map_iff in Hv. destruct Hv as (v0 & Hv0 & _).
    destruct (String.eqb (video_id v0) videoId) eqn:E0.
    - subst v. split; reflexivity.
    - subst v. apply String.eqb_neq in E0. contradiction. }
  unfold processFile, bind at 1, attempt at 1. intros H.
  destruct ((updateProcessingStatus videoId EXTRACTING_AUDIO 10 None;;
             extractAudio env filePath videoId) w) as [[audioPath|m1] w1] eqn:E1.
  - assert (K1 : kept w w1).
    { revert E1. apply keeps_bind;
        [apply keeps_updateProcessingStatus | intros _; apply keeps_extractAudio]. }
    unfold bind at 1, attempt at 1 in H.
    destruct (processFile_stages env filePath metadata videoId audioPath w1)
      as [[result|m2] w2] eqn:E2; [discriminate H|].
    apply (Hend (Some audioPath) m2 w2); [|exact H].
    eapply kept_trans; [exact K1|]. eapply keeps_processFile_stages. exact E2.
  - apply (Hend None m1 w1); [|exact H].
    revert E1. apply keeps_bind;
      [apply keeps_updateProcessingStatus | intros _; apply keeps_extractAudio].
Qed.

Lemma same_rows_ids videoId rows rows' :
  Forall2 (same_row_but videoId) rows rows' -> map video_id rows' = map video_id rows.
Proof.
  induction 1 as [|v v' rows rows' [Hid _] _ IH]; [reflexivity|].
  cbn. rewrite Hid, IH. reflexivity.
Qed.

(** A recording can be asked about after a run of the pipeline that
    has returned, and cannot after a run that has thrown: the chat
    route then answers that it is not ready, without a call to the
    outside. *)
Theorem chat_after_processFile
        (filePath : string) (metadata : Metadata) (message videoId : string)
        (w : World) (r : Result ProcessingResult) (w' : World) :
  videoId <> "" -> trim message <> "" ->
  (exists v, In v (videos w) /\ video_id v = videoId) ->
  processFile env filePath metadata videoId w = (r, w') ->
  match r with
  | Throw _ =>
      chat env selectError insertError None
           {| body_message := Some message; body_videoId := videoId |} w'
      = (Ok (ChatNotReady "Video is not ready for chat. Current status: failed" FAILED), w')
  | Ok _ =>
      exists reply w'',
        chat env selectError insertError None
             {| body_message := Some message; body_videoId := videoId |} w'
        = (Ok reply, w'') /\
        match reply with
        | ChatAnswer _ _ _ => True
        | ChatError code _ => code = 500%nat
        | ChatNotReady _ _ => False
        end
  end.
Proof.
  intros Hid Hmsg Hrow Hrun. destruct r as [result|e].
  - destruct (processFile_ok_rows env _ _ _ _ _ _ Hrun) as (Hrows & Hready & _).
    destruct (find_row videoId (videos w')) as (v & Hfind & Hin & Hv).
    { eapply same_ids_row; [|exact Hrow]. eapply same_rows_ids. exact Hrows. }
    destruct (Hready v Hin Hv) as (Hst & _).
    exact (chat_ready _ _ _ _ Hid Hmsg Hfind Hst).
  - destruct (processFile_throw_rows _ _ _ _ _ _ Hrun) as (Hids & Hfailed).
    destruct (find_row videoId (videos w')) as (v & Hfind & Hin & Hv).
    { eapply same_ids_row; [exact Hids | exact Hrow]. }
    destruct (Hfailed v Hin Hv) as (Hst & Hsg).
    rewrite (chat_found _ _ _ _ Hid Hmsg Hfind), Hst, Hsg. reflexivity.
Qed.

End AvailabilityFacts.

Lemma chat_after_reprocess_witness :
  Routes.chat ServerExamples.calm None None None RouteExamples.question
              (snd (Server.reprocess ServerExamples.calm "vid" ServerExamples.failed_world))
  = (Server.Ok (Routes.ChatNotReady "Video is not ready for chat. Current status: processing"
                                    Server.UPLOADING),
     snd (Server.reprocess ServerExamples.calm "vid" ServerExamples.failed_world)).
Proof.
  apply (chat_after_reprocess ServerExamples.calm None None "what is it?" "vid"
           ServerExamples.failed_world).
  - discriminate.
  - vm_compute. discriminate.
  - vm_compute. reflexivity.
Defined.

Lemma chat_after_processFile_witness :
  match fst PipelineExamples.calm_run with
  | Server.Throw _ =>
      Routes.chat ServerExamples.calm None None None RouteExamples.question
                  (snd PipelineExamples.calm_run)
      = (Server.Ok (Routes.ChatNotReady "Video is not ready for chat. Current status: failed"
                                        Server.FAILED),
         snd PipelineExamples.calm_run)
  | Server.Ok _ =>
      exists reply w'',
        Routes.chat ServerExamples.calm None None None RouteExamples.question
                    (snd PipelineExamples.calm_run)
        = (Server.Ok reply, w'') /\
        match reply with
        | Routes.ChatAnswer _ _ _ => True
        | Routes.ChatError code _ => code = 500%nat
        | Routes.ChatNotReady _ _ => False
        end
  end.
Proof.
  apply (chat_after_processFile ServerExamples.calm None None "temp/in.mp4"
           ServerExamples.some_metadata "what is it?" "vid" ServerExamples.uploaded_world
           (fst PipelineExamples.calm_run) (snd PipelineExamples.calm_run)).
  - discriminate.
  - vm_compute. discriminate.
  - eexists. split; [left; reflexivity | reflexivity].
  - vm_compute. reflexivity.
Defined.
